(** * Quasi-stable coloring: a shallow embedding of [quasiStableColoring.py]

    The development follows [examples/QuasiStableColoring/quasiStableColoring.py]:
    the class [ColorStatus] (per-direction bookkeeping), and the class
    [QuasiStableColoring] with its methods [split_color], [partition_matrix],
    [init_status], [update_status], [pick_witness] and [q_color].

    Numbers.  The tensors of the source hold [float32] values.  Edge weights
    and the entries of [neighbor] are modelled as exact rationals ([Qc]); the
    backing matrices [upper_base], [lower_base], [errors_base] and the scalars
    compared in [q_color] are modelled by [float32] below, which adds the two
    infinities and NaN to the rationals (the source fills [lower_base] with
    [torch.inf], and [n_colors] defaults to [np.Inf]).  Neither rounding nor
    overflow is modelled in these definitions: arithmetic on finite values
    is exact and unbounded.  A property that needs the sums of weights to
    stay in the range of [float32] says so ([in_range]), and the module
    [F32] shows what a sum that overflows does to [init_status].

    Effects.  Methods mutate [self.p] and the two [ColorStatus] objects; they
    are written in a state-and-exception monad in which a raised exception
    leaves behind whatever mutations happened before it, as in Python. *)

From Stdlib Require Import QArith Qcanon ZArith Lia Lqa.
From stdpp Require Import base numbers list.

Local Open Scope Qc_scope.

(** ** Exceptions and results *)

Inductive exn :=
  | AssertionError   (* a failed [assert] *)
  | IndexError       (* an index out of range *)
  | RuntimeError     (* a torch shape or size error *)
  | TypeError        (* indexing [None] *)
  | AttributeError   (* a method of [None] *)
  | ValueError       (* [int(nan)] *)
  | OverflowError.   (* [int(inf)] *)

(** [Fuel] is not an outcome of the program: it marks a run of the model of
    the [while] loop that was given too few iterations (see [while_loop]). *)
Inductive result (A : Type) :=
  | Ok (a : A)
  | Raise (e : exn)
  | Fuel.
Arguments Ok {A} a.
Arguments Raise {A} e.
Arguments Fuel {A}.

(** The monad: a computation over a mutable state [S]. *)
Definition M (S A : Type) : Type := S → result A * S.

Definition ret {S A} (a : A) : M S A := λ s, (Ok a, s).
Definition raise {S A} (e : exn) : M S A := λ s, (Raise e, s).
Definition bind {S A B} (m : M S A) (k : A → M S B) : M S B :=
  λ s, match m s with
       | (Ok a, s') => k a s'
       | (Raise e, s') => (Raise e, s')
       | (Fuel, s') => (Fuel, s')
       end.
Definition get {S} : M S S := λ s, (Ok s, s).
Definition put {S} (s : S) : M S unit := λ _, (Ok tt, s).
Definition modify {S} (f : S → S) : M S unit := λ s, (Ok tt, f s).
(** Lifting a pure partial operation (a torch call that may raise). *)
Definition lift {S A} (r : result A) : M S A := λ s, (r, s).
Definition from_option {A} (e : exn) (o : option A) : result A :=
  match o with Some a => Ok a | None => Raise e end.
Definition guard {S} (e : exn) (b : bool) : M S unit :=
  if b then ret tt else raise e.

(** stdpp's monad notations ([x ← m; k]) are used for [M S]. *)
Global Instance M_ret {S} : MRet (M S) := λ A, @ret S A.
Global Instance M_bind {S} : MBind (M S) := λ A B k m, @bind S A B m k.

(** ** Numbers *)

Inductive float32 :=
  | Fin (q : Qc)
  | PInf
  | NInf
  | NaN.

Definition Qc_of_nat (n : nat) : Qc := Qc_of_Z (Z.of_nat n).

Definition is_nan (x : float32) : bool :=
  match x with NaN => true | _ => false end.

(** [x - y] on tensors and scalars. *)
Definition fsub (x y : float32) : float32 :=
  match x, y with
  | NaN, _ | _, NaN => NaN
  | Fin a, Fin b => Fin (a - b)
  | Fin _, PInf => NInf
  | Fin _, NInf => PInf
  | PInf, PInf => NaN
  | PInf, _ => PInf
  | NInf, NInf => NaN
  | NInf, _ => NInf
  end.

(** [x < y]; every comparison with NaN is false. *)
Definition fltb (x y : float32) : bool :=
  match x, y with
  | NaN, _ | _, NaN => false
  | Fin a, Fin b => bool_decide (a < b)
  | _, NInf => false
  | NInf, _ => true
  | PInf, _ => false
  | Fin _, PInf => true
  end.

(** [x <= y]. *)
Definition fleb (x y : float32) : bool :=
  match x, y with
  | NaN, _ | _, NaN => false
  | Fin a, Fin b => bool_decide (a ≤ b)
  | NInf, _ => true
  | _, PInf => true
  | _, NInf => false
  | PInf, _ => false
  end.

(** [x > y] and [x >= y] are the mirrored comparisons. *)
Definition fgtb (x y : float32) : bool := fltb y x.
Definition fgeb (x y : float32) : bool := fleb y x.

(** Python's builtin [max(a, b)] and [min(a, b)]: the first argument wins
    unless the second is strictly better. *)
Definition py_max (a b : float32) : float32 := if fgtb b a then b else a.
Definition py_min (a b : float32) : float32 := if fltb b a then b else a.

(** Python's [int(x)] on a float: truncation toward zero. *)
Definition py_int (x : float32) : result Z :=
  match x with
  | Fin q => Ok (Z.quot (Qnum (this q)) (Z.pos (Qden (this q))))
  | PInf | NInf => Raise OverflowError
  | NaN => Raise ValueError
  end.

Definition Qc_max (x y : Qc) : Qc := if decide (x ≤ y) then y else x.
Definition Qc_min (x y : Qc) : Qc := if decide (x ≤ y) then x else y.

Definition Qc_sum (l : list Qc) : Qc := foldr Qcplus 0 l.

(** ** Tensor operations *)

(** A dense matrix is a list of rows. *)
Definition mget {A} (m : list (list A)) (i j : nat) : option A :=
  m !! i ≫= (λ row, row !! j).

(** [torch.zeros((n, m))], [torch.full((n, m), x)]. *)
Definition full {A} (n m : nat) (x : A) : list (list A) :=
  replicate n (replicate m x).

(** Writing [src] over the start of [dst]. *)
Definition overlay_row {A} (src dst : list A) : list A :=
  src ++ drop (length src) dst.

(** Writing the matrix [src] over the top-left corner of [dst]. *)
Fixpoint overlay {A} (src dst : list (list A)) : list (list A) :=
  match src, dst with
  | r :: src', d :: dst' => overlay_row r d :: overlay src' dst'
  | _, _ => dst
  end.

(** The view [base[:m, :m]]. *)
Definition block {A} (m : nat) (base : list (list A)) : list (list A) :=
  take m <$> take m base.

(** [view[i, :] = vec] where [view = base[:m, :m]] and [base] is [n] by [n]:
    the view has [min m n] rows and columns, and the write goes through to
    [base].  A row outside the view raises [IndexError]; a value of another
    length raises [RuntimeError], except that a value of one element is
    broadcast along the row. *)
Definition set_row {A} (n m i : nat) (vec : list A) (base : list (list A))
  : result (list (list A)) :=
  let k := (m `min` n)%nat in
  if bool_decide (i < k)%nat
  then if bool_decide (length vec = k)
       then Ok (alter (overlay_row vec) i base)
       else match vec with
            | [x] => Ok (alter (overlay_row (replicate k x)) i base)
            | _ => Raise RuntimeError
            end
  else Raise IndexError.

(** [view[i, j] = x] where [view = base[:m, :m]]. *)
Definition set_entry {A} (n m i j : nat) (x : A) (base : list (list A))
  : result (list (list A)) :=
  if bool_decide (i < m ∧ i < n ∧ j < m ∧ j < n)%nat
  then Ok (alter (λ row, <[j := x]> row) i base)
  else Raise IndexError.

(** [e_view[:, :] = u_view - l_view] for the three views [[:m, :m]]. *)
Definition sub_block (m : nat) (u l e : list (list float32)) : list (list float32) :=
  overlay (zip_with (zip_with fsub) (block m u) (block m l)) e.

(** [t[X, :]]: the rows selected by the index tensor [X]. *)
Definition select_rows {A} (t : list (list A)) (X : list nat) : result (list (list A)) :=
  from_option IndexError (mapM (λ x, t !! x) X).

(** [t[X, j]]: the entries of column [j] in the rows selected by [X].  The
    column index is checked against the width of [t] whatever [X] selects;
    a tensor without rows does not record its width here and passes. *)
Definition gather {A} (t : list (list A)) (X : list nat) (j : nat) : result (list A) :=
  if bool_decide (Forall (λ row, j < length row)%nat t)
  then from_option IndexError (mapM (λ x, mget t x j) X)
  else Raise IndexError.

(** [torch.max(rows, dim=0)[0]] and [torch.min(rows, dim=0)[0]]: the
    reduction down each column.  It raises on a tensor without rows. *)
Definition reduce_rows (f : Qc → Qc → Qc) (rows : list (list Qc)) : result (list Qc) :=
  match rows with
  | [] => Raise IndexError
  | r :: rs => Ok (foldl (zip_with f) r rs)
  end.

(** [torch.max(vec)] and [torch.min(vec)] on a 1-d tensor. *)
Definition reduce_vec (f : Qc → Qc → Qc) (vec : list Qc) : result Qc :=
  match vec with
  | [] => Raise RuntimeError
  | x :: xs => Ok (foldl f x xs)
  end.

(** [vec.mean()]: NaN on the empty tensor; otherwise the exact quotient of
    the sum and the number of elements (in the source, its [float32]
    rounding). *)
Definition mean (vec : list Qc) : float32 :=
  match vec with
  | [] => NaN
  | _ => Fin (Qc_sum vec / Qc_of_nat (length vec))
  end.

(** [torch.argmax] prefers NaN over every number and otherwise the larger
    value; among equals the first index wins. *)
Definition better (x best : float32) : bool :=
  fltb best x || (is_nan x && negb (is_nan best)).

Fixpoint argmax_from (best_i : nat) (best : float32) (i : nat) (l : list float32) : nat :=
  match l with
  | [] => best_i
  | x :: l' =>
      if better x best then argmax_from i x (S i) l'
      else argmax_from best_i best (S i) l'
  end.

(** [torch.argmax(t)] on the flattened tensor; it raises on an empty one. *)
Definition argmax (l : list float32) : result nat :=
  match l with
  | [] => Raise IndexError
  | x :: l' => Ok (argmax_from 0 x 1 l')
  end.

(** [torch.cat((t, torch.zeros(t.size(0), 1)), dim=1)]. *)
Definition cat_zero_column (t : list (list Qc)) : list (list Qc) :=
  (λ row, row ++ [0]) <$> t.

(** [t[:, j] = vec]: a column outside [t] raises [IndexError]; a value of
    another length raises [RuntimeError], except that a value of one element
    is broadcast down the column. *)
Definition set_column (j : nat) (vec : list Qc) (t : list (list Qc))
  : result (list (list Qc)) :=
  if bool_decide (Forall (λ row, j < length row)%nat t)
  then if bool_decide (length vec = length t)
       then Ok (zip_with (λ row x, <[j := x]> row) t vec)
       else match vec with
            | [x] => Ok ((λ row, <[j := x]> row) <$> t)
            | _ => Raise RuntimeError
            end
  else Raise IndexError.

(** [arr[mask]] for a boolean mask. *)
Fixpoint mask_select {A} (arr : list A) (mask : list bool) : list A :=
  match arr, mask with
  | a :: arr', b :: mask' =>
      if b then a :: mask_select arr' mask' else mask_select arr' mask'
  | _, _ => []
  end.

(** A sparse COO tensor: its size, its index pairs and its values. *)
Record sparse_coo := mk_sparse_coo {
  coo_rows : nat;
  coo_cols : nat;
  coo_indices : list (nat * nat);
  coo_values : list Qc;
}.

(** [torch.sparse_coo_tensor(torch.stack((I, J)), V, size=(rows, cols))].
    Indices outside the size are refused here, as torch does when it checks
    the invariants of sparse tensors (what a version that does not check
    them does with such an index is not modelled).  On a partition of the
    nodes every index is inside the size; the properties below that depend
    on the outcome of this call are about such partitions. *)
Definition sparse_coo_tensor (I J : list nat) (V : list Qc) (rows cols : nat)
  : result sparse_coo :=
  if bool_decide (Forall (λ i, i < rows)%nat I ∧ Forall (λ j, j < cols)%nat J)
  then Ok (mk_sparse_coo rows cols (zip I J) V)
  else Raise RuntimeError.

(** [t.to_dense()]: the values of equal index pairs are added up. *)
Definition to_dense (t : sparse_coo) : list (list Qc) :=
  (λ k, (λ c, Qc_sum ((λ e, if decide (e.1 = (k, c)) then e.2 else 0)
                          <$> zip (coo_indices t) (coo_values t)))
        <$> seq 0 (coo_cols t))
  <$> seq 0 (coo_rows t).

(** A sparse [v] by [v] weight matrix is given by its entries. *)
Definition weight_matrix := nat → nat → Qc.

Definition transpose (w : weight_matrix) : weight_matrix := λ r c, w c r.

(** [torch.mm(w, dense)] for a [v] by [v] matrix [w] and a [v] by [cols]
    matrix [dense], with exact sums. *)
Definition mm (v cols : nat) (w : weight_matrix) (dense : list (list Qc))
  : list (list Qc) :=
  (λ r, (λ c, Qc_sum ((λ k, w r k * default 0 (mget dense k c)) <$> seq 0 v))
        <$> seq 0 cols)
  <$> seq 0 v.

(** [w[:, nodes].sum(axis=1)] on the scipy matrix: for each row, the exact
    sum of the entries in the selected columns. *)
Definition column_sums (v : nat) (w : weight_matrix) (nodes : list nat)
  : result (list Qc) :=
  if bool_decide (Forall (λ x, x < v)%nat nodes)
  then Ok ((λ r, Qc_sum (w r <$> nodes)) <$> seq 0 v)
  else Raise IndexError.

(** [for x in l: f(x)]. *)
Fixpoint for_each {S A} (l : list A) (f : A → M S unit) : M S unit :=
  match l with
  | [] => mret tt
  | x :: l' => f x;; for_each l' f
  end.

(** [enumerate(l)]. *)
Definition enumerate {A} (l : list A) : list (nat * A) := imap pair l.

(** ** class ColorStatus *)

Record ColorStatus := mkColorStatus {
  cs_v : nat;
  cs_n : nat;
  neighbor : option (list (list Qc));
  upper_base : list (list float32);
  lower_base : list (list float32);
  errors_base : list (list float32);
}.

Definition set_n (n : nat) (cs : ColorStatus) : ColorStatus :=
  mkColorStatus (cs_v cs) n (neighbor cs) (upper_base cs) (lower_base cs) (errors_base cs).
Definition set_neighbor (nb : list (list Qc)) (cs : ColorStatus) : ColorStatus :=
  mkColorStatus (cs_v cs) (cs_n cs) (Some nb) (upper_base cs) (lower_base cs) (errors_base cs).
Definition set_upper_base (u : list (list float32)) (cs : ColorStatus) : ColorStatus :=
  mkColorStatus (cs_v cs) (cs_n cs) (neighbor cs) u (lower_base cs) (errors_base cs).
Definition set_lower_base (l : list (list float32)) (cs : ColorStatus) : ColorStatus :=
  mkColorStatus (cs_v cs) (cs_n cs) (neighbor cs) (upper_base cs) l (errors_base cs).
Definition set_errors_base (e : list (list float32)) (cs : ColorStatus) : ColorStatus :=
  mkColorStatus (cs_v cs) (cs_n cs) (neighbor cs) (upper_base cs) (lower_base cs) e.

(** [ColorStatus.__init__(v, n, device)]. *)
Definition ColorStatus_init (v n : nat) : ColorStatus :=
  {| cs_v := v; cs_n := n; neighbor := None;
     upper_base := full n n (Fin 0);
     lower_base := full n n PInf;
     errors_base := full n n (Fin 0) |}.

(** [new[:m, :m] = old] where [new] is [n] by [n] and [old] is [m] by [m]:
    when [n < m] the view is smaller than [old] and the shapes differ, unless
    the one entry of [old] is broadcast to an empty view. *)
Definition assign_block {A} (n m : nat) (old new : list (list A))
  : result (list (list A)) :=
  if bool_decide (m ≤ n)%nat then Ok (overlay old new)
  else if bool_decide (m = 1 ∧ n = 0)%nat then Ok new
  else Raise RuntimeError.

(** [ColorStatus.resize(n)]. *)
Definition resize (n : nat) : M ColorStatus unit :=
  cs ← get;
  let m := cs_n cs in
  modify (set_n n);;
  new_upper_base ← lift (assign_block n m (upper_base cs) (full n n (Fin 0)));
  new_lower_base ← lift (assign_block n m (lower_base cs) (full n n PInf));
  new_errors_base ← lift (assign_block n m (errors_base cs) (full n n (Fin 0)));
  modify (set_upper_base new_upper_base);;
  modify (set_lower_base new_lower_base);;
  modify (set_errors_base new_errors_base).

(** The tensor behind [color_status.neighbor]; [None] cannot be indexed. *)
Definition get_neighbor : M ColorStatus (list (list Qc)) :=
  cs ← get; lift (from_option TypeError (neighbor cs)).

(** [upper_deg[i, :] = torch.max(color_status.neighbor[X, :], dim=0)[0]]
    followed by
    [lower_deg[i, :] = torch.min(color_status.neighbor[X, :], dim=0)[0]],
    where [upper_deg] and [lower_deg] are the views [[:m, :m]]. *)
Definition refresh_row (m i : nat) (X : list nat) : M ColorStatus unit :=
  nb ← get_neighbor;
  rows ← lift (select_rows nb X);
  hi ← lift (reduce_rows Qc_max rows);
  cs ← get;
  u ← lift (set_row (cs_n cs) m i (Fin <$> hi) (upper_base cs));
  modify (set_upper_base u);;
  nb ← get_neighbor;
  rows ← lift (select_rows nb X);
  lo ← lift (reduce_rows Qc_min rows);
  cs ← get;
  l ← lift (set_row (cs_n cs) m i (Fin <$> lo) (lower_base cs));
  modify (set_lower_base l).

(** [upper_deg[i, j] = torch.max(color_status.neighbor[X, j])] followed by
    [lower_deg[i, j] = torch.min(color_status.neighbor[X, j])]. *)
Definition refresh_entry (m i j : nat) (X : list nat) : M ColorStatus unit :=
  nb ← get_neighbor;
  vec ← lift (gather nb X j);
  hi ← lift (reduce_vec Qc_max vec);
  cs ← get;
  u ← lift (set_entry (cs_n cs) m i j (Fin hi) (upper_base cs));
  modify (set_upper_base u);;
  nb ← get_neighbor;
  vec ← lift (gather nb X j);
  lo ← lift (reduce_vec Qc_min vec);
  cs ← get;
  l ← lift (set_entry (cs_n cs) m i j (Fin lo) (lower_base cs));
  modify (set_lower_base l).

(** [errors[:, :] = upper_deg - lower_deg] on the views [[:m, :m]]. *)
Definition refresh_errors (m : nat) : M ColorStatus unit :=
  modify (λ cs, set_errors_base
                  (sub_block m (upper_base cs) (lower_base cs) (errors_base cs)) cs).

(** ** class QuasiStableColoring *)

Record Graph := mkGraph {
  num_nodes : nat;
  adj_t : weight_matrix;
}.

(** The fields of the object that change: the partition and the error. *)
Record QuasiStableColoring := mkQSC {
  p : list (list nat);
  q_error : float32;
}.

(** The state of a call of [q_color]: the object and the two statuses held
    in the locals [color_status_out] and [color_status_in]. *)
Record Frame := mkFrame {
  self : QuasiStableColoring;
  color_status_out : ColorStatus;
  color_status_in : ColorStatus;
}.

(** Which status a method was handed. *)
Inductive dir := Out | In.

Definition color_status (d : dir) (s : Frame) : ColorStatus :=
  match d with Out => color_status_out s | In => color_status_in s end.

Definition set_color_status (d : dir) (cs : ColorStatus) (s : Frame) : Frame :=
  match d with
  | Out => mkFrame (self s) cs (color_status_in s)
  | In => mkFrame (self s) (color_status_out s) cs
  end.

Definition set_p (P : list (list nat)) (s : Frame) : Frame :=
  mkFrame (mkQSC P (q_error (self s))) (color_status_out s) (color_status_in s).

Definition set_q_error (e : float32) (s : Frame) : Frame :=
  mkFrame (mkQSC (p (self s)) e) (color_status_out s) (color_status_in s).

(** Running a computation on one of the two statuses. *)
Definition zoom {A} (d : dir) (m : M ColorStatus A) : M Frame A :=
  λ s, let r := m (color_status d s) in (r.1, set_color_status d r.2 s).

Definition BASE_MATRIX_SIZE : nat := 128.

(** The options of [q_color]. *)
Record Config := mkConfig {
  weighting : bool;
  n_colors : float32;
  q_errors : float32;
}.

Section Engine.

(** [self.G] and [self.v] are set once in [__init__] and never changed. *)
Variable G : Graph.
Abbreviation v := (num_nodes G).

(** [QuasiStableColoring.__init__]: one color, [torch.arange(G.num_nodes)]. *)
Definition QuasiStableColoring_init : QuasiStableColoring :=
  {| p := [seq 0 v]; q_error := PInf |}.

(** [split_color(color_status, witness_i, witness_j, threshold)]. *)
Definition split_color (d : dir) (witness_i witness_j : nat) (threshold : float32)
  : M Frame unit :=
  s ← get;
  arr ← lift (from_option IndexError (p (self s) !! witness_i));
  nb ← lift (from_option TypeError (neighbor (color_status d s)));
  split ← lift (gather nb arr witness_j);
  let split_1 := (λ x, fgtb (Fin x) threshold) <$> split in
  let retain := mask_select arr (negb <$> split_1) in
  let eject := mask_select arr split_1 in
  guard AssertionError (bool_decide (length retain ≠ 0%nat));;
  guard AssertionError (bool_decide (length eject ≠ 0%nat));;
  modify (set_p (<[witness_i := retain]> (p (self s)) ++ [eject])).

(** [partition_matrix()]: the sparse node-by-color membership matrix.  The
    index and value buffers have [v] slots, filled in the order of the
    colors; unused slots keep their zeros. *)
Definition partition_matrix : M Frame sparse_coo :=
  s ← get;
  let entries := mjoin (imap (λ c X, (λ x, (x, c)) <$> X) (p (self s))) in
  guard IndexError (bool_decide (length entries ≤ v)%nat);;
  let pad := (v - length entries)%nat in
  let I := entries.*1 ++ replicate pad 0%nat in
  let J := entries.*2 ++ replicate pad 0%nat in
  let V := replicate (length entries) 1 ++ replicate pad 0 in
  lift (sparse_coo_tensor I J V v (length (p (self s)))).

(** [init_status(color_status, weights)]. *)
Definition init_status (d : dir) (weights : weight_matrix) : M Frame unit :=
  p_sparse ← partition_matrix;
  zoom d (modify (set_neighbor
                    (mm v (coo_cols p_sparse) weights (to_dense p_sparse))));;
  s ← get;
  let m := length (p (self s)) in
  zoom d (for_each (enumerate (p (self s))) (λ iX, refresh_row m iX.1 iX.2));;
  zoom d (refresh_errors m).

(** [update_status(color_status, weights, old, new)]. *)
Definition update_status (d : dir) (weights : weight_matrix) (old new : nat)
  : M Frame unit :=
  s ← get;
  let m := length (p (self s)) in
  old_nodes ← lift (from_option IndexError (p (self s) !! old));
  new_nodes ← lift (from_option IndexError (p (self s) !! new));
  (* expend neighbor by one column *)
  zoom d (cs ← get;
          nb ← lift (from_option AttributeError (neighbor cs));
          modify (set_neighbor (cat_zero_column nb)));;
  (* update columns for old and new color *)
  old_degs ← lift (column_sums v weights old_nodes);
  new_degs ← lift (column_sums v weights new_nodes);
  zoom d (nb ← get_neighbor;
          nb' ← lift (set_column old old_degs nb);
          modify (set_neighbor nb'));;
  zoom d (nb ← get_neighbor;
          nb' ← lift (set_column new new_degs nb);
          modify (set_neighbor nb'));;
  zoom d (refresh_row m old old_nodes);;
  zoom d (refresh_row m new new_nodes);;
  zoom d (for_each (enumerate (p (self s)))
            (λ iX, refresh_entry m iX.1 old iX.2;;
                   refresh_entry m iX.1 new iX.2));;
  zoom d (refresh_errors m).

(** [pick_witness(color_status)]; the progress report printed every tenth
    color has no effect on the state and is left out. *)
Definition pick_witness (d : dir) : M Frame (nat * nat * float32 * float32) :=
  s ← get;
  let m := length (p (self s)) in
  let cs := color_status d s in
  t ← lift (argmax (mjoin (block m (errors_base cs))));
  let witness := (t `div` m, t `mod` m)%nat in
  q_error ← lift (from_option IndexError
                    (mget (errors_base cs) witness.1 witness.2));
  arr ← lift (from_option IndexError (p (self s) !! witness.1));
  nb ← lift (from_option TypeError (neighbor cs));
  split ← lift (gather nb arr witness.2);
  let split_deg := mean split in
  mret (witness.1, witness.2, split_deg, q_error).

(** The four weight matrices of [q_color]: [weights] and its scipy copy
    [weights_cpu] have the same entries, and so have the two transposes. *)
Definition weights : weight_matrix := adj_t G.
Definition weights_cpu : weight_matrix := weights.
Definition weights_transpose : weight_matrix := transpose weights.
Definition weights_transpose_cpu : weight_matrix := transpose weights_cpu.

Definition weights_of (d : dir) : weight_matrix :=
  match d with Out => weights | In => weights_transpose end.
Definition weights_cpu_of (d : dir) : weight_matrix :=
  match d with Out => weights_cpu | In => weights_transpose_cpu end.

(** [int(min(n_colors, self.BASE_MATRIX_SIZE))] as the order of the
    matrices of a new [ColorStatus]; a negative order is refused by
    [torch.zeros]. *)
Definition capacity (n_colors : float32) : result nat :=
  match py_int (py_min n_colors (Fin (Qc_of_nat BASE_MATRIX_SIZE))) with
  | Ok z => if bool_decide (z < 0)%Z then Raise RuntimeError else Ok (Z.to_nat z)
  | Raise e => Raise e
  | Fuel => Fuel
  end.

(** One pass through the body of the [while] loop of [q_color]; the result
    tells whether the pass ended in [break]. *)
Definition loop_body (cfg : Config) : M Frame bool :=
  s ← get;
  (if bool_decide (length (p (self s)) = cs_n (color_status_in s))
   then zoom In (cs ← get; resize (cs_n cs * 2));;
        zoom Out (cs ← get; resize (cs_n cs * 2))
   else mret tt);;
  '(witness_in_i, witness_in_j, split_deg_in, q_error_in) ← pick_witness In;
  '(witness_out_i, witness_out_j, split_deg_out, q_error_out) ← pick_witness Out;
  if fleb q_error_in (q_errors cfg) && fleb q_error_out (q_errors cfg)
  then mret true
  else if fgeb q_error_out q_error_in
  then
    split_color Out witness_out_i witness_out_j split_deg_out;;
    s ← get;
    update_status Out weights_cpu witness_out_i (length (p (self s)) - 1);;
    s ← get;
    update_status In weights_transpose_cpu witness_out_i (length (p (self s)) - 1);;
    mret false
  else
    split_color In witness_in_i witness_in_j split_deg_in;;
    s ← get;
    update_status Out weights_cpu witness_in_i (length (p (self s)) - 1);;
    s ← get;
    update_status In weights_transpose_cpu witness_in_i (length (p (self s)) - 1);;
    mret false.

(** [while len(self.p) < n_colors: ...], with a bound on the number of
    passes through the body. *)
Fixpoint while_loop (cfg : Config) (fuel : nat) : M Frame unit :=
  s ← get;
  if fltb (Fin (Qc_of_nat (length (p (self s))))) (n_colors cfg)
  then match fuel with
       | O => lift Fuel
       | S fuel' =>
           stop ← loop_body cfg;
           if stop : bool then mret tt else while_loop cfg fuel'
       end
  else mret tt.

(** What [q_color] does once the two statuses exist. *)
Definition q_color_frame (cfg : Config) (fuel : nat) : M Frame unit :=
  init_status Out weights;;
  init_status In weights_transpose;;
  while_loop cfg fuel;;
  '(_, _, _, q_errors_out) ← pick_witness Out;
  '(_, _, _, q_errors_in) ← pick_witness In;
  modify (set_q_error (py_max q_errors_out q_errors_in)).

(** [q_color(weighting, n_colors, q_errors)] on the object [qsc], with a
    bound [fuel] on the passes through the loop.  The statuses are locals:
    what remains after the call, returned or raised, is the object. *)
Definition q_color_fuel (fuel : nat) (cfg : Config) (qsc : QuasiStableColoring)
  : result unit * QuasiStableColoring :=
  match capacity (n_colors cfg) with
  | Ok n =>
      let r := q_color_frame cfg fuel
                 (mkFrame qsc (ColorStatus_init v n) (ColorStatus_init v n)) in
      (r.1, self r.2)
  | Raise e => (Raise e, qsc)
  | Fuel => (Fuel, qsc)
  end.

(** [v] passes always suffice (see [while_loop_total]). *)
Definition q_color (cfg : Config) (qsc : QuasiStableColoring)
  : result unit * QuasiStableColoring :=
  q_color_fuel v cfg qsc.

End Engine.

(** * Specification-level notions *)

(** A tensor of [n] rows and [m] columns. *)
Definition shape {A} (n m : nat) (t : list (list A)) : Prop :=
  length t = n ∧ Forall (λ row, length row = m) t.

(** [u] is the largest (smallest) value of the non-empty list [l]. *)
Definition is_max (l : list Qc) (u : Qc) : Prop := u ∈ l ∧ ∀ x, x ∈ l → x ≤ u.
Definition is_min (l : list Qc) (u : Qc) : Prop := u ∈ l ∧ ∀ x, x ∈ l → u ≤ x.

(** The weight between the node [x] and the nodes of the color [Y]. *)
Definition deg (w : weight_matrix) (Y : list nat) (x : nat) : Qc :=
  Qc_sum (w x <$> Y).

(** The node-by-color matrix of a partition [P] of [v] nodes. *)
Definition neighbor_of (v : nat) (w : weight_matrix) (P : list (list nat))
  : list (list Qc) :=
  (λ x, (λ Y, deg w Y x) <$> P) <$> seq 0 v.

(** [P] is a partition of the nodes [0 .. v-1] into non-empty colors: no
    color is empty, and the colors laid end to end are a rearrangement of
    the nodes. *)
Definition valid_partition (v : nat) (P : list (list nat)) : Prop :=
  Forall (λ X, X ≠ []) P ∧ mjoin P ≡ₚ seq 0 v.

(** The status [cs] is in step with the partition [P] for the weights [w]:
    [neighbor], and the active blocks of the three backing matrices, hold
    what their description says. *)
Record status_ok (v : nat) (w : weight_matrix) (P : list (list nat))
    (cs : ColorStatus) : Prop := mk_status_ok {
  ok_capacity : (length P ≤ cs_n cs)%nat;
  ok_upper_shape : shape (cs_n cs) (cs_n cs) (upper_base cs);
  ok_lower_shape : shape (cs_n cs) (cs_n cs) (lower_base cs);
  ok_errors_shape : shape (cs_n cs) (cs_n cs) (errors_base cs);
  ok_neighbor : neighbor cs = Some (neighbor_of v w P);
  ok_block : ∀ i j X Y, P !! i = Some X → P !! j = Some Y →
    ∃ hi lo,
      reduce_vec Qc_max (deg w Y <$> X) = Ok hi ∧
      reduce_vec Qc_min (deg w Y <$> X) = Ok lo ∧
      mget (upper_base cs) i j = Some (Fin hi) ∧
      mget (lower_base cs) i j = Some (Fin lo) ∧
      mget (errors_base cs) i j = Some (Fin (hi - lo));
}.

(** The entries [(i, j)] of [upper_base] and [lower_base] hold the largest
    and the smallest weight between a node of color [i] and color [j]. *)
Definition entry_ok (w : weight_matrix) (P : list (list nat)) (cs : ColorStatus)
    (i j : nat) : Prop :=
  ∀ X Y, P !! i = Some X → P !! j = Some Y →
    ∃ hi lo,
      reduce_vec Qc_max (deg w Y <$> X) = Ok hi ∧
      reduce_vec Qc_min (deg w Y <$> X) = Ok lo ∧
      mget (upper_base cs) i j = Some (Fin hi) ∧
      mget (lower_base cs) i j = Some (Fin lo).

(** What [update_status] and [init_status] rely on while they refresh the
    backing matrices: room for the partition, square matrices of the stated
    order, and an up-to-date [neighbor]. *)
Record status_pre (v : nat) (w : weight_matrix) (P : list (list nat))
    (cs : ColorStatus) : Prop := mk_status_pre {
  pre_capacity : (length P ≤ cs_n cs)%nat;
  pre_upper_shape : shape (cs_n cs) (cs_n cs) (upper_base cs);
  pre_lower_shape : shape (cs_n cs) (cs_n cs) (lower_base cs);
  pre_errors_shape : shape (cs_n cs) (cs_n cs) (errors_base cs);
  pre_neighbor : neighbor cs = Some (neighbor_of v w P);
}.

(** The two sides of a split of the nodes [arr] whose entries in the witness
    column are [split], as [split_color] computes them. *)
Definition retain_of (arr : list nat) (split : list Qc) (threshold : float32)
  : list nat :=
  mask_select arr (negb <$> ((λ x, fgtb (Fin x) threshold) <$> split)).
Definition eject_of (arr : list nat) (split : list Qc) (threshold : float32)
  : list nat :=
  mask_select arr ((λ x, fgtb (Fin x) threshold) <$> split).

(** The predicate of the split: the entry of node [x] in column [j] of the
    tensor [nb] is above the threshold. *)
Definition above (nb : list (list Qc)) (j : nat) (threshold : float32) (x : nat)
  : bool :=
  match mget nb x j with
  | Some q => fgtb (Fin q) threshold
  | None => false
  end.

(** The first statement of the body of the loop: both statuses are resized
    when the number of colors has reached the order of their matrices. *)
Definition grow_if_full : M Frame unit :=
  s ← get;
  if bool_decide (length (p (self s)) = cs_n (color_status_in s))
  then zoom In (cs ← get; resize (cs_n cs * 2));;
       zoom Out (cs ← get; resize (cs_n cs * 2))
  else mret tt.

(** The test of the [while] loop. *)
Definition loop_test (cfg : Config) (s : Frame) : bool :=
  fltb (Fin (Qc_of_nat (length (p (self s))))) (n_colors cfg).

(** The invariant of the loop of [q_color] on a graph [G]: the graph has a
    node, the partition is valid and both statuses are in step with it. *)
Record inv (G : Graph) (s : Frame) : Prop := mk_inv {
  inv_pos : (0 < num_nodes G)%nat;
  inv_partition : valid_partition (num_nodes G) (p (self s));
  inv_status : ∀ d, status_ok (num_nodes G) (weights_of G d) (p (self s))
                      (color_status d s);
  inv_n : cs_n (color_status_out s) = cs_n (color_status_in s);
}.

(** The states in which a run of [q_color] on a new object tests the
    condition of its loop: after both calls of [init_status], and after
    every pass through the body that did not end the loop. *)
Inductive reachable (G : Graph) (cfg : Config) : Frame → Prop :=
  | reach_init n s :
      capacity (n_colors cfg) = Ok n →
      (init_status G Out (weights G);; init_status G In (weights_transpose G))
        (mkFrame (QuasiStableColoring_init G)
           (ColorStatus_init (num_nodes G) n) (ColorStatus_init (num_nodes G) n))
        = (Ok tt, s) →
      reachable G cfg s
  | reach_pass s s' :
      reachable G cfg s →
      loop_test cfg s = true →
      loop_body G cfg s = (Ok false, s') →
      reachable G cfg s'.

(** The states in which the loop picks its witnesses and splits: a reachable
    state that passed the test of the loop, after the resizing step. *)
Definition at_split (G : Graph) (cfg : Config) (s : Frame) : Prop :=
  ∃ s0, reachable G cfg s0 ∧ loop_test cfg s0 = true ∧
        grow_if_full s0 = (Ok tt, s).

(** The test that ends the loop with [break], and the direction in which the
    loop acts otherwise, given the two maximum errors. *)
Definition tolerated (cfg : Config) (q_error_in q_error_out : float32) : bool :=
  fleb q_error_in (q_errors cfg) && fleb q_error_out (q_errors cfg).
Definition acting_direction (q_error_out q_error_in : float32) : dir :=
  if fgeb q_error_out q_error_in then Out else In.

(** The entry [(i, j)] is the first largest entry of the [m] by [m] block of
    [errors] in the row-major order of the flattened block, and [e] is its
    value: every entry of the block is at most [e], and every entry before
    [(i, j)] is strictly below [e]. *)
Definition first_maximum (errors : list (list float32)) (m i j : nat) (e : Qc)
  : Prop :=
  (i < m)%nat ∧ (j < m)%nat ∧
  mget errors i j = Some (Fin e) ∧
  ∀ i' j', (i' < m)%nat → (j' < m)%nat →
    ∃ e', mget errors i' j' = Some (Fin e') ∧ e' ≤ e ∧
          ((i' < i ∨ (i' = i ∧ j' < j))%nat → e' < e).

(** [t] is the mean of [neighbor[node][j]] over the nodes of color [i] of
    the partition [P]: the sum of these entries divided by their number. *)
Definition mean_over (P : list (list nat)) (nb : option (list (list Qc)))
    (i j : nat) (t : float32) : Prop :=
  ∃ X t' col,
    P !! i = Some X ∧ nb = Some t' ∧ gather t' X j = Ok col ∧
    t = Fin (Qc_sum col / Qc_of_nat (length X)).

(** The statements of either branch of the loop: a split in the status of
    direction [d], and the update of both statuses. *)
Definition split_and_update (G : Graph) (d : dir) (witness_i witness_j : nat)
    (split_deg : float32) : M Frame bool :=
  split_color d witness_i witness_j split_deg;;
  s ← get;
  update_status G Out (weights_cpu G) witness_i (length (p (self s)) - 1);;
  s ← get;
  update_status G In (weights_transpose_cpu G) witness_i (length (p (self s)) - 1);;
  mret false.

(** The partition property in the words of the specification: every color
    is a non-empty set of nodes, two different colors share no node, and the
    nodes that occur in a color are exactly the nodes [0 .. v-1]. *)
Definition is_partition (v : nat) (P : list (list nat)) : Prop :=
  (∀ i X, P !! i = Some X → X ≠ [] ∧ NoDup X) ∧
  (∀ i j X Y x, P !! i = Some X → P !! j = Some Y → x ∈ X → x ∈ Y → i = j) ∧
  (∀ x, (x < v)%nat ↔ ∃ X, X ∈ P ∧ x ∈ X).

(** A computation that is not a bounded loop never runs out of fuel, and a
    computation that only touches the statuses leaves the object alone. *)
Definition no_fuel {St A} (m : M St A) : Prop := ∀ s, (m s).1 ≠ Fuel.
Definition keeps_self {A} (m : M Frame A) : Prop := ∀ s, self (m s).2 = self s.

(** The frame in which [q_color] starts on the object [qsc], with statuses
    of order [n], and the two calls of [init_status]. *)
Definition first_frame (G : Graph) (n : nat) (qsc : QuasiStableColoring) : Frame :=
  mkFrame qsc (ColorStatus_init (num_nodes G) n) (ColorStatus_init (num_nodes G) n).
Definition init_both (G : Graph) : M Frame unit :=
  init_status G Out (weights G);; init_status G In (weights_transpose G).

(** The statements of [q_color] after the loop. *)
Definition final_report : M Frame unit :=
  '(_, _, _, q_errors_out) ← pick_witness Out;
  '(_, _, _, q_errors_in) ← pick_witness In;
  modify (set_q_error (py_max q_errors_out q_errors_in)).

(** A run of the [while] loop of [q_color], pass by pass, without a bound on
    the number of passes: from a frame to an outcome and a last frame. *)
Inductive loop_run (G : Graph) (cfg : Config) : Frame → result unit → Frame → Prop :=
  | loop_run_exit s :
      loop_test cfg s = false → loop_run G cfg s (Ok tt) s
  | loop_run_break s s1 :
      loop_test cfg s = true → loop_body G cfg s = (Ok true, s1) →
      loop_run G cfg s (Ok tt) s1
  | loop_run_raise s e s1 :
      loop_test cfg s = true → loop_body G cfg s = (Raise e, s1) →
      loop_run G cfg s (Raise e) s1
  | loop_run_pass s s1 r s' :
      loop_test cfg s = true → loop_body G cfg s = (Ok false, s1) →
      loop_run G cfg s1 r s' →
      loop_run G cfg s r s'.

(** A run of [q_color] on the object [qsc]: its outcome and the object it
    leaves behind. *)
Inductive q_color_run (G : Graph) (cfg : Config) (qsc : QuasiStableColoring)
  : result unit → QuasiStableColoring → Prop :=
  | run_refused e :
      capacity (n_colors cfg) = Raise e →
      q_color_run G cfg qsc (Raise e) qsc
  | run_init_raise n e s :
      capacity (n_colors cfg) = Ok n →
      init_both G (first_frame G n qsc) = (Raise e, s) →
      q_color_run G cfg qsc (Raise e) (self s)
  | run_loop_raise n s0 e s :
      capacity (n_colors cfg) = Ok n →
      init_both G (first_frame G n qsc) = (Ok tt, s0) →
      loop_run G cfg s0 (Raise e) s →
      q_color_run G cfg qsc (Raise e) (self s)
  | run_finish n s0 s r s' :
      capacity (n_colors cfg) = Ok n →
      init_both G (first_frame G n qsc) = (Ok tt, s0) →
      loop_run G cfg s0 (Ok tt) s →
      final_report s = (r, s') →
      q_color_run G cfg qsc r (self s').

(** The order of the active block of a status: the number of columns of its
    [neighbor], that is the number of colors it was last brought up to date
    for (none before [init_status]). *)
Definition active_order (cs : ColorStatus) : nat :=
  match neighbor cs with
  | Some (row :: _) => length row
  | _ => 0%nat
  end.

(** The points of a run of [q_color] on a new object, between the calls it
    makes: before, between and after the two calls of [init_status]; at the
    test of the loop; between the two calls of [resize] and after them;
    after [split_color]; between the two calls of [update_status]; and where
    the loop ended. *)
Inductive run_point (G : Graph) (cfg : Config) : Frame → Prop :=
  | point_new n :
      capacity (n_colors cfg) = Ok n →
      run_point G cfg (first_frame G n (QuasiStableColoring_init G))
  | point_init_out n s :
      capacity (n_colors cfg) = Ok n →
      init_status G Out (weights G) (first_frame G n (QuasiStableColoring_init G))
        = (Ok tt, s) →
      run_point G cfg s
  | point_test s :
      reachable G cfg s → run_point G cfg s
  | point_resized_in s s' :
      reachable G cfg s → loop_test cfg s = true →
      length (p (self s)) = cs_n (color_status_in s) →
      zoom In (cs ← get; resize (cs_n cs * 2)) s = (Ok tt, s') →
      run_point G cfg s'
  | point_resized s :
      at_split G cfg s → run_point G cfg s
  | point_split s d witness_i witness_j threshold s1 :
      at_split G cfg s →
      split_color d witness_i witness_j threshold s = (Ok tt, s1) →
      run_point G cfg s1
  | point_updated_out s d witness_i witness_j threshold s1 s2 :
      at_split G cfg s →
      split_color d witness_i witness_j threshold s = (Ok tt, s1) →
      update_status G Out (weights_cpu G) witness_i (length (p (self s1)) - 1) s1
        = (Ok tt, s2) →
      run_point G cfg s2
  | point_end s0 r s :
      reachable G cfg s0 → loop_run G cfg s0 r s → run_point G cfg s.

(** ** Small runs *)

Definition Z2 (z : Z) : Qc := Qc_of_Z z.

(** The graph of the end-to-end scenario: 0→1 (1), 0→2 (5), 1→2 (1), 3→2 (5). *)
Definition scenario_graph : Graph :=
  mkGraph 4 (λ r c, match r, c with
                    | 0, 1 => Z2 1 | 0, 2 => Z2 5 | 1, 2 => Z2 1 | 3, 2 => Z2 5
                    | _, _ => Z2 0 end%nat).
Definition scenario_cfg : Config := mkConfig false (Fin (Z2 4)) (Fin 0).

(** The frame after both calls of [init_status], the frame after the
    resizing step of the first pass, and the frame after a split of color 0
    at the threshold 3 in the incoming status. *)
Definition scenario_start : Frame :=
  (init_both scenario_graph
     (first_frame scenario_graph 4 (QuasiStableColoring_init scenario_graph))).2.
Definition scenario_split_point : Frame := (grow_if_full scenario_start).2.
Definition scenario_after_split : Frame :=
  (split_color In 0 0 (Fin (Z2 3)) scenario_split_point).2.



(** A graph on which the first split raises the error of the pair it acts
    on: 0→3 (10), 1→0 (10), 2→1 (10), 3→2 (11), read off [adj_t]. *)
Definition ring_graph : Graph :=
  mkGraph 4 (λ r c, match r, c with
                    | 0, 3 => Z2 10 | 1, 0 => Z2 10 | 2, 1 => Z2 10 | 3, 2 => Z2 11
                    | _, _ => Z2 0 end%nat).
Definition ring_start : Frame :=
  (init_both ring_graph
     (first_frame ring_graph 4 (QuasiStableColoring_init ring_graph))).2.
Definition ring_split_point : Frame := (grow_if_full ring_start).2.
Definition ring_next : Frame := (loop_body ring_graph scenario_cfg ring_start).2.

(** Reading an entry of a backing matrix as a rational number. *)
Definition entry_value (t : list (list float32)) (i j : nat) : option Q :=
  match mget t i j with
  | Some (Fin q) => Some (this q)
  | _ => None
  end.

(** The frames after the first and after the second pass of the loop on the
    scenario graph. *)
Definition scenario_second : Frame :=
  (loop_body scenario_graph scenario_cfg scenario_start).2.
Definition scenario_third : Frame :=
  (loop_body scenario_graph scenario_cfg scenario_second).2.

(** Two nodes and no edge: both statuses are within any tolerance from the
    start. *)
Definition edgeless_graph : Graph := mkGraph 2 (λ _ _, Z2 0).
Definition edgeless_start : Frame :=
  (init_both edgeless_graph
     (first_frame edgeless_graph 4 (QuasiStableColoring_init edgeless_graph))).2.

(** The witness in the result of a call of [pick_witness]. *)
Definition witness_of (r : result (nat * nat * float32 * float32))
  : nat * nat * float32 * float32 :=
  match r with
  | Ok w => w
  | _ => (0%nat, 0%nat, NaN, NaN)
  end.

(** ** Notions for the properties of whole runs *)

(** The spread of every pair of colors of [P] in direction [d] is at most
    [e]: two nodes of one color differ by at most [e] in their weight toward
    any color. *)
Definition spread_within (G : Graph) (d : dir) (P : list (list nat)) (e : Qc) : Prop :=
  ∀ i j X Y x y, P !! i = Some X → P !! j = Some Y → x ∈ X → y ∈ X →
    deg (weights_of G d) Y x - deg (weights_of G d) Y y ≤ e.

(** Some pair of colors of [P] has the spread [e] in direction [d]. *)
Definition spread_attained (G : Graph) (d : dir) (P : list (list nat)) (e : Qc) : Prop :=
  ∃ i j X Y x y, P !! i = Some X ∧ P !! j = Some Y ∧ x ∈ X ∧ y ∈ X ∧
    deg (weights_of G d) Y x - deg (weights_of G d) Y y = e.

(** The nodes of a color are listed in increasing order. *)
Fixpoint ascending (X : list nat) : Prop :=
  match X with
  | [] => True
  | x :: X' => Forall (λ y, x < y)%nat X' ∧ ascending X'
  end.

(** A computation that leaves [self.q_error] as it was. *)
Definition keeps_q_error {A} (m : M Frame A) : Prop :=
  ∀ s, q_error (self (m s).2) = q_error (self s).

(** ** The script [examples/nodeproppred/arxiv/quasiStable.py]

    The script builds a [QuasiStableColoring] for the graph of the data set
    and calls [qsc.q_color(n_colors=data.num_nodes * 0.01)], with the
    defaults for the other two arguments.  The product is a float; the model
    takes the exact hundredth of the number of nodes, which [int] rounds
    down to the same number and which compares in the same way with every
    whole number of colors as the float does for graphs of fewer than 2^40
    nodes.  Loading the data set and printing are not modelled. *)
Definition arxiv_config (G : Graph) : Config :=
  mkConfig false (Fin (Qc_of_nat (num_nodes G) / Qc_of_nat 100)) (Fin 0).
Definition arxiv_main (G : Graph) : result unit * QuasiStableColoring :=
  q_color G (arxiv_config G) (QuasiStableColoring_init G).

(** Statuses of order 1 on the scenario graph, in step with the one color
    and without room for a second one, and the frame after a split of that
    color at the threshold 3. *)
Definition full_start : Frame :=
  (init_both scenario_graph
     (first_frame scenario_graph 1 (QuasiStableColoring_init scenario_graph))).2.
Definition full_split : Frame := (split_color Out 0 0 (Fin (Z2 3)) full_start).2.

(** * Sums that overflow

    In the definitions above the sums of weights are exact rationals.  In
    the source they are [float32] values, and a sum beyond the range of
    [float32] is an infinity.  The module [F32] repeats [init_status] with
    [neighbor] as a tensor of [float32] values whose sums overflow, to
    locate where the exact model stops being faithful; rounding within the
    range is still not modelled. *)

(** The largest finite [float32], [(2 - 2^-23) * 2^127]. *)
Definition float32_max : Qc := Qc_of_Z ((2 ^ 24 - 1) * 2 ^ 104).

Definition Qc_abs (q : Qc) : Qc := Qc_max q (- q).

(** The weights of the graph keep every sum in range: in every row and in
    every column of [adj_t] the absolute values of the weights add up to at
    most half of [float32_max], so that neither a sum of weights nor the
    difference of two such sums overflows. *)
Definition in_range (G : Graph) : Prop :=
  ∀ d x, (x < num_nodes G)%nat →
    Qc_sum ((λ y, Qc_abs (weights_of G d x y)) <$> seq 0 (num_nodes G))
      ≤ float32_max / Qc_of_Z 2.

Module F32.

(** Half an ulp above [float32_max]: the least magnitude that rounds to an
    infinity. *)
Definition overflow_threshold : Qc := Qc_of_Z (2 ^ 128 - 2 ^ 103).

(** The [float32] that holds the result of an operation on finite values
    whose exact value is [q]. *)
Definition of_exact (q : Qc) : float32 :=
  if bool_decide (overflow_threshold ≤ q) then PInf
  else if bool_decide (q ≤ - overflow_threshold) then NInf
  else Fin q.

(** [x + y]. *)
Definition fadd (x y : float32) : float32 :=
  match x, y with
  | NaN, _ | _, NaN => NaN
  | Fin a, Fin b => of_exact (a + b)
  | PInf, NInf | NInf, PInf => NaN
  | PInf, _ | _, PInf => PInf
  | NInf, _ | _, NInf => NInf
  end.

(** The sum of a list of terms, accumulated from the left. *)
Definition sum (l : list float32) : float32 := foldl fadd (Fin 0) l.

(** [torch.mm(w, dense)] with a [float32] result. *)
Definition mm (v cols : nat) (w : weight_matrix) (dense : list (list Qc))
  : list (list float32) :=
  (λ r, (λ c, sum ((λ k, of_exact (w r k * default 0 (mget dense k c)))
                     <$> seq 0 v))
        <$> seq 0 cols)
  <$> seq 0 v.

(** The larger and the smaller of two entries, as [torch.max] and
    [torch.min] reduce a tensor: a NaN wins. *)
Definition tensor_max (x y : float32) : float32 :=
  if is_nan x then x else if is_nan y then y else if fleb x y then y else x.
Definition tensor_min (x y : float32) : float32 :=
  if is_nan x then x else if is_nan y then y else if fleb x y then x else y.

(** [torch.max(rows, dim=0)[0]] and [torch.min(rows, dim=0)[0]]. *)
Definition reduce_rows (f : float32 → float32 → float32)
    (rows : list (list float32)) : result (list float32) :=
  match rows with
  | [] => Raise IndexError
  | r :: rs => Ok (foldl (zip_with f) r rs)
  end.

(** ** class ColorStatus, with [neighbor] a tensor of [float32] *)

Record ColorStatus := mkColorStatus {
  cs_v : nat;
  cs_n : nat;
  neighbor : option (list (list float32));
  upper_base : list (list float32);
  lower_base : list (list float32);
  errors_base : list (list float32);
}.

Definition set_neighbor (nb : list (list float32)) (cs : ColorStatus) : ColorStatus :=
  mkColorStatus (cs_v cs) (cs_n cs) (Some nb) (upper_base cs) (lower_base cs) (errors_base cs).
Definition set_upper_base (u : list (list float32)) (cs : ColorStatus) : ColorStatus :=
  mkColorStatus (cs_v cs) (cs_n cs) (neighbor cs) u (lower_base cs) (errors_base cs).
Definition set_lower_base (l : list (list float32)) (cs : ColorStatus) : ColorStatus :=
  mkColorStatus (cs_v cs) (cs_n cs) (neighbor cs) (upper_base cs) l (errors_base cs).
Definition set_errors_base (e : list (list float32)) (cs : ColorStatus) : ColorStatus :=
  mkColorStatus (cs_v cs) (cs_n cs) (neighbor cs) (upper_base cs) (lower_base cs) e.

(** [ColorStatus.__init__(v, n, device)]. *)
Definition ColorStatus_init (v n : nat) : ColorStatus :=
  {| cs_v := v; cs_n := n; neighbor := None;
     upper_base := full n n (Fin 0);
     lower_base := full n n PInf;
     errors_base := full n n (Fin 0) |}.

Definition get_neighbor : M ColorStatus (list (list float32)) :=
  cs ← get; lift (from_option TypeError (neighbor cs)).

(** [upper_deg[i, :] = torch.max(color_status.neighbor[X, :], dim=0)[0]]
    followed by
    [lower_deg[i, :] = torch.min(color_status.neighbor[X, :], dim=0)[0]]. *)
Definition refresh_row (m i : nat) (X : list nat) : M ColorStatus unit :=
  nb ← get_neighbor;
  rows ← lift (select_rows nb X);
  hi ← lift (reduce_rows tensor_max rows);
  cs ← get;
  u ← lift (set_row (cs_n cs) m i hi (upper_base cs));
  modify (set_upper_base u);;
  nb ← get_neighbor;
  rows ← lift (select_rows nb X);
  lo ← lift (reduce_rows tensor_min rows);
  cs ← get;
  l ← lift (set_row (cs_n cs) m i lo (lower_base cs));
  modify (set_lower_base l).

(** [errors[:, :] = upper_deg - lower_deg] on the views [[:m, :m]]. *)
Definition refresh_errors (m : nat) : M ColorStatus unit :=
  modify (λ cs, set_errors_base
                  (sub_block m (upper_base cs) (lower_base cs) (errors_base cs)) cs).

(** The object and the status that [init_status] is handed. *)
Record Frame := mkFrame {
  self : QuasiStableColoring;
  color_status : ColorStatus;
}.

Definition zoom {A} (m : M ColorStatus A) : M Frame A :=
  λ s, let r := m (color_status s) in (r.1, mkFrame (self s) r.2).

Section Engine.

Variable G : Graph.
Abbreviation v := (num_nodes G).

(** [partition_matrix()], as above. *)
Definition partition_matrix : M Frame sparse_coo :=
  s ← get;
  let entries := mjoin (imap (λ c X, (λ x, (x, c)) <$> X) (p (self s))) in
  guard IndexError (bool_decide (length entries ≤ v)%nat);;
  let pad := (v - length entries)%nat in
  let I := entries.*1 ++ replicate pad 0%nat in
  let J := entries.*2 ++ replicate pad 0%nat in
  let V := replicate (length entries) 1 ++ replicate pad 0 in
  lift (sparse_coo_tensor I J V v (length (p (self s)))).

(** [init_status(color_status, weights)]. *)
Definition init_status (weights : weight_matrix) : M Frame unit :=
  p_sparse ← partition_matrix;
  zoom (modify (set_neighbor
                  (mm v (coo_cols p_sparse) weights (to_dense p_sparse))));;
  s ← get;
  let m := length (p (self s)) in
  zoom (for_each (enumerate (p (self s))) (λ iX, refresh_row m iX.1 iX.2));;
  zoom (refresh_errors m).

End Engine.

End F32.

(** A status of the exact model with its [neighbor] read as a tensor of
    [float32] values. *)
Definition float32_status (cs : ColorStatus) : F32.ColorStatus :=
  F32.mkColorStatus (cs_v cs) (cs_n cs)
    ((λ t : list (list Qc), (λ row : list Qc, Fin <$> row) <$> t) <$> neighbor cs)
    (upper_base cs) (lower_base cs) (errors_base cs).

(** A computation on a status of the exact model and one on a status with
    [float32] sums that do the same. *)
Definition same_run {A} (m : M ColorStatus A) (m' : M F32.ColorStatus A) : Prop :=
  ∀ cs, m' (float32_status cs) = ((m cs).1, float32_status (m cs).2).

(** Two nodes and four edges of weight [2^127], a finite [float32]: the sum
    of a row is [2^128], beyond the range. *)
Definition heavy_graph : Graph := mkGraph 2 (λ _ _, Qc_of_Z (2 ^ 127)).

(** The frame after [init_status(color_status_out, weights)] in a call of
    [q_color] on a new object for [heavy_graph], with statuses of order 2. *)
Definition heavy_start : F32.Frame :=
  (F32.init_status heavy_graph (weights heavy_graph)
     (F32.mkFrame (QuasiStableColoring_init heavy_graph) (F32.ColorStatus_init 2 2))).2.
(** * Properties *)

(** ** The monad *)

Lemma bind_eq {S A B} (m : M S A) (k : A → M S B) s :
  (m ≫= k) s = match m s with
                | (Ok a, s') => k a s'
                | (Raise e, s') => (Raise e, s')
                | (Fuel, s') => (Fuel, s')
                end.
Proof. reflexivity. Qed.

Lemma bind_ok {S A B} (m : M S A) (k : A → M S B) s a s' :
  m s = (Ok a, s') → (m ≫= k) s = k a s'.
Proof. intros H. rewrite bind_eq, H. done. Qed.

Lemma bind_inv_ok {S A B} (m : M S A) (k : A → M S B) s b s2 :
  (m ≫= k) s = (Ok b, s2) → ∃ a s1, m s = (Ok a, s1) ∧ k a s1 = (Ok b, s2).
Proof.
  rewrite bind_eq. destruct (m s) as [[a| |] s1]; [eauto| |]; intros [=].
Qed.

(** ** Lists and matrices *)

Lemma shape_lookup {A} n m (t : list (list A)) i row :
  shape n m t → t !! i = Some row → length row = m.
Proof. intros [_ H] Hi. by eapply (Forall_lookup_1 _ _ _ _ H Hi). Qed.

Lemma shape_mget {A} n m (t : list (list A)) i j :
  shape n m t → (i < n)%nat → (j < m)%nat → is_Some (mget t i j).
Proof.
  intros [Hn H] Hi Hj. unfold mget.
  destruct (lookup_lt_is_Some_2 t i) as [row Hrow]; [lia|].
  rewrite Hrow. simpl. apply lookup_lt_is_Some_2.
  by rewrite (Forall_lookup_1 _ _ _ _ H Hrow).
Qed.

Lemma shape_full {A} n m (x : A) : shape n m (full n m x).
Proof.
  split; [apply length_replicate|].
  apply Forall_forall. intros row Hrow.
  apply elem_of_replicate in Hrow as [-> _]. apply length_replicate.
Qed.

Lemma mget_full {A} n m (x : A) i j :
  (i < n)%nat → (j < m)%nat → mget (full n m x) i j = Some x.
Proof.
  intros Hi Hj. unfold mget, full.
  rewrite lookup_replicate_2 by done. simpl. by apply lookup_replicate_2.
Qed.

Lemma lookup_overlay_row {A} (src dst : list A) j :
  overlay_row src dst !! j =
    if decide (j < length src)%nat then src !! j else dst !! j.
Proof.
  unfold overlay_row. case_decide.
  - by apply lookup_app_l.
  - rewrite lookup_app_r by lia. rewrite lookup_drop. f_equal. lia.
Qed.

Lemma length_overlay_row {A} (src dst : list A) :
  (length src ≤ length dst)%nat → length (overlay_row src dst) = length dst.
Proof. intros H. unfold overlay_row. rewrite length_app, length_drop. lia. Qed.

Lemma length_overlay {A} (src dst : list (list A)) :
  length (overlay src dst) = length dst.
Proof.
  revert dst. induction src as [|r src IH]; intros [|d dst]; simpl; auto.
Qed.

Lemma lookup_overlay {A} (src dst : list (list A)) i :
  overlay src dst !! i =
    match src !! i, dst !! i with
    | Some r, Some d => Some (overlay_row r d)
    | _, od => od
    end.
Proof.
  revert dst i. induction src as [|r src IH]; intros [|d dst] [|i]; simpl; try done.
  by destruct (src !! i).
Qed.

Lemma mget_overlay {A} (src dst : list (list A)) i j :
  mget (overlay src dst) i j =
    match src !! i, dst !! i with
    | Some r, Some d => if decide (j < length r)%nat then r !! j else d !! j
    | _, _ => mget dst i j
    end.
Proof.
  unfold mget. rewrite lookup_overlay.
  destruct (src !! i) as [r|], (dst !! i) as [d|]; simpl; try done.
  apply lookup_overlay_row.
Qed.

Lemma shape_overlay {A} n (src dst : list (list A)) :
  shape n n dst → Forall (λ row, length row ≤ n)%nat src → shape n n (overlay src dst).
Proof.
  intros [Hn Hd] Hs. split; [by rewrite length_overlay|].
  apply Forall_lookup. intros i row. rewrite lookup_overlay.
  destruct (src !! i) as [r|] eqn:Hr, (dst !! i) as [d|] eqn:Hdi; intros [= <-].
  - pose proof (Forall_lookup_1 _ _ _ _ Hd Hdi) as Hlen. simpl in Hlen.
    pose proof (Forall_lookup_1 _ _ _ _ Hs Hr) as Hlen'. simpl in Hlen'.
    rewrite length_overlay_row; lia.
  - by apply (Forall_lookup_1 _ _ _ _ Hd Hdi).
Qed.

Lemma mget_block {A} m (t : list (list A)) i j :
  mget (block m t) i j =
    if decide (i < m ∧ j < m)%nat then mget t i j else None.
Proof.
  unfold mget, block. rewrite list_lookup_fmap.
  destruct (decide (i < m)%nat) as [Hi|Hi].
  - rewrite lookup_take_lt by done. destruct (t !! i) as [row|]; simpl.
    + destruct (decide (j < m)%nat).
      * rewrite lookup_take_lt by done. by rewrite decide_True.
      * rewrite lookup_take_ge by lia. by rewrite decide_False by lia.
    + by case_decide.
  - rewrite lookup_take_ge by lia. simpl. by rewrite decide_False by lia.
Qed.

Lemma shape_block {A} n m (t : list (list A)) :
  shape n n t → (m ≤ n)%nat → shape m m (block m t).
Proof.
  intros [Hn Ht] Hm. split.
  - unfold block. rewrite length_fmap, length_take. lia.
  - unfold block. apply Forall_fmap, Forall_forall. intros row Hrow.
    simpl. rewrite length_take.
    apply elem_of_take in Hrow as (i & Hi & _).
    rewrite (Forall_lookup_1 _ _ _ _ Ht Hi). lia.
Qed.

Lemma mget_alter_row {A} n (vec : list A) (base : list (list A)) i i' j' :
  shape n n base → (i < n)%nat →
  mget (alter (overlay_row vec) i base) i' j' =
    if decide (i' = i ∧ j' < length vec)%nat then vec !! j' else mget base i' j'.
Proof.
  intros [Hn Hb] Hi. unfold mget.
  destruct (decide (i' = i)) as [->|Hne].
  - rewrite list_lookup_alter_eq.
    destruct (lookup_lt_is_Some_2 base i) as [row Hrow]; [lia|].
    rewrite Hrow. simpl. rewrite lookup_overlay_row.
    destruct (decide (j' < length vec)%nat).
    + by rewrite decide_True.
    + by rewrite decide_False by tauto.
  - rewrite list_lookup_alter_ne by done. by rewrite decide_False by tauto.
Qed.

Lemma shape_alter_row {A} n (vec : list A) (base : list (list A)) i :
  shape n n base → (length vec ≤ n)%nat →
  shape n n (alter (overlay_row vec) i base).
Proof.
  intros [Hn Hb] Hv. split; [by rewrite length_alter|].
  apply Forall_lookup. intros k row. rewrite list_lookup_alter.
  case_decide as Hk.
  - subst k. destruct (base !! i) as [r|] eqn:Hr; intros [= <-].
    pose proof (Forall_lookup_1 _ _ _ _ Hb Hr) as Hlen. simpl in Hlen.
    rewrite length_overlay_row; lia.
  - intros Hr. by apply (Forall_lookup_1 _ _ _ _ Hb Hr).
Qed.

Lemma mget_alter_entry {A} n (x : A) (base : list (list A)) i j i' j' :
  shape n n base → (i < n)%nat → (j < n)%nat →
  mget (alter (λ row, <[j := x]> row) i base) i' j' =
    if decide (i' = i ∧ j' = j) then Some x else mget base i' j'.
Proof.
  intros [Hn Hb] Hi Hj. unfold mget.
  destruct (decide (i' = i)) as [->|Hne].
  - rewrite list_lookup_alter_eq.
    destruct (lookup_lt_is_Some_2 base i) as [row Hrow]; [lia|].
    rewrite Hrow. simpl.
    pose proof (Forall_lookup_1 _ _ _ _ Hb Hrow) as Hlen. simpl in Hlen.
    destruct (decide (j' = j)) as [->|Hj'].
    + rewrite decide_True by done. apply list_lookup_insert_eq. lia.
    + rewrite decide_False by tauto. by apply list_lookup_insert_ne.
  - rewrite list_lookup_alter_ne by done. by rewrite decide_False by tauto.
Qed.

Lemma shape_alter_entry {A} n (x : A) (base : list (list A)) i j :
  shape n n base → shape n n (alter (λ row, <[j := x]> row) i base).
Proof.
  intros [Hn Hb]. split; [by rewrite length_alter|].
  apply Forall_lookup. intros k row. rewrite list_lookup_alter.
  case_decide as Hk.
  - subst k. destruct (base !! i) as [r|] eqn:Hr; intros [= <-].
    rewrite length_insert. by apply (Forall_lookup_1 _ _ _ _ Hb Hr).
  - intros Hr. by apply (Forall_lookup_1 _ _ _ _ Hb Hr).
Qed.

Lemma mget_zip_with {A B C} (f : A → B → C) (t1 : list (list A)) (t2 : list (list B)) i j :
  mget (zip_with (zip_with f) t1 t2) i j =
    match mget t1 i j, mget t2 i j with
    | Some a, Some b => Some (f a b)
    | _, _ => None
    end.
Proof.
  unfold mget. rewrite lookup_zip_with.
  destruct (t1 !! i) as [r1|], (t2 !! i) as [r2|]; simpl; try done.
  - rewrite lookup_zip_with. by destruct (r1 !! j), (r2 !! j).
  - by destruct (r1 !! j).
Qed.

Lemma mget_lt {A} n m (t : list (list A)) i j x :
  shape n m t → mget t i j = Some x → (i < n ∧ j < m)%nat.
Proof.
  intros [Hn Ht]. unfold mget. destruct (t !! i) as [row|] eqn:Hrow; [|done].
  simpl. intros Hj. apply lookup_lt_Some in Hj as Hj'.
  rewrite (Forall_lookup_1 _ _ _ _ Ht Hrow) in Hj'.
  apply lookup_lt_Some in Hrow. lia.
Qed.

Lemma mget_sub_block n m (u l e : list (list float32)) i j :
  shape n n u → shape n n l → shape n n e → (m ≤ n)%nat →
  mget (sub_block m u l e) i j =
    if decide (i < m ∧ j < m)%nat
    then match mget u i j, mget l i j with
         | Some a, Some b => Some (fsub a b)
         | _, _ => None
         end
    else mget e i j.
Proof.
  intros Hu Hl He Hm. unfold sub_block. rewrite mget_overlay.
  set (src := zip_with (zip_with fsub) (block m u) (block m l)).
  assert (shape m m src) as Hsrc.
  { pose proof (shape_block n m u Hu Hm) as [Hu1 Hu2].
    pose proof (shape_block n m l Hl Hm) as [Hl1 Hl2].
    split.
    - unfold src. rewrite length_zip_with. lia.
    - apply Forall_lookup. intros k row. unfold src. rewrite lookup_zip_with.
      destruct (block m u !! k) as [r1|] eqn:H1; [|done]. simpl.
      destruct (block m l !! k) as [r2|] eqn:H2; [|done]. simpl.
      intros [= <-]. rewrite length_zip_with.
      rewrite (Forall_lookup_1 _ _ _ _ Hu2 H1), (Forall_lookup_1 _ _ _ _ Hl2 H2). lia. }
  destruct (decide (i < m)%nat) as [Hi|Hi].
  - destruct (lookup_lt_is_Some_2 src i) as [r Hr]; [destruct Hsrc; lia|].
    destruct (lookup_lt_is_Some_2 e i) as [d Hd]; [destruct He; lia|].
    rewrite Hr, Hd. rewrite (shape_lookup _ _ _ _ _ Hsrc Hr).
    destruct (decide (j < m)%nat) as [Hj|Hj].
    + rewrite decide_True by done.
      change (r !! j) with (Some r ≫= (λ row, row !! j)). rewrite <- Hr.
      change (mget src i j = match mget u i j, mget l i j with
         | Some a, Some b => Some (fsub a b) | _, _ => None end).
      unfold src. rewrite mget_zip_with, !mget_block.
      by rewrite !decide_True by done.
    + rewrite decide_False by tauto. unfold mget. by rewrite Hd.
  - rewrite decide_False by tauto.
    rewrite (lookup_ge_None_2 src i); [done|destruct Hsrc; lia].
Qed.

Lemma shape_sub_block n m (u l e : list (list float32)) :
  shape n n e → (m ≤ n)%nat → shape n n (sub_block m u l e).
Proof.
  intros He Hm. apply shape_overlay; [done|].
  apply Forall_lookup. intros k row. rewrite lookup_zip_with.
  destruct (block m u !! k) as [r1|] eqn:H1; [|done]. simpl.
  destruct (block m l !! k) as [r2|] eqn:H2; [|done]. simpl.
  intros [= <-]. rewrite length_zip_with.
  unfold block in H1. rewrite list_lookup_fmap in H1.
  destruct (take m u !! k); [|done]. simpl in H1. injection H1 as <-.
  rewrite length_take. lia.
Qed.
Lemma Qc_max_spec x y : x ≤ Qc_max x y ∧ y ≤ Qc_max x y ∧ (Qc_max x y = x ∨ Qc_max x y = y).
Proof.
  unfold Qc_max. case_decide as H; repeat split; auto.
  apply Qclt_le_weak. by apply Qclt_nge.
Qed.

Lemma Qc_min_spec x y : Qc_min x y ≤ x ∧ Qc_min x y ≤ y ∧ (Qc_min x y = x ∨ Qc_min x y = y).
Proof.
  unfold Qc_min. case_decide as H; repeat split; auto.
  apply Qclt_le_weak. by apply Qclt_nge.
Qed.

Lemma foldl_Qc_max l x :
  is_max (x :: l) (foldl Qc_max x l).
Proof.
  revert x. induction l as [|y l IH]; intros x; simpl.
  - split; [apply list_elem_of_here|]. by intros z ->%list_elem_of_singleton.
  - destruct (IH (Qc_max x y)) as [Hin Hle].
    destruct (Qc_max_spec x y) as (Hx & Hy & Hor). split.
    + apply elem_of_cons in Hin as [Heq|Hin].
      * rewrite Heq. destruct Hor as [->| ->]; (rewrite ?elem_of_cons; auto).
      * (rewrite ?elem_of_cons; auto).
    + intros z Hz. apply elem_of_cons in Hz as [->|Hz].
      * trans (Qc_max x y); [done|]. apply Hle. (rewrite ?elem_of_cons; auto).
      * apply elem_of_cons in Hz as [->|Hz].
        -- trans (Qc_max x y); [done|]. apply Hle. (rewrite ?elem_of_cons; auto).
        -- apply Hle. (rewrite ?elem_of_cons; auto).
Qed.

Lemma foldl_Qc_min l x :
  is_min (x :: l) (foldl Qc_min x l).
Proof.
  revert x. induction l as [|y l IH]; intros x; simpl.
  - split; [apply list_elem_of_here|]. by intros z ->%list_elem_of_singleton.
  - destruct (IH (Qc_min x y)) as [Hin Hle].
    destruct (Qc_min_spec x y) as (Hx & Hy & Hor). split.
    + apply elem_of_cons in Hin as [Heq|Hin].
      * rewrite Heq. destruct Hor as [->| ->]; (rewrite ?elem_of_cons; auto).
      * (rewrite ?elem_of_cons; auto).
    + intros z Hz. apply elem_of_cons in Hz as [->|Hz].
      * trans (Qc_min x y); [|done]. apply Hle. (rewrite ?elem_of_cons; auto).
      * apply elem_of_cons in Hz as [->|Hz].
        -- trans (Qc_min x y); [|done]. apply Hle. (rewrite ?elem_of_cons; auto).
        -- apply Hle. (rewrite ?elem_of_cons; auto).
Qed.

Lemma reduce_vec_is_Ok f l : l ≠ [] → ∃ u, reduce_vec f l = Ok u.
Proof. destruct l; [done|]. simpl. eauto. Qed.

Lemma reduce_vec_max l u : reduce_vec Qc_max l = Ok u → is_max l u.
Proof. destruct l as [|x l]; [done|]. intros [= <-]. apply foldl_Qc_max. Qed.

Lemma reduce_vec_min l u : reduce_vec Qc_min l = Ok u → is_min l u.
Proof. destruct l as [|x l]; [done|]. intros [= <-]. apply foldl_Qc_min. Qed.

Lemma is_min_le_is_max l lo hi : is_min l lo → is_max l hi → lo ≤ hi.
Proof. intros [Hlo Hmin] [Hhi Hmax]. by apply Hmin. Qed.

(** Reductions down the columns agree with the reduction of each column. *)
Lemma foldl_zip_with_lookup (f : Qc → Qc → Qc) w rs r :
  Forall (λ row, length row = w) rs → length r = w →
  length (foldl (zip_with f) r rs) = w ∧
  ∀ j, (j < w)%nat →
    ∃ x xs, r !! j = Some x ∧ mapM (λ row, row !! j) rs = Some xs ∧
            foldl (zip_with f) r rs !! j = Some (foldl f x xs).
Proof.
  revert r. induction rs as [|r' rs IH]; intros r Hrs Hr; simpl.
  - split; [done|]. intros j Hj.
    destruct (lookup_lt_is_Some_2 r j) as [x Hx]; [lia|]. by exists x, [].
  - apply Forall_cons in Hrs as [Hr' Hrs].
    destruct (IH (zip_with f r r') Hrs) as [Hlen Hcol].
    { rewrite length_zip_with. lia. }
    split; [done|]. intros j Hj.
    destruct (Hcol j Hj) as (x & xs & Hx & Hxs & Hres).
    rewrite lookup_zip_with in Hx.
    destruct (r !! j) as [a|] eqn:Ha; [|done]. simpl in Hx.
    destruct (r' !! j) as [b|] eqn:Hb; [|done]. simpl in Hx. injection Hx as <-.
    exists a, (b :: xs). split; [done|]. split; [|done].
    cbn [mapM]. simpl. by rewrite Hxs.
Qed.

Lemma reduce_rows_spec f w rows res :
  reduce_rows f rows = Ok res → Forall (λ row, length row = w) rows →
  length res = w ∧
  ∀ j, (j < w)%nat →
    ∃ col u, mapM (λ row, row !! j) rows = Some col ∧
             reduce_vec f col = Ok u ∧ res !! j = Some u.
Proof.
  destruct rows as [|r rs]; [done|]. intros [= <-] [Hr Hrs]%Forall_cons.
  destruct (foldl_zip_with_lookup f w rs r Hrs Hr) as [Hlen Hcol].
  split; [done|]. intros j Hj.
  destruct (Hcol j Hj) as (x & xs & Hx & Hxs & Hres).
  exists (x :: xs), (foldl f x xs). split; [|done].
  cbn [mapM]. by rewrite Hx, Hxs.
Qed.

Lemma mapM_compose {A B C} (f : A → option B) (g : B → option C) l k :
  mapM f l = Some k → mapM g k = mapM (λ x, f x ≫= g) l.
Proof.
  revert k. induction l as [|x l IH]; intros k.
  - by intros [= <-].
  - cbn [mapM].
    destruct (f x) as [y|] eqn:Hy; [|done]. simpl.
    destruct (mapM f l) as [k'|] eqn:Hk; [|done]. simpl. intros [= <-].
    cbn [mapM]. by rewrite (IH k').
Qed.

Lemma gather_wide {A} (t : list (list A)) X j :
  Forall (λ row, j < length row)%nat t →
  gather t X j = from_option IndexError (mapM (λ x, mget t x j) X).
Proof. intros Hw. unfold gather. by rewrite bool_decide_true. Qed.

Lemma gather_Ok {A} (t : list (list A)) X j vec :
  gather t X j = Ok vec → mapM (λ x, mget t x j) X = Some vec.
Proof.
  unfold gather. case_bool_decide; [|done].
  destruct (mapM _ X) as [k|]; [|done]. by intros [= <-].
Qed.

Lemma gather_Raise {A} (t : list (list A)) X j e :
  gather t X j = Raise e → e = IndexError.
Proof.
  unfold gather. case_bool_decide; [|by intros [= <-]].
  destruct (mapM _ X) as [k|]; [done|]. by intros [= <-].
Qed.

Lemma gather_no_fuel {A} (t : list (list A)) X j : gather t X j ≠ Fuel.
Proof. unfold gather. case_bool_decide; [|done]. by destruct (mapM _ X). Qed.

Lemma select_rows_gather {A} (t : list (list A)) X rows j :
  Forall (λ row, j < length row)%nat t →
  select_rows t X = Ok rows →
  from_option IndexError (mapM (λ row, row !! j) rows) = gather t X j.
Proof.
  intros Hw. rewrite (gather_wide _ _ _ Hw). unfold select_rows.
  destruct (mapM (λ x, t !! x) X) as [k|] eqn:Hk; [|done]. intros [= <-].
  by rewrite (mapM_compose _ (λ row, row !! j) _ _ Hk).
Qed.
Ltac mred :=
  cbv beta delta [mbind mret M_bind M_ret bind ret get put modify lift guard raise zoom] iota; simpl.

Lemma refresh_row_ok m i X cs nb rows hi lo :
  neighbor cs = Some nb →
  select_rows nb X = Ok rows →
  reduce_rows Qc_max rows = Ok hi →
  reduce_rows Qc_min rows = Ok lo →
  (m ≤ cs_n cs)%nat → (i < m)%nat → length hi = m → length lo = m →
  refresh_row m i X cs =
    (Ok tt, mkColorStatus (cs_v cs) (cs_n cs) (neighbor cs)
              (alter (overlay_row (Fin <$> hi)) i (upper_base cs))
              (alter (overlay_row (Fin <$> lo)) i (lower_base cs))
              (errors_base cs)).
Proof.
  intros Hnb Hrows Hhi Hlo Hm Hi Hlhi Hllo.
  unfold refresh_row, get_neighbor. mred.
  rewrite Hnb. simpl. rewrite Hrows, Hhi, Hlo. unfold set_row.
  rewrite Nat.min_l by lia.
  rewrite !bool_decide_true by (rewrite ?length_fmap; lia). simpl.
  unfold set_lower_base, set_upper_base. simpl. by rewrite Hnb.
Qed.

Lemma mapM_fmap_Some {A B} (f : A → option B) (g : A → B) l :
  Forall (λ x, f x = Some (g x)) l → mapM f l = Some (g <$> l).
Proof.
  induction 1 as [|x l Hx Hl IH]; [done|]. cbn [mapM]. by rewrite Hx, IH.
Qed.

Lemma shape_neighbor_of v w P : shape v (length P) (neighbor_of v w P).
Proof.
  unfold neighbor_of. split; [by rewrite length_fmap, length_seq|].
  apply Forall_fmap, Forall_forall. intros x _. simpl. by rewrite length_fmap.
Qed.

Lemma lookup_neighbor_of v w P x :
  (x < v)%nat → neighbor_of v w P !! x = Some ((λ Y, deg w Y x) <$> P).
Proof.
  intros Hx. unfold neighbor_of. rewrite list_lookup_fmap.
  by rewrite lookup_seq_lt.
Qed.

Lemma mget_neighbor_of v w P x j Y :
  (x < v)%nat → P !! j = Some Y → mget (neighbor_of v w P) x j = Some (deg w Y x).
Proof.
  intros Hx Hj. unfold mget. rewrite lookup_neighbor_of by done. simpl.
  by rewrite list_lookup_fmap, Hj.
Qed.

Lemma select_rows_neighbor_of v w P X :
  Forall (λ x, x < v)%nat X →
  select_rows (neighbor_of v w P) X = Ok ((λ x, (λ Y, deg w Y x) <$> P) <$> X).
Proof.
  intros HX. unfold select_rows. rewrite (mapM_fmap_Some _ (λ x, (λ Y, deg w Y x) <$> P)); [done|].
  eapply Forall_impl; [done|]. intros x Hx. simpl. by apply lookup_neighbor_of.
Qed.

Lemma neighbor_of_wide v w (P : list (list nat)) j :
  (j < length P)%nat → Forall (λ row, j < length row)%nat (neighbor_of v w P).
Proof.
  intros Hj. eapply Forall_impl; [apply (shape_neighbor_of v w P)|].
  intros row Hrow. simpl in Hrow. lia.
Qed.

Lemma gather_neighbor_of v w P X j Y :
  Forall (λ x, x < v)%nat X → P !! j = Some Y →
  gather (neighbor_of v w P) X j = Ok (deg w Y <$> X).
Proof.
  intros HX Hj. rewrite gather_wide.
  2:{ apply neighbor_of_wide. by eapply lookup_lt_Some. }
  rewrite (mapM_fmap_Some _ (deg w Y)); [done|].
  eapply Forall_impl; [done|]. intros x Hx. simpl. by apply mget_neighbor_of.
Qed.

Lemma reduce_rows_is_Ok f rows : rows ≠ [] → ∃ res, reduce_rows f rows = Ok res.
Proof. destruct rows; [done|]. simpl. eauto. Qed.

(** The columnwise reduction of the rows of [X] in an up-to-date [neighbor]. *)
Lemma reduce_rows_neighbor_of f v w P X :
  X ≠ [] → Forall (λ x, x < v)%nat X →
  ∃ res, reduce_rows f ((λ x, (λ Y, deg w Y x) <$> P) <$> X) = Ok res ∧
         length res = length P ∧
         ∀ j Y, P !! j = Some Y →
           ∃ u, reduce_vec f (deg w Y <$> X) = Ok u ∧ res !! j = Some u.
Proof.
  intros HX Hv.
  destruct (reduce_rows_is_Ok f ((λ x, (λ Y, deg w Y x) <$> P) <$> X)) as [res Hres].
  { by destruct X. }
  exists res. split; [done|].
  destruct (reduce_rows_spec f (length P) _ _ Hres) as [Hlen Hcol].
  { apply Forall_fmap, Forall_forall. intros x _. simpl. by rewrite length_fmap. }
  split; [done|]. intros j Y Hj.
  destruct (Hcol j) as (col & u & Hc & Hu & Hr); [by eapply lookup_lt_Some|].
  exists u. split; [|done].
  pose proof (select_rows_neighbor_of v w P X Hv) as Hsel.
  pose proof (select_rows_gather _ _ _ j
                (neighbor_of_wide v w P j (lookup_lt_Some _ _ _ Hj)) Hsel) as Hg.
  rewrite (gather_neighbor_of v w P X j Y Hv Hj), Hc in Hg.
  simpl in Hg. by injection Hg as ->.
Qed.
Lemma refresh_row_spec v w P cs i X (good : nat → nat → Prop) :
  status_pre v w P cs → P !! i = Some X → X ≠ [] → Forall (λ x, x < v)%nat X →
  (∀ a b, good a b → entry_ok w P cs a b) →
  ∃ cs', refresh_row (length P) i X cs = (Ok tt, cs') ∧
         status_pre v w P cs' ∧ cs_n cs' = cs_n cs ∧
         errors_base cs' = errors_base cs ∧
         ∀ a b, good a b ∨ a = i → entry_ok w P cs' a b.
Proof.
  intros [Hcap Hus Hls Hes Hnb] Hi HX Hv Hgood.
  destruct (reduce_rows_neighbor_of Qc_max v w P X HX Hv) as (hi & Hhi & Hlhi & Hhij).
  destruct (reduce_rows_neighbor_of Qc_min v w P X HX Hv) as (lo & Hlo & Hllo & Hloj).
  pose proof (lookup_lt_Some _ _ _ Hi) as Hilt.
  eexists. split.
  { eapply refresh_row_ok; eauto using select_rows_neighbor_of. }
  split; [|split; [done|split; [done|]]].
  - split; simpl; try done.
    + apply shape_alter_row; [done|]. rewrite length_fmap. lia.
    + apply shape_alter_row; [done|]. rewrite length_fmap. lia.
  - intros a b Hab X' Y' Ha Hb. simpl.
    pose proof (lookup_lt_Some _ _ _ Hb) as Hblt.
    rewrite !(mget_alter_row (cs_n cs)) by (done || lia).
    rewrite !length_fmap, Hlhi, Hllo.
    destruct (decide (a = i)) as [->|Hne].
    + rewrite !decide_True by done. rewrite Hi in Ha. injection Ha as <-.
      destruct (Hhij b Y' Hb) as (u & Hu & Hub).
      destruct (Hloj b Y' Hb) as (l & Hl & Hlb).
      exists u, l. rewrite !list_lookup_fmap, Hub, Hlb. done.
    + rewrite !decide_False by tauto.
      destruct Hab as [Hab|?]; [|done]. by apply (Hgood a b Hab).
Qed.

Lemma refresh_entry_ok m i j X cs nb vec hi lo :
  neighbor cs = Some nb →
  gather nb X j = Ok vec →
  reduce_vec Qc_max vec = Ok hi →
  reduce_vec Qc_min vec = Ok lo →
  (m ≤ cs_n cs)%nat → (i < m)%nat → (j < m)%nat →
  refresh_entry m i j X cs =
    (Ok tt, mkColorStatus (cs_v cs) (cs_n cs) (neighbor cs)
              (alter (λ row, <[j := Fin hi]> row) i (upper_base cs))
              (alter (λ row, <[j := Fin lo]> row) i (lower_base cs))
              (errors_base cs)).
Proof.
  intros Hnb Hvec Hhi Hlo Hm Hi Hj.
  unfold refresh_entry, get_neighbor. mred.
  rewrite Hnb. simpl. rewrite Hvec, Hhi, Hlo. unfold set_entry.
  rewrite !bool_decide_true by lia. simpl.
  unfold set_lower_base, set_upper_base. simpl. by rewrite Hnb.
Qed.

Lemma refresh_entry_spec v w P cs i j X Y (good : nat → nat → Prop) :
  status_pre v w P cs → P !! i = Some X → P !! j = Some Y →
  X ≠ [] → Forall (λ x, x < v)%nat X →
  (∀ a b, good a b → entry_ok w P cs a b) →
  ∃ cs', refresh_entry (length P) i j X cs = (Ok tt, cs') ∧
         status_pre v w P cs' ∧ cs_n cs' = cs_n cs ∧
         errors_base cs' = errors_base cs ∧
         ∀ a b, good a b ∨ (a = i ∧ b = j) → entry_ok w P cs' a b.
Proof.
  intros [Hcap Hus Hls Hes Hnb] Hi Hj HX Hv Hgood.
  destruct (reduce_vec_is_Ok Qc_max (deg w Y <$> X)) as [hi Hhi]; [by destruct X|].
  destruct (reduce_vec_is_Ok Qc_min (deg w Y <$> X)) as [lo Hlo]; [by destruct X|].
  pose proof (lookup_lt_Some _ _ _ Hi) as Hilt.
  pose proof (lookup_lt_Some _ _ _ Hj) as Hjlt.
  eexists. split.
  { eapply refresh_entry_ok; eauto using gather_neighbor_of. }
  split; [|split; [done|split; [done|]]].
  - split; simpl; try done; by apply shape_alter_entry.
  - intros a b Hab X' Y' Ha Hb. simpl.
    rewrite !(mget_alter_entry (cs_n cs)) by (done || lia).
    destruct (decide (a = i ∧ b = j)) as [[-> ->]|Hne].
    + rewrite Hi in Ha. rewrite Hj in Hb. injection Ha as <-. injection Hb as <-.
      by exists hi, lo.
    + destruct Hab as [Hab|?]; [|done]. by apply (Hgood a b Hab).
Qed.

Lemma refresh_errors_spec v w P cs :
  status_pre v w P cs →
  (∀ a b, entry_ok w P cs a b) →
  ∃ cs', refresh_errors (length P) cs = (Ok tt, cs') ∧ status_ok v w P cs' ∧
         cs_n cs' = cs_n cs.
Proof.
  intros [Hcap Hus Hls Hes Hnb] Hall. eexists. split; [reflexivity|].
  split; [|done]. split; simpl; try done.
  - by apply shape_sub_block.
  - intros i j X Y Hi Hj.
    destruct (Hall i j X Y Hi Hj) as (hi & lo & Hhi & Hlo & Hu & Hl).
    exists hi, lo. repeat (split; [done|]).
    rewrite (mget_sub_block (cs_n cs)) by done.
    apply lookup_lt_Some in Hi, Hj.
    rewrite decide_True by done. by rewrite Hu, Hl.
Qed.

Lemma for_each_ok {St A} (Inv : nat → St → Prop) (l : list A) (f : A → M St unit) s :
  Inv 0%nat s →
  (∀ k x s, l !! k = Some x → Inv k s → ∃ s', f x s = (Ok tt, s') ∧ Inv (S k) s') →
  ∃ s', for_each l f s = (Ok tt, s') ∧ Inv (length l) s'.
Proof.
  revert Inv s. induction l as [|x l IH]; intros Inv s H0 Hstep.
  - exists s. done.
  - destruct (Hstep 0%nat x s eq_refl H0) as (s1 & Hf & H1).
    destruct (IH (λ k, Inv (S k)) s1 H1) as (s2 & Hl & H2).
    { intros k y s' Hy Hk. by apply (Hstep (S k)). }
    exists s2. split; [|done]. simpl. by rewrite (bind_ok _ _ _ _ _ Hf).
Qed.

Lemma lookup_enumerate {A} (l : list A) k :
  enumerate l !! k = pair k <$> l !! k.
Proof. unfold enumerate. apply list_lookup_imap. Qed.
Global Arguments Qc_sum : simpl never.

Lemma Qc_sum_cons x l : Qc_sum (x :: l) = x + Qc_sum l.
Proof. reflexivity. Qed.

Lemma Qc_sum_nil : Qc_sum [] = 0.
Proof. reflexivity. Qed.

Lemma Qc_sum_app l1 l2 : Qc_sum (l1 ++ l2) = Qc_sum l1 + Qc_sum l2.
Proof.
  induction l1 as [|x l1 IH]; simpl.
  - by rewrite Qc_sum_nil, Qcplus_0_l.
  - rewrite !Qc_sum_cons, IH. ring.
Qed.

Lemma Qc_sum_zero {A} (f : A → Qc) l :
  (∀ x, x ∈ l → f x = 0) → Qc_sum (f <$> l) = 0.
Proof.
  induction l as [|x l IH]; intros H; [done|].
  rewrite fmap_cons, Qc_sum_cons. rewrite H by apply list_elem_of_here.
  rewrite IH; [ring|]. intros y Hy. apply H. by apply list_elem_of_further.
Qed.

Lemma Qc_sum_plus {A} (f g : A → Qc) l :
  Qc_sum ((λ x, f x + g x) <$> l) = Qc_sum (f <$> l) + Qc_sum (g <$> l).
Proof.
  induction l as [|x l IH]; [rewrite !fmap_nil, !Qc_sum_nil; ring|].
  rewrite !fmap_cons, !Qc_sum_cons, IH. ring.
Qed.

Lemma Qc_sum_ext {A} (f g : A → Qc) l :
  (∀ x, x ∈ l → f x = g x) → Qc_sum (f <$> l) = Qc_sum (g <$> l).
Proof.
  intros H. f_equal. apply list_fmap_ext. intros i x Hx. apply H.
  by eapply list_elem_of_lookup_2.
Qed.

(** Summing [f] against the indicator of [y] picks [f y]. *)
Lemma Qc_sum_indicator (f : nat → Qc) (y a n : nat) :
  Qc_sum ((λ k, f k * (if decide (y = k) then 1 else 0)) <$> seq a n) =
    if decide (a ≤ y < a + n)%nat then f y else 0.
Proof.
  revert a. induction n as [|n IH]; intros a.
  - simpl. by rewrite decide_False by lia.
  - cbn [seq]. rewrite fmap_cons, Qc_sum_cons, IH.
    destruct (decide (y = a)) as [->|Hne].
    + rewrite decide_False by lia. rewrite decide_True by lia. ring.
    + destruct (decide (S a ≤ y < S a + n)%nat).
      * rewrite decide_True by lia. ring.
      * rewrite decide_False by lia. ring.
Qed.

(** The number of times [(k, c)] occurs among the index pairs written by
    [partition_matrix] is the number of times [k] occurs in color [c]. *)
Lemma count_entries (P : list (list nat)) (off c k : nat) Y :
  P !! c = Some Y →
  Qc_sum ((λ e, if decide (e = (k, off + c)%nat) then 1 else 0)
            <$> mjoin (imap (λ c X, (λ x, (x, (off + c)%nat)) <$> X) P)) =
  Qc_sum ((λ y, if decide (y = k) then 1 else 0) <$> Y).
Proof.
  revert off c. induction P as [|X P IH]; intros off c HY; [done|].
  rewrite imap_cons. cbn [mjoin list_join]. rewrite fmap_app, Qc_sum_app.
  destruct c as [|c].
  - injection HY as ->. rewrite <- list_fmap_compose.
    rewrite (Qc_sum_zero _ (mjoin _)).
    + rewrite Qcplus_0_r. apply Qc_sum_ext. intros y _. simpl.
      destruct (decide (y = k)) as [->|Hne].
      * by rewrite decide_True.
      * rewrite decide_False; [done|]. by intros [= ?].
    + intros [x c'] Hin. apply list_elem_of_join in Hin as (l & Hin & Hl).
      apply list_elem_of_lookup in Hl as (i & Hl).
      rewrite list_lookup_imap in Hl. destruct (P !! i); [|done].
      simpl in Hl. injection Hl as <-.
      apply list_elem_of_fmap in Hin as (x' & [= -> ->] & _).
      rewrite decide_False; [done|]. intros [= ? ?]. lia.
  - simpl in HY. rewrite <- list_fmap_compose. rewrite (Qc_sum_zero _ X).
    + rewrite Qcplus_0_l.
      rewrite <- (IH (S off) c HY).
      replace (off + S c)%nat with (S off + c)%nat by lia.
      do 3 f_equal. apply imap_ext. intros i Z _. simpl.
      apply list_fmap_ext. intros _ x _. f_equal. lia.
    + intros x _. simpl. rewrite decide_False; [done|]. intros [= ? ?]. lia.
Qed.

Lemma Qc_sum_against_count (f : nat → Qc) v Y :
  Forall (λ y, y < v)%nat Y →
  Qc_sum ((λ k, f k * Qc_sum ((λ y, if decide (y = k) then 1 else 0) <$> Y))
            <$> seq 0 v) = Qc_sum (f <$> Y).
Proof.
  induction 1 as [|y Y Hy HY IH].
  - rewrite Qc_sum_zero; [done|]. intros k _. rewrite fmap_nil, Qc_sum_nil. ring.
  - rewrite (fmap_cons f), Qc_sum_cons. rewrite <- IH.
    transitivity (Qc_sum ((λ k, f k * (if decide (y = k) then 1 else 0)) <$> seq 0 v)
                  + Qc_sum ((λ k, f k * Qc_sum ((λ y, if decide (y = k) then 1 else 0) <$> Y)) <$> seq 0 v)).
    + rewrite <- Qc_sum_plus. apply Qc_sum_ext. intros k _.
      rewrite fmap_cons, Qc_sum_cons. ring.
    + rewrite Qc_sum_indicator. rewrite decide_True by lia. ring.
Qed.
(** *** Partitions *)

Lemma valid_partition_lt v P X x :
  valid_partition v P → X ∈ P → x ∈ X → (x < v)%nat.
Proof.
  intros [_ Hperm] HX Hx.
  assert (x ∈ mjoin P) as Hin by (apply list_elem_of_join; eauto).
  rewrite Hperm in Hin. apply elem_of_seq in Hin. lia.
Qed.

Lemma valid_partition_Forall_lt v P i X :
  valid_partition v P → P !! i = Some X → Forall (λ x, x < v)%nat X.
Proof.
  intros HP Hi. apply Forall_forall. intros x Hx.
  eapply valid_partition_lt; eauto. by eapply list_elem_of_lookup_2.
Qed.

Lemma valid_partition_nonempty v P i X :
  valid_partition v P → P !! i = Some X → X ≠ [].
Proof. intros [Hne _] Hi. by apply (Forall_lookup_1 _ _ _ _ Hne Hi). Qed.

Lemma join_cons {A} (X : list A) (P : list (list A)) : mjoin (X :: P) = X ++ mjoin P.
Proof. reflexivity. Qed.

Lemma length_join_nonempty {A} (P : list (list A)) :
  Forall (λ X, X ≠ []) P → (length P ≤ length (mjoin P))%nat.
Proof.
  induction 1 as [|X P HX HP IH]; [done|].
  rewrite join_cons, length_app.
  destruct X; [done|]. rewrite !length_cons. lia.
Qed.

Lemma valid_partition_length v P : valid_partition v P → (length P ≤ v)%nat.
Proof.
  intros [Hne Hperm]. pose proof (length_join_nonempty P Hne) as H.
  apply Permutation_length in Hperm. rewrite length_seq in Hperm. lia.
Qed.

Lemma valid_partition_init v : (0 < v)%nat → valid_partition v [seq 0 v].
Proof.
  intros Hv. split.
  - apply Forall_singleton. destruct v; [lia|done].
  - simpl. by rewrite app_nil_r.
Qed.

(** *** [partition_matrix] and the product with the weights *)

Lemma length_entries (P : list (list nat)) off :
  length (mjoin (imap (λ c X, (λ x, (x, (off + c)%nat)) <$> X) P)) = length (mjoin P).
Proof.
  revert off. induction P as [|X P IH]; intros off; [done|].
  rewrite imap_cons, !join_cons, !length_app, length_fmap.
  f_equal. rewrite <- (IH (S off)). do 2 f_equal. apply imap_ext.
  intros i Z _. simpl. apply list_fmap_ext. intros _ x _. f_equal. lia.
Qed.

Lemma partition_matrix_ok v G s :
  num_nodes G = v → valid_partition v (p (self s)) →
  partition_matrix G s =
    (Ok (mk_sparse_coo v (length (p (self s)))
           (mjoin (imap (λ c X, (λ x, (x, c)) <$> X) (p (self s))))
           (replicate v 1)), s).
Proof.
  intros <- HP. unfold partition_matrix. mred.
  set (entries := mjoin (imap (λ c X, (λ x, (x, c)) <$> X) (p (self s)))).
  assert (length entries = num_nodes G) as Hlen.
  { unfold entries. rewrite (length_entries _ 0).
    destruct HP as [_ Hperm]. apply Permutation_length in Hperm.
    by rewrite length_seq in Hperm. }
  rewrite Hlen. rewrite bool_decide_true by lia. simpl.
  replace (num_nodes G - num_nodes G)%nat with 0%nat by lia. simpl.
  rewrite !app_nil_r. unfold sparse_coo_tensor.
  rewrite bool_decide_true.
  - by rewrite zip_fst_snd.
  - split.
    + apply Forall_fmap, Forall_forall. intros [x c] Hin. simpl.
      apply list_elem_of_join in Hin as (l & Hin & Hl).
      apply list_elem_of_lookup in Hl as (i & Hl).
      rewrite list_lookup_imap in Hl.
      destruct (p (self s) !! i) as [X|] eqn:HX; [|done].
      simpl in Hl. injection Hl as <-.
      apply list_elem_of_fmap in Hin as (x' & [= -> ->] & Hx).
      eapply valid_partition_lt; eauto. by eapply list_elem_of_lookup_2.
    + apply Forall_fmap, Forall_forall. intros [x c] Hin. simpl.
      apply list_elem_of_join in Hin as (l & Hin & Hl).
      apply list_elem_of_lookup in Hl as (i & Hl).
      rewrite list_lookup_imap in Hl.
      destruct (p (self s) !! i) as [X|] eqn:HX; [|done].
      simpl in Hl. injection Hl as <-.
      apply list_elem_of_fmap in Hin as (x' & [= -> ->] & Hx).
      by eapply lookup_lt_Some.
Qed.

(** [torch.mm(weights, p_sparse.to_dense())] is the node-by-color matrix. *)
Lemma mm_to_dense v w P :
  valid_partition v P →
  mm v (length P) w
     (to_dense (mk_sparse_coo v (length P)
                  (mjoin (imap (λ c X, (λ x, (x, c)) <$> X) P)) (replicate v 1)))
  = neighbor_of v w P.
Proof.
  intros HP. unfold mm, neighbor_of. apply list_fmap_ext. intros _ r _.
  apply list_eq. intros c. rewrite !list_lookup_fmap.
  destruct (P !! c) as [Y|] eqn:HY.
  - rewrite lookup_seq_lt by (by eapply lookup_lt_Some). simpl. f_equal.
    unfold deg. rewrite <- (Qc_sum_against_count (w r) v Y)
      by (by eapply valid_partition_Forall_lt).
    apply Qc_sum_ext. intros k Hk%elem_of_seq. f_equal.
    unfold to_dense, mget. simpl.
    rewrite list_lookup_fmap, lookup_seq_lt by lia. simpl.
    rewrite list_lookup_fmap, lookup_seq_lt by (by eapply lookup_lt_Some). simpl.
    rewrite <- (count_entries P 0 c k Y HY).
    set (entries := mjoin (imap (λ c X, (λ x, (x, c)) <$> X) P)).
    assert (length entries = v) as Hlen.
    { unfold entries. rewrite (length_entries _ 0).
      destruct HP as [_ Hperm]. apply Permutation_length in Hperm.
      by rewrite length_seq in Hperm. }
    rewrite (zip_with_replicate_r_eq pair v 1 entries Hlen).
    rewrite <- list_fmap_compose. done.
  - rewrite lookup_seq_ge; [done|]. by apply lookup_ge_None.
Qed.
(** *** Running on one of the two statuses *)

Lemma zoom_ok {A} d (m : M ColorStatus A) s a cs' :
  m (color_status d s) = (Ok a, cs') → zoom d m s = (Ok a, set_color_status d cs' s).
Proof. intros H. unfold zoom. by rewrite H. Qed.

Lemma color_status_set_eq d cs s : color_status d (set_color_status d cs s) = cs.
Proof. by destruct d. Qed.

Lemma self_set_color_status d cs s : self (set_color_status d cs s) = self s.
Proof. by destruct d. Qed.

Lemma set_color_status_set d cs cs' s :
  set_color_status d cs' (set_color_status d cs s) = set_color_status d cs' s.
Proof. by destruct d. Qed.

Lemma color_status_set_ne d d' cs s :
  d ≠ d' → color_status d' (set_color_status d cs s) = color_status d' s.
Proof. by destruct d, d'. Qed.

(** *** [init_status] *)

Lemma refresh_rows_spec v w P cs :
  valid_partition v P → status_pre v w P cs →
  ∃ cs', for_each (enumerate P) (λ iX, refresh_row (length P) iX.1 iX.2) cs = (Ok tt, cs') ∧
         status_pre v w P cs' ∧ cs_n cs' = cs_n cs ∧
         errors_base cs' = errors_base cs ∧
         ∀ a b, entry_ok w P cs' a b.
Proof.
  intros HP Hpre.
  destruct (for_each_ok
    (λ k cs', status_pre v w P cs' ∧ cs_n cs' = cs_n cs ∧
              errors_base cs' = errors_base cs ∧
              ∀ a b, (a < k)%nat → entry_ok w P cs' a b)
    (enumerate P) (λ iX, refresh_row (length P) iX.1 iX.2) cs) as (cs' & Hrun & Hinv).
  - repeat split; try done; try apply Hpre. intros a b Ha. lia.
  - intros k [i X] cs1 Hk (Hpre1 & Hn1 & He1 & Hgood).
    rewrite lookup_enumerate in Hk.
    destruct (P !! k) as [X'|] eqn:HX; [|done]. simpl in Hk. injection Hk as <- <-.
    destruct (refresh_row_spec v w P cs1 k X' (λ a b, a < k)%nat) as (cs2 & Hrun & Hpre2 & Hn2 & He2 & Hgood2);
      eauto using valid_partition_nonempty, valid_partition_Forall_lt.
    exists cs2. simpl. repeat split; try done; try apply Hpre2; try congruence.
    intros a b Ha. apply Hgood2. lia.
  - exists cs'. destruct Hinv as (Hpre' & Hn' & He' & Hgood).
    repeat split; try done; try apply Hpre'.
    unfold enumerate in Hgood. rewrite length_imap in Hgood.
    intros a b X Y Ha Hb. apply Hgood; [|done..]. by eapply lookup_lt_Some.
Qed.

Lemma init_status_spec G d w s :
  let v := num_nodes G in
  let P := p (self s) in
  let cs := color_status d s in
  valid_partition v P →
  (length P ≤ cs_n cs)%nat →
  shape (cs_n cs) (cs_n cs) (upper_base cs) →
  shape (cs_n cs) (cs_n cs) (lower_base cs) →
  shape (cs_n cs) (cs_n cs) (errors_base cs) →
  ∃ cs', init_status G d w s = (Ok tt, set_color_status d cs' s) ∧
         status_ok v w P cs' ∧ cs_n cs' = cs_n cs.
Proof.
  intros v P cs HP Hcap Hus Hls Hes.
  unfold init_status.
  rewrite (bind_ok _ _ _ _ _ (partition_matrix_ok v G s eq_refl HP)).
  set (cs1 := set_neighbor (mm v (length P) w (to_dense (mk_sparse_coo v (length P)
                  (mjoin (imap (λ c X, (λ x, (x, c)) <$> X) P)) (replicate v 1)))) cs).
  assert (status_pre v w P cs1) as Hpre1.
  { split; try done. simpl. f_equal. by apply mm_to_dense. }
  rewrite (bind_ok _ _ _ tt (set_color_status d cs1 s)) by (by apply zoom_ok).
  rewrite (bind_ok _ _ _ (set_color_status d cs1 s) (set_color_status d cs1 s)) by done.
  rewrite self_set_color_status. fold P.
  destruct (refresh_rows_spec v w P cs1 HP Hpre1) as (cs2 & Hrun2 & Hpre2 & Hn2 & He2 & Hgood2).
  rewrite (bind_ok _ _ _ tt (set_color_status d cs2 s)).
  2:{ rewrite (zoom_ok _ _ _ tt cs2); [by rewrite set_color_status_set|].
      by rewrite color_status_set_eq. }
  destruct (refresh_errors_spec v w P cs2 Hpre2 Hgood2) as (cs3 & Hrun3 & Hok3 & Hn3).
  exists cs3. split; [|split; [done|]].
  - rewrite (zoom_ok _ _ _ tt cs3); [by rewrite set_color_status_set|].
    by rewrite color_status_set_eq.
  - rewrite Hn3, Hn2. done.
Qed.
(** *** [update_status] *)

Lemma zip_with_fmap_same {A B C D} (F : B → C → D) (g : A → B) (h : A → C) l :
  zip_with F (g <$> l) (h <$> l) = (λ x, F (g x) (h x)) <$> l.
Proof. induction l as [|x l IH]; [done|]. rewrite !fmap_cons. simpl. by rewrite IH. Qed.

Lemma column_sums_ok v w Y :
  Forall (λ x, x < v)%nat Y → column_sums v w Y = Ok ((λ r, deg w Y r) <$> seq 0 v).
Proof. intros H. unfold column_sums. by rewrite bool_decide_true. Qed.

Lemma set_column_fmap {A} j (g : A → list Qc) (h : A → Qc) (l : list A) :
  (∀ x, x ∈ l → j < length (g x))%nat →
  set_column j (h <$> l) (g <$> l) = Ok ((λ x, <[j := h x]> (g x)) <$> l).
Proof.
  intros H. unfold set_column. rewrite bool_decide_true.
  - rewrite bool_decide_true by (by rewrite !length_fmap).
    by rewrite zip_with_fmap_same.
  - apply Forall_fmap, Forall_forall. intros x Hx. simpl. by apply H.
Qed.

(** The three writes to [neighbor] bring it up to date for the split
    partition. *)
Lemma neighbor_update v w P i retain eject :
  (i < length P)%nat →
  ∃ nb1,
    set_column i ((λ r, deg w retain r) <$> seq 0 v)
      (cat_zero_column (neighbor_of v w P)) = Ok nb1 ∧
    set_column (length (<[i := retain]> P ++ [eject]) - 1)
      ((λ r, deg w eject r) <$> seq 0 v) nb1 =
      Ok (neighbor_of v w (<[i := retain]> P ++ [eject])).
Proof.
  intros Hi. unfold cat_zero_column, neighbor_of.
  rewrite <- list_fmap_compose. eexists. split.
  - apply set_column_fmap. intros x _. simpl.
    rewrite length_app, length_fmap. lia.
  - rewrite length_app, length_insert. simpl.
    replace (length P + 1 - 1)%nat with (length P) by lia.
    rewrite set_column_fmap.
    + f_equal. apply list_fmap_ext. intros _ x _. simpl.
      rewrite fmap_app, list_fmap_insert. simpl.
      rewrite insert_app_l by (rewrite length_fmap; lia).
      rewrite <- (length_fmap (λ Y, deg w Y x) P) at 1.
      rewrite <- (length_insert ((λ Y, deg w Y x) <$> P) i (deg w retain x)).
      rewrite insert_app_r_alt by lia.
      by rewrite Nat.sub_diag.
    + intros x _. rewrite length_insert. simpl.
      rewrite length_app, length_fmap. simpl. lia.
Qed.

Lemma refresh_entries_spec v w P cs i m (good : nat → nat → Prop) Yi Ym :
  valid_partition v P → status_pre v w P cs →
  P !! i = Some Yi → P !! m = Some Ym →
  (∀ a b, good a b → entry_ok w P cs a b) →
  ∃ cs', for_each (enumerate P)
           (λ iX, refresh_entry (length P) iX.1 i iX.2;;
                  refresh_entry (length P) iX.1 m iX.2) cs = (Ok tt, cs') ∧
         status_pre v w P cs' ∧ cs_n cs' = cs_n cs ∧
         ∀ a b, good a b ∨ b = i ∨ b = m → entry_ok w P cs' a b.
Proof.
  intros HP Hpre Hi Hm Hgood0.
  destruct (for_each_ok
    (λ k cs', status_pre v w P cs' ∧ cs_n cs' = cs_n cs ∧
              ∀ a b, good a b ∨ ((a < k)%nat ∧ (b = i ∨ b = m)) → entry_ok w P cs' a b)
    (enumerate P)
    (λ iX, refresh_entry (length P) iX.1 i iX.2;;
           refresh_entry (length P) iX.1 m iX.2) cs) as (cs' & Hrun & Hinv).
  - repeat split; try done; try apply Hpre.
    intros a b [Hab|[Ha _]]; [by apply Hgood0|lia].
  - intros k [k' X] cs1 Hk (Hpre1 & Hn1 & Hgood).
    rewrite lookup_enumerate in Hk.
    destruct (P !! k) as [X'|] eqn:HX; [|done]. simpl in Hk. injection Hk as <- <-.
    destruct (refresh_entry_spec v w P cs1 k i X' Yi _ Hpre1 HX Hi
                (valid_partition_nonempty _ _ _ _ HP HX)
                (valid_partition_Forall_lt _ _ _ _ HP HX) Hgood)
      as (cs2 & Hrun2 & Hpre2 & Hn2 & _ & Hgood2).
    destruct (refresh_entry_spec v w P cs2 k m X' Ym _ Hpre2 HX Hm
                (valid_partition_nonempty _ _ _ _ HP HX)
                (valid_partition_Forall_lt _ _ _ _ HP HX) Hgood2)
      as (cs3 & Hrun3 & Hpre3 & Hn3 & _ & Hgood3).
    exists cs3. simpl. split; [by rewrite (bind_ok _ _ _ _ _ Hrun2)|].
    split; [done|]. split; [congruence|].
    intros a b Hab. apply Hgood3.
    destruct Hab as [Hab|[Ha Hb]]; [by auto|].
    destruct (decide (a = k)) as [->|Hne].
    + destruct Hb as [->| ->]; [left; right|right]; done.
    + left. left. right. split; [lia|done].
  - exists cs'. destruct Hinv as (Hpre' & Hn' & Hgood).
    repeat split; try done; try apply Hpre'.
    unfold enumerate in Hgood. rewrite length_imap in Hgood.
    intros a b Hab X Y Ha Hb. apply Hgood; [|done..].
    destruct Hab as [Hab|Hb']; [by left|]. right. split; [|done].
    by eapply lookup_lt_Some.
Qed.
Lemma set_color_status_id d s : set_color_status d (color_status d s) s = s.
Proof. by destruct d, s. Qed.

Lemma zoom_step {A B} d (m : M ColorStatus A) (k : A → M Frame B) s cs a cs' :
  m cs = (Ok a, cs') →
  (zoom d m ≫= k) (set_color_status d cs s) = k a (set_color_status d cs' s).
Proof.
  intros H. apply bind_ok. rewrite (zoom_ok d m _ a cs').
  - by rewrite set_color_status_set.
  - by rewrite color_status_set_eq.
Qed.

Lemma zoom_last {A} d (m : M ColorStatus A) s cs a cs' :
  m cs = (Ok a, cs') →
  zoom d m (set_color_status d cs s) = (Ok a, set_color_status d cs' s).
Proof.
  intros H. rewrite (zoom_ok d m _ a cs').
  - by rewrite set_color_status_set.
  - by rewrite color_status_set_eq.
Qed.

Lemma lift_step {St A B} (a : A) (k : A → M St B) s :
  (lift (Ok a) ≫= k) s = k a s.
Proof. reflexivity. Qed.

Lemma get_step {St B} (k : St → M St B) s : (get ≫= k) s = k s s.
Proof. reflexivity. Qed.

Lemma update_status_spec G d w s P i retain eject :
  let v := num_nodes G in
  let cs := color_status d s in
  let P' := <[i := retain]> P ++ [eject] in
  p (self s) = P' →
  valid_partition v P' →
  status_ok v w P cs →
  (i < length P)%nat →
  (length P < cs_n cs)%nat →
  ∃ cs', update_status G d w i (length (p (self s)) - 1) s
           = (Ok tt, set_color_status d cs' s) ∧
         status_ok v w P' cs' ∧ cs_n cs' = cs_n cs.
Proof.
  intros v cs P' HP' Hvalid Hok Hi Hcap.
  assert (length P' = S (length P)) as Hlen.
  { unfold P'. rewrite length_app, length_insert. simpl. lia. }
  assert (P' !! i = Some retain) as Hold.
  { unfold P'. rewrite lookup_app_l by (rewrite length_insert; lia).
    by apply list_lookup_insert_eq. }
  assert (P' !! length P = Some eject) as Hnew.
  { unfold P'. rewrite lookup_app_r by (rewrite length_insert; lia).
    rewrite length_insert, Nat.sub_diag. done. }
  pose proof (valid_partition_Forall_lt _ _ _ _ Hvalid Hold) as Hvold.
  pose proof (valid_partition_Forall_lt _ _ _ _ Hvalid Hnew) as Hvnew.
  destruct Hok as [Hc Hus Hls Hes Hnb Hblock].
  destruct (neighbor_update v w P i retain eject Hi) as (nb1 & Hnb1 & Hnb2).
  fold P' in Hnb2. rewrite Hlen in Hnb2. simpl in Hnb2. rewrite Nat.sub_0_r in Hnb2.
  (* the status once [neighbor] is up to date *)
  set (cs1 := set_neighbor (neighbor_of v w P') cs).
  assert (status_pre v w P' cs1) as Hpre1.
  { split; try done. simpl. fold cs. lia. }
  assert (∀ a b, (a ≠ i ∧ a ≠ length P ∧ b ≠ i ∧ b ≠ length P) → entry_ok w P' cs1 a b) as Hgood1.
  { intros a b (Ha1 & Ha2 & Hb1 & Hb2) X Y Ha Hb. simpl.
    assert (P !! a = Some X) as Ha'.
    { apply lookup_lt_Some in Ha as Halt. rewrite Hlen in Halt.
      unfold P' in Ha. rewrite lookup_app_l in Ha by (rewrite length_insert; lia).
      by rewrite list_lookup_insert_ne in Ha. }
    assert (P !! b = Some Y) as Hb'.
    { apply lookup_lt_Some in Hb as Hblt. rewrite Hlen in Hblt.
      unfold P' in Hb. rewrite lookup_app_l in Hb by (rewrite length_insert; lia).
      by rewrite list_lookup_insert_ne in Hb. }
    destruct (Hblock a b X Y Ha' Hb') as (hi & lo & ? & ? & ? & ? & _).
    by exists hi, lo. }
  destruct (refresh_row_spec v w P' cs1 i retain _ Hpre1 Hold
              (valid_partition_nonempty _ _ _ _ Hvalid Hold) Hvold Hgood1)
    as (cs2 & Hrun2 & Hpre2 & Hn2 & He2 & Hgood2).
  destruct (refresh_row_spec v w P' cs2 (length P) eject _ Hpre2 Hnew
              (valid_partition_nonempty _ _ _ _ Hvalid Hnew) Hvnew Hgood2)
    as (cs3 & Hrun3 & Hpre3 & Hn3 & He3 & Hgood3).
  destruct (refresh_entries_spec v w P' cs3 i (length P) _ retain eject
              Hvalid Hpre3 Hold Hnew Hgood3)
    as (cs4 & Hrun4 & Hpre4 & Hn4 & Hgood4).
  destruct (refresh_errors_spec v w P' cs4 Hpre4) as (cs5 & Hrun5 & Hok5 & Hn5).
  { intros a b. apply Hgood4.
    destruct (decide (a = i)); [by auto|]. destruct (decide (a = length P)); [by auto|].
    destruct (decide (b = i)); [by auto|]. destruct (decide (b = length P)); [by auto|].
    left. left. left. done. }
  exists cs5. split; [|split; [done|]].
  2:{ rewrite Hn5, Hn4, Hn3, Hn2. done. }
  replace (length (p (self s)) - 1)%nat with (length P) by (rewrite HP'; lia).
  unfold update_status. rewrite get_step, HP'.
  rewrite Hold. simpl. rewrite lift_step. rewrite Hnew. simpl. rewrite lift_step.
  rewrite <- (set_color_status_id d s) at 1. fold cs.
  rewrite (zoom_step d _ _ s cs tt (set_neighbor (cat_zero_column (neighbor_of v w P)) cs)).
  2:{ unfold get_neighbor. mred. by rewrite Hnb. }
  rewrite !column_sums_ok by done. rewrite !lift_step.
  rewrite (zoom_step d _ _ s _ tt (set_neighbor nb1 cs)).
  2:{ unfold get_neighbor. mred. fold v. by rewrite Hnb1. }
  rewrite (zoom_step d _ _ s _ tt cs1).
  2:{ unfold get_neighbor. mred. fold v. by rewrite Hnb2. }
  rewrite (zoom_step d _ _ s _ tt cs2) by done.
  rewrite (zoom_step d _ _ s _ tt cs3) by done.
  rewrite (zoom_step d _ _ s _ tt cs4) by done.
  by apply zoom_last.
Qed.
(** *** [split_color] *)

Lemma mask_select_filter {A} (f : A → bool) (arr : list A) :
  mask_select arr (f <$> arr) = filter (λ x, f x = true) arr.
Proof.
  induction arr as [|x arr IH]; [done|]. rewrite fmap_cons. simpl.
  rewrite filter_cons. destruct (f x) eqn:Hf.
  - rewrite decide_True by done. by rewrite IH.
  - rewrite decide_False by done. by rewrite IH.
Qed.

Lemma gather_above {A} (t : list (list A)) X j vec (f : A → bool) :
  gather t X j = Ok vec →
  f <$> vec = (λ x, match mget t x j with Some q => f q | None => false end) <$> X.
Proof.
  intros Hk%gather_Ok.
  apply mapM_Some in Hk. induction Hk as [|x y X k Hx Hk IH]; [done|].
  rewrite !fmap_cons, IH, Hx. done.
Qed.

Lemma gather_length {A} (t : list (list A)) X j vec :
  gather t X j = Ok vec → length vec = length X.
Proof.
  intros Hk%gather_Ok.
  symmetry. by eapply length_mapM.
Qed.

(** The eject side holds the nodes above the threshold, the retain side the
    others, both in the order of the color. *)
Lemma eject_of_filter nb arr j split thr :
  gather nb arr j = Ok split →
  eject_of arr split thr = filter (λ x, above nb j thr x = true) arr.
Proof.
  intros Hg. unfold eject_of.
  rewrite (gather_above _ _ _ _ (λ q, fgtb (Fin q) thr) Hg).
  apply (mask_select_filter (above nb j thr)).
Qed.

Lemma retain_of_filter nb arr j split thr :
  gather nb arr j = Ok split →
  retain_of arr split thr = filter (λ x, above nb j thr x = false) arr.
Proof.
  intros Hg. unfold retain_of.
  rewrite (gather_above _ _ _ _ (λ q, fgtb (Fin q) thr) Hg).
  rewrite <- list_fmap_compose.
  rewrite (mask_select_filter (negb ∘ above nb j thr)).
  apply list_filter_iff. intros x. simpl. by destruct (above nb j thr x).
Qed.

Lemma filter_split_perm {A} (f : A → bool) (l : list A) :
  filter (λ x, f x = false) l ++ filter (λ x, f x = true) l ≡ₚ l.
Proof.
  induction l as [|x l IH]; [done|]. rewrite !filter_cons.
  destruct (f x) eqn:Hf.
  - rewrite decide_False by done. rewrite decide_True by done.
    rewrite <- Permutation_middle. by rewrite IH.
  - rewrite decide_True by done. rewrite decide_False by done.
    simpl. by rewrite IH.
Qed.

Lemma join_insert_perm {A} (P : list (list A)) i X retain eject :
  P !! i = Some X → retain ++ eject ≡ₚ X →
  mjoin (<[i := retain]> P ++ [eject]) ≡ₚ mjoin P.
Proof.
  revert i. induction P as [|Y P IH]; intros i Hi Hperm; [done|].
  destruct i as [|i]; simpl in Hi.
  - injection Hi as ->. simpl. rewrite join_app. simpl.
    rewrite app_nil_r. rewrite <- Hperm.
    rewrite <- !(assoc_L (++)). f_equiv. apply Permutation_app_comm.
  - simpl. f_equiv. by apply IH.
Qed.

Lemma valid_partition_split v P i X retain eject :
  valid_partition v P → P !! i = Some X →
  retain ++ eject ≡ₚ X → retain ≠ [] → eject ≠ [] →
  valid_partition v (<[i := retain]> P ++ [eject]).
Proof.
  intros [Hne Hperm] Hi Hsplit Hr He. split.
  - apply Forall_app. split; [|by apply Forall_singleton].
    by apply Forall_insert.
  - by rewrite (join_insert_perm P i X retain eject Hi Hsplit).
Qed.
(** The three ways a call of [split_color] can go. *)
Lemma split_color_cases d wi wj thr s :
  (∃ e, e ≠ AssertionError ∧ split_color d wi wj thr s = (Raise e, s) ∧
        ∀ arr nb, p (self s) !! wi = Some arr →
                  neighbor (color_status d s) = Some nb →
                  gather nb arr wj = Raise e)
  ∨ (∃ arr nb split,
        p (self s) !! wi = Some arr ∧ neighbor (color_status d s) = Some nb ∧
        gather nb arr wj = Ok split ∧
        (retain_of arr split thr = [] ∨ eject_of arr split thr = []) ∧
        split_color d wi wj thr s = (Raise AssertionError, s))
  ∨ (∃ arr nb split,
        p (self s) !! wi = Some arr ∧ neighbor (color_status d s) = Some nb ∧
        gather nb arr wj = Ok split ∧
        retain_of arr split thr ≠ [] ∧ eject_of arr split thr ≠ [] ∧
        split_color d wi wj thr s =
          (Ok tt, set_p (<[wi := retain_of arr split thr]> (p (self s))
                           ++ [eject_of arr split thr]) s)).
Proof.
  unfold split_color. rewrite get_step.
  destruct (p (self s) !! wi) as [arr|] eqn:Harr; simpl.
  2:{ left. exists IndexError. split; [done|]. split; [done|]. by intros. }
  rewrite lift_step.
  destruct (neighbor (color_status d s)) as [nb|] eqn:Hnb; simpl.
  2:{ left. exists TypeError. split; [done|]. split; [done|]. by intros. }
  rewrite lift_step.
  destruct (gather nb arr wj) as [split|e|] eqn:Hsplit.
  3:{ by apply gather_no_fuel in Hsplit. }
  2:{ left. exists e. split.
      - by rewrite (gather_Raise _ _ _ _ Hsplit).
      - split; [done|]. intros arr' nb' [= <-] [= <-]. done. }
  rewrite lift_step. fold (retain_of arr split thr). fold (eject_of arr split thr).
  right.
  destruct (retain_of arr split thr) as [|x retain] eqn:Hr.
  { left. exists arr, nb, split. rewrite Hr. repeat split; auto. }
  destruct (eject_of arr split thr) as [|y eject] eqn:He.
  { left. exists arr, nb, split. rewrite Hr, He. repeat split; auto. }
  right. exists arr, nb, split. rewrite Hr, He. repeat split; auto.
Qed.

Lemma split_color_ok_inv d wi wj thr s s' :
  split_color d wi wj thr s = (Ok tt, s') →
  ∃ arr nb split,
    p (self s) !! wi = Some arr ∧ neighbor (color_status d s) = Some nb ∧
    gather nb arr wj = Ok split ∧
    retain_of arr split thr ≠ [] ∧ eject_of arr split thr ≠ [] ∧
    s' = set_p (<[wi := retain_of arr split thr]> (p (self s))
                  ++ [eject_of arr split thr]) s.
Proof.
  intros H.
  destruct (split_color_cases d wi wj thr s)
    as [(e & _ & He & _)|[(arr & nb & split & _ & _ & _ & _ & He)
       |(arr & nb & split & ? & ? & ? & ? & ? & He)]];
    rewrite He in H; try done.
  injection H as <-. by exists arr, nb, split.
Qed.

Lemma retain_eject_perm nb arr j split thr :
  gather nb arr j = Ok split →
  retain_of arr split thr ++ eject_of arr split thr ≡ₚ arr.
Proof.
  intros Hg. rewrite (retain_of_filter _ _ _ _ _ Hg), (eject_of_filter _ _ _ _ _ Hg).
  apply filter_split_perm.
Qed.

(** A successful split keeps the partition valid. *)
Lemma split_color_valid v d wi wj thr s s' :
  valid_partition v (p (self s)) →
  split_color d wi wj thr s = (Ok tt, s') →
  valid_partition v (p (self s')).
Proof.
  intros HP (arr & nb & split & Harr & Hnb & Hg & Hr & He & ->)%split_color_ok_inv.
  simpl. eapply valid_partition_split; eauto using retain_eject_perm.
Qed.
(** *** [torch.argmax] and [pick_witness] *)

Lemma argmax_from_spec l' : ∀ pre best_i qb,
  pre !! best_i = Some (Fin qb) →
  (∀ k x, pre !! k = Some (Fin x) → x ≤ qb) →
  (∀ k x, (k < best_i)%nat → pre !! k = Some (Fin x) → x < qb) →
  Forall (λ x, ∃ q, x = Fin q) l' →
  ∃ q, (pre ++ l') !! argmax_from best_i (Fin qb) (length pre) l' = Some (Fin q) ∧
       (∀ k x, (pre ++ l') !! k = Some (Fin x) → x ≤ q) ∧
       (∀ k x, (k < argmax_from best_i (Fin qb) (length pre) l')%nat →
               (pre ++ l') !! k = Some (Fin x) → x < q).
Proof.
  induction l' as [|y l' IH]; intros pre best_i qb Hb Hle Hlt Hfin.
  - simpl. rewrite app_nil_r. by exists qb.
  - apply Forall_cons in Hfin as [[qy ->] Hfin]. simpl.
    unfold better. simpl. rewrite orb_false_r.
    replace (pre ++ Fin qy :: l') with ((pre ++ [Fin qy]) ++ l')
      by (by rewrite <- (assoc_L (++))).
    replace (S (length pre)) with (length (pre ++ [Fin qy]))
      by (rewrite length_app; simpl; lia).
    case_bool_decide as Hcmp.
    + apply IH; [| | |done].
      * rewrite lookup_app_r by lia. by rewrite Nat.sub_diag.
      * intros k x Hk. apply lookup_app_Some in Hk as [Hk|[_ Hk]].
        -- apply Qclt_le_weak. eapply Qcle_lt_trans; [by eapply Hle|done].
        -- apply list_lookup_singleton_Some in Hk as [_ [= ->]]. apply Qcle_refl.
      * intros k x Hk Hx. rewrite lookup_app_l in Hx by done.
        eapply Qcle_lt_trans; [by eapply Hle|done].
    + apply Qcle_ngt in Hcmp. apply IH; [| | |done].
      * by apply lookup_app_l_Some.
      * intros k x Hk. apply lookup_app_Some in Hk as [Hk|[_ Hk]].
        -- by eapply Hle.
        -- by apply list_lookup_singleton_Some in Hk as [_ [= ->]].
      * intros k x Hk Hx. apply lookup_lt_Some in Hb.
        rewrite lookup_app_l in Hx by lia. by eapply Hlt.
Qed.

Lemma argmax_spec l :
  l ≠ [] → Forall (λ x, ∃ q, x = Fin q) l →
  ∃ t q, argmax l = Ok t ∧ l !! t = Some (Fin q) ∧
         (∀ k x, l !! k = Some (Fin x) → x ≤ q) ∧
         (∀ k x, (k < t)%nat → l !! k = Some (Fin x) → x < q).
Proof.
  destruct l as [|y l]; [done|]. intros _ [[qy ->] Hfin]%Forall_cons.
  destruct (argmax_from_spec l [Fin qy] 0%nat qy) as (q & Hq & Hle & Hlt); try done.
  - intros k x Hk. by apply list_lookup_singleton_Some in Hk as [_ [= ->]].
  - intros k x Hk. lia.
  - exists (argmax_from 0 (Fin qy) 1 l), q. done.
Qed.
Lemma valid_partition_pos v P : valid_partition v P → (0 < v)%nat → (0 < length P)%nat.
Proof.
  intros [_ Hperm] Hv. destruct P; [|simpl; lia].
  apply Permutation_length in Hperm. rewrite length_seq in Hperm. simpl in Hperm. lia.
Qed.

Lemma status_ok_block_fin v w P cs i j :
  status_ok v w P cs → (i < length P)%nat → (j < length P)%nat →
  ∃ e, mget (errors_base cs) i j = Some (Fin e).
Proof.
  intros Hok Hi Hj.
  destruct (lookup_lt_is_Some_2 P i Hi) as [X HX].
  destruct (lookup_lt_is_Some_2 P j Hj) as [Y HY].
  destruct (ok_block _ _ _ _ Hok i j X Y HX HY) as (hi & lo & _ & _ & _ & _ & He).
  eauto.
Qed.

Lemma pick_witness_spec v w d s :
  let P := p (self s) in
  let cs := color_status d s in
  valid_partition v P → (0 < v)%nat → status_ok v w P cs →
  ∃ i j X Y e,
    pick_witness d s = (Ok (i, j, mean (deg w Y <$> X), Fin e), s) ∧
    P !! i = Some X ∧ P !! j = Some Y ∧
    mget (errors_base cs) i j = Some (Fin e) ∧
    (∀ i' j' e', (i' < length P)%nat → (j' < length P)%nat →
       mget (errors_base cs) i' j' = Some (Fin e') → e' ≤ e) ∧
    (∀ i' j' e', (i' < length P)%nat → (j' < length P)%nat →
       (i' < i ∨ (i' = i ∧ j' < j))%nat →
       mget (errors_base cs) i' j' = Some (Fin e') → e' < e).
Proof.
  intros P cs HP Hv Hok.
  pose proof (valid_partition_pos v P HP Hv) as Hm.
  set (m := length P) in *.
  pose proof (ok_capacity _ _ _ _ Hok) as Hcap. fold m in Hcap.
  pose proof (shape_block _ m _ (ok_errors_shape _ _ _ _ Hok) Hcap) as [Hbl Hbr].
  set (flat := mjoin (block m (errors_base cs))).
  assert (∀ i j, (i < m)%nat → (j < m)%nat →
            flat !! (i * m + j)%nat = mget (errors_base cs) i j) as Hflat.
  { intros i j Hi Hj.
    destruct (status_ok_block_fin v w P cs i j Hok Hi Hj) as [e He].
    rewrite He. apply (join_lookup_Some_same_length' m); [done..|].
    pose proof (mget_block m (errors_base cs) i j) as Hb.
    rewrite decide_True in Hb by done. rewrite He in Hb. unfold mget in Hb.
    destruct (block m (errors_base cs) !! i) as [row|]; [|done]. eauto. }
  assert (length flat = (m * m)%nat) as Hlflat.
  { unfold flat. rewrite length_join.
    rewrite (sum_list_fmap_same m) by done. by rewrite Hbl. }
  destruct (argmax_spec flat) as (t & q & Ht & Hq & Hle & Hlt).
  { intros Hnil. rewrite Hnil in Hlflat. simpl in Hlflat. nia. }
  { apply Forall_lookup. intros k x Hk.
    apply lookup_lt_Some in Hk as Hklt. rewrite Hlflat in Hklt.
    assert (k = (k `div` m) * m + k `mod` m)%nat as Hkeq
      by (rewrite (Nat.mul_comm _ m); apply Nat.div_mod_eq).
    assert (k `div` m < m)%nat by (apply Nat.Div0.div_lt_upper_bound; lia).
    assert (k `mod` m < m)%nat by (apply Nat.mod_upper_bound; lia).
    rewrite Hkeq, Hflat in Hk by done.
    destruct (status_ok_block_fin v w P cs (k `div` m) (k `mod` m) Hok) as [e He]; [done..|].
    rewrite He in Hk. injection Hk as <-. eauto. }
  apply lookup_lt_Some in Hq as Htlt. rewrite Hlflat in Htlt.
  assert (t = (t `div` m) * m + t `mod` m)%nat as Hteq
    by (rewrite (Nat.mul_comm _ m); apply Nat.div_mod_eq).
  assert (t `div` m < m)%nat as Hi by (apply Nat.Div0.div_lt_upper_bound; lia).
  assert (t `mod` m < m)%nat as Hj by (apply Nat.mod_upper_bound; lia).
  set (i := (t `div` m)%nat) in *. set (j := (t `mod` m)%nat) in *.
  destruct (lookup_lt_is_Some_2 P i Hi) as [X HX].
  destruct (lookup_lt_is_Some_2 P j Hj) as [Y HY].
  assert (mget (errors_base cs) i j = Some (Fin q)) as Hmq.
  { rewrite <- Hflat by done. by rewrite <- Hteq. }
  exists i, j, X, Y, q. split; [|split; [done|split; [done|split; [done|split]]]].
  - unfold pick_witness. rewrite get_step. fold P. fold m. fold cs. fold flat.
    rewrite Ht, lift_step. simpl. fold i. fold j.
    rewrite Hmq. simpl. rewrite lift_step. rewrite HX. simpl. rewrite lift_step.
    rewrite (ok_neighbor _ _ _ _ Hok). simpl. rewrite lift_step.
    rewrite (gather_neighbor_of v w P X j Y) by
      (done || by eapply valid_partition_Forall_lt).
    rewrite lift_step. done.
  - intros i' j' e' Hi' Hj' He'. eapply (Hle (i' * m + j')%nat).
    by rewrite Hflat.
  - intros i' j' e' Hi' Hj' Hlex He'. eapply (Hlt (i' * m + j')%nat).
    + rewrite Hteq. destruct Hlex as [Hlex|[-> Hlex]]; nia.
    + by rewrite Hflat.
Qed.
(** *** [resize] *)

Lemma resize_ok n' cs :
  (cs_n cs ≤ n')%nat →
  resize n' cs =
    (Ok tt, mkColorStatus (cs_v cs) n' (neighbor cs)
              (overlay (upper_base cs) (full n' n' (Fin 0)))
              (overlay (lower_base cs) (full n' n' PInf))
              (overlay (errors_base cs) (full n' n' (Fin 0)))).
Proof.
  intros Hn. unfold resize, assign_block. mred.
  rewrite !bool_decide_true by done. done.
Qed.

Lemma mget_overlay_full {A} n n' (old : list (list A)) (x : A) i j :
  shape n n old → (n ≤ n')%nat → (i < n)%nat → (j < n)%nat →
  mget (overlay old (full n' n' x)) i j = mget old i j.
Proof.
  intros [Hn Hrows] Hle Hi Hj. rewrite mget_overlay. unfold mget.
  destruct (lookup_lt_is_Some_2 old i) as [r Hr]; [lia|]. rewrite Hr.
  unfold full. rewrite lookup_replicate_2 by lia.
  rewrite (Forall_lookup_1 _ _ _ _ Hrows Hr). by rewrite decide_True.
Qed.

Lemma resize_status_ok v w P cs n' :
  status_ok v w P cs → (cs_n cs ≤ n')%nat →
  status_ok v w P
    (mkColorStatus (cs_v cs) n' (neighbor cs)
       (overlay (upper_base cs) (full n' n' (Fin 0)))
       (overlay (lower_base cs) (full n' n' PInf))
       (overlay (errors_base cs) (full n' n' (Fin 0)))).
Proof.
  intros [Hc [Hun Hus] [Hln Hls] [Hen Hes] Hnb Hblock] Hn.
  assert (∀ {A} (t : list (list A)), Forall (λ row, length row = cs_n cs) t →
            Forall (λ row, length row ≤ n')%nat t) as Hle.
  { intros A t Ht. eapply Forall_impl; [done|]. simpl. intros row ->. done. }
  split; simpl.
  - lia.
  - apply shape_overlay; [apply shape_full|by apply Hle].
  - apply shape_overlay; [apply shape_full|by apply Hle].
  - apply shape_overlay; [apply shape_full|by apply Hle].
  - done.
  - intros i j X Y Hi Hj.
    destruct (Hblock i j X Y Hi Hj) as (hi & lo & ? & ? & ? & ? & ?).
    apply lookup_lt_Some in Hi, Hj.
    exists hi, lo. rewrite !(mget_overlay_full (cs_n cs)) by (done || lia).
    done.
Qed.

(** *** The resizing step *)

Lemma grow_if_full_spec G s :
  inv G s →
  ∃ s', grow_if_full s = (Ok tt, s') ∧ inv G s' ∧ self s' = self s ∧
        (length (p (self s)) < cs_n (color_status_in s'))%nat ∧
        (∀ d, neighbor (color_status d s') = neighbor (color_status d s)) ∧
        (∀ d i j, (i < length (p (self s)))%nat → (j < length (p (self s)))%nat →
           mget (upper_base (color_status d s')) i j = mget (upper_base (color_status d s)) i j ∧
           mget (lower_base (color_status d s')) i j = mget (lower_base (color_status d s)) i j ∧
           mget (errors_base (color_status d s')) i j = mget (errors_base (color_status d s)) i j).
Proof.
  intros [Hv HP Hst Hn].
  pose proof (valid_partition_pos _ _ HP Hv) as Hm.
  pose proof (ok_capacity _ _ _ _ (Hst In)) as Hcap. simpl in Hcap.
  unfold grow_if_full. rewrite get_step. case_bool_decide as Hfull.
  - set (ci := color_status_in s) in *. set (co := color_status_out s) in *.
    pose proof (resize_ok (cs_n ci * 2) ci ltac:(lia)) as Hri.
    pose proof (resize_ok (cs_n co * 2) co ltac:(lia)) as Hro.
    change (resize (cs_n ci * 2) ci) with ((cs ← get; resize (cs_n cs * 2)) ci) in Hri.
    change (resize (cs_n co * 2) co) with ((cs ← get; resize (cs_n cs * 2)) co) in Hro.
    eexists. split.
    { rewrite <- (set_color_status_id In s) at 1.
      rewrite (zoom_step In _ _ s _ tt _ Hri).
      rewrite <- (set_color_status_id Out (set_color_status In _ s)) at 1.
      apply (zoom_last Out _ _ _ tt _ Hro). }
    simpl. split; [|split; [done|split; [lia|split]]].
    + split; simpl; try done.
      * intros [|]; simpl.
        -- apply resize_status_ok; [apply (Hst Out)|lia].
        -- apply resize_status_ok; [apply (Hst In)|lia].
      * lia.
    + by intros [|].
    + intros d i j Hi Hj. destruct d; simpl.
      * rewrite !(mget_overlay_full (cs_n co)); try done; try apply (Hst Out); lia.
      * rewrite !(mget_overlay_full (cs_n ci)); try done; try apply (Hst In); lia.
  - exists s. split; [done|]. split; [done|]. split; [done|].
    split; [lia|]. split; done.
Qed.
(** *** One pass through the loop *)

Lemma split_and_update_spec G d wi wj thr s X Y :
  inv G s →
  (length (p (self s)) < cs_n (color_status_in s))%nat →
  p (self s) !! wi = Some X → p (self s) !! wj = Some Y →
  (∃ split, gather (neighbor_of (num_nodes G) (weights_of G d) (p (self s))) X wj = Ok split ∧
     ((retain_of X split thr = [] ∨ eject_of X split thr = []) ∧
      split_color d wi wj thr s = (Raise AssertionError, s) ∧
      split_and_update G d wi wj thr s = (Raise AssertionError, s)
      ∨
      (retain_of X split thr ≠ [] ∧ eject_of X split thr ≠ [] ∧
       ∃ s', split_color d wi wj thr s =
               (Ok tt, set_p (<[wi := retain_of X split thr]> (p (self s))
                                ++ [eject_of X split thr]) s) ∧
             split_and_update G d wi wj thr s = (Ok false, s') ∧
             inv G s' ∧
             self s' = mkQSC (<[wi := retain_of X split thr]> (p (self s))
                                ++ [eject_of X split thr]) (q_error (self s)) ∧
             cs_n (color_status_in s') = cs_n (color_status_in s)))).
Proof.
  intros [Hv HP Hst Hn] Hcap HX HY.
  pose proof (ok_neighbor _ _ _ _ (Hst d)) as Hnb.
  pose proof (valid_partition_Forall_lt _ _ _ _ HP HX) as HvX.
  exists (deg (weights_of G d) Y <$> X).
  split; [by apply gather_neighbor_of|].
  destruct (split_color_cases d wi wj thr s)
    as [(e & _ & _ & Hfail)|[(arr & nb & split & Harr & Hnb' & Hg & Hempty & Hrun)
       |(arr & nb & split & Harr & Hnb' & Hg & Hr & He & Hrun)]].
  - specialize (Hfail _ _ HX Hnb).
    by rewrite (gather_neighbor_of _ _ _ _ _ Y HvX HY) in Hfail.
  - rewrite HX in Harr. injection Harr as <-. rewrite Hnb in Hnb'. injection Hnb' as <-.
    rewrite (gather_neighbor_of _ _ _ _ _ Y HvX HY) in Hg. injection Hg as <-.
    left. split; [done|]. split; [done|].
    unfold split_and_update. rewrite bind_eq, Hrun. done.
  - rewrite HX in Harr. injection Harr as <-. rewrite Hnb in Hnb'. injection Hnb' as <-.
    rewrite (gather_neighbor_of _ _ _ _ _ Y HvX HY) in Hg. injection Hg as <-.
    right. split; [done|]. split; [done|].
    set (split := deg (weights_of G d) Y <$> X) in *.
    set (P' := <[wi := retain_of X split thr]> (p (self s)) ++ [eject_of X split thr]) in *.
    set (s2 := set_p P' s) in *.
    assert (valid_partition (num_nodes G) P') as HP'.
    { eapply valid_partition_split; eauto using retain_eject_perm.
      eapply retain_eject_perm. by apply gather_neighbor_of. }
    pose proof (lookup_lt_Some _ _ _ HX) as Hwi.
    destruct (update_status_spec G Out (weights_cpu G) s2 (p (self s)) wi
                (retain_of X split thr) (eject_of X split thr))
      as (co' & Hup1 & Hok1 & Hn1); try done.
    { apply (Hst Out). }
    { simpl. lia. }
    set (s3 := set_color_status Out co' s2) in *.
    destruct (update_status_spec G In (weights_transpose_cpu G) s3 (p (self s)) wi
                (retain_of X split thr) (eject_of X split thr))
      as (ci' & Hup2 & Hok2 & Hn2); try done.
    { apply (Hst In). }
    exists (set_color_status In ci' s3). split; [done|]. split.
    { unfold split_and_update. rewrite (bind_ok _ _ _ _ _ Hrun).
      rewrite get_step, (bind_ok _ _ _ _ _ Hup1).
      rewrite get_step, (bind_ok _ _ _ _ _ Hup2). done. }
    split; [|split; [done|]].
    + split; simpl; try done.
      * intros [|]; simpl; done.
      * simpl in Hn1, Hn2. lia.
    + simpl. simpl in Hn2. done.
Qed.
Lemma bind_assoc {St A B C} (m : M St A) (f : A → M St B) (g : B → M St C) s :
  ((m ≫= f) ≫= g) s = (m ≫= (λ a, f a ≫= g)) s.
Proof. rewrite !bind_eq. by destruct (m s) as [[a| |] s1]. Qed.

Lemma bind_ext {St A B} (m : M St A) (k k' : A → M St B) s :
  (∀ a s', k a s' = k' a s') → (m ≫= k) s = (m ≫= k') s.
Proof. intros H. rewrite !bind_eq. destruct (m s) as [[a| |] s1]; auto. Qed.

Lemma loop_body_unfold G cfg s :
  loop_body G cfg s =
    (grow_if_full;;
     '(witness_in_i, witness_in_j, split_deg_in, q_error_in) ← pick_witness In;
     '(witness_out_i, witness_out_j, split_deg_out, q_error_out) ← pick_witness Out;
     if tolerated cfg q_error_in q_error_out then mret true
     else match acting_direction q_error_out q_error_in with
          | Out => split_and_update G Out witness_out_i witness_out_j split_deg_out
          | In => split_and_update G In witness_in_i witness_in_j split_deg_in
          end) s.
Proof.
  unfold loop_body, grow_if_full. rewrite bind_assoc.
  apply bind_ext. intros s0 s1. apply bind_ext. intros [] s2.
  apply bind_ext. intros [[[ii ij] ti] ei] s3.
  apply bind_ext. intros [[[oi oj] to] eo] s4.
  unfold tolerated, acting_direction, split_and_update.
  destruct (fleb ei (q_errors cfg) && fleb eo (q_errors cfg)); [done|].
  by destruct (fgeb eo ei).
Qed.

Lemma loop_body_spec G cfg s :
  inv G s →
  ∃ s1 ii ij Xi Yi ei oi oj Xo Yo eo,
    grow_if_full s = (Ok tt, s1) ∧ inv G s1 ∧ self s1 = self s ∧
    (length (p (self s)) < cs_n (color_status_in s1))%nat ∧
    pick_witness In s1 =
      (Ok (ii, ij, mean (deg (weights_of G In) Yi <$> Xi), Fin ei), s1) ∧
    p (self s) !! ii = Some Xi ∧ p (self s) !! ij = Some Yi ∧
    pick_witness Out s1 =
      (Ok (oi, oj, mean (deg (weights_of G Out) Yo <$> Xo), Fin eo), s1) ∧
    p (self s) !! oi = Some Xo ∧ p (self s) !! oj = Some Yo ∧
    loop_body G cfg s =
      if tolerated cfg (Fin ei) (Fin eo) then (Ok true, s1)
      else match acting_direction (Fin eo) (Fin ei) with
           | Out => split_and_update G Out oi oj
                      (mean (deg (weights_of G Out) Yo <$> Xo)) s1
           | In => split_and_update G In ii ij
                     (mean (deg (weights_of G In) Yi <$> Xi)) s1
           end.
Proof.
  intros Hinv.
  destruct (grow_if_full_spec G s Hinv) as (s1 & Hgrow & Hinv1 & Hself & Hcap & _).
  destruct Hinv1 as [Hv HP Hst Hn].
  destruct (pick_witness_spec _ _ In s1 HP Hv (Hst In))
    as (ii & ij & Xi & Yi & ei & Hpi & HXi & HYi & _).
  destruct (pick_witness_spec _ _ Out s1 HP Hv (Hst Out))
    as (oi & oj & Xo & Yo & eo & Hpo & HXo & HYo & _).
  exists s1, ii, ij, Xi, Yi, ei, oi, oj, Xo, Yo, eo.
  rewrite <- Hself in Hcap |- *. repeat (split; [done|]).
  rewrite loop_body_unfold.
  rewrite (bind_ok _ _ _ _ _ Hgrow), (bind_ok _ _ _ _ _ Hpi), (bind_ok _ _ _ _ _ Hpo).
  destruct (tolerated _ _ _); [done|]. by destruct (acting_direction _ _).
Qed.

(** A pass ends the loop, fails its assertion, or adds one color. *)
Lemma loop_body_outcome G cfg s :
  inv G s →
  (∃ s1, loop_body G cfg s = (Ok true, s1) ∧ self s1 = self s ∧ inv G s1)
  ∨ (∃ s1, loop_body G cfg s = (Raise AssertionError, s1) ∧ self s1 = self s ∧
           inv G s1)
  ∨ (∃ s', loop_body G cfg s = (Ok false, s') ∧ inv G s' ∧
           length (p (self s')) = S (length (p (self s)))).
Proof.
  intros Hinv.
  destruct (loop_body_spec G cfg s Hinv)
    as (s1 & ii & ij & Xi & Yi & ei & oi & oj & Xo & Yo & eo &
        Hgrow & Hinv1 & Hself & Hcap & Hpi & HXi & HYi & Hpo & HXo & HYo & Hbody).
  rewrite Hbody. rewrite <- Hself in *.
  destruct (tolerated cfg (Fin ei) (Fin eo)); [left; eauto|]. right.
  destruct (acting_direction (Fin eo) (Fin ei)).
  - destruct (split_and_update_spec G Out oi oj
                (mean (deg (weights_of G Out) Yo <$> Xo)) s1 Xo Yo Hinv1 Hcap HXo HYo)
      as (split & _ & [(_ & _ & Hrun)|(_ & _ & s' & _ & Hrun & Hinv' & Hself' & _)]).
    + left. eauto.
    + right. exists s'. split; [done|]. split; [done|].
      rewrite Hself'. simpl. rewrite length_app, length_insert. simpl. lia.
  - destruct (split_and_update_spec G In ii ij
                (mean (deg (weights_of G In) Yi <$> Xi)) s1 Xi Yi Hinv1 Hcap HXi HYi)
      as (split & _ & [(_ & _ & Hrun)|(_ & _ & s' & _ & Hrun & Hinv' & Hself' & _)]).
    + left. eauto.
    + right. exists s'. split; [done|]. split; [done|].
      rewrite Hself'. simpl. rewrite length_app, length_insert. simpl. lia.
Qed.
(** *** Initialisation *)

Lemma zoom_raise {A} d (m : M ColorStatus A) s e cs' :
  m (color_status d s) = (Raise e, cs') →
  zoom d m s = (Raise e, set_color_status d cs' s).
Proof. intros H. unfold zoom. by rewrite H. Qed.

(** [init_status] on the one-color partition succeeds only on a graph with
    a node and with matrices of order at least one. *)
Lemma init_status_ok_inv G d w s s' :
  p (self s) = [seq 0 (num_nodes G)] →
  init_status G d w s = (Ok tt, s') →
  (0 < num_nodes G)%nat ∧ (0 < cs_n (color_status d s))%nat.
Proof.
  intros Hp Hrun.
  destruct (decide (num_nodes G = 0)%nat) as [Hv|Hv].
  { exfalso. rewrite Hv in Hp. revert Hrun. unfold init_status, partition_matrix.
    rewrite bind_assoc, get_step, Hp, Hv. simpl.
    unfold guard, sparse_coo_tensor. simpl.
    mred. destruct d; simpl; rewrite Hp; simpl; unfold refresh_row, get_neighbor; mred; done. }
  split; [lia|].
  destruct (cs_n (color_status d s)) as [|n'] eqn:Hn; [|lia].
  exfalso. revert Hrun.
  assert (valid_partition (num_nodes G) (p (self s))) as HP.
  { rewrite Hp. apply valid_partition_init. lia. }
  unfold init_status.
  rewrite (bind_ok _ _ _ _ _ (partition_matrix_ok (num_nodes G) G s eq_refl HP)).
  rewrite Hp. simpl coo_cols.
  rewrite <- (set_color_status_id d s) at 1.
  rewrite (zoom_step d (modify _) _ s _ tt _ eq_refl).
  rewrite get_step, self_set_color_status, Hp.
  set (cs1 := set_neighbor _ _).
  assert (neighbor cs1 = Some (neighbor_of (num_nodes G) w [seq 0 (num_nodes G)])) as Hnb.
  { unfold cs1. simpl. f_equal. rewrite Hp in HP.
    apply (mm_to_dense _ w [seq 0 (num_nodes G)] HP). }
  assert (Forall (λ x, x < num_nodes G)%nat (seq 0 (num_nodes G))) as Hlt.
  { apply Forall_seq. lia. }
  destruct (reduce_rows_neighbor_of Qc_max (num_nodes G) w [seq 0 (num_nodes G)]
              (seq 0 (num_nodes G))) as (hi & Hhi & _); [|done|].
  { intros Hnil. apply (f_equal length) in Hnil. rewrite length_seq in Hnil.
    simpl in Hnil. lia. }
  assert (cs_n cs1 = 0%nat) as Hn1 by done.
  clearbody cs1.
  assert (refresh_row 1 0 (seq 0 (num_nodes G)) cs1 = (Raise IndexError, cs1)) as Hfail.
  { unfold refresh_row, get_neighbor. mred. rewrite Hnb. simpl.
    rewrite (select_rows_neighbor_of _ _ _ _ Hlt), Hhi.
    unfold set_row. rewrite Hn1.
    rewrite bool_decide_false by lia. done. }
  rewrite bind_eq.
  rewrite (zoom_raise d _ _ IndexError cs1); [done|].
  rewrite color_status_set_eq. simpl. rewrite bind_eq, Hfail. done.
Qed.

Lemma reach_init_inv G n s :
  (init_status G Out (weights G);; init_status G In (weights_transpose G))
    (mkFrame (QuasiStableColoring_init G)
       (ColorStatus_init (num_nodes G) n) (ColorStatus_init (num_nodes G) n))
    = (Ok tt, s) →
  inv G s ∧ self s = QuasiStableColoring_init G.
Proof.
  set (s0 := mkFrame _ _ _). intros Hrun.
  apply bind_inv_ok in Hrun as ([] & s1 & Hout & Hin).
  destruct (init_status_ok_inv G Out _ s0 s1 eq_refl Hout) as [Hv Hn].
  simpl in Hn.
  assert (valid_partition (num_nodes G) (p (self s0))) as HP
    by (by apply valid_partition_init).
  destruct (init_status_spec G Out (weights G) s0) as (co & Hout' & Hoko & Hno);
    try done; try apply shape_full.
  rewrite Hout' in Hout. injection Hout as <-.
  destruct (init_status_spec G In (weights_transpose G) (set_color_status Out co s0))
    as (ci & Hin' & Hoki & Hni); try done; try apply shape_full.
  subst s0. simpl in *. rewrite Hin' in Hin. injection Hin as <-.
  split; [|done]. split; simpl; try done.
  - by intros [|].
  - simpl in Hno, Hni. lia.
Qed.

Lemma reachable_inv G cfg s : reachable G cfg s → inv G s.
Proof.
  induction 1 as [n s Hcap Hrun|s s' Hreach IH Htest Hbody].
  - by apply (reach_init_inv G n s).
  - destruct (loop_body_outcome G cfg s IH)
      as [(s1 & Hb & _)|[(s1 & Hb & _)|(s1 & Hb & Hinv & _)]];
      rewrite Hb in Hbody; try done.
    by injection Hbody as <-.
Qed.

Lemma at_split_inv G cfg s :
  at_split G cfg s →
  inv G s ∧ (length (p (self s)) < cs_n (color_status_in s))%nat.
Proof.
  intros (s0 & Hreach & _ & Hgrow).
  destruct (grow_if_full_spec G s0 (reachable_inv G cfg s0 Hreach))
    as (s1 & Hgrow' & Hinv & Hself & Hcap & _).
  rewrite Hgrow in Hgrow'. injection Hgrow' as <-. by rewrite Hself.
Qed.
(** *** The loop *)

Lemma while_loop_eq G cfg fuel s :
  while_loop G cfg fuel s =
    if loop_test cfg s
    then match fuel with
         | O => (Fuel, s)
         | S fuel' =>
             (stop ← loop_body G cfg;
              if stop : bool then mret tt else while_loop G cfg fuel') s
         end
    else (Ok tt, s).
Proof.
  unfold loop_test. destruct fuel; cbn [while_loop]; rewrite get_step;
    by destruct (fltb _ _).
Qed.

(** With enough fuel the loop ends, normally or with the failed assertion
    of a split; the partition stays valid either way. *)
Lemma while_loop_total G cfg fuel : ∀ s,
  inv G s →
  (num_nodes G < fuel + length (p (self s)))%nat →
  ∃ r s', while_loop G cfg fuel s = (r, s') ∧
          valid_partition (num_nodes G) (p (self s')) ∧
          q_error (self s') = q_error (self s) ∧
          (r = Ok tt ∧ inv G s' ∨ r = Raise AssertionError).
Proof.
  induction fuel as [|fuel IH]; intros s Hinv Hfuel.
  - pose proof (valid_partition_length _ _ (inv_partition _ _ Hinv)). lia.
  - rewrite while_loop_eq. destruct (loop_test cfg s).
    2:{ exists (Ok tt), s. repeat split; try apply Hinv; auto. }
    destruct (loop_body_outcome G cfg s Hinv)
      as [(s1 & Hb & Hself & Hinv1)|[(s1 & Hb & Hself & Hinv1)|(s1 & Hb & Hinv1 & Hlen)]].
    + rewrite (bind_ok _ _ _ _ _ Hb). exists (Ok tt), s1.
      rewrite Hself. repeat split; try apply Hinv; auto.
    + rewrite bind_eq, Hb. exists (Raise AssertionError), s1.
      rewrite Hself. repeat split; try apply Hinv; auto.
    + rewrite (bind_ok _ _ _ _ _ Hb).
      destruct (IH s1 Hinv1) as (r & s' & Hrun & HP & Hq & Hr); [lia|].
      exists r, s'. split; [done|]. split; [done|]. split; [|done].
      rewrite Hq. clear -Hb Hinv.
      destruct (loop_body_spec G cfg s Hinv)
        as (s0 & ii & ij & Xi & Yi & ei & oi & oj & Xo & Yo & eo &
            Hgrow & Hinv0 & Hself & Hcap & Hpi & HXi & HYi & Hpo & HXo & HYo & Hbody).
      rewrite Hbody in Hb. rewrite <- Hself in *.
      destruct (tolerated cfg (Fin ei) (Fin eo)); [done|].
      destruct (acting_direction (Fin eo) (Fin ei)).
      * destruct (split_and_update_spec G Out oi oj
                (mean (deg (weights_of G Out) Yo <$> Xo)) s0 Xo Yo Hinv0 Hcap HXo HYo)
          as (split & _ & [(_ & _ & Hrun)|(_ & _ & s' & _ & Hrun & _ & Hself' & _)]);
          rewrite Hrun in Hb; [done|]. injection Hb as <-. by rewrite Hself'.
      * destruct (split_and_update_spec G In ii ij
                (mean (deg (weights_of G In) Yi <$> Xi)) s0 Xi Yi Hinv0 Hcap HXi HYi)
          as (split & _ & [(_ & _ & Hrun)|(_ & _ & s' & _ & Hrun & _ & Hself' & _)]);
          rewrite Hrun in Hb; [done|]. injection Hb as <-. by rewrite Hself'.
Qed.

(** More fuel does not change a run that ended. *)
Lemma while_loop_fuel_mono G cfg fuel : ∀ fuel' s r s',
  while_loop G cfg fuel s = (r, s') → r ≠ Fuel → (fuel ≤ fuel')%nat →
  while_loop G cfg fuel' s = (r, s').
Proof.
  induction fuel as [|fuel IH]; intros fuel' s r s' Hrun Hr Hle.
  - rewrite while_loop_eq in Hrun. rewrite while_loop_eq.
    destruct (loop_test cfg s); [|done]. by injection Hrun as <- <-.
  - destruct fuel' as [|fuel']; [lia|].
    rewrite while_loop_eq in Hrun. rewrite while_loop_eq.
    destruct (loop_test cfg s); [|done].
    rewrite bind_eq in Hrun. rewrite bind_eq.
    destruct (loop_body G cfg s) as [[[|]| |] s1]; try done.
    apply IH; [done..|lia].
Qed.
(** *** The two wordings of the partition property agree *)

Lemma NoDup_join (P : list (list nat)) :
  NoDup (mjoin P) ↔
    (∀ i X, P !! i = Some X → NoDup X) ∧
    (∀ i j X Y x, P !! i = Some X → P !! j = Some Y → x ∈ X → x ∈ Y → i = j).
Proof.
  induction P as [|Z P IH].
  - split; [|intros; constructor]. intros _. split; intros; by simplify_eq.
  - rewrite join_cons, NoDup_app, IH. split.
    + intros (HZ & Hdis & Hnd & Hpair). split.
      * intros [|i] X HX; simpl in HX; [by injection HX as <-|by eapply Hnd].
      * intros [|i] [|j] X Y x HX HY Hx Hy; simpl in HX, HY; try done.
        -- injection HX as <-. exfalso. apply (Hdis x Hx).
           apply list_elem_of_join. exists Y. split; [done|].
           by eapply list_elem_of_lookup_2.
        -- injection HY as <-. exfalso. apply (Hdis x Hy).
           apply list_elem_of_join. exists X. split; [done|].
           by eapply list_elem_of_lookup_2.
        -- f_equal. by eapply Hpair.
    + intros (Hnd & Hpair). split; [by apply (Hnd 0%nat)|]. split; [|split].
      * intros x Hx (Y & Hy & HY)%list_elem_of_join.
        apply list_elem_of_lookup in HY as (j & HY).
        by specialize (Hpair 0%nat (S j) Z Y x eq_refl HY Hx Hy).
      * intros i X HX. by apply (Hnd (S i)).
      * intros i j X Y x HX HY Hx Hy.
        by specialize (Hpair (S i) (S j) X Y x HX HY Hx Hy) as [= ->].
Qed.

Lemma valid_partition_is_partition v P : valid_partition v P ↔ is_partition v P.
Proof.
  split.
  - intros [Hne Hperm].
    assert (NoDup (mjoin P)) as Hnd by (rewrite Hperm; apply NoDup_seq).
    apply NoDup_join in Hnd as [Hnd Hpair]. split; [|split; [done|]].
    + intros i X HX. split; [by apply (Forall_lookup_1 _ _ _ _ Hne HX)|by eapply Hnd].
    + intros x. trans (x ∈ mjoin P).
      * rewrite Hperm, elem_of_seq. lia.
      * rewrite list_elem_of_join. split; intros (X & ? & ?); eauto.
  - intros (Hcol & Hpair & Hcover). split.
    + apply Forall_lookup. intros i X HX. by apply (Hcol i X HX).
    + apply NoDup_Permutation; [|apply NoDup_seq|].
      * apply NoDup_join. split; [|done]. intros i X HX. by apply (Hcol i X HX).
      * intros x. rewrite elem_of_seq. trans (x < v)%nat; [|lia].
        rewrite Hcover, list_elem_of_join. split; intros (X & ? & ?); eauto.
Qed.
(** *** Computations without fuel, computations that keep the object *)

Lemma no_fuel_bind {St A B} (m : M St A) (k : A → M St B) :
  no_fuel m → (∀ a, no_fuel (k a)) → no_fuel (m ≫= k).
Proof.
  intros Hm Hk s. rewrite bind_eq. specialize (Hm s).
  destruct (m s) as [[a| |] s1]; simpl in *; try done. apply Hk.
Qed.

Lemma no_fuel_ret {St A} (a : A) : no_fuel (mret a : M St A).
Proof. by intros s. Qed.

Lemma no_fuel_get {St} : no_fuel (get : M St St).
Proof. by intros s. Qed.

Lemma no_fuel_modify {St} (f : St → St) : no_fuel (modify f).
Proof. by intros s. Qed.

Lemma no_fuel_lift {St A} (r : result A) : r ≠ Fuel → no_fuel (lift r : M St A).
Proof. by intros Hr s. Qed.

Lemma no_fuel_guard {St} e b : no_fuel (guard e b : M St unit).
Proof. intros s. by destruct b. Qed.

Lemma no_fuel_zoom {A} d (m : M ColorStatus A) : no_fuel m → no_fuel (zoom d m).
Proof. intros Hm s. apply Hm. Qed.

Lemma no_fuel_for_each {St A} (l : list A) (f : A → M St unit) :
  (∀ x, no_fuel (f x)) → no_fuel (for_each l f).
Proof.
  intros Hf. induction l as [|x l IH]; [apply no_fuel_ret|].
  simpl. apply no_fuel_bind; [apply Hf|]. by intros _.
Qed.

Lemma from_option_no_fuel {A} e (o : option A) : from_option e o ≠ Fuel.
Proof. by destruct o. Qed.

Lemma set_row_no_fuel {A} n m i (vec : list A) base : set_row n m i vec base ≠ Fuel.
Proof.
  unfold set_row. repeat case_bool_decide; try done. by destruct vec as [|? []].
Qed.

Lemma reduce_rows_no_fuel f rows : reduce_rows f rows ≠ Fuel.
Proof. by destruct rows. Qed.

Lemma sparse_coo_tensor_no_fuel I J V r c : sparse_coo_tensor I J V r c ≠ Fuel.
Proof. unfold sparse_coo_tensor. by case_bool_decide. Qed.

Lemma no_fuel_get_neighbor : no_fuel get_neighbor.
Proof.
  apply no_fuel_bind; [apply no_fuel_get|]. intros cs.
  apply no_fuel_lift, from_option_no_fuel.
Qed.

Lemma no_fuel_refresh_row m i X : no_fuel (refresh_row m i X).
Proof.
  unfold refresh_row.
  repeat first
    [ apply no_fuel_bind; [|intros ?]
    | apply no_fuel_get_neighbor
    | apply no_fuel_get
    | apply no_fuel_modify
    | apply no_fuel_lift; first [apply from_option_no_fuel | apply set_row_no_fuel
                               | apply reduce_rows_no_fuel] ].
Qed.

Lemma no_fuel_init_status G d w : no_fuel (init_status G d w).
Proof.
  unfold init_status, partition_matrix.
  repeat first
    [ apply no_fuel_refresh_row
    | apply no_fuel_for_each; intros ?
    | apply no_fuel_bind; [|intros ?]
    | apply no_fuel_get
    | apply no_fuel_guard
    | apply no_fuel_zoom
    | apply no_fuel_modify
    | apply no_fuel_lift, sparse_coo_tensor_no_fuel ].
Qed.

Lemma keeps_self_bind {A B} (m : M Frame A) (k : A → M Frame B) :
  keeps_self m → (∀ a, keeps_self (k a)) → keeps_self (m ≫= k).
Proof.
  intros Hm Hk s. rewrite bind_eq. specialize (Hm s).
  destruct (m s) as [[a| |] s1]; simpl in *; try done.
  by rewrite Hk.
Qed.

Lemma keeps_self_ret {A} (a : A) : keeps_self (mret a).
Proof. by intros s. Qed.

Lemma keeps_self_get : keeps_self get.
Proof. by intros s. Qed.

Lemma keeps_self_lift {A} (r : result A) : keeps_self (lift r).
Proof. by intros s. Qed.

Lemma keeps_self_guard e b : keeps_self (guard e b).
Proof. intros s. by destruct b. Qed.

Lemma keeps_self_zoom {A} d (m : M ColorStatus A) : keeps_self (zoom d m).
Proof. intros s. unfold zoom. simpl. apply self_set_color_status. Qed.

Lemma keeps_self_init_status G d w : keeps_self (init_status G d w).
Proof.
  unfold init_status, partition_matrix.
  repeat first
    [ apply keeps_self_bind; [|intros ?]
    | apply keeps_self_get
    | apply keeps_self_guard
    | apply keeps_self_zoom
    | apply keeps_self_lift ].
Qed.

Lemma pick_witness_state d s : (pick_witness d s).2 = s.
Proof.
  unfold pick_witness. rewrite get_step.
  repeat (rewrite bind_eq;
          match goal with |- context [lift ?r s] => destruct r; simpl; try done end).
Qed.
(** *** Runs of the loop and of [q_color] *)

Lemma loop_run_deterministic G cfg s r1 s1 r2 s2 :
  loop_run G cfg s r1 s1 → loop_run G cfg s r2 s2 → r1 = r2 ∧ s1 = s2.
Proof.
  intros H1. revert r2 s2.
  induction H1 as [s Ht|s sa Ht Hb|s e sa Ht Hb|s sa r s' Ht Hb Hrun IHrun];
    intros r2 s2 H2; inversion H2; subst; try congruence;
    try (split; congruence).
  apply IHrun. congruence.
Qed.

Lemma while_loop_loop_run G cfg fuel : ∀ s r s',
  while_loop G cfg fuel s = (r, s') → r ≠ Fuel → loop_run G cfg s r s'.
Proof.
  induction fuel as [|fuel IH]; intros s r s'; rewrite while_loop_eq;
    destruct (loop_test cfg s) eqn:Ht.
  - by intros [= <- <-].
  - intros [= <- <-] _. by constructor.
  - rewrite bind_eq. destruct (loop_body G cfg s) as [[[|]| |] s1] eqn:Hb.
    + intros [= <- <-] _. by apply loop_run_break.
    + intros Hrun Hr. eapply loop_run_pass; eauto.
    + intros [= <- <-] _. by apply loop_run_raise.
    + by intros [= <- <-].
  - intros [= <- <-] _. by constructor.
Qed.

Lemma q_color_frame_eq G cfg fuel s :
  q_color_frame G cfg fuel s =
    (init_both G;; while_loop G cfg fuel;; final_report) s.
Proof. unfold q_color_frame, init_both, final_report. by rewrite bind_assoc. Qed.

Lemma no_fuel_init_both G : no_fuel (init_both G).
Proof.
  apply no_fuel_bind; [apply no_fuel_init_status|]. intros _. apply no_fuel_init_status.
Qed.

Lemma keeps_self_init_both G : keeps_self (init_both G).
Proof.
  apply keeps_self_bind; [apply keeps_self_init_status|].
  intros _. apply keeps_self_init_status.
Qed.

Lemma final_report_spec v w_out w_in s :
  valid_partition v (p (self s)) → (0 < v)%nat →
  status_ok v w_out (p (self s)) (color_status_out s) →
  status_ok v w_in (p (self s)) (color_status_in s) →
  ∃ eo ei io jo to ii ji ti,
    pick_witness Out s = (Ok (io, jo, to, Fin eo), s) ∧
    pick_witness In s = (Ok (ii, ji, ti, Fin ei), s) ∧
    final_report s = (Ok tt, set_q_error (py_max (Fin eo) (Fin ei)) s).
Proof.
  intros HP Hv Ho Hi.
  destruct (pick_witness_spec v w_out Out s HP Hv Ho) as (io & jo & Xo & Yo & eo & Hpo & _).
  destruct (pick_witness_spec v w_in In s HP Hv Hi) as (ii & ji & Xi & Yi & ei & Hpi & _).
  eexists eo, ei, io, jo, _, ii, ji, _. split; [done|]. split; [done|].
  unfold final_report. rewrite (bind_ok _ _ _ _ _ Hpo), (bind_ok _ _ _ _ _ Hpi). done.
Qed.

(** [q_color] always ends: it returns, or raises, with the fuel [v]. *)
Lemma q_color_fuel_run G fuel cfg :
  (num_nodes G ≤ fuel)%nat →
  let r := q_color_fuel G fuel cfg (QuasiStableColoring_init G) in
  r.1 ≠ Fuel ∧ q_color_run G cfg (QuasiStableColoring_init G) r.1 r.2.
Proof.
  intros Hfuel. unfold q_color_fuel.
  destruct (capacity (n_colors cfg)) as [n|e|] eqn:Hcap; simpl.
  3:{ exfalso. revert Hcap. unfold capacity.
      destruct (py_int _) as [z| |] eqn:Hz; try done.
      - by case_bool_decide.
      - unfold py_int in Hz. by destruct (py_min _ _). }
  2:{ split; [done|]. by constructor. }
  fold (first_frame G n (QuasiStableColoring_init G)). rewrite q_color_frame_eq.
  set (s00 := first_frame G n (QuasiStableColoring_init G)).
  pose proof (no_fuel_init_both G s00) as Hnf.
  rewrite bind_eq.
  destruct (init_both G s00) as [[[]|e|] s0] eqn:Hinit; simpl in *; [| |done].
  2:{ split; [done|]. by eapply run_init_raise. }
  destruct (reach_init_inv G n s0 Hinit) as [Hinv Hself].
  destruct (while_loop_total G cfg fuel s0 Hinv) as (r & s' & Hrun & HP & Hq & Hr).
  { rewrite Hself. simpl. lia. }
  rewrite bind_eq, Hrun.
  destruct Hr as [[-> Hinv']| ->].
  - destruct (final_report_spec _ _ _ s' HP (inv_pos _ _ Hinv')
                (inv_status _ _ Hinv' Out) (inv_status _ _ Hinv' In))
      as (eo & ei & io & jo & to & ii & ji & ti & _ & _ & Hfin).
    rewrite Hfin. split; [done|].
    eapply (run_finish G cfg _ n s0 s'); eauto.
    by apply (while_loop_loop_run G cfg fuel).
  - simpl. split; [done|]. eapply run_loop_raise; eauto.
    by apply (while_loop_loop_run G cfg fuel).
Qed.

Lemma q_color_run_deterministic G cfg qsc r1 q1 r2 q2 :
  q_color_run G cfg qsc r1 q1 → q_color_run G cfg qsc r2 q2 → r1 = r2 ∧ q1 = q2.
Proof.
  intros H1 H2.
  destruct H1 as [e Hc|n e s Hc Hi|n s0 e s Hc Hi Hl|n s0 s r s' Hc Hi Hl Hf];
    destruct H2 as [e' Hc'|n' e' t Hc' Hi'|n' t0 e' t Hc' Hi' Hl'|n' t0 t r' t' Hc' Hi' Hl' Hf'];
    try congruence;
    try (split; congruence);
    assert (n' = n) as -> by congruence;
    try congruence;
    try (split; congruence);
    assert (t0 = s0) as -> by congruence;
    destruct (loop_run_deterministic _ _ _ _ _ _ _ Hl Hl') as [Hr ->];
    try done; split; congruence.
Qed.
(** *** Properties of whole runs *)

Lemma loop_run_inv G cfg s r s' :
  inv G s → loop_run G cfg s r s' →
  inv G s' ∧ (r = Ok tt ∨ r = Raise AssertionError).
Proof.
  intros Hinv Hrun.
  induction Hrun as [s Ht|s sa Ht Hb|s e sa Ht Hb|s sa r s' Ht Hb Hrun IH].
  - auto.
  - destruct (loop_body_outcome G cfg s Hinv)
      as [(s1 & Hb' & Hself & Hinv1)|[(s1 & Hb' & Hself & Hinv1)|(s1 & Hb' & Hinv1 & Hlen)]];
      rewrite Hb' in Hb; try done. injection Hb as <-. auto.
  - destruct (loop_body_outcome G cfg s Hinv)
      as [(s1 & Hb' & Hself & Hinv1)|[(s1 & Hb' & Hself & Hinv1)|(s1 & Hb' & Hinv1 & Hlen)]];
      rewrite Hb' in Hb; try done. injection Hb as <- <-. auto.
  - destruct (loop_body_outcome G cfg s Hinv)
      as [(s1 & Hb' & Hself & Hinv1)|[(s1 & Hb' & Hself & Hinv1)|(s1 & Hb' & Hinv1 & Hlen)]];
      rewrite Hb' in Hb; try done. injection Hb as <-. by apply IH.
Qed.

Lemma final_report_p s r s' :
  final_report s = (r, s') → p (self s') = p (self s).
Proof.
  unfold final_report. rewrite bind_eq.
  pose proof (pick_witness_state Out s) as Ho.
  destruct (pick_witness Out s) as [[[[[io jo] to] eo]| |] s1]; simpl in Ho; subst s1;
    [|by intros [= _ <-]..].
  rewrite bind_eq.
  pose proof (pick_witness_state In s) as Hi.
  destruct (pick_witness In s) as [[[[[ii ji] ti] ei]| |] s1]; simpl in Hi; subst s1;
    by intros [= _ <-].
Qed.

Lemma q_color_run_partition G cfg r qsc :
  (0 < num_nodes G)%nat →
  q_color_run G cfg (QuasiStableColoring_init G) r qsc →
  valid_partition (num_nodes G) (p qsc).
Proof.
  intros Hv Hrun.
  destruct Hrun as [e Hc|n e s Hc Hi|n s0 e s Hc Hi Hl|n s0 s r s' Hc Hi Hl Hf].
  - by apply valid_partition_init.
  - pose proof (keeps_self_init_both G (first_frame G n (QuasiStableColoring_init G))) as Hs.
    rewrite Hi in Hs. simpl in Hs. rewrite Hs. by apply valid_partition_init.
  - destruct (reach_init_inv G n s0 Hi) as [Hinv _].
    destruct (loop_run_inv G cfg s0 _ s Hinv Hl) as [Hinv' _]. apply Hinv'.
  - destruct (reach_init_inv G n s0 Hi) as [Hinv _].
    rewrite (final_report_p _ _ _ Hf).
    destruct (loop_run_inv G cfg s0 _ s Hinv Hl) as [Hinv' _]. apply Hinv'.
Qed.

Lemma weights_cpu_of_eq G d : weights_cpu_of G d = weights_of G d.
Proof. by destruct d. Qed.

Lemma at_split_capacity G cfg s d :
  at_split G cfg s → (length (p (self s)) < cs_n (color_status d s))%nat.
Proof.
  intros Ha. destruct (at_split_inv G cfg s Ha) as [Hinv Hcap].
  destruct d; simpl; [|done]. rewrite (inv_n _ _ Hinv). done.
Qed.

Lemma active_order_status_ok v w P cs :
  (0 < v)%nat → status_ok v w P cs → active_order cs = length P.
Proof.
  intros Hv Hok. unfold active_order. rewrite (ok_neighbor _ _ _ _ Hok).
  unfold neighbor_of. destruct v as [|v]; [lia|].
  simpl. by rewrite length_fmap.
Qed.

(** At every point of a run each status is either not initialised yet or in
    step with some partition (the current one, or the one before the split
    of the pass under way). *)
Lemma run_point_status G cfg s d :
  run_point G cfg s →
  neighbor (color_status d s) = None ∨
  ∃ P, (0 < num_nodes G)%nat ∧ valid_partition (num_nodes G) P ∧
       status_ok (num_nodes G) (weights_of G d) P (color_status d s).
Proof.
  intros Hpt.
  assert (∀ s, inv G s → ∃ P, (0 < num_nodes G)%nat ∧
            valid_partition (num_nodes G) P ∧
            status_ok (num_nodes G) (weights_of G d) P (color_status d s)) as Hinv.
  { intros s' Hi. exists (p (self s')).
    split; [apply Hi|]. split; [apply Hi|apply (inv_status _ _ Hi d)]. }
  destruct Hpt as [n Hc|n s Hc Hinit|s Hr|s s' Hr Ht Hfull Hres|s Ha
                  |s d0 wi wj thr s1 Ha Hsplit|s d0 wi wj thr s1 s2 Ha Hsplit Hup
                  |s0 r s Hr Hrun].
  - left. by destruct d.
  - set (s00 := first_frame G n (QuasiStableColoring_init G)) in *.
    destruct (init_status_ok_inv G Out _ s00 s eq_refl Hinit) as [Hv Hn].
    destruct (init_status_spec G Out (weights G) s00) as (co & Hinit' & Hok & _);
      try done; try apply shape_full.
    { by apply valid_partition_init. }
    rewrite Hinit' in Hinit. injection Hinit as <-.
    destruct d; [right|left; done]. exists (p (self s00)).
    split; [done|]. split; [by apply valid_partition_init|done].
  - right. apply Hinv. by eapply reachable_inv.
  - right. pose proof (reachable_inv G cfg s Hr) as Hi.
    exists (p (self s)). split; [apply Hi|]. split; [apply Hi|].
    set (ci := color_status_in s) in *.
    pose proof (resize_ok (cs_n ci * 2) ci ltac:(lia)) as Hri.
    change (resize (cs_n ci * 2) ci) with ((cs ← get; resize (cs_n cs * 2)) ci) in Hri.
    rewrite (zoom_ok In _ s tt _ Hri) in Hres. injection Hres as <-.
    destruct d; simpl.
    + apply (inv_status _ _ Hi Out).
    + apply resize_status_ok; [apply (inv_status _ _ Hi In)|lia].
  - right. apply Hinv. by eapply at_split_inv.
  - right. destruct (at_split_inv G cfg s Ha) as [Hi _].
    apply split_color_ok_inv in Hsplit as (arr & nb & split & _ & _ & _ & _ & _ & ->).
    exists (p (self s)). split; [apply Hi|]. split; [apply Hi|].
    replace (color_status d (set_p _ s)) with (color_status d s) by (by destruct d).
    apply (inv_status _ _ Hi d).
  - right. destruct (at_split_inv G cfg s Ha) as [Hi _].
    pose proof (at_split_capacity G cfg s Out Ha) as Hcap.
    pose proof (split_color_valid _ _ _ _ _ _ _ (inv_partition _ _ Hi) Hsplit) as HP'.
    apply split_color_ok_inv in Hsplit as (arr & nb & split & Harr & _ & _ & _ & _ & ->).
    set (P' := <[wi := retain_of arr split thr]> (p (self s))
                 ++ [eject_of arr split thr]) in *.
    destruct (update_status_spec G Out (weights_cpu G) (set_p P' s) (p (self s)) wi
                (retain_of arr split thr) (eject_of arr split thr))
      as (co & Hup' & Hok & _); try done.
    { apply (inv_status _ _ Hi Out). }
    { by eapply lookup_lt_Some. }
    rewrite Hup' in Hup. injection Hup as <-.
    destruct d; simpl.
    + exists P'. split; [apply Hi|]. split; [exact HP'|done].
    + exists (p (self s)). split; [apply Hi|].
      split; [apply Hi|apply (inv_status _ _ Hi In)].
  - right. apply Hinv.
    by destruct (loop_run_inv G cfg s0 r s (reachable_inv _ _ _ Hr) Hrun).
Qed.

(** At every point of a run the partition is valid. *)
Lemma run_point_partition G cfg s :
  (0 < num_nodes G)%nat → run_point G cfg s →
  valid_partition (num_nodes G) (p (self s)).
Proof.
  intros Hv Hpt.
  destruct Hpt as [n Hc|n s Hc Hinit|s Hr|s s' Hr Ht Hfull Hres|s Ha
                  |s d0 wi wj thr s1 Ha Hsplit|s d0 wi wj thr s1 s2 Ha Hsplit Hup
                  |s0 r s Hr Hrun].
  - by apply valid_partition_init.
  - pose proof (keeps_self_init_status G Out (weights G)
                  (first_frame G n (QuasiStableColoring_init G))) as Hs.
    rewrite Hinit in Hs. simpl in Hs. rewrite Hs. by apply valid_partition_init.
  - apply (reachable_inv G cfg s Hr).
  - pose proof (keeps_self_zoom In (cs ← get; resize (cs_n cs * 2)) s) as Hs.
    rewrite Hres in Hs. simpl in Hs. rewrite Hs. apply (reachable_inv G cfg s Hr).
  - apply (at_split_inv G cfg s Ha).
  - destruct (at_split_inv G cfg s Ha) as [Hi _].
    by eapply split_color_valid; [apply Hi|].
  - destruct (at_split_inv G cfg s Ha) as [Hi _].
    pose proof (at_split_capacity G cfg s Out Ha) as Hcap.
    pose proof (split_color_valid _ _ _ _ _ _ _ (inv_partition _ _ Hi) Hsplit) as HP'.
    apply split_color_ok_inv in Hsplit as (arr & nb & split & Harr & _ & _ & _ & _ & ->).
    set (P' := <[wi := retain_of arr split thr]> (p (self s))
                 ++ [eject_of arr split thr]) in *.
    destruct (update_status_spec G Out (weights_cpu G) (set_p P' s) (p (self s)) wi
                (retain_of arr split thr) (eject_of arr split thr))
      as (co & Hup' & Hok & _); try done.
    { apply (inv_status _ _ Hi Out). }
    { by eapply lookup_lt_Some. }
    rewrite Hup' in Hup. by injection Hup as <-.
  - by destruct (loop_run_inv G cfg s0 r s (reachable_inv _ _ _ Hr) Hrun) as [[] _].
Qed.

(** * The claims *)

(** C3 (as amended) — On a graph with at least one node, the partition [p]
    is, in every reachable state, a sequence of pairwise-disjoint, non-empty
    node sets whose union is the full set of [v] nodes: this holds for the
    object as [__init__] leaves it (one color with all nodes), is preserved
    by every successful [split_color], and so holds at every point of a run
    of [q_color], between the calls it makes, and for the object that any
    run of [q_color] leaves behind. *)
Theorem partition_invariant (G : Graph) (Hv : (0 < num_nodes G)%nat) :
  is_partition (num_nodes G) (p (QuasiStableColoring_init G)) ∧
  (∀ d witness_i witness_j threshold s s',
     is_partition (num_nodes G) (p (self s)) →
     split_color d witness_i witness_j threshold s = (Ok tt, s') →
     is_partition (num_nodes G) (p (self s'))) ∧
  (∀ cfg s, run_point G cfg s → is_partition (num_nodes G) (p (self s))) ∧
  (∀ cfg r qsc, q_color_run G cfg (QuasiStableColoring_init G) r qsc →
     is_partition (num_nodes G) (p qsc)).
Proof.
  split; [|split; [|split]].
  - apply valid_partition_is_partition. by apply valid_partition_init.
  - intros d wi wj thr s s' HP Hsplit. apply valid_partition_is_partition.
    apply valid_partition_is_partition in HP. by eapply split_color_valid.
  - intros cfg s Hpt. apply valid_partition_is_partition.
    by eapply run_point_partition.
  - intros cfg r qsc Hrun. apply valid_partition_is_partition.
    by eapply q_color_run_partition.
Qed.

(** C3 (as stated) fails on the graph without nodes: the one color that
    [__init__] creates is empty. *)
Lemma partition_invariant_empty_graph :
  p (QuasiStableColoring_init (mkGraph 0 (λ _ _, 0))) = [[]] ∧
  ¬ is_partition 0 (p (QuasiStableColoring_init (mkGraph 0 (λ _ _, 0)))).
Proof.
  split; [reflexivity|]. intros [Hcol _].
  by destruct (Hcol 0%nat [] eq_refl).
Qed.

(** C5 — [split_color] fails its assertion exactly when the retain side or
    the eject side of the threshold predicate is empty; whenever it fails,
    the partition and both statuses are as they were; and when it succeeds,
    color [witness_i] becomes the retain side (the nodes not above the
    threshold), the eject side (the nodes above it) is appended as a new
    color at the index that was the length, so that there is exactly one
    more color, and neither status is touched. *)
Theorem split_color_outcome (d : dir) (witness_i witness_j : nat)
    (threshold : float32) (s : Frame) :
  let r := split_color d witness_i witness_j threshold s in
  (r.1 = Raise AssertionError ↔
     ∃ arr nb split,
       p (self s) !! witness_i = Some arr ∧
       neighbor (color_status d s) = Some nb ∧
       gather nb arr witness_j = Ok split ∧
       (retain_of arr split threshold = [] ∨ eject_of arr split threshold = []))
  ∧ (∀ e, r.1 = Raise e → r.2 = s)
  ∧ (r.1 = Ok tt →
     ∃ arr nb retain eject,
       p (self s) !! witness_i = Some arr ∧
       neighbor (color_status d s) = Some nb ∧
       retain = filter (λ x, above nb witness_j threshold x = false) arr ∧
       eject = filter (λ x, above nb witness_j threshold x = true) arr ∧
       retain ≠ [] ∧ eject ≠ [] ∧
       p (self r.2) = <[witness_i := retain]> (p (self s)) ++ [eject] ∧
       p (self r.2) !! witness_i = Some retain ∧
       p (self r.2) !! length (p (self s)) = Some eject ∧
       length (p (self r.2)) = S (length (p (self s))) ∧
       q_error (self r.2) = q_error (self s) ∧
       color_status_out r.2 = color_status_out s ∧
       color_status_in r.2 = color_status_in s)
  ∧ r.1 ≠ Fuel.
Proof.
  intros r. subst r.
  destruct (split_color_cases d witness_i witness_j threshold s)
    as [(e & Hne & Hrun & Hfail)|[(arr & nb & split & Harr & Hnb & Hg & Hempty & Hrun)
       |(arr & nb & split & Harr & Hnb & Hg & Hr & He & Hrun)]];
    rewrite Hrun; simpl.
  - split; [|split; [done|split; [done|done]]]. split; [by intros [= ->]|].
    intros (arr & nb & split & Harr & Hnb & Hg & _).
    rewrite (Hfail arr nb Harr Hnb) in Hg. done.
  - split; [|split; [done|split; [done|done]]]. split; [|done].
    intros _. by exists arr, nb, split.
  - split; [|split; [done|split; [|done]]].
    { split; [done|]. intros (arr' & nb' & split' & Harr' & Hnb' & Hg' & Hempty).
      rewrite Harr in Harr'. injection Harr' as <-.
      rewrite Hnb in Hnb'. injection Hnb' as <-.
      rewrite Hg in Hg'. injection Hg' as <-. by destruct Hempty. }
    intros _. pose proof (lookup_lt_Some _ _ _ Harr) as Hlt.
    exists arr, nb, (retain_of arr split threshold), (eject_of arr split threshold).
    split; [done|]. split; [done|].
    split; [by eapply retain_of_filter|]. split; [by eapply eject_of_filter|].
    split; [done|]. split; [done|]. split; [done|].
    split. { rewrite lookup_app_l by (rewrite length_insert; lia).
             by apply list_lookup_insert_eq. }
    split. { rewrite lookup_app_r by (rewrite length_insert; lia).
             by rewrite length_insert, Nat.sub_diag. }
    split. { rewrite length_app, length_insert. simpl. lia. }
    done.
Qed.

Lemma partition_invariant_witness :
  (0 < num_nodes scenario_graph)%nat ∧
  is_partition (num_nodes scenario_graph)
    (p (QuasiStableColoring_init scenario_graph)).
Proof.
  split; [simpl; lia|].
  apply (partition_invariant scenario_graph). simpl. lia.
Defined.
(** C1 — In a state in which the loop splits, after any successful split of
    color [old_color] (which appends the new color at the index
    [new_color]), [update_status] on the status of a direction [d] with that
    direction's weights succeeds, and it leaves in that status the
    [neighbor] matrix, and the active [m] by [m] blocks of [upper_base],
    [lower_base] and [errors_base], that [init_status] computes from scratch
    on a new status for the updated partition and the same weights.  (The
    frame [s1'] is the frame after the split, or the one after the update of
    the other status: it has the same object and the same status [d].) *)
Theorem update_status_refines_init (G : Graph) (cfg : Config) (s : Frame)
    (d0 : dir) (old_color witness_j : nat) (threshold : float32)
    (s1 s1' : Frame) (d : dir) :
  at_split G cfg s →
  split_color d0 old_color witness_j threshold s = (Ok tt, s1) →
  self s1' = self s1 →
  color_status d s1' = color_status d s1 →
  let m := length (p (self s1)) in
  let new_color := (m - 1)%nat in
  let fresh :=
    set_color_status d
      (ColorStatus_init (num_nodes G) (cs_n (color_status d s1))) s1 in
  ∃ s2 s0,
    update_status G d (weights_cpu_of G d) old_color new_color s1' = (Ok tt, s2) ∧
    init_status G d (weights_of G d) fresh = (Ok tt, s0) ∧
    self s2 = self s1 ∧ self s0 = self s1 ∧
    new_color = length (p (self s)) ∧
    is_Some (neighbor (color_status d s2)) ∧
    neighbor (color_status d s2) = neighbor (color_status d s0) ∧
    ∀ i j, (i < m)%nat → (j < m)%nat →
      is_Some (mget (errors_base (color_status d s2)) i j) ∧
      mget (upper_base (color_status d s2)) i j
        = mget (upper_base (color_status d s0)) i j ∧
      mget (lower_base (color_status d s2)) i j
        = mget (lower_base (color_status d s0)) i j ∧
      mget (errors_base (color_status d s2)) i j
        = mget (errors_base (color_status d s0)) i j.
Proof.
  intros Ha Hsplit Hself Hcs m new_color fresh.
  destruct (at_split_inv G cfg s Ha) as [Hinv _].
  pose proof (at_split_capacity G cfg s d Ha) as Hcap.
  pose proof (split_color_valid _ _ _ _ _ _ _ (inv_partition _ _ Hinv) Hsplit) as HP'.
  apply split_color_ok_inv in Hsplit as (arr & nb & split & Harr & _ & _ & _ & _ & Hs1).
  set (P' := <[old_color := retain_of arr split threshold]> (p (self s))
               ++ [eject_of arr split threshold]) in *.
  assert (p (self s1) = P') as Hp1 by (by rewrite Hs1).
  assert (color_status d s1 = color_status d s) as Hcs1 by (rewrite Hs1; by destruct d).
  assert (length P' = S (length (p (self s)))) as Hlen.
  { unfold P'. rewrite length_app, length_insert. simpl. lia. }
  pose proof (lookup_lt_Some _ _ _ Harr) as Hold.
  destruct (update_status_spec G d (weights_of G d) s1' (p (self s)) old_color
              (retain_of arr split threshold) (eject_of arr split threshold))
    as (cs2 & Hup & Hok2 & Hn2); try done.
  { by rewrite Hself, Hp1. }
  { rewrite Hp1 in HP'. exact HP'. }
  { rewrite Hcs, Hcs1. apply (inv_status _ _ Hinv d). }
  { by rewrite Hcs, Hcs1. }
  destruct (init_status_spec G d (weights_of G d) fresh)
    as (cs0 & Hinit & Hok0 & Hn0); try done.
  { unfold fresh. by rewrite self_set_color_status. }
  { unfold fresh. rewrite self_set_color_status, color_status_set_eq. simpl.
    rewrite Hp1, Hlen, Hcs1. lia. }
  { unfold fresh. rewrite color_status_set_eq. apply shape_full. }
  { unfold fresh. rewrite color_status_set_eq. apply shape_full. }
  { unfold fresh. rewrite color_status_set_eq. apply shape_full. }
  unfold fresh in Hok0. rewrite self_set_color_status in Hok0.
  fold P' in Hok2. rewrite Hp1 in Hok0.
  exists (set_color_status d cs2 s1'), (set_color_status d cs0 fresh).
  rewrite !color_status_set_eq, !self_set_color_status.
  split. { rewrite weights_cpu_of_eq. unfold new_color, m.
           rewrite Hself in Hup. done. }
  split; [done|]. split; [done|].
  split. { unfold fresh. by rewrite self_set_color_status. }
  split. { unfold new_color, m. rewrite Hp1, Hlen. lia. }
  split. { rewrite (ok_neighbor _ _ _ _ Hok2). eauto. }
  split. { by rewrite (ok_neighbor _ _ _ _ Hok2), (ok_neighbor _ _ _ _ Hok0). }
  intros i j Hi Hj. unfold m in Hi, Hj. rewrite Hp1 in Hi, Hj.
  destruct (lookup_lt_is_Some_2 P' i Hi) as [X HX].
  destruct (lookup_lt_is_Some_2 P' j Hj) as [Y HY].
  destruct (ok_block _ _ _ _ Hok2 i j X Y HX HY) as (hi & lo & Hhi & Hlo & Hu & Hl & He).
  destruct (ok_block _ _ _ _ Hok0 i j X Y HX HY) as (hi' & lo' & Hhi' & Hlo' & Hu' & Hl' & He').
  rewrite Hhi in Hhi'. injection Hhi' as <-. rewrite Hlo in Hlo'. injection Hlo' as <-.
  rewrite Hu, Hu', Hl, Hl', He, He'. eauto.
Qed.
Lemma scenario_at_split : at_split scenario_graph scenario_cfg scenario_split_point.
Proof.
  exists scenario_start. split; [|split].
  - apply (reach_init _ _ 4); vm_compute; reflexivity.
  - vm_compute. reflexivity.
  - vm_compute. reflexivity.
Defined.

Lemma update_status_refines_init_witness :
  at_split scenario_graph scenario_cfg scenario_split_point ∧
  split_color In 0 0 (Fin (Z2 3)) scenario_split_point = (Ok tt, scenario_after_split) ∧
  ∃ s2 s0,
    update_status scenario_graph Out (weights_cpu_of scenario_graph Out) 0 1
      scenario_after_split = (Ok tt, s2) ∧
    init_status scenario_graph Out (weights_of scenario_graph Out)
      (set_color_status Out (ColorStatus_init 4 4) scenario_after_split) = (Ok tt, s0) ∧
    neighbor (color_status Out s2) = neighbor (color_status Out s0).
Proof.
  assert (split_color In 0 0 (Fin (Z2 3)) scenario_split_point
          = (Ok tt, scenario_after_split)) as Hs by (vm_compute; reflexivity).
  split; [exact scenario_at_split|]. split; [exact Hs|].
  destruct (update_status_refines_init scenario_graph scenario_cfg
              scenario_split_point In 0 0 (Fin (Z2 3)) scenario_after_split
              scenario_after_split Out scenario_at_split Hs eq_refl eq_refl)
    as (s2 & s0 & Hup & Hinit & _ & _ & _ & _ & Hnb & _).
  exists s2, s0. split; [exact Hup|]. split; [exact Hinit|]. exact Hnb.
Defined.
(** C6 — In a state with [m] colors in which the loop tests its condition
    or picks its witnesses, [pick_witness] on either status returns, without
    changing the state: the pair [(i, j)] of colors that maximizes
    [errors_base[i][j]] over the active [m] by [m] block, and the first such
    pair in the row-major order of the flattened block (every entry is at
    most the entry at [(i, j)], every earlier entry is strictly below it);
    that maximum value; and, as the threshold of the split, the mean of
    [neighbor[node][j]] over the nodes of color [i]. *)
Theorem pick_witness_maximal (G : Graph) (cfg : Config) (d : dir) (s : Frame) :
  reachable G cfg s ∨ at_split G cfg s →
  let m := length (p (self s)) in
  let errors := errors_base (color_status d s) in
  ∃ i j X nb col e,
    pick_witness d s = (Ok (i, j, mean col, Fin e), s) ∧
    (i < m)%nat ∧ (j < m)%nat ∧
    mget errors i j = Some (Fin e) ∧
    (∀ i' j', (i' < m)%nat → (j' < m)%nat →
       ∃ e', mget errors i' j' = Some (Fin e') ∧ e' ≤ e ∧
             ((i' < i ∨ (i' = i ∧ j' < j))%nat → e' < e)) ∧
    p (self s) !! i = Some X ∧
    neighbor (color_status d s) = Some nb ∧
    gather nb X j = Ok col ∧
    mean col = Fin (Qc_sum col / Qc_of_nat (length X)).
Proof.
  intros Hs m errors. subst m errors.
  assert (inv G s) as [Hv HP Hst Hn].
  { destruct Hs as [Hr|Ha]; [by eapply reachable_inv|by eapply at_split_inv]. }
  destruct (pick_witness_spec _ _ d s HP Hv (Hst d))
    as (i & j & X & Y & e & Hpick & HX & HY & He & Hle & Hlt).
  pose proof (valid_partition_Forall_lt _ _ _ _ HP HX) as HvX.
  exists i, j, X, (neighbor_of (num_nodes G) (weights_of G d) (p (self s))),
    (deg (weights_of G d) Y <$> X), e.
  split; [done|]. split; [apply (lookup_lt_Some _ _ _ HX)|].
  split; [apply (lookup_lt_Some _ _ _ HY)|].
  split; [done|]. split.
  { intros i' j' Hi' Hj'.
    destruct (status_ok_block_fin _ _ _ _ i' j' (Hst d) Hi' Hj') as [e' He'].
    exists e'. split; [done|]. split; [apply (Hle i' j' e' Hi' Hj' He')|].
    intros Hlex. apply (Hlt i' j' e' Hi' Hj' Hlex He'). }
  split; [done|]. split; [apply (ok_neighbor _ _ _ _ (Hst d))|].
  split; [by apply gather_neighbor_of|].
  pose proof (valid_partition_nonempty _ _ _ _ HP HX) as HXne.
  clear -HXne. destruct X as [|x X]; [done|].
  unfold mean. rewrite fmap_cons. by rewrite length_cons, length_fmap.
Qed.

Lemma pick_witness_maximal_witness :
  reachable scenario_graph scenario_cfg scenario_start ∧
  ∃ i j col e,
    pick_witness In scenario_start = (Ok (i, j, mean col, Fin e), scenario_start).
Proof.
  assert (reachable scenario_graph scenario_cfg scenario_start) as Hr.
  { apply (reach_init _ _ 4); vm_compute; reflexivity. }
  split; [exact Hr|].
  destruct (pick_witness_maximal scenario_graph scenario_cfg In scenario_start
              (or_introl Hr))
    as (i & j & X & nb & col & e & Hpick & _).
  exists i, j, col, e. exact Hpick.
Defined.
Lemma spread_subset (l l' : list Qc) hi lo hi' lo' :
  (∀ x, x ∈ l' → x ∈ l) →
  is_max l hi → is_min l lo → is_max l' hi' → is_min l' lo' →
  hi' - lo' ≤ hi - lo.
Proof.
  intros Hsub [_ Hmax] [_ Hmin] [Hhi' _] [Hlo' _].
  unfold Qcminus. apply Qcplus_le_compat.
  - apply Hmax, Hsub, Hhi'.
  - apply Qcopp_le_compat, Hmin, Hsub, Hlo'.
Qed.

(** C4 (as amended) — When a pass through the loop splits the witness pair
    [(i, j)] of the direction it acts on, and the witness column [j] is not
    the split color [i] itself, the entry [errors_base[i][j]] of that
    direction's status after the pass (row [i] being the retained color)
    does not exceed its value before the split. *)
Theorem acted_pair_error_reduced (G : Graph) (cfg : Config) (s s' : Frame) :
  reachable G cfg s →
  loop_body G cfg s = (Ok false, s') →
  ∃ s1 io jo to eo ii ji ti ei,
    grow_if_full s = (Ok tt, s1) ∧
    pick_witness Out s1 = (Ok (io, jo, to, Fin eo), s1) ∧
    pick_witness In s1 = (Ok (ii, ji, ti, Fin ei), s1) ∧
    let d := acting_direction (Fin eo) (Fin ei) in
    let i := match d with Out => io | In => ii end in
    let j := match d with Out => jo | In => ji end in
    let e := match d with Out => eo | In => ei end in
    mget (errors_base (color_status d s1)) i j = Some (Fin e) ∧
    (j ≠ i →
     ∃ e', mget (errors_base (color_status d s')) i j = Some (Fin e') ∧ e' ≤ e).
Proof.
  intros Hreach Hrun.
  pose proof (reachable_inv G cfg s Hreach) as Hinv.
  destruct (loop_body_spec G cfg s Hinv)
    as (s1 & ii & ij & Xi & Yi & ei & oi & oj & Xo & Yo & eo &
        Hgrow & Hinv1 & Hself & Hcap & Hpi & HXi & HYi & Hpo & HXo & HYo & Hbody).
  eexists s1, oi, oj, _, eo, ii, ij, _, ei.
  split; [done|]. split; [done|]. split; [done|].
  rewrite Hbody in Hrun. destruct (tolerated cfg (Fin ei) (Fin eo)); [done|].
  rewrite <- Hself in *.
  assert (∀ d i j X Y e thr,
    pick_witness d s1 = (Ok (i, j, thr, Fin e), s1) →
    p (self s1) !! i = Some X → p (self s1) !! j = Some Y →
    split_and_update G d i j thr s1 = (Ok false, s') →
    mget (errors_base (color_status d s1)) i j = Some (Fin e) ∧
    (j ≠ i →
     ∃ e', mget (errors_base (color_status d s')) i j = Some (Fin e') ∧ e' ≤ e))
    as Hcase.
  { clear -Hinv1 Hcap. intros d i j X Y e thr Hpick HX HY Hsu.
    destruct Hinv1 as [Hv HP Hst Hn].
    destruct (pick_witness_spec _ _ d s1 HP Hv (Hst d))
      as (i' & j' & X' & Y' & e' & Hpick' & _ & _ & He & _).
    rewrite Hpick in Hpick'. injection Hpick' as <- <- _ <-.
    split; [done|]. intros Hne.
    destruct (split_and_update_spec G d i j thr s1 X Y (mk_inv _ _ Hv HP Hst Hn) Hcap HX HY)
      as (split & Hg & [(_ & _ & Hrun)|(_ & _ & s'' & _ & Hrun & Hinv' & Hself' & _)]);
      rewrite Hrun in Hsu; [done|]. injection Hsu as ->.
    pose proof (lookup_lt_Some _ _ _ HX) as Hi.
    pose proof (lookup_lt_Some _ _ _ HY) as Hj.
    pose proof (valid_partition_Forall_lt _ _ _ _ HP HX) as HvX.
    rewrite (gather_neighbor_of _ _ _ _ _ Y HvX HY) in Hg. injection Hg as <-.
    set (retain := retain_of X (deg (weights_of G d) Y <$> X) thr) in *.
    set (eject := eject_of X (deg (weights_of G d) Y <$> X) thr) in *.
    assert (p (self s') !! i = Some retain) as HX'.
    { rewrite Hself'. simpl. rewrite lookup_app_l by (rewrite length_insert; lia).
      by apply list_lookup_insert_eq. }
    assert (p (self s') !! j = Some Y) as HY'.
    { rewrite Hself'. simpl. rewrite lookup_app_l by (rewrite length_insert; lia).
      by rewrite list_lookup_insert_ne. }
    destruct (ok_block _ _ _ _ (Hst d) i j X Y HX HY)
      as (hi & lo & Hhi & Hlo & _ & _ & He0).
    destruct (ok_block _ _ _ _ (inv_status _ _ Hinv' d) i j retain Y HX' HY')
      as (hi' & lo' & Hhi' & Hlo' & _ & _ & He').
    rewrite He in He0. injection He0 as ->.
    exists (hi' - lo'). split; [done|].
    apply (spread_subset (deg (weights_of G d) Y <$> X)
             (deg (weights_of G d) Y <$> retain));
      eauto using reduce_vec_max, reduce_vec_min.
    intros x (y & -> & Hy)%list_elem_of_fmap. apply list_elem_of_fmap.
    exists y. split; [done|].
    unfold retain in Hy.
    rewrite (retain_of_filter (neighbor_of (num_nodes G) (weights_of G d) (p (self s1)))
               X j _ thr) in Hy by (by apply gather_neighbor_of).
    by apply list_elem_of_filter in Hy as [_ Hy]. }
  destruct (acting_direction (Fin eo) (Fin ei)); simpl.
  - by apply (Hcase Out oi oj Xo Yo eo _ Hpo HXo HYo).
  - by apply (Hcase In ii ij Xi Yi ei _ Hpi HXi HYi).
Qed.

(** C4 (as stated) fails when the witness column is the split color itself.
    On [ring_graph] the first witness is [(0, 0)] in both directions with
    error 1; the tie goes to the outgoing status, node 3 is ejected, and the
    entry [(0, 0)] of the outgoing errors is 10 after the pass. *)
Lemma acted_pair_error_can_grow :
  reachable ring_graph scenario_cfg ring_start ∧
  grow_if_full ring_start = (Ok tt, ring_split_point) ∧
  (∃ to eo, pick_witness Out ring_split_point = (Ok (0, 0, to, Fin eo), ring_split_point)%nat ∧
   ∃ ti ei, pick_witness In ring_split_point = (Ok (0, 0, ti, Fin ei), ring_split_point)%nat ∧
            acting_direction (Fin eo) (Fin ei) = Out) ∧
  loop_body ring_graph scenario_cfg ring_start = (Ok false, ring_next) ∧
  p (self ring_next) = [[0; 1; 2]; [3]]%nat ∧
  entry_value (errors_base (color_status_out ring_split_point)) 0 0 = Some 1%Q ∧
  entry_value (errors_base (color_status_out ring_next)) 0 0 = Some 10%Q.
Proof.
  split. { apply (reach_init _ _ 4); vm_compute; reflexivity. }
  split. { vm_compute. reflexivity. }
  split. { eexists _, _. split; [vm_compute; reflexivity|].
           eexists _, _. split; [vm_compute; reflexivity|]. vm_compute. reflexivity. }
  split. { vm_compute. reflexivity. }
  split. { vm_compute. reflexivity. }
  split; vm_compute; reflexivity.
Qed.

Lemma scenario_start_reachable : reachable scenario_graph scenario_cfg scenario_start.
Proof. apply (reach_init _ _ 4); vm_compute; reflexivity. Defined.

Lemma scenario_second_reachable : reachable scenario_graph scenario_cfg scenario_second.
Proof.
  apply (reach_pass _ _ scenario_start); [exact scenario_start_reachable|..];
    vm_compute; reflexivity.
Defined.

Lemma acted_pair_error_reduced_witness :
  reachable scenario_graph scenario_cfg scenario_second ∧
  loop_body scenario_graph scenario_cfg scenario_second = (Ok false, scenario_third) ∧
  ∃ s1 io jo to eo ii ji ti ei,
    grow_if_full scenario_second = (Ok tt, s1) ∧
    pick_witness Out s1 = (Ok (io, jo, to, Fin eo), s1) ∧
    pick_witness In s1 = (Ok (ii, ji, ti, Fin ei), s1) ∧
    let d := acting_direction (Fin eo) (Fin ei) in
    let i := match d with Out => io | In => ii end in
    let j := match d with Out => jo | In => ji end in
    let e := match d with Out => eo | In => ei end in
    mget (errors_base (color_status d s1)) i j = Some (Fin e) ∧
    (j ≠ i →
     ∃ e', mget (errors_base (color_status d scenario_third)) i j = Some (Fin e') ∧
           e' ≤ e).
Proof.
  assert (loop_body scenario_graph scenario_cfg scenario_second
          = (Ok false, scenario_third)) as Hrun by (vm_compute; reflexivity).
  split; [exact scenario_second_reachable|]. split; [exact Hrun|].
  exact (acted_pair_error_reduced scenario_graph scenario_cfg scenario_second
           scenario_third scenario_second_reachable Hrun).
Defined.
Lemma acting_direction_fin eo ei :
  acting_direction (Fin eo) (Fin ei) = if decide (ei ≤ eo) then Out else In.
Proof.
  unfold acting_direction, fgeb, fleb. case_bool_decide; by case_decide.
Qed.

Lemma split_and_update_false G d i j thr s b s' :
  split_and_update G d i j thr s = (Ok b, s') → b = false.
Proof.
  unfold split_and_update.
  intros ([] & s1 & _ & H)%bind_inv_ok.
  apply bind_inv_ok in H as (s1' & s1'' & _ & H).
  apply bind_inv_ok in H as ([] & s2 & _ & H).
  apply bind_inv_ok in H as (s2' & s2'' & _ & H).
  apply bind_inv_ok in H as ([] & s3 & _ & H).
  by injection H as <- _.
Qed.

Lemma pick_witness_first_maximum G d s i j t e :
  inv G s →
  pick_witness d s = (Ok (i, j, t, Fin e), s) →
  first_maximum (errors_base (color_status d s)) (length (p (self s))) i j e ∧
  mean_over (p (self s)) (neighbor (color_status d s)) i j t.
Proof.
  intros [Hv HP Hst Hn] Hpick.
  destruct (pick_witness_spec _ _ d s HP Hv (Hst d))
    as (i0 & j0 & X & Y & e0 & Hpick0 & HX & HY & He & Hle & Hlt).
  rewrite Hpick in Hpick0. injection Hpick0 as -> -> -> ->.
  pose proof (valid_partition_Forall_lt _ _ _ _ HP HX) as HvX.
  split.
  - split; [apply (lookup_lt_Some _ _ _ HX)|].
    split; [apply (lookup_lt_Some _ _ _ HY)|]. split; [done|].
    intros i' j' Hi' Hj'.
    destruct (status_ok_block_fin _ _ _ _ i' j' (Hst d) Hi' Hj') as [e' He'].
    exists e'. split; [done|]. split; [apply (Hle i' j' e' Hi' Hj' He')|].
    intros Hlex. apply (Hlt i' j' e' Hi' Hj' Hlex He').
  - exists X, (neighbor_of (num_nodes G) (weights_of G d) (p (self s))),
      (deg (weights_of G d) Y <$> X).
    split; [done|]. split; [apply (ok_neighbor _ _ _ _ (Hst d))|].
    split; [by apply gather_neighbor_of|].
    pose proof (valid_partition_nonempty _ _ _ _ HP HX) as HXne.
    clear -HXne. destruct X as [|x X]; [done|].
    unfold mean. rewrite fmap_cons. by rewrite length_cons, length_fmap.
Qed.

(** C2 — In every pass of the main loop of [q_color], started in a reachable
    state [s] with [m] colors.  If the number of colors has reached
    [n_colors] the loop ends at once.  Otherwise both statuses are resized if
    full and their witnesses are picked: for either direction the picked pair
    is the first largest entry of the [m] by [m] block of [errors_base], the
    picked error is that largest entry, and the picked threshold is the mean
    of [neighbor[node][j]] over the nodes of color [i] (their sum divided by
    their number).  The pass ends the loop ([break]) exactly when both
    maximum errors are at or below [q_errors].  If it does not, the pass acts
    on the direction with the larger maximum error, the outgoing one on a
    tie; it splits that direction's witness color [i] with the predicate
    [neighbor[node][j] > threshold], where [threshold] is the mean that
    [pick_witness] computed: the nodes above it are ejected into the new
    color and the others retained; when a side is empty the assertion of
    [split_color] fails, and otherwise both statuses are updated (they are in
    step with the new partition) and the loop goes on from there. *)
Theorem loop_pass (G : Graph) (cfg : Config) (s : Frame) :
  reachable G cfg s →
  (loop_test cfg s = false → ∀ fuel, while_loop G cfg fuel s = (Ok tt, s))
  ∧ (loop_test cfg s = true →
     ∃ s1 io jo to eo ii ji ti ei,
       grow_if_full s = (Ok tt, s1) ∧ self s1 = self s ∧
       pick_witness Out s1 = (Ok (io, jo, to, Fin eo), s1) ∧
       pick_witness In s1 = (Ok (ii, ji, ti, Fin ei), s1) ∧
       let m := length (p (self s)) in
       first_maximum (errors_base (color_status Out s1)) m io jo eo ∧
       first_maximum (errors_base (color_status In s1)) m ii ji ei ∧
       mean_over (p (self s)) (neighbor (color_status Out s1)) io jo to ∧
       mean_over (p (self s)) (neighbor (color_status In s1)) ii ji ti ∧
       let stop := fleb (Fin ei) (q_errors cfg) && fleb (Fin eo) (q_errors cfg) in
       ((∃ s_end, loop_body G cfg s = (Ok true, s_end)) ↔ stop = true)
       ∧ (stop = true →
          loop_body G cfg s = (Ok true, s1) ∧
          ∀ fuel, while_loop G cfg (S fuel) s = (Ok tt, s1))
       ∧ (stop = false →
          let d := if decide (ei ≤ eo) then Out else In in
          let i := match d with Out => io | In => ii end in
          let j := match d with Out => jo | In => ji end in
          let threshold := match d with Out => to | In => ti end in
          ∃ X nb col,
            p (self s) !! i = Some X ∧
            neighbor (color_status d s1) = Some nb ∧
            gather nb X j = Ok col ∧
            threshold = mean col ∧
            mean col = Fin (Qc_sum col / Qc_of_nat (length X)) ∧
            let retain := filter (λ x, above nb j threshold x = false) X in
            let eject := filter (λ x, above nb j threshold x = true) X in
            (retain = [] ∨ eject = [] →
               split_color d i j threshold s1 = (Raise AssertionError, s1) ∧
               loop_body G cfg s = (Raise AssertionError, s1) ∧
               ∀ fuel, while_loop G cfg (S fuel) s = (Raise AssertionError, s1))
            ∧ (retain ≠ [] ∧ eject ≠ [] →
               ∃ s', loop_body G cfg s = (Ok false, s') ∧
                     reachable G cfg s' ∧
                     p (self s') = <[i := retain]> (p (self s)) ++ [eject] ∧
                     (∀ d', status_ok (num_nodes G) (weights_of G d')
                              (p (self s')) (color_status d' s')) ∧
                     ∀ fuel, while_loop G cfg (S fuel) s = while_loop G cfg fuel s'))).
Proof.
  intros Hreach. pose proof (reachable_inv G cfg s Hreach) as Hinv. split.
  { intros Ht fuel. by rewrite while_loop_eq, Ht. }
  intros Ht.
  destruct (loop_body_spec G cfg s Hinv)
    as (s1 & ii & ij & Xi & Yi & ei & oi & oj & Xo & Yo & eo &
        Hgrow & Hinv1 & Hself & Hcap & Hpi & HXi & HYi & Hpo & HXo & HYo & Hbody).
  eexists s1, oi, oj, _, eo, ii, ij, _, ei.
  split; [done|]. split; [done|]. split; [done|]. split; [done|].
  intros m.
  destruct (pick_witness_first_maximum G Out s1 _ _ _ _ Hinv1 Hpo) as [Hmo Hto].
  destruct (pick_witness_first_maximum G In s1 _ _ _ _ Hinv1 Hpi) as [Hmi Hti].
  rewrite Hself in Hmo, Hto, Hmi, Hti.
  split; [exact Hmo|]. split; [exact Hmi|]. split; [exact Hto|]. split; [exact Hti|].
  fold (tolerated cfg (Fin ei) (Fin eo)). intros stop.
  assert (∀ r s', loop_body G cfg s = (r, s') →
            ∀ fuel, while_loop G cfg (S fuel) s =
              match r with
              | Ok true => (Ok tt, s')
              | Ok false => while_loop G cfg fuel s'
              | Raise e => (Raise e, s')
              | Fuel => (Fuel, s')
              end) as Hloop.
  { intros r s' Hb fuel. rewrite while_loop_eq, Ht, bind_eq, Hb.
    by destruct r as [[|]| |]. }
  rewrite <- Hself in HXi, HYi, HXo, HYo, Hcap.
  assert (∀ d i j X Y thr,
    p (self s1) !! i = Some X → p (self s1) !! j = Some Y →
    thr = mean (deg (weights_of G d) Y <$> X) →
    loop_body G cfg s = split_and_update G d i j thr s1 →
    ∃ X nb col,
      p (self s) !! i = Some X ∧
      neighbor (color_status d s1) = Some nb ∧
      gather nb X j = Ok col ∧ thr = mean col ∧
      mean col = Fin (Qc_sum col / Qc_of_nat (length X)) ∧
      let retain := filter (λ x, above nb j thr x = false) X in
      let eject := filter (λ x, above nb j thr x = true) X in
      (retain = [] ∨ eject = [] →
         split_color d i j thr s1 = (Raise AssertionError, s1) ∧
         loop_body G cfg s = (Raise AssertionError, s1) ∧
         ∀ fuel, while_loop G cfg (S fuel) s = (Raise AssertionError, s1))
      ∧ (retain ≠ [] ∧ eject ≠ [] →
         ∃ s', loop_body G cfg s = (Ok false, s') ∧
               reachable G cfg s' ∧
               p (self s') = <[i := retain]> (p (self s)) ++ [eject] ∧
               (∀ d', status_ok (num_nodes G) (weights_of G d')
                        (p (self s')) (color_status d' s')) ∧
               ∀ fuel, while_loop G cfg (S fuel) s = while_loop G cfg fuel s'))
    as Hcase.
  { intros d i j X Y thr HX HY Hthr Hb.
    pose proof (valid_partition_Forall_lt _ _ _ _ (inv_partition _ _ Hinv1) HX) as HvX.
    pose proof (gather_neighbor_of _ (weights_of G d) _ _ _ Y HvX HY) as Hg.
    exists X, (neighbor_of (num_nodes G) (weights_of G d) (p (self s1))),
      (deg (weights_of G d) Y <$> X).
    split; [by rewrite <- Hself|].
    split; [apply (ok_neighbor _ _ _ _ (inv_status _ _ Hinv1 d))|].
    split; [done|]. split; [done|].
    split.
    { pose proof (valid_partition_nonempty _ _ _ _ (inv_partition _ _ Hinv1) HX) as HXne.
      clear -HXne. destruct X as [|x X]; [done|].
      unfold mean. rewrite fmap_cons. by rewrite length_cons, length_fmap. }
    intros retain eject.
    assert (retain = retain_of X (deg (weights_of G d) Y <$> X) thr) as Hr
      by (symmetry; by eapply retain_of_filter).
    assert (eject = eject_of X (deg (weights_of G d) Y <$> X) thr) as He
      by (symmetry; by eapply eject_of_filter).
    destruct (split_and_update_spec G d i j thr s1 X Y Hinv1 Hcap HX HY)
      as (split & Hg' & Hcases).
    rewrite Hg in Hg'. injection Hg' as <-. rewrite <- Hr, <- He in Hcases.
    destruct Hcases as [(Hempty & Hsplit & Hrun)|(Hrne & Hene & s' & Hsplit & Hrun & Hinv' & Hself' & _)].
    - split.
      + intros _. rewrite Hb. split; [done|]. split; [done|].
        intros fuel. rewrite Hb in Hloop. by rewrite (Hloop _ _ Hrun).
      + intros [? ?]. by destruct Hempty.
    - split.
      + intros [?|?]; done.
      + intros _. rewrite Hb in Hloop |- *. exists s'. split; [done|].
        split; [eapply reach_pass; eauto; by rewrite Hb|].
        split; [by rewrite Hself', <- Hself|].
        split; [apply Hinv'|]. intros fuel. by rewrite (Hloop _ _ Hrun). }
  rewrite acting_direction_fin in Hbody.
  split; [|split].
  - rewrite Hbody. subst stop. destruct (tolerated cfg (Fin ei) (Fin eo)) eqn:Htol.
    + split; eauto.
    + split; [|done]. intros [s_end Hend]. exfalso.
      destruct (decide (ei ≤ eo));
        by apply split_and_update_false in Hend.
  - intros Hstop. subst stop. rewrite Hstop in Hbody. split; [done|].
    intros fuel. by rewrite (Hloop _ _ Hbody).
  - intros Hstop. subst stop. rewrite Hstop in Hbody.
    destruct (decide (ei ≤ eo)).
    + by apply (Hcase Out oi oj Xo Yo _ HXo HYo eq_refl Hbody).
    + by apply (Hcase In ii ij Xi Yi _ HXi HYi eq_refl Hbody).
Qed.

Lemma loop_pass_witness :
  reachable scenario_graph scenario_cfg scenario_start ∧
  (loop_test scenario_cfg scenario_start = true →
   ∃ s1 io jo to eo ii ji ti ei,
     grow_if_full scenario_start = (Ok tt, s1) ∧
     pick_witness Out s1 = (Ok (io, jo, to, Fin eo), s1) ∧
     pick_witness In s1 = (Ok (ii, ji, ti, Fin ei), s1) ∧
     first_maximum (errors_base (color_status Out s1))
       (length (p (self scenario_start))) io jo eo ∧
     first_maximum (errors_base (color_status In s1))
       (length (p (self scenario_start))) ii ji ei ∧
     mean_over (p (self scenario_start)) (neighbor (color_status Out s1)) io jo to ∧
     mean_over (p (self scenario_start)) (neighbor (color_status In s1)) ii ji ti).
Proof.
  split; [exact scenario_start_reachable|]. intros Ht.
  destruct (proj2 (loop_pass scenario_graph scenario_cfg scenario_start
                     scenario_start_reachable) Ht)
    as (s1 & io & jo & to & eo & ii & ji & ti & ei & Hg & _ & Hpo & Hpi
        & Hmo & Hmi & Hto & Hti & _).
  exists s1, io, jo, to, eo, ii, ji, ti, ei. split; [exact Hg|].
  split; [exact Hpo|]. split; [exact Hpi|]. split; [exact Hmo|].
  split; [exact Hmi|]. split; [exact Hto|exact Hti].
Defined.

(** C10 — The result of [q_color] (outcome, final partition and final
    [q_error]) is the same whether [weighting] is passed as [True] or as
    [False], for every graph, every [n_colors] and [q_errors], every object
    it is called on and every bound on the passes: the flag is never read. *)
Theorem weighting_ignored (G : Graph) (cap tolerance : float32)
    (qsc : QuasiStableColoring) :
  q_color G (mkConfig true cap tolerance) qsc
    = q_color G (mkConfig false cap tolerance) qsc
  ∧ ∀ fuel, q_color_fuel G fuel (mkConfig true cap tolerance) qsc
            = q_color_fuel G fuel (mkConfig false cap tolerance) qsc.
Proof.
  assert (∀ fuel s, while_loop G (mkConfig true cap tolerance) fuel s
                    = while_loop G (mkConfig false cap tolerance) fuel s) as Hloop.
  { induction fuel as [|fuel IH]; intros s; rewrite !while_loop_eq.
    - reflexivity.
    - change (loop_test (mkConfig true cap tolerance) s)
        with (loop_test (mkConfig false cap tolerance) s).
      destruct (loop_test _ s); [|done].
      change (loop_body G (mkConfig true cap tolerance))
        with (loop_body G (mkConfig false cap tolerance)).
      apply bind_ext. intros [|] s'; [done|apply IH]. }
  assert (∀ fuel, q_color_fuel G fuel (mkConfig true cap tolerance) qsc
                  = q_color_fuel G fuel (mkConfig false cap tolerance) qsc) as Hfuel.
  { intros fuel. unfold q_color_fuel. cbn [n_colors].
    destruct (capacity cap); [|done..].
    rewrite !q_color_frame_eq.
    assert (∀ s, (init_both G;; while_loop G (mkConfig true cap tolerance) fuel;;
                  final_report) s
               = (init_both G;; while_loop G (mkConfig false cap tolerance) fuel;;
                  final_report) s) as ->; [|done].
    intros s. apply bind_ext. intros [] s'. rewrite !bind_eq. by rewrite Hloop. }
  split; [apply Hfuel|apply Hfuel].
Qed.
(** The resizing step does not change what [pick_witness] returns. *)
Lemma pick_witness_grow G d s s1 w :
  inv G s → grow_if_full s = (Ok tt, s1) →
  pick_witness d s = (Ok w, s) → pick_witness d s1 = (Ok w, s1).
Proof.
  intros Hinv Hgrow Hpick.
  destruct (grow_if_full_spec G s Hinv)
    as (s1' & Hgrow' & Hinv1 & Hself & _ & _ & Hblock).
  rewrite Hgrow in Hgrow'. injection Hgrow' as <-.
  destruct (pick_witness_spec _ _ d s (inv_partition _ _ Hinv) (inv_pos _ _ Hinv)
              (inv_status _ _ Hinv d))
    as (i & j & X & Y & e & Hp & HX & HY & He & Hle & Hlt).
  destruct (pick_witness_spec _ _ d s1 (inv_partition _ _ Hinv1) (inv_pos _ _ Hinv1)
              (inv_status _ _ Hinv1 d))
    as (i1 & j1 & X1 & Y1 & e1 & Hp1 & HX1 & HY1 & He1 & Hle1 & Hlt1).
  rewrite Hp in Hpick. injection Hpick as <-. rewrite Hp1.
  rewrite Hself in HX1, HY1, Hle1, Hlt1.
  pose proof (lookup_lt_Some _ _ _ HX) as Hi. pose proof (lookup_lt_Some _ _ _ HY) as Hj.
  pose proof (lookup_lt_Some _ _ _ HX1) as Hi1. pose proof (lookup_lt_Some _ _ _ HY1) as Hj1.
  assert (∀ a b, (a < length (p (self s)))%nat → (b < length (p (self s)))%nat →
            mget (errors_base (color_status d s1)) a b
            = mget (errors_base (color_status d s)) a b) as Heq.
  { intros a b Ha Hb. by destruct (Hblock d a b Ha Hb) as (_ & _ & ?). }
  rewrite (Heq i1 j1 Hi1 Hj1) in He1.
  assert (e1 = e) as ->.
  { apply Qcle_antisym.
    - by apply (Hle i1 j1 e1 Hi1 Hj1).
    - apply (Hle1 i j e Hi Hj). by rewrite Heq. }
  assert (i1 = i ∧ j1 = j) as [-> ->].
  { destruct (decide (i1 < i ∨ (i1 = i ∧ j1 < j))%nat) as [Hlex|Hn1].
    { pose proof (Hlt i1 j1 e Hi1 Hj1 Hlex He1) as Habs.
      by apply Qclt_not_eq in Habs. }
    destruct (decide (i < i1 ∨ (i = i1 ∧ j < j1))%nat) as [Hlex|Hn2].
    { assert (mget (errors_base (color_status d s1)) i j = Some (Fin e)) as He'
        by (by rewrite Heq).
      pose proof (Hlt1 i j e Hi Hj Hlex He') as Habs.
      by apply Qclt_not_eq in Habs. }
    lia. }
  rewrite HX in HX1. injection HX1 as <-. rewrite HY in HY1. by injection HY1 as <-.
Qed.

(** C7 — If, after the two calls of [init_status], the maximum error of
    both directions is at or below [q_errors], or if [n_colors] is at most
    1, then [q_color] performs no split: the partition it leaves is the one
    color with all [v] nodes that [__init__] created.  In the first case
    [q_color] returns, and [q_error] is the larger of the two maximum
    errors. *)
Theorem idempotent_stop (G : Graph) (cfg : Config) :
  let qsc0 := QuasiStableColoring_init G in
  (fleb (n_colors cfg) (Fin 1) = true →
     p (q_color G cfg qsc0).2 = [seq 0 (num_nodes G)])
  ∧ (∀ n s0 io jo to eo ii ji ti ei,
       capacity (n_colors cfg) = Ok n →
       init_both G (first_frame G n qsc0) = (Ok tt, s0) →
       pick_witness Out s0 = (Ok (io, jo, to, eo), s0) →
       pick_witness In s0 = (Ok (ii, ji, ti, ei), s0) →
       fleb ei (q_errors cfg) = true →
       fleb eo (q_errors cfg) = true →
       q_color G cfg qsc0 = (Ok tt, mkQSC [seq 0 (num_nodes G)] (py_max eo ei))).
Proof.
  intros qsc0. split.
  - intros Hcap. unfold q_color, q_color_fuel.
    destruct (capacity (n_colors cfg)) as [n| |]; [|done..].
    fold (first_frame G n qsc0). rewrite q_color_frame_eq. cbn [snd].
    set (s00 := first_frame G n qsc0).
    pose proof (keeps_self_init_both G s00) as Hkeep.
    rewrite bind_eq.
    destruct (init_both G s00) as [[[]| |] s0] eqn:Hinit; simpl in Hkeep;
      [|simpl; by rewrite Hkeep..].
    rewrite bind_eq, while_loop_eq.
    assert (loop_test cfg s0 = false) as ->.
    { unfold loop_test. rewrite Hkeep. simpl.
      unfold Qc_of_nat. change (Z.of_nat 1) with 1%Z. rewrite Z2Qc_inj_1.
      destruct (n_colors cfg) as [q| | |]; simpl in *; try done.
      apply bool_decide_eq_true in Hcap. apply bool_decide_eq_false.
      by apply Qcle_not_lt. }
    cbn beta iota. destruct (final_report s0) as [r s'] eqn:Hfin.
    cbn [snd]. rewrite (final_report_p _ _ _ Hfin). by rewrite Hkeep.
  - intros n s0 io jo to eo ii ji ti ei Hcap Hinit Hpo Hpi Hei Heo.
    destruct (reach_init_inv G n s0 Hinit) as [Hinv Hself].
    unfold q_color, q_color_fuel. rewrite Hcap.
    fold (first_frame G n qsc0). rewrite q_color_frame_eq.
    rewrite (bind_ok _ _ _ _ _ Hinit).
    assert (∀ s1, self s1 = self s0 →
              pick_witness Out s1 = (Ok (io, jo, to, eo), s1) →
              pick_witness In s1 = (Ok (ii, ji, ti, ei), s1) →
              final_report s1 = (Ok tt, set_q_error (py_max eo ei) s1)) as Hfin.
    { intros s1 _ Ho Hi. unfold final_report.
      by rewrite (bind_ok _ _ _ _ _ Ho), (bind_ok _ _ _ _ _ Hi). }
    destruct (num_nodes G) as [|fuel] eqn:Hv.
    { pose proof (inv_pos _ _ Hinv). lia. }
    rewrite bind_eq, while_loop_eq.
    destruct (loop_test cfg s0).
    + destruct (grow_if_full_spec G s0 Hinv) as (s1 & Hgrow & Hinv1 & Hself1 & _).
      pose proof (pick_witness_grow G Out s0 s1 _ Hinv Hgrow Hpo) as Hpo1.
      pose proof (pick_witness_grow G In s0 s1 _ Hinv Hgrow Hpi) as Hpi1.
      assert (loop_body G cfg s0 = (Ok true, s1)) as Hbody.
      { rewrite loop_body_unfold.
        rewrite (bind_ok _ _ _ _ _ Hgrow), (bind_ok _ _ _ _ _ Hpi1),
          (bind_ok _ _ _ _ _ Hpo1).
        unfold tolerated. by rewrite Hei, Heo. }
      rewrite (bind_ok _ _ _ _ _ Hbody). simpl.
      rewrite (Hfin s1 Hself1 Hpo1 Hpi1). simpl.
      rewrite Hself1, Hself. simpl. by rewrite Hv.
    + rewrite (Hfin s0 eq_refl Hpo Hpi). simpl. rewrite Hself. simpl. by rewrite Hv.
Qed.

Lemma idempotent_stop_witness :
  let w_out := witness_of (pick_witness Out edgeless_start).1 in
  let w_in := witness_of (pick_witness In edgeless_start).1 in
  fleb w_in.2 (q_errors scenario_cfg) = true ∧
  fleb w_out.2 (q_errors scenario_cfg) = true ∧
  q_color edgeless_graph scenario_cfg (QuasiStableColoring_init edgeless_graph)
    = (Ok tt, mkQSC [seq 0 2] (py_max w_out.2 w_in.2)).
Proof.
  intros w_out w_in.
  assert (fleb w_in.2 (q_errors scenario_cfg) = true) as Hi by (vm_compute; reflexivity).
  assert (fleb w_out.2 (q_errors scenario_cfg) = true) as Ho by (vm_compute; reflexivity).
  split; [exact Hi|]. split; [exact Ho|].
  apply (proj2 (idempotent_stop edgeless_graph scenario_cfg) 4%nat edgeless_start
           w_out.1.1.1 w_out.1.1.2 w_out.1.2 w_out.2
           w_in.1.1.1 w_in.1.1.2 w_in.1.2 w_in.2).
  - vm_compute. reflexivity.
  - vm_compute. reflexivity.
  - vm_compute. reflexivity.
  - vm_compute. reflexivity.
  - exact Hi.
  - exact Ho.
Defined.

Lemma split_color_outcome_witness :
  (split_color In 0 0 (Fin (Z2 3)) scenario_split_point).1 = Ok tt ∧
  length (p (self (split_color In 0 0 (Fin (Z2 3)) scenario_split_point).2))
    = S (length (p (self scenario_split_point))).
Proof.
  assert ((split_color In 0 0 (Fin (Z2 3)) scenario_split_point).1 = Ok tt) as Hok
    by (vm_compute; reflexivity).
  split; [exact Hok|].
  destruct (split_color_outcome In 0 0 (Fin (Z2 3)) scenario_split_point)
    as (_ & _ & Hsucc & _).
  destruct (Hsucc Hok) as (arr & nb & retain & eject & _ & _ & _ & _ & _ & _ & _ & _ & _ & Hlen & _).
  exact Hlen.
Defined.
(** * Further properties of the engine *)

(** ** The split at the mean *)

Lemma Qc_of_nat_pos n : (0 < n)%nat → 0 < Qc_of_nat n.
Proof.
  intros Hn. unfold Qc_of_nat, Qc_of_Z. unfold Qclt. simpl.
  unfold Qlt. simpl. lia.
Qed.

Lemma Qc_of_nat_S n : Qc_of_nat (S n) = 1 + Qc_of_nat n.
Proof.
  unfold Qc_of_nat, Qc_of_Z. apply Qc_is_canon.
  unfold Qcplus. cbn [this Q2Qc]. rewrite !Qred_correct.
  unfold Qeq, Qplus, inject_Z. cbn [Qnum Qden]. lia.
Qed.

Lemma Qc_of_nat_0 : Qc_of_nat 0 = 0.
Proof. by apply Qc_is_canon. Qed.

Lemma Qc_sum_le_bound (l : list Qc) hi :
  Forall (λ x, x ≤ hi) l → Qc_sum l ≤ Qc_of_nat (length l) * hi.
Proof.
  induction 1 as [|x l Hx Hl IH].
  - rewrite Qc_sum_nil. cbn [length]. rewrite Qc_of_nat_0, Qcmult_0_l. apply Qcle_refl.
  - rewrite Qc_sum_cons. cbn [length]. rewrite Qc_of_nat_S.
    replace ((1 + Qc_of_nat (length l)) * hi) with (hi + Qc_of_nat (length l) * hi) by ring.
    by apply Qcplus_le_compat.
Qed.

Lemma Qc_sum_lt_bound (l : list Qc) hi lo :
  Forall (λ x, x ≤ hi) l → lo ∈ l → lo < hi → Qc_sum l < Qc_of_nat (length l) * hi.
Proof.
  induction 1 as [|x l Hx Hl IH]; intros Hin Hlt.
  - by apply elem_of_nil in Hin.
  - rewrite Qc_sum_cons. cbn [length]. rewrite Qc_of_nat_S.
    replace ((1 + Qc_of_nat (length l)) * hi) with (hi + Qc_of_nat (length l) * hi) by ring.
    apply elem_of_cons in Hin as [<-|Hin].
    + apply Qclt_le_trans with (hi + Qc_sum l).
      * rewrite (Qcplus_comm lo), (Qcplus_comm hi). by apply Qcplus_lt_mono_l.
      * apply Qcplus_le_compat; [apply Qcle_refl|]. by apply Qc_sum_le_bound.
    + apply Qcle_lt_trans with (hi + Qc_sum l).
      * apply Qcplus_le_compat; [done|apply Qcle_refl].
      * apply Qcplus_lt_mono_l. by apply IH.
Qed.
Lemma Qc_sum_ge_bound (l : list Qc) lo :
  Forall (λ x, lo ≤ x) l → Qc_of_nat (length l) * lo ≤ Qc_sum l.
Proof.
  induction 1 as [|x l Hx Hl IH].
  - rewrite Qc_sum_nil. cbn [length]. rewrite Qc_of_nat_0, Qcmult_0_l. apply Qcle_refl.
  - rewrite Qc_sum_cons. cbn [length]. rewrite Qc_of_nat_S.
    replace ((1 + Qc_of_nat (length l)) * lo) with (lo + Qc_of_nat (length l) * lo) by ring.
    by apply Qcplus_le_compat.
Qed.

(** The mean of a non-empty list lies between its smallest and its largest
    entry, and below the largest one unless all entries are equal. *)
Lemma mean_bounds (l : list Qc) lo hi :
  l ≠ [] → is_min l lo → is_max l hi →
  ∃ m, mean l = Fin m ∧ lo ≤ m ∧ m ≤ hi ∧ (m < hi ↔ lo < hi).
Proof.
  intros Hl [Hlo_in Hlo] [Hhi_in Hhi].
  set (n := Qc_of_nat (length l)).
  assert (0 < n) as Hn.
  { apply Qc_of_nat_pos. destruct l; [done|simpl; lia]. }
  assert (n ≠ 0) as Hn0.
  { intros H0. rewrite H0 in Hn. by apply Qclt_not_eq in Hn. }
  exists (Qc_sum l / n).
  assert (Qc_sum l / n * n = Qc_sum l) as Hm by (field; done).
  assert (Qc_sum l ≤ n * hi) as Hup.
  { apply Qc_sum_le_bound, Forall_forall. exact Hhi. }
  assert (n * lo ≤ Qc_sum l) as Hdn.
  { apply Qc_sum_ge_bound, Forall_forall. exact Hlo. }
  assert (lo ≤ Qc_sum l / n) as H1.
  { apply (Qcmult_lt_0_le_reg_r _ _ n Hn). rewrite Hm. by rewrite Qcmult_comm. }
  assert (Qc_sum l / n ≤ hi) as H2.
  { apply (Qcmult_lt_0_le_reg_r _ _ n Hn). rewrite Hm. by rewrite (Qcmult_comm hi). }
  split. { destruct l; [done|]. done. }
  split; [done|]. split; [done|]. split.
  - intros Hlt. by eapply Qcle_lt_trans.
  - intros Hlt. apply Qcnot_le_lt. intros Hle.
    pose proof (Qc_sum_lt_bound l hi lo (proj2 (Forall_forall _ _) Hhi) Hlo_in Hlt) as Hs.
    apply (Qcmult_le_compat_r _ _ n) in Hle; [|by apply Qclt_le_weak].
    rewrite Hm, (Qcmult_comm hi) in Hle.
    by apply Qcle_not_lt in Hle.
Qed.

Lemma mask_select_nil {A} (arr : list A) (mask : list bool) :
  length arr = length mask →
  mask_select arr mask = [] ↔ Forall (λ b, b = false) mask.
Proof.
  revert mask. induction arr as [|a arr IH]; intros [|b mask] Hlen; try done.
  simpl in Hlen. injection Hlen as Hlen. simpl. destruct b.
  - split; [done|]. by intros [? _]%Forall_cons.
  - rewrite (IH mask Hlen). split; [by constructor|]. by intros [_ ?]%Forall_cons.
Qed.

(** A split at the mean: the retain side is never empty, and the eject side
    is empty exactly when all entries are equal. *)
Lemma split_at_mean (arr : list nat) (l : list Qc) lo hi :
  length arr = length l → l ≠ [] → is_min l lo → is_max l hi →
  retain_of arr l (mean l) ≠ [] ∧ (eject_of arr l (mean l) = [] ↔ hi = lo).
Proof.
  intros Hlen Hl Hlo Hhi.
  destruct (mean_bounds l lo hi Hl Hlo Hhi) as (m & -> & H1 & H2 & H3).
  destruct Hlo as [Hlo_in Hlo]. destruct Hhi as [Hhi_in Hhi].
  split.
  - unfold retain_of. intros Hnil.
    apply mask_select_nil in Hnil; [|by rewrite !length_fmap].
    rewrite Forall_fmap, Forall_fmap, Forall_forall in Hnil.
    specialize (Hnil lo Hlo_in). simpl in Hnil.
    unfold fgtb, fltb in Hnil. rewrite bool_decide_false in Hnil; [done|].
    by apply Qcle_not_lt.
  - unfold eject_of. rewrite mask_select_nil by (by rewrite !length_fmap).
    rewrite Forall_fmap, Forall_forall. split.
    + intros Hall. specialize (Hall hi Hhi_in). simpl in Hall.
      unfold fgtb, fltb in Hall. apply bool_decide_eq_false in Hall.
      apply Qcnot_lt_le in Hall.
      apply Qcle_antisym; [|by apply Qcle_trans with m].
      destruct (Qclt_le_dec lo hi) as [Hlt|Hle]; [|done].
      apply H3 in Hlt. by apply Qcle_not_lt in Hall.
    + intros -> x Hx. simpl. unfold fgtb, fltb. apply bool_decide_eq_false.
      apply Qcle_not_lt. apply Qcle_trans with lo; [by apply Hhi|done].
Qed.

(** ** The loop, pass by pass *)

Lemma Qc_minus_0 (x y : Qc) : x - y = 0 → x = y.
Proof. intros H. replace x with ((x - y) + y) by ring. rewrite H. ring. Qed.

(** The witness a status picks, and what a split at its threshold does: in
    a state in step with the partition and with room for one more color, the
    split fails exactly when the picked error is zero. *)
Lemma pick_split_spec G d s :
  inv G s → (length (p (self s)) < cs_n (color_status_in s))%nat →
  ∃ i j X Y e,
    pick_witness d s = (Ok (i, j, mean (deg (weights_of G d) Y <$> X), Fin e), s) ∧
    p (self s) !! i = Some X ∧ p (self s) !! j = Some Y ∧
    0 ≤ e ∧
    (∀ i' j' X' Y' x y, p (self s) !! i' = Some X' → p (self s) !! j' = Some Y' →
       x ∈ X' → y ∈ X' →
       deg (weights_of G d) Y' x - deg (weights_of G d) Y' y ≤ e) ∧
    (e = 0 →
       split_and_update G d i j (mean (deg (weights_of G d) Y <$> X)) s
         = (Raise AssertionError, s)) ∧
    (e ≠ 0 →
       ∃ s', split_and_update G d i j (mean (deg (weights_of G d) Y <$> X)) s
               = (Ok false, s') ∧ inv G s' ∧
             length (p (self s')) = S (length (p (self s))) ∧
             q_error (self s') = q_error (self s) ∧
             cs_n (color_status_in s') = cs_n (color_status_in s)).
Proof.
  intros Hinv Hcap.
  destruct (pick_witness_spec (num_nodes G) (weights_of G d) d s
              (inv_partition _ _ Hinv) (inv_pos _ _ Hinv) (inv_status _ _ Hinv d))
    as (i & j & X & Y & e & Hpick & HX & HY & He & Hmax & _).
  exists i, j, X, Y, e.
  destruct (ok_block _ _ _ _ (inv_status _ _ Hinv d) i j X Y HX HY)
    as (hi & lo & Hhi & Hlo & _ & _ & He').
  rewrite He in He'. injection He' as ->.
  apply reduce_vec_max in Hhi. apply reduce_vec_min in Hlo.
  pose proof (is_min_le_is_max _ _ _ Hlo Hhi) as Hle.
  split; [done|]. split; [done|]. split; [done|].
  split. { by apply Qcle_minus_iff in Hle. }
  split.
  { intros i' j' X' Y' x y HX' HY' Hx Hy.
    destruct (ok_block _ _ _ _ (inv_status _ _ Hinv d) i' j' X' Y' HX' HY')
      as (hi' & lo' & Hhi' & Hlo' & _ & _ & He').
    apply reduce_vec_max in Hhi'. apply reduce_vec_min in Hlo'.
    apply Qcle_trans with (hi' - lo').
    - unfold Qcminus. apply Qcplus_le_compat.
      + apply Hhi'. by apply list_elem_of_fmap_2.
      + apply Qcopp_le_compat. apply Hlo'. by apply list_elem_of_fmap_2.
    - apply (Hmax i' j'); [by eapply lookup_lt_Some..|done]. }
  assert (Forall (λ x, x < num_nodes G)%nat X) as HXv.
  { eapply valid_partition_Forall_lt; [apply Hinv|done]. }
  assert (X ≠ []) as HXne.
  { eapply valid_partition_nonempty; [apply Hinv|done]. }
  destruct (split_at_mean X (deg (weights_of G d) Y <$> X) lo hi) as [Hret Hej];
    [by rewrite length_fmap|by destruct X|done|done|].
  destruct (split_and_update_spec G d i j (mean (deg (weights_of G d) Y <$> X)) s X Y
              Hinv Hcap HX HY) as (split & Hg & Hcases).
  rewrite (gather_neighbor_of _ _ _ _ _ Y HXv HY) in Hg. injection Hg as <-.
  split.
  - intros H0.
    destruct Hcases as [(_ & _ & Hr)|(_ & Hne & _)]; [done|].
    destruct Hne. apply Hej. by apply Qc_minus_0.
  - intros Hne0.
    destruct Hcases as [([Hr|Hr] & _)|(_ & _ & s' & Hsp & Hsu & Hinv' & Hself & Hn)].
    + done.
    + apply Hej in Hr. destruct Hne0. rewrite Hr. ring.
    + exists s'. split; [done|]. split; [done|].
      rewrite Hself. simpl. rewrite length_app, length_insert. simpl.
      split; [lia|]. done.
Qed.
(** One pass through the loop from a state of the invariant: the pass ends
    the loop when both maximum errors are tolerated, fails when both are
    zero, and splits otherwise. *)
Lemma loop_body_cases G cfg s :
  inv G s →
  ∃ s1 eo ei io jo to ii ji ti,
    grow_if_full s = (Ok tt, s1) ∧ inv G s1 ∧ self s1 = self s ∧
    pick_witness Out s1 = (Ok (io, jo, to, Fin eo), s1) ∧
    pick_witness In s1 = (Ok (ii, ji, ti, Fin ei), s1) ∧
    0 ≤ eo ∧ 0 ≤ ei ∧
    spread_within G Out (p (self s)) eo ∧ spread_within G In (p (self s)) ei ∧
    (tolerated cfg (Fin ei) (Fin eo) = true → loop_body G cfg s = (Ok true, s1)) ∧
    (tolerated cfg (Fin ei) (Fin eo) = false → eo = 0 → ei = 0 →
       loop_body G cfg s = (Raise AssertionError, s1)) ∧
    (tolerated cfg (Fin ei) (Fin eo) = false → (eo ≠ 0 ∨ ei ≠ 0) →
       ∃ s', loop_body G cfg s = (Ok false, s') ∧ inv G s' ∧
             length (p (self s')) = S (length (p (self s))) ∧
             q_error (self s') = q_error (self s)).
Proof.
  intros Hinv.
  destruct (loop_body_spec G cfg s Hinv)
    as (s1 & ii & ij & Xi & Yi & ei & oi & oj & Xo & Yo & eo &
        Hgrow & Hinv1 & Hself & Hcap & Hpi & HXi & HYi & Hpo & HXo & HYo & Hbody).
  assert (length (p (self s1)) < cs_n (color_status_in s1))%nat as Hcap1
    by (by rewrite Hself).
  destruct (pick_split_spec G Out s1 Hinv1 Hcap1)
    as (i & j & X & Y & e & Hpick & HX & HY & He & Hspread & Hzero & Hpos).
  rewrite Hpo in Hpick. injection Hpick as <- <- Hm <-.
  rewrite Hself in HX, HY. rewrite HXo in HX. rewrite HYo in HY.
  injection HX as <-. injection HY as <-. clear Hm.
  destruct (pick_split_spec G In s1 Hinv1 Hcap1)
    as (i & j & X & Y & e & Hpick & HX & HY & He' & Hspread' & Hzero' & Hpos').
  rewrite Hpi in Hpick. injection Hpick as <- <- Hm <-.
  rewrite Hself in HX, HY. rewrite HXi in HX. rewrite HYi in HY.
  injection HX as <-. injection HY as <-. clear Hm.
  exists s1, eo, ei, oi, oj, (mean (deg (weights_of G Out) Yo <$> Xo)),
    ii, ij, (mean (deg (weights_of G In) Yi <$> Xi)).
  split; [done|]. split; [done|]. split; [done|]. split; [done|]. split; [done|].
  split; [done|]. split; [done|].
  split. { unfold spread_within. rewrite <- Hself. exact Hspread. }
  split. { unfold spread_within. rewrite <- Hself. exact Hspread'. }
  rewrite Hbody. clear Hbody.
  split; [by intros ->|].
  unfold acting_direction, fgeb, fleb.
  split.
  - intros -> -> ->. rewrite bool_decide_true by apply Qcle_refl. by apply Hzero.
  - intros -> Hne. case_bool_decide as Hle.
    + destruct (Hpos) as (s' & Hsu & Hinv' & Hlen & Hq & _).
      { intros ->. destruct Hne as [|Hne]; [done|]. apply Hne. by apply Qcle_antisym. }
      exists s'. rewrite Hself in Hlen, Hq. done.
    + destruct (Hpos') as (s' & Hsu & Hinv' & Hlen & Hq & _).
      { intros ->. by destruct Hle. }
      exists s'. rewrite Hself in Hlen, Hq. done.
Qed.

(** The maximum error a status reports is the largest spread of a pair of
    colors: no pair has a larger spread, and some pair has this one. *)
Lemma pick_witness_spread G d s :
  inv G s →
  ∃ i j to e,
    pick_witness d s = (Ok (i, j, to, Fin e), s) ∧ 0 ≤ e ∧
    spread_within G d (p (self s)) e ∧ spread_attained G d (p (self s)) e.
Proof.
  intros Hinv.
  destruct (pick_witness_spec (num_nodes G) (weights_of G d) d s
              (inv_partition _ _ Hinv) (inv_pos _ _ Hinv) (inv_status _ _ Hinv d))
    as (i & j & X & Y & e & Hpick & HX & HY & He & Hmax & _).
  exists i, j, (mean (deg (weights_of G d) Y <$> X)), e.
  destruct (ok_block _ _ _ _ (inv_status _ _ Hinv d) i j X Y HX HY)
    as (hi & lo & Hhi & Hlo & _ & _ & He').
  rewrite He in He'. injection He' as ->.
  apply reduce_vec_max in Hhi. apply reduce_vec_min in Hlo.
  pose proof (is_min_le_is_max _ _ _ Hlo Hhi) as Hle.
  split; [done|]. split. { by apply Qcle_minus_iff in Hle. }
  split.
  - intros i' j' X' Y' x y HX' HY' Hx Hy.
    destruct (ok_block _ _ _ _ (inv_status _ _ Hinv d) i' j' X' Y' HX' HY')
      as (hi' & lo' & Hhi' & Hlo' & _ & _ & He').
    apply reduce_vec_max in Hhi'. apply reduce_vec_min in Hlo'.
    apply Qcle_trans with (hi' - lo').
    + unfold Qcminus. apply Qcplus_le_compat.
      * apply Hhi'. by apply list_elem_of_fmap_2.
      * apply Qcopp_le_compat. apply Hlo'. by apply list_elem_of_fmap_2.
    + apply (Hmax i' j'); [by eapply lookup_lt_Some..|done].
  - destruct Hhi as [(x & -> & Hx)%list_elem_of_fmap _].
    destruct Hlo as [(y & -> & Hy)%list_elem_of_fmap _].
    by exists i, j, X, Y, x, y.
Qed.

(** Both calls of [init_status] succeed on an object with a valid partition
    when the statuses have room for its colors, and establish the invariant
    of the loop. *)
Lemma init_both_spec G n qsc :
  (0 < num_nodes G)%nat → valid_partition (num_nodes G) (p qsc) →
  (length (p qsc) ≤ n)%nat →
  ∃ s0, init_both G (first_frame G n qsc) = (Ok tt, s0) ∧ inv G s0 ∧ self s0 = qsc.
Proof.
  intros Hv HP Hn. unfold init_both.
  destruct (init_status_spec G Out (weights G) (first_frame G n qsc))
    as (co & Hout & Hoko & Hno); simpl; try done; try apply shape_full.
  destruct (init_status_spec G In (weights_transpose G)
              (set_color_status Out co (first_frame G n qsc)))
    as (ci & Hin & Hoki & Hni); simpl; try done; try apply shape_full.
  rewrite bind_eq, Hout, Hin. eexists. split; [done|]. split; [|done].
  split; simpl; try done.
  - intros []; simpl; done.
  - by rewrite Hno, Hni.
Qed.
(** How a run of the loop ends, from a state of the invariant. *)
Lemma loop_run_end G cfg s r s' :
  inv G s → loop_run G cfg s r s' →
  inv G s' ∧ q_error (self s') = q_error (self s) ∧
  (length (p (self s)) ≤ length (p (self s')))%nat ∧
  (length (p (self s')) = length (p (self s)) ∨
   fltb (Fin (Qc_of_nat (length (p (self s')) - 1))) (n_colors cfg) = true) ∧
  ∀ io jo to eo ii ji ti ei,
    pick_witness Out s' = (Ok (io, jo, to, Fin eo), s') →
    pick_witness In s' = (Ok (ii, ji, ti, Fin ei), s') →
    (r = Ok tt ∧ (loop_test cfg s' = false ∨ tolerated cfg (Fin ei) (Fin eo) = true)) ∨
    (r = Raise AssertionError ∧ loop_test cfg s' = true ∧
     tolerated cfg (Fin ei) (Fin eo) = false ∧ eo = 0 ∧ ei = 0).
Proof.
  intros Hinv Hrun.
  induction Hrun as [s Ht|s sa Ht Hb|s e sa Ht Hb|s sa r s' Ht Hb Hrun IH].
  - split; [done|]. split; [done|]. split; [done|]. split; [by left|].
    intros. left. auto.
  - destruct (loop_body_cases G cfg s Hinv)
      as (s1 & eo & ei & io & jo & to & ii & ji & ti & Hgrow & Hinv1 & Hself & Hpo & Hpi &
          Heo & Hei & _ & _ & Htol & Hzero & Hsplit).
    destruct (tolerated cfg (Fin ei) (Fin eo)) eqn:Htl.
    2:{ destruct (decide (eo = 0 ∧ ei = 0)) as [[H1 H2]|Hne].
        - rewrite (Hzero eq_refl H1 H2) in Hb. done.
        - destruct Hsplit as (s2 & Hb' & _); [done| |by rewrite Hb' in Hb].
          destruct (decide (eo = 0)); [|by left]. right. intros ?. by destruct Hne. }
    rewrite (Htol eq_refl) in Hb. injection Hb as <-.
    rewrite Hself. split; [done|]. split; [done|]. split; [done|]. split; [by left|].
    intros io' jo' to' eo' ii' ji' ti' ei' Hpo' Hpi'.
    rewrite Hpo in Hpo'. rewrite Hpi in Hpi'.
    injection Hpo' as _ _ _ <-. injection Hpi' as _ _ _ <-. left. auto.
  - destruct (loop_body_cases G cfg s Hinv)
      as (s1 & eo & ei & io & jo & to & ii & ji & ti & Hgrow & Hinv1 & Hself & Hpo & Hpi &
          Heo & Hei & _ & _ & Htol & Hzero & Hsplit).
    destruct (tolerated cfg (Fin ei) (Fin eo)) eqn:Htl.
    { rewrite (Htol eq_refl) in Hb. done. }
    destruct (decide (eo = 0 ∧ ei = 0)) as [[H1 H2]|Hne].
    2:{ destruct Hsplit as (s2 & Hb' & _); [done| |by rewrite Hb' in Hb].
        destruct (decide (eo = 0)); [|by left]. right. intros ?. by destruct Hne. }
    rewrite (Hzero eq_refl H1 H2) in Hb. injection Hb as <- <-.
    rewrite Hself. split; [done|]. split; [done|]. split; [done|]. split; [by left|].
    intros io' jo' to' eo' ii' ji' ti' ei' Hpo' Hpi'.
    rewrite Hpo in Hpo'. rewrite Hpi in Hpi'.
    injection Hpo' as _ _ _ <-. injection Hpi' as _ _ _ <-. right.
    split; [done|]. split; [|done].
    unfold loop_test. rewrite Hself. exact Ht.
  - destruct (loop_body_cases G cfg s Hinv)
      as (s1 & eo & ei & io & jo & to & ii & ji & ti & Hgrow & Hinv1 & Hself & Hpo & Hpi &
          Heo & Hei & _ & _ & Htol & Hzero & Hsplit).
    destruct (tolerated cfg (Fin ei) (Fin eo)) eqn:Htl.
    { rewrite (Htol eq_refl) in Hb. done. }
    destruct (decide (eo = 0 ∧ ei = 0)) as [[H1 H2]|Hne].
    { rewrite (Hzero eq_refl H1 H2) in Hb. done. }
    destruct Hsplit as (s2 & Hb' & Hinv2 & Hlen & Hq); [done| |].
    { destruct (decide (eo = 0)); [|by left]. right. intros ?. by destruct Hne. }
    rewrite Hb' in Hb. injection Hb as <-.
    destruct (IH Hinv2) as (Hinv' & Hq' & Hle & Hcap & Hend).
    split; [done|]. split; [by rewrite Hq'|]. split; [lia|]. split; [|done].
    right. destruct Hcap as [Heq|Hlt]; [|done].
    rewrite Heq, Hlen. replace (S (length (p (self s))) - 1)%nat with (length (p (self s))) by lia.
    exact Ht.
Qed.
Lemma this_Qc_of_nat n : (this (Qc_of_nat n) == inject_Z (Z.of_nat n))%Q.
Proof. reflexivity. Qed.

Lemma py_int_nonneg q :
  0 ≤ q →
  ∃ k, py_int (Fin q) = Ok (Z.of_nat k) ∧ Qc_of_nat k ≤ q ∧ q < Qc_of_nat k + 1.
Proof.
  intros Hq. destruct q as [[a b] Hc]. unfold Qcle in Hq.
  change (this 0) with 0%Q in Hq. unfold Qle in Hq. cbn in Hq.
  assert (0 ≤ a)%Z as Ha by lia.
  exists (Z.to_nat (a / Z.pos b)).
  assert (0 ≤ a / Z.pos b)%Z as Hz by (apply Z.div_pos; lia).
  split.
  - unfold py_int. cbn [this Qnum Qden].
    rewrite Z.quot_div_nonneg by lia. by rewrite Z2Nat.id.
  - pose proof (Z.mul_div_le a (Z.pos b) ltac:(lia)) as H1.
    pose proof (Z.mul_succ_div_gt a (Z.pos b) ltac:(lia)) as H2.
    split.
    + unfold Qcle. rewrite this_Qc_of_nat. cbn [this].
      unfold Qle, inject_Z. cbn [Qnum Qden]. rewrite Z2Nat.id by done. nia.
    + unfold Qclt. unfold Qcplus. cbn [this Q2Qc]. rewrite Qred_correct.
      rewrite this_Qc_of_nat.
      unfold Qlt, Qplus, inject_Z. cbn [Qnum Qden]. rewrite Z2Nat.id by done.
      change (Qred 1) with 1%Q. cbn [Qnum Qden]. nia.
Qed.
Lemma Qc_of_nat_le n m : Qc_of_nat n ≤ Qc_of_nat m → (n ≤ m)%nat.
Proof.
  unfold Qcle. rewrite !this_Qc_of_nat. unfold Qle, inject_Z. cbn [Qnum Qden]. lia.
Qed.

Lemma Qc_of_nat_lt n m : (n < m)%nat → Qc_of_nat n < Qc_of_nat m.
Proof.
  intros H. unfold Qclt. rewrite !this_Qc_of_nat. unfold Qlt, inject_Z. cbn [Qnum Qden]. lia.
Qed.

Lemma Qc_of_nat_mono n m : (n ≤ m)%nat → Qc_of_nat n ≤ Qc_of_nat m.
Proof.
  intros H. unfold Qcle. rewrite !this_Qc_of_nat. unfold Qle, inject_Z. cbn [Qnum Qden]. lia.
Qed.

(** The order of the matrices of a new status for a number [q] of colors
    that is not negative: [q] rounded down, and at most 128. *)
Lemma capacity_nonneg q :
  0 ≤ q →
  ∃ n, capacity (Fin q) = Ok n ∧ (n ≤ BASE_MATRIX_SIZE)%nat ∧ Qc_of_nat n ≤ q ∧
       (q < Qc_of_nat n + 1 ∨ n = BASE_MATRIX_SIZE).
Proof.
  intros Hq. unfold capacity, py_min, fltb. case_bool_decide as Hbig.
  - exists BASE_MATRIX_SIZE. split; [done|]. split; [done|].
    split; [by apply Qclt_le_weak|by right].
  - destruct (py_int_nonneg q Hq) as (k & -> & Hk1 & Hk2).
    apply Qcnot_lt_le in Hbig.
    exists k. rewrite bool_decide_false by lia. rewrite Nat2Z.id.
    split; [done|]. split; [|split; [done|by left]].
    apply Qc_of_nat_le. by apply Qcle_trans with q.
Qed.

Lemma capacity_fraction q : - (1) < q → q < 0 → capacity (Fin q) = Ok 0%nat.
Proof.
  intros H1 H0. unfold capacity, py_min, fltb.
  rewrite bool_decide_false.
  2:{ intros Hbig. apply (Qclt_trans _ _ _ Hbig) in H0. done. }
  destruct q as [[a b] Hc]. unfold Qclt in H1, H0.
  change (this (- (1))) with (-1 # 1)%Q in H1. change (this 0) with 0%Q in H0.
  unfold Qlt in H1, H0. cbn in H1, H0.
  unfold py_int. cbn [this Qnum Qden].
  assert (a ÷ Z.pos b = 0)%Z as ->.
  { rewrite <- (Z.opp_involutive a), Z.quot_opp_l by lia.
    rewrite Z.quot_small by lia. done. }
  done.
Qed.

Lemma capacity_negative q : q ≤ - (1) → capacity (Fin q) = Raise RuntimeError.
Proof.
  intros H1. unfold capacity, py_min, fltb.
  rewrite bool_decide_false.
  2:{ intros Hbig. apply (Qclt_le_trans _ _ _ Hbig) in H1. done. }
  destruct q as [[a b] Hc]. unfold Qcle in H1.
  change (this (- (1))) with (-1 # 1)%Q in H1.
  unfold Qle in H1. cbn in H1.
  unfold py_int. cbn [this Qnum Qden].
  rewrite bool_decide_true; [done|].
  rewrite <- (Z.opp_involutive a), Z.quot_opp_l by lia.
  assert (1 ≤ (- a) ÷ Z.pos b)%Z; [|lia].
  rewrite Z.quot_div_nonneg by lia.
  apply Z.div_le_lower_bound; lia.
Qed.
(** ** Matrices and sums *)

Lemma mget_overlay_outside {A} n n' (old : list (list A)) (x : A) i j :
  shape n n old → (i < n')%nat → (j < n')%nat → ¬ (i < n ∧ j < n)%nat →
  mget (overlay old (full n' n' x)) i j = Some x.
Proof.
  intros [Hn Hrows] Hi Hj Hout. rewrite mget_overlay.
  unfold full at 1. rewrite lookup_replicate_2 by done.
  destruct (old !! i) as [r|] eqn:Hr.
  - pose proof (lookup_lt_Some _ _ _ Hr) as Hlt.
    rewrite (Forall_lookup_1 _ _ _ _ Hrows Hr).
    rewrite decide_False by lia. by apply lookup_replicate_2.
  - by apply mget_full.
Qed.

Lemma Qc_sum_count_NoDup (X : list nat) (x : nat) :
  NoDup X →
  Qc_sum ((λ y, if decide (y = x) then 1 else 0) <$> X) = if decide (x ∈ X) then 1 else 0.
Proof.
  induction 1 as [|y X Hy HX IH].
  - rewrite decide_False; [done|]. apply not_elem_of_nil.
  - rewrite fmap_cons, Qc_sum_cons, IH.
    destruct (decide (y = x)) as [->|Hne].
    + rewrite decide_False by done. rewrite decide_True by apply list_elem_of_here. ring.
    + destruct (decide (x ∈ X)) as [Hin|Hin].
      * rewrite decide_True by (by apply list_elem_of_further). ring.
      * rewrite decide_False; [ring|]. rewrite elem_of_cons. intros [?|?]; congruence.
Qed.


(** ** Statuses without room *)

(** [init_status] for a status without room for the colors of a valid
    partition: [neighbor] is computed, and the first write into the view of
    [upper_base] fails. *)
Lemma init_status_no_room G d w s :
  valid_partition (num_nodes G) (p (self s)) → (0 < num_nodes G)%nat →
  (cs_n (color_status d s) < length (p (self s)))%nat →
  ∃ cs1, init_status G d w s =
           (Raise (if decide (cs_n (color_status d s) = 0%nat)
                   then IndexError else RuntimeError),
            set_color_status d cs1 s).
Proof.
  intros HP Hv Hn.
  unfold init_status.
  rewrite (bind_ok _ _ _ _ _ (partition_matrix_ok (num_nodes G) G s eq_refl HP)).
  set (cs1 := set_neighbor (mm (num_nodes G) (length (p (self s))) w
                (to_dense (mk_sparse_coo (num_nodes G) (length (p (self s)))
                  (mjoin (imap (λ c X, (λ x, (x, c)) <$> X) (p (self s))))
                  (replicate (num_nodes G) 1)))) (color_status d s)).
  rewrite (bind_ok _ _ _ tt (set_color_status d cs1 s)) by (by apply zoom_ok).
  rewrite (bind_ok _ _ _ (set_color_status d cs1 s) (set_color_status d cs1 s)) by done.
  rewrite self_set_color_status.
  assert (neighbor cs1 = Some (neighbor_of (num_nodes G) w (p (self s)))) as Hnb.
  { unfold cs1. simpl. f_equal. by apply mm_to_dense. }
  assert (cs_n cs1 = cs_n (color_status d s)) as Hn1 by done.
  clearbody cs1.
  destruct (p (self s)) as [|X P'] eqn:Hp; [simpl in Hn; lia|].
  assert (X ≠ []) as HX.
  { eapply (valid_partition_nonempty _ _ 0); [exact HP|done]. }
  assert (Forall (λ x, x < num_nodes G)%nat X) as Hlt.
  { eapply (valid_partition_Forall_lt _ _ 0); [exact HP|done]. }
  destruct (reduce_rows_neighbor_of Qc_max (num_nodes G) w (X :: P') X HX Hlt)
    as (hi & Hhi & Hlen & _).
  exists cs1.
  assert (refresh_row (S (length P')) 0 X cs1 =
            (Raise (if decide (cs_n (color_status d s) = 0%nat)
                    then IndexError else RuntimeError), cs1)) as Hfail.
  { unfold refresh_row, get_neighbor. mred. rewrite Hnb. simpl.
    rewrite (select_rows_neighbor_of _ _ _ _ Hlt), Hhi.
    unfold set_row. rewrite Hn1. simpl in Hn.
    case_decide as H0.
    - rewrite bool_decide_false by lia. done.
    - rewrite bool_decide_true by lia.
      rewrite bool_decide_false by (rewrite length_fmap; simpl in Hlen; lia).
      destruct hi as [|a [|b hi]]; simpl in Hlen; try done; lia. }
  rewrite bind_eq.
  rewrite (zoom_raise d _ _ (if decide (cs_n (color_status d s) = 0%nat)
                              then IndexError else RuntimeError) cs1);
    [by rewrite set_color_status_set|].
  rewrite color_status_set_eq. unfold enumerate. simpl. by rewrite bind_eq, Hfail.
Qed.
(** The two sides of the split at the witness a status picks: the retain
    side is never empty, the eject side is empty exactly when the picked
    error is zero. *)
Lemma pick_witness_sides G d s :
  inv G s →
  ∃ i j X Y e split,
    pick_witness d s = (Ok (i, j, mean split, Fin e), s) ∧
    p (self s) !! i = Some X ∧ p (self s) !! j = Some Y ∧
    neighbor (color_status d s) = Some (neighbor_of (num_nodes G) (weights_of G d) (p (self s))) ∧
    gather (neighbor_of (num_nodes G) (weights_of G d) (p (self s))) X j = Ok split ∧
    retain_of X split (mean split) ≠ [] ∧
    (eject_of X split (mean split) = [] ↔ e = 0) ∧
    ∃ lo hi m, mget (lower_base (color_status d s)) i j = Some (Fin lo) ∧
               mget (upper_base (color_status d s)) i j = Some (Fin hi) ∧
               mean split = Fin m ∧ lo ≤ m ∧ m ≤ hi.
Proof.
  intros Hinv.
  destruct (pick_witness_spec (num_nodes G) (weights_of G d) d s
              (inv_partition _ _ Hinv) (inv_pos _ _ Hinv) (inv_status _ _ Hinv d))
    as (i & j & X & Y & e & Hpick & HX & HY & He & Hmax & _).
  exists i, j, X, Y, e, (deg (weights_of G d) Y <$> X).
  destruct (ok_block _ _ _ _ (inv_status _ _ Hinv d) i j X Y HX HY)
    as (hi & lo & Hhi & Hlo & Hu & Hl & He').
  rewrite He in He'. injection He' as ->.
  apply reduce_vec_max in Hhi. apply reduce_vec_min in Hlo.
  assert (Forall (λ x, x < num_nodes G)%nat X) as HXv.
  { eapply valid_partition_Forall_lt; [apply Hinv|done]. }
  assert (X ≠ []) as HXne.
  { eapply valid_partition_nonempty; [apply Hinv|done]. }
  assert (deg (weights_of G d) Y <$> X ≠ []) as Hne by (by destruct X).
  destruct (split_at_mean X (deg (weights_of G d) Y <$> X) lo hi) as [Hret Hej];
    [by rewrite length_fmap|done..|].
  split; [done|]. split; [done|]. split; [done|].
  split; [apply (inv_status _ _ Hinv d)|].
  split; [by apply gather_neighbor_of|]. split; [done|]. split.
  - rewrite Hej. split; [intros ->; ring|apply Qc_minus_0].
  - destruct (mean_bounds _ lo hi Hne Hlo Hhi) as (m & Hm & H1 & H2 & _).
    by exists lo, hi, m.
Qed.
(** ** Comparisons *)

Lemma fleb_Fin_mono a b q : a ≤ b → fleb (Fin b) q = true → fleb (Fin a) q = true.
Proof.
  intros Hab. destruct q as [c| | |]; simpl; try done.
  rewrite !bool_decide_eq_true. by apply Qcle_trans.
Qed.

Lemma fltb_Fin_mono a b q : a ≤ b → fltb (Fin b) q = true → fltb (Fin a) q = true.
Proof.
  intros Hab. destruct q as [c| | |]; simpl; try done.
  rewrite !bool_decide_eq_true. by apply Qcle_lt_trans.
Qed.

Lemma py_max_Fin a b : py_max (Fin a) (Fin b) = Fin (if decide (a < b) then b else a).
Proof.
  unfold py_max, fgtb, fltb. case_bool_decide; by case_decide.
Qed.

Lemma tolerated_max cfg ei eo :
  tolerated cfg (Fin ei) (Fin eo) = true →
  fleb (Fin (if decide (eo < ei) then ei else eo)) (q_errors cfg) = true.
Proof.
  unfold tolerated. intros [H1 H2]%andb_true_iff. by case_decide.
Qed.

(** ** Whole calls *)

(** [q_color] on an object with a valid partition, when the new statuses
    have room for its colors: both calls of [init_status] succeed, the loop
    runs to its end, and the call returns with the larger of the two maximum
    errors in [q_error], or raises the failed assertion of a split. *)
Lemma q_color_fuel_spec_sharp G fuel cfg qsc n :
  (0 < num_nodes G)%nat → valid_partition (num_nodes G) (p qsc) →
  capacity (n_colors cfg) = Ok n → (length (p qsc) ≤ n)%nat →
  (num_nodes G < fuel + length (p qsc))%nat →
  ∃ s0 r s io jo to eo ii ji ti ei,
    init_both G (first_frame G n qsc) = (Ok tt, s0) ∧ inv G s0 ∧ self s0 = qsc ∧
    loop_run G cfg s0 r s ∧ inv G s ∧
    pick_witness Out s = (Ok (io, jo, to, Fin eo), s) ∧
    pick_witness In s = (Ok (ii, ji, ti, Fin ei), s) ∧
    (r = Ok tt ∧
     q_color_fuel G fuel cfg qsc = (Ok tt, mkQSC (p (self s)) (py_max (Fin eo) (Fin ei)))
     ∨
     r = Raise AssertionError ∧
     q_color_fuel G fuel cfg qsc = (Raise AssertionError, mkQSC (p (self s)) (q_error qsc))).
Proof.
  intros Hv HP Hcap Hn Hfuel.
  destruct (init_both_spec G n qsc Hv HP Hn) as (s0 & Hinit & Hinv & Hself).
  destruct (while_loop_total G cfg fuel s0 Hinv) as (r & s & Hrun & _ & Hq & Hr).
  { by rewrite Hself. }
  assert (r ≠ Fuel) as Hnf by (by destruct Hr as [[-> _]| ->]).
  pose proof (while_loop_loop_run G cfg fuel s0 r s Hrun Hnf) as Hloop.
  destruct (loop_run_inv G cfg s0 r s Hinv Hloop) as [Hinv' _].
  destruct (final_report_spec _ _ _ s (inv_partition _ _ Hinv') Hv
              (inv_status _ _ Hinv' Out) (inv_status _ _ Hinv' In))
    as (eo & ei & io & jo & to & ii & ji & ti & Hpo & Hpi & Hfin).
  exists s0, r, s, io, jo, to, eo, ii, ji, ti, ei.
  repeat (split; [done|]).
  unfold q_color_fuel. rewrite Hcap.
  fold (first_frame G n qsc). rewrite q_color_frame_eq.
  rewrite bind_eq, Hinit, bind_eq, Hrun.
  destruct Hr as [[-> _]| ->].
  - left. split; [done|]. rewrite Hfin. done.
  - right. split; [done|]. simpl. f_equal.
    destruct (self s) as [P q] eqn:Hs. simpl in *. by rewrite Hq, Hself.
Qed.

Lemma q_color_fuel_spec G fuel cfg qsc n :
  (0 < num_nodes G)%nat → valid_partition (num_nodes G) (p qsc) →
  capacity (n_colors cfg) = Ok n → (length (p qsc) ≤ n)%nat →
  (num_nodes G ≤ fuel)%nat →
  ∃ s0 r s io jo to eo ii ji ti ei,
    init_both G (first_frame G n qsc) = (Ok tt, s0) ∧ inv G s0 ∧ self s0 = qsc ∧
    loop_run G cfg s0 r s ∧ inv G s ∧
    pick_witness Out s = (Ok (io, jo, to, Fin eo), s) ∧
    pick_witness In s = (Ok (ii, ji, ti, Fin ei), s) ∧
    (r = Ok tt ∧
     q_color_fuel G fuel cfg qsc = (Ok tt, mkQSC (p (self s)) (py_max (Fin eo) (Fin ei)))
     ∨
     r = Raise AssertionError ∧
     q_color_fuel G fuel cfg qsc = (Raise AssertionError, mkQSC (p (self s)) (q_error qsc))).
Proof.
  intros Hv HP Hcap Hn Hfuel.
  apply q_color_fuel_spec_sharp; try done.
  pose proof (valid_partition_pos _ _ HP Hv). lia.
Qed.
Lemma Qc_sub_le_0 (a b : Qc) : a - b ≤ 0 → a ≤ b.
Proof.
  intros H. apply Qcle_minus_iff. apply Qcle_minus_iff in H.
  replace (b + - a) with (0 + - (a - b)) by ring. done.
Qed.
(** ** The order of the nodes in a color *)

Lemma ascending_seq a n : ascending (seq a n).
Proof.
  revert a. induction n as [|n IH]; intros a; [done|]. simpl. split; [|apply IH].
  apply Forall_seq. intros j Hj. lia.
Qed.

Lemma ascending_filter (P : nat → Prop) `{∀ x, Decision (P x)} X :
  ascending X → ascending (filter P X).
Proof.
  induction X as [|x X IH]; [done|]. intros [Hx HX]. rewrite filter_cons.
  case_decide; [|by apply IH]. split; [|by apply IH].
  apply Forall_forall. intros y Hy. apply list_elem_of_filter in Hy as [_ Hy].
  by apply (proj1 (Forall_forall _ _) Hx).
Qed.

(** A pass through the loop that splits replaces one color by the nodes of
    it that fail a test and appends the nodes that pass it. *)
Lemma loop_body_split G cfg s s' :
  inv G s → loop_body G cfg s = (Ok false, s') →
  ∃ i X (f : nat → bool),
    p (self s) !! i = Some X ∧
    p (self s') = <[i := filter (λ x, f x = false) X]> (p (self s))
                    ++ [filter (λ x, f x = true) X].
Proof.
  intros Hinv Hb.
  destruct (loop_body_spec G cfg s Hinv)
    as (s1 & ii & ij & Xi & Yi & ei & oi & oj & Xo & Yo & eo &
        Hgrow & Hinv1 & Hself & Hcap & Hpi & HXi & HYi & Hpo & HXo & HYo & Hbody).
  rewrite Hbody in Hb. rewrite <- Hself in *.
  destruct (tolerated cfg (Fin ei) (Fin eo)); [done|].
  destruct (acting_direction (Fin eo) (Fin ei)).
  - destruct (split_and_update_spec G Out oi oj
                (mean (deg (weights_of G Out) Yo <$> Xo)) s1 Xo Yo Hinv1 Hcap HXo HYo)
      as (split & Hg & [(_ & _ & Hrun)|(_ & _ & s2 & _ & Hrun & _ & Hself' & _)]);
      rewrite Hrun in Hb; [done|]. injection Hb as <-.
    exists oi, Xo, (above (neighbor_of (num_nodes G) (weights_of G Out) (p (self s1))) oj
                      (mean (deg (weights_of G Out) Yo <$> Xo))).
    split; [done|]. rewrite Hself'. simpl.
    by rewrite (retain_of_filter _ _ _ _ _ Hg), (eject_of_filter _ _ _ _ _ Hg).
  - destruct (split_and_update_spec G In ii ij
                (mean (deg (weights_of G In) Yi <$> Xi)) s1 Xi Yi Hinv1 Hcap HXi HYi)
      as (split & Hg & [(_ & _ & Hrun)|(_ & _ & s2 & _ & Hrun & _ & Hself' & _)]);
      rewrite Hrun in Hb; [done|]. injection Hb as <-.
    exists ii, Xi, (above (neighbor_of (num_nodes G) (weights_of G In) (p (self s1))) ij
                      (mean (deg (weights_of G In) Yi <$> Xi))).
    split; [done|]. rewrite Hself'. simpl.
    by rewrite (retain_of_filter _ _ _ _ _ Hg), (eject_of_filter _ _ _ _ _ Hg).
Qed.

Lemma loop_run_ascending G cfg s r s' :
  inv G s → loop_run G cfg s r s' →
  Forall ascending (p (self s)) → Forall ascending (p (self s')).
Proof.
  intros Hinv Hrun.
  induction Hrun as [s Ht|s sa Ht Hb|s e sa Ht Hb|s sa r s' Ht Hb Hrun IH]; intros Hasc.
  - done.
  - destruct (loop_body_outcome G cfg s Hinv)
      as [(s1 & Hb' & Hself & _)|[(s1 & Hb' & Hself & _)|(s1 & Hb' & _)]];
      rewrite Hb' in Hb; try done. injection Hb as <-. by rewrite Hself.
  - destruct (loop_body_outcome G cfg s Hinv)
      as [(s1 & Hb' & Hself & _)|[(s1 & Hb' & Hself & _)|(s1 & Hb' & _)]];
      rewrite Hb' in Hb; try done. injection Hb as _ <-. by rewrite Hself.
  - destruct (loop_body_outcome G cfg s Hinv)
      as [(s1 & Hb' & _)|[(s1 & Hb' & _)|(s1 & Hb' & Hinv1 & _)]];
      rewrite Hb' in Hb; try done. injection Hb as <-.
    apply IH; [done|].
    destruct (loop_body_split G cfg s s1 Hinv Hb') as (i & X & f & HX & ->).
    pose proof (Forall_lookup_1 _ _ _ _ Hasc HX) as HXa.
    apply Forall_app. split.
    + apply Forall_insert; [done|]. by apply ascending_filter.
    + apply Forall_singleton. by apply ascending_filter.
Qed.
Lemma Qc_sum_perm (l1 l2 : list Qc) : l1 ≡ₚ l2 → Qc_sum l1 = Qc_sum l2.
Proof.
  induction 1 as [|x l1 l2 _ IH|x y l|l1 l2 l3 _ IH1 _ IH2].
  - done.
  - by rewrite !Qc_sum_cons, IH.
  - rewrite !Qc_sum_cons. ring.
  - by rewrite IH1.
Qed.

Lemma Qc_sum_join (f : nat → Qc) (P : list (list nat)) :
  Qc_sum ((λ Y, Qc_sum (f <$> Y)) <$> P) = Qc_sum (f <$> mjoin P).
Proof.
  induction P as [|Y P IH]; [done|].
  rewrite fmap_cons, Qc_sum_cons, join_cons, fmap_app, Qc_sum_app. by rewrite IH.
Qed.
(** ** What is written to [q_error] *)

Lemma keeps_self_update_status G d w old new : keeps_self (update_status G d w old new).
Proof.
  unfold update_status.
  repeat first
    [ apply keeps_self_bind; [|intros ?]
    | apply keeps_self_get
    | apply keeps_self_guard
    | apply keeps_self_zoom
    | apply keeps_self_lift ].
Qed.

Lemma keeps_self_pick_witness d : keeps_self (pick_witness d).
Proof. intros s. by rewrite pick_witness_state. Qed.

Lemma keeps_q_error_self {A} (m : M Frame A) : keeps_self m → keeps_q_error m.
Proof. intros H s. by rewrite H. Qed.

Lemma keeps_q_error_bind {A B} (m : M Frame A) (k : A → M Frame B) :
  keeps_q_error m → (∀ a, keeps_q_error (k a)) → keeps_q_error (m ≫= k).
Proof.
  intros Hm Hk s. rewrite bind_eq. specialize (Hm s).
  destruct (m s) as [[a| |] s1]; simpl in *; try done.
  by rewrite Hk.
Qed.

Lemma keeps_q_error_split_color d i j t : keeps_q_error (split_color d i j t).
Proof.
  intros s.
  destruct (split_color_cases d i j t s)
    as [(e & _ & -> & _)|[(arr & nb & split & _ & _ & _ & _ & ->)
       |(arr & nb & split & _ & _ & _ & _ & _ & ->)]]; done.
Qed.

Lemma keeps_q_error_loop_body G cfg : keeps_q_error (loop_body G cfg).
Proof.
  unfold loop_body.
  apply keeps_q_error_bind; [apply keeps_q_error_self, keeps_self_get|]. intros s.
  apply keeps_q_error_bind.
  { case_bool_decide.
    - apply keeps_q_error_self, keeps_self_bind; [apply keeps_self_zoom|].
      intros _. apply keeps_self_zoom.
    - apply keeps_q_error_self, keeps_self_ret. }
  intros _.
  apply keeps_q_error_bind; [apply keeps_q_error_self, keeps_self_pick_witness|].
  intros [[[ii ij] ti] ei].
  apply keeps_q_error_bind; [apply keeps_q_error_self, keeps_self_pick_witness|].
  intros [[[oi oj] to] eo].
  destruct (fleb ei (q_errors cfg) && fleb eo (q_errors cfg));
    [apply keeps_q_error_self, keeps_self_ret|].
  destruct (fgeb eo ei);
    (apply keeps_q_error_bind; [apply keeps_q_error_split_color|]; intros _;
     apply keeps_q_error_self;
     repeat first
       [ apply keeps_self_bind; [|intros ?]
       | apply keeps_self_get
       | apply keeps_self_update_status
       | apply keeps_self_ret ]).
Qed.

Lemma keeps_q_error_while_loop G cfg fuel : keeps_q_error (while_loop G cfg fuel).
Proof.
  induction fuel as [|fuel IH]; intros s; rewrite while_loop_eq;
    destruct (loop_test cfg s); try done.
  apply (keeps_q_error_bind (loop_body G cfg)); [apply keeps_q_error_loop_body|].
  intros []; [apply keeps_q_error_self, keeps_self_ret|apply IH].
Qed.



(** ** Hundredths *)

Lemma Qc_of_nat_mult n m : Qc_of_nat n * Qc_of_nat m = Qc_of_nat (n * m).
Proof.
  apply Qc_is_canon. unfold Qcmult. cbn [this Q2Qc]. rewrite Qred_correct.
  rewrite !this_Qc_of_nat. unfold Qeq, Qmult, inject_Z. cbn [Qnum Qden]. lia.
Qed.

Lemma Qc_of_nat_lt_inv n m : Qc_of_nat n < Qc_of_nat m → (n < m)%nat.
Proof.
  unfold Qclt. rewrite !this_Qc_of_nat. unfold Qlt, inject_Z. cbn [Qnum Qden]. lia.
Qed.

Lemma hundredth_mult v : Qc_of_nat v / Qc_of_nat 100 * Qc_of_nat 100 = Qc_of_nat v.
Proof. field. intros H. by apply (f_equal this) in H. Qed.

Lemma lt_hundredth k v :
  Qc_of_nat k < Qc_of_nat v / Qc_of_nat 100 ↔ (k * 100 < v)%nat.
Proof.
  assert (0 < Qc_of_nat 100) as H100 by (by apply Qc_of_nat_pos; lia).
  split.
  - intros H. apply (Qcmult_lt_compat_r _ _ _ H100) in H.
    rewrite hundredth_mult, Qc_of_nat_mult in H. by apply Qc_of_nat_lt_inv.
  - intros H. apply Qc_of_nat_lt in H. rewrite <- Qc_of_nat_mult, <- (hundredth_mult v) in H.
    apply Qcnot_le_lt. intros Hle.
    apply (Qcmult_le_compat_r _ _ (Qc_of_nat 100)) in Hle; [|by apply Qclt_le_weak].
    by apply Qcle_not_lt in Hle.
Qed.

Lemma hundredth_lt k v :
  Qc_of_nat v / Qc_of_nat 100 < Qc_of_nat k ↔ (v < k * 100)%nat.
Proof.
  assert (0 < Qc_of_nat 100) as H100 by (by apply Qc_of_nat_pos; lia).
  split.
  - intros H. apply (Qcmult_lt_compat_r _ _ _ H100) in H.
    rewrite hundredth_mult, Qc_of_nat_mult in H. by apply Qc_of_nat_lt_inv.
  - intros H. apply Qc_of_nat_lt in H. rewrite <- Qc_of_nat_mult, <- (hundredth_mult v) in H.
    apply Qcnot_le_lt. intros Hle.
    apply (Qcmult_le_compat_r _ _ (Qc_of_nat 100)) in Hle; [|by apply Qclt_le_weak].
    by apply Qcle_not_lt in Hle.
Qed.

Lemma Qc_of_nat_1 : Qc_of_nat 1 = 1.
Proof. by apply Qc_is_canon. Qed.

Lemma hundredth_nonneg v : 0 ≤ Qc_of_nat v / Qc_of_nat 100.
Proof.
  apply Qcnot_lt_le. intros H.
  rewrite <- Qc_of_nat_0 in H. apply hundredth_lt in H. lia.
Qed.

(** The order of the statuses in the call the script makes. *)
Lemma capacity_hundredth v :
  ∃ n, capacity (Fin (Qc_of_nat v / Qc_of_nat 100)) = Ok n ∧
       ((v < 100)%nat → n = 0%nat) ∧ ((100 ≤ v)%nat → (1 ≤ n)%nat).
Proof.
  destruct (capacity_nonneg _ (hundredth_nonneg v)) as (n & Hcap & Hn & Hlo & Hhi).
  exists n. split; [done|]. split.
  - intros Hv. destruct n; [done|]. exfalso.
    assert (Qc_of_nat 1 ≤ Qc_of_nat v / Qc_of_nat 100) as H1.
    { apply Qcle_trans with (Qc_of_nat (S n)); [|done]. apply Qc_of_nat_mono. lia. }
    apply Qcle_not_lt in H1. apply H1. apply hundredth_lt. lia.
  - intros Hv. destruct n; [|lia]. exfalso. destruct Hhi as [Hhi|Hhi]; [|done].
    rewrite Qc_of_nat_0, Qcplus_0_l, <- Qc_of_nat_1 in Hhi.
    apply hundredth_lt in Hhi. lia.
Qed.
(** ** The two halves of a split at the mean *)

Lemma Qc_opp_lt (a b : Qc) : a < b → - b < - a.
Proof.
  intros Hab. apply Qcnot_le_lt. intros H. apply Qcopp_le_compat in H.
  rewrite !Qcopp_involutive in H. by apply Qcle_not_lt in H.
Qed.

(** The spread of the entries at most the mean, and of the entries above
    it, is smaller than the spread of all entries. *)
Lemma spread_below_mean (l l' : list Qc) lo hi m hi' lo' :
  is_min l lo → is_max l hi → lo ≤ m → m < hi →
  is_max l' hi' → is_min l' lo' →
  (∀ x, x ∈ l' → x ∈ l ∧ x ≤ m) →
  hi' - lo' < hi - lo.
Proof.
  intros [_ Hlo] [_ Hhi] Hlm Hmh [Hhi' _] [Hlo' _] Hsub.
  destruct (Hsub hi' Hhi') as [_ H1]. destruct (Hsub lo' Hlo') as [H2 _].
  apply Hlo in H2.
  apply Qcle_lt_trans with (m - lo).
  - unfold Qcminus. apply Qcplus_le_compat; [done|]. by apply Qcopp_le_compat.
  - unfold Qcminus. rewrite !(Qcplus_comm _ (- lo)). by apply Qcplus_lt_mono_l.
Qed.

Lemma spread_above_mean (l l' : list Qc) lo hi m hi' lo' :
  is_min l lo → is_max l hi → lo ≤ m →
  is_max l' hi' → is_min l' lo' →
  (∀ x, x ∈ l' → x ∈ l ∧ m < x) →
  hi' - lo' < hi - lo.
Proof.
  intros [_ Hlo] [_ Hhi] Hlm [Hhi' _] [Hlo' _] Hsub.
  destruct (Hsub hi' Hhi') as [H1 _]. destruct (Hsub lo' Hlo') as [_ H2].
  apply Hhi in H1.
  apply Qcle_lt_trans with (hi - lo').
  - unfold Qcminus. apply Qcplus_le_compat; [done|apply Qcle_refl].
  - unfold Qcminus. apply Qcplus_lt_mono_l.
    apply Qc_opp_lt. by apply Qcle_lt_trans with m.
Qed.
(** ** The order of the statuses *)

Lemma grow_if_full_order G s :
  inv G s →
  ∃ s', grow_if_full s = (Ok tt, s') ∧
        ∀ d, cs_n (color_status d s') =
               if decide (length (p (self s)) = cs_n (color_status_in s))
               then (cs_n (color_status d s) * 2)%nat else cs_n (color_status d s).
Proof.
  intros [Hv HP Hst Hn].
  unfold grow_if_full. rewrite get_step. case_bool_decide as Hfull.
  - set (ci := color_status_in s) in *. set (co := color_status_out s) in *.
    pose proof (resize_ok (cs_n ci * 2) ci ltac:(lia)) as Hri.
    pose proof (resize_ok (cs_n co * 2) co ltac:(lia)) as Hro.
    change (resize (cs_n ci * 2) ci) with ((cs ← get; resize (cs_n cs * 2)) ci) in Hri.
    change (resize (cs_n co * 2) co) with ((cs ← get; resize (cs_n cs * 2)) co) in Hro.
    eexists. split.
    { rewrite <- (set_color_status_id In s) at 1.
      rewrite (zoom_step In _ _ s _ tt _ Hri).
      rewrite <- (set_color_status_id Out (set_color_status In _ s)) at 1.
      apply (zoom_last Out _ _ _ tt _ Hro). }
    intros d. rewrite decide_True by done. by destruct d.
  - exists s. split; [done|]. intros d. by rewrite decide_False.
Qed.

Lemma init_both_order G n s :
  init_both G (first_frame G n (QuasiStableColoring_init G)) = (Ok tt, s) →
  (1 ≤ n)%nat ∧ ∀ d, cs_n (color_status d s) = n.
Proof.
  intros Hinit. unfold init_both in Hinit. rewrite bind_eq in Hinit.
  destruct (init_status G Out (weights G) (first_frame G n (QuasiStableColoring_init G)))
    as [[[]| |] s1] eqn:Hout; try done.
  destruct (init_status_ok_inv G Out (weights G)
              (first_frame G n (QuasiStableColoring_init G)) s1 eq_refl Hout) as [Hv Hn].
  simpl in Hn.
  destruct (init_status_spec G Out (weights G) (first_frame G n (QuasiStableColoring_init G)))
    as (co & Hout' & _ & Hno); simpl; try apply shape_full;
    [by apply valid_partition_init|lia|].
  rewrite Hout in Hout'. injection Hout' as Hs1. subst s1.
  destruct (init_status_spec G In (weights_transpose G)
              (set_color_status Out co (first_frame G n (QuasiStableColoring_init G))))
    as (ci & Hin' & _ & Hni); simpl; try apply shape_full;
    [by apply valid_partition_init|lia|].
  change (mkFrame (QuasiStableColoring_init G) co (ColorStatus_init (num_nodes G) n))
    with (set_color_status Out co (first_frame G n (QuasiStableColoring_init G))) in Hinit.
  rewrite Hin' in Hinit. injection Hinit as <-.
  split; [lia|]. by intros [|].
Qed.
(** ** Two statuses in step with the same partition *)

(** The maximum error a status reports depends on the partition only. *)
Lemma pick_error_determined G d s s' i j t e i' j' t' e' :
  inv G s → inv G s' → p (self s) = p (self s') →
  pick_witness d s = (Ok (i, j, t, Fin e), s) →
  pick_witness d s' = (Ok (i', j', t', Fin e'), s') →
  e = e'.
Proof.
  intros Hinv Hinv' Hp Hpick Hpick'.
  assert (∀ s s' i j t e,
            inv G s → inv G s' → p (self s) = p (self s') →
            pick_witness d s = (Ok (i, j, t, Fin e), s) →
            ∃ i' j' t' e', pick_witness d s' = (Ok (i', j', t', Fin e'), s') ∧ e ≤ e') as Hle.
  { clear. intros s s' i j t e Hinv Hinv' Hp Hpick.
    destruct (pick_witness_spec (num_nodes G) (weights_of G d) d s
                (inv_partition _ _ Hinv) (inv_pos _ _ Hinv) (inv_status _ _ Hinv d))
      as (a & b & X & Y & e0 & Hpick0 & HX & HY & He & _).
    rewrite Hpick in Hpick0. injection Hpick0 as -> -> _ ->.
    destruct (pick_witness_spec (num_nodes G) (weights_of G d) d s'
                (inv_partition _ _ Hinv') (inv_pos _ _ Hinv') (inv_status _ _ Hinv' d))
      as (a' & b' & X' & Y' & e' & Hpick' & _ & _ & _ & Hmax & _).
    eexists a', b', _, e'. split; [done|].
    apply (Hmax a b).
    - rewrite <- Hp. by eapply lookup_lt_Some.
    - rewrite <- Hp. by eapply lookup_lt_Some.
    - rewrite Hp in HX, HY.
      destruct (ok_block _ _ _ _ (inv_status _ _ Hinv' d) a b X Y HX HY)
        as (hi' & lo' & Hhi' & Hlo' & _ & _ & He').
      rewrite <- Hp in HX, HY.
      destruct (ok_block _ _ _ _ (inv_status _ _ Hinv d) a b X Y HX HY)
        as (hi & lo & Hhi & Hlo & _ & _ & He0).
      rewrite Hhi in Hhi'. injection Hhi' as <-.
      rewrite Hlo in Hlo'. injection Hlo' as <-.
      rewrite He in He0. injection He0 as ->. done. }
  destruct (Hle s s' i j t e Hinv Hinv' Hp Hpick) as (a & b & c & e1 & H1 & Hle1).
  destruct (Hle s' s i' j' t' e' Hinv' Hinv (eq_sym Hp) Hpick') as (a' & b' & c' & e2 & H2 & Hle2).
  rewrite Hpick' in H1. injection H1 as _ _ _ <-.
  rewrite Hpick in H2. injection H2 as _ _ _ <-.
  by apply Qcle_antisym.
Qed.

(** ** The outcome of a call *)

(** Every call of [q_color] on an object with a valid partition that fits
    the new statuses ends in one of two ways: it raises the failed assertion
    of a split made on two maximum errors 0 outside the tolerance, or it
    returns with the larger of the two maximum errors in [q_error], the loop
    having stopped at its test or at its [break]. *)
Lemma q_color_outcome G cfg qsc n :
  (0 < num_nodes G)%nat → valid_partition (num_nodes G) (p qsc) →
  capacity (n_colors cfg) = Ok n → (length (p qsc) ≤ n)%nat →
  let r := q_color G cfg qsc in
  valid_partition (num_nodes G) (p r.2) ∧
  (length (p qsc) ≤ length (p r.2))%nat ∧
  (length (p r.2) = length (p qsc) ∨
   fltb (Fin (Qc_of_nat (length (p r.2) - 1))) (n_colors cfg) = true) ∧
  ∃ eo ei,
    0 ≤ eo ∧ 0 ≤ ei ∧
    spread_within G Out (p r.2) eo ∧ spread_attained G Out (p r.2) eo ∧
    spread_within G In (p r.2) ei ∧ spread_attained G In (p r.2) ei ∧
    (r.1 = Ok tt ∧ q_error r.2 = py_max (Fin eo) (Fin ei) ∧
       (fltb (Fin (Qc_of_nat (length (p r.2)))) (n_colors cfg) = false ∨
        tolerated cfg (Fin ei) (Fin eo) = true)
     ∨
     r.1 = Raise AssertionError ∧ q_error r.2 = q_error qsc ∧
       fltb (Fin (Qc_of_nat (length (p r.2)))) (n_colors cfg) = true ∧
       tolerated cfg (Fin ei) (Fin eo) = false ∧ eo = 0 ∧ ei = 0).
Proof.
  intros Hv HP Hcap Hn r.
  destruct (q_color_fuel_spec G (num_nodes G) cfg qsc n Hv HP Hcap Hn (le_n _))
    as (s0 & r' & s & io & jo & to & eo & ii & ji & ti & ei &
        Hinit & Hinv0 & Hself & Hrun & Hinv & Hpo & Hpi & Hq).
  destruct (loop_run_end G cfg s0 _ s Hinv0 Hrun) as (_ & _ & Hle & Hcount & Hend).
  rewrite Hself in Hle, Hcount.
  destruct (pick_witness_spread G Out s Hinv) as (io' & jo' & to' & eo' & Hpo' & Heo & Hso & Hao).
  destruct (pick_witness_spread G In s Hinv) as (ii' & ji' & ti' & ei' & Hpi' & Hei & Hsi & Hai).
  rewrite Hpo in Hpo'. injection Hpo' as _ _ _ <-.
  rewrite Hpi in Hpi'. injection Hpi' as _ _ _ <-.
  assert (p r.2 = p (self s)) as Hp.
  { unfold r, q_color. by destruct Hq as [[_ ->]|[_ ->]]. }
  rewrite Hp. split; [apply Hinv|]. split; [done|]. split; [done|].
  exists eo, ei. repeat (split; [done|]).
  destruct (Hend _ _ _ _ _ _ _ _ Hpo Hpi) as [[-> Hwhy]|(-> & Ht & Hnt & -> & ->)].
  - left. destruct Hq as [[_ Hq]|[? _]]; [|done].
    unfold r, q_color. rewrite Hq. done.
  - right. destruct Hq as [[? _]|[_ Hq]]; [done|].
    unfold r, q_color. rewrite Hq. done.
Qed.

(** ** Weights in range *)

Lemma Qc_abs_ge q : q ≤ Qc_abs q.
Proof. unfold Qc_abs, Qc_max. case_decide; [done|]. apply Qcle_refl. Qed.

Lemma Qc_abs_ge_opp q : - q ≤ Qc_abs q.
Proof.
  unfold Qc_abs, Qc_max. case_decide as H; [apply Qcle_refl|].
  apply Qcnot_le_lt in H. by apply Qclt_le_weak.
Qed.

Lemma Qc_abs_nonneg q : 0 ≤ Qc_abs q.
Proof.
  destruct (Qclt_le_dec q 0) as [H|H].
  - apply Qcle_trans with (- q); [|apply Qc_abs_ge_opp].
    apply Qclt_le_weak in H. apply Qcopp_le_compat in H.
    by replace (- 0) with 0 in H by ring.
  - apply Qcle_trans with q; [done|apply Qc_abs_ge].
Qed.

Lemma Qc_sum_abs (f : nat → Qc) (Y : list nat) :
  Qc_sum (f <$> Y) ≤ Qc_sum ((λ y, Qc_abs (f y)) <$> Y) ∧
  - Qc_sum ((λ y, Qc_abs (f y)) <$> Y) ≤ Qc_sum (f <$> Y).
Proof.
  induction Y as [|y Y [IH1 IH2]].
  - simpl. rewrite Qc_sum_nil. split; [apply Qcle_refl|].
    replace (- 0) with 0 by ring. apply Qcle_refl.
  - rewrite !fmap_cons, !Qc_sum_cons. split.
    + apply Qcplus_le_compat; [apply Qc_abs_ge|done].
    + replace (- (Qc_abs (f y) + Qc_sum ((λ y0, Qc_abs (f y0)) <$> Y)))
        with (- Qc_abs (f y) + - Qc_sum ((λ y0, Qc_abs (f y0)) <$> Y)) by ring.
      apply Qcplus_le_compat; [|done].
      pose proof (Qc_abs_ge_opp (f y)) as H. apply Qcopp_le_compat in H.
      by replace (- - f y) with (f y) in H by ring.
Qed.

Lemma Qc_sum_fmap_nonneg {A} (f : A → Qc) (Y : list A) :
  (∀ y, 0 ≤ f y) → 0 ≤ Qc_sum (f <$> Y).
Proof.
  intros Hf. induction Y as [|y Y IH]; [apply Qcle_refl|].
  rewrite fmap_cons, Qc_sum_cons.
  replace 0 with (0 + 0) by ring. by apply Qcplus_le_compat.
Qed.

Lemma Qc_sum_color_le (f : nat → Qc) v P j Y :
  (∀ y, 0 ≤ f y) → valid_partition v P → P !! j = Some Y →
  Qc_sum (f <$> Y) ≤ Qc_sum (f <$> seq 0 v).
Proof.
  intros Hf [_ Hperm] HY.
  rewrite <- (Qc_sum_perm (f <$> mjoin P) (f <$> seq 0 v)) by (by apply fmap_Permutation).
  clear Hperm. revert j HY. induction P as [|X P IH]; intros j HY; [done|].
  rewrite join_cons, fmap_app, Qc_sum_app. destruct j as [|j]; simpl in HY.
  - injection HY as ->.
    replace (Qc_sum (f <$> Y)) with (Qc_sum (f <$> Y) + 0) at 1 by ring.
    apply Qcplus_le_compat; [apply Qcle_refl|by apply Qc_sum_fmap_nonneg].
  - replace (Qc_sum (f <$> Y)) with (0 + Qc_sum (f <$> Y)) by ring.
    apply Qcplus_le_compat; [by apply Qc_sum_fmap_nonneg|by eapply IH].
Qed.

(** Under [in_range] every entry of [neighbor] is within half the range. *)
Lemma deg_in_range G d P j Y x :
  in_range G → valid_partition (num_nodes G) P → P !! j = Some Y →
  (x < num_nodes G)%nat →
  - (float32_max / Qc_of_Z 2) ≤ deg (weights_of G d) Y x ∧
  deg (weights_of G d) Y x ≤ float32_max / Qc_of_Z 2.
Proof.
  intros Hr HP HY Hx. specialize (Hr d x Hx).
  destruct (Qc_sum_abs (weights_of G d x) Y) as [H1 H2].
  pose proof (Qc_sum_color_le (λ y, Qc_abs (weights_of G d x y)) _ P j Y
                (λ y, Qc_abs_nonneg _) HP HY) as H3.
  unfold deg. split.
  - eapply Qcle_trans; [|exact H2]. apply Qcopp_le_compat.
    eapply Qcle_trans; [exact H3|exact Hr].
  - eapply Qcle_trans; [exact H1|]. eapply Qcle_trans; [exact H3|exact Hr].
Qed.

Lemma half_range_twice :
  float32_max / Qc_of_Z 2 - - (float32_max / Qc_of_Z 2) = float32_max.
Proof.
  assert (Qc_of_Z 2 = 1 + 1) as -> by (apply Qc_is_canon; reflexivity).
  field. intros H. apply (f_equal this) in H. vm_compute in H. discriminate.
Qed.

Lemma in_range_scenario : in_range scenario_graph.
Proof.
  intros d x Hx. simpl in Hx.
  destruct d; destruct x as [|[|[|[|x]]]]; try lia; vm_compute; discriminate.
Qed.

(** ** Sums that overflow *)

Ltac qc_lra :=
  unfold Qcle, Qclt, Qcminus, Qcplus, Qcopp in *;
  cbn [this Q2Qc] in *;
  repeat match goal with
         | H : context [Qred ?q] |- _ => rewrite (Qred_correct q) in H
         | |- context [Qred ?q] => rewrite (Qred_correct q)
         end;
  lra.

Lemma half_below_threshold : float32_max / Qc_of_Z 2 < F32.overflow_threshold.
Proof. vm_compute. reflexivity. Qed.

Lemma of_exact_in_range q :
  - F32.overflow_threshold < q → q < F32.overflow_threshold → F32.of_exact q = Fin q.
Proof.
  intros H1 H2. unfold F32.of_exact.
  rewrite bool_decide_false by (by apply Qclt_not_le).
  rewrite bool_decide_false by (by apply Qclt_not_le). done.
Qed.

Lemma sum_exact (l : list Qc) (a : Qc) :
  Qc_abs a + Qc_sum (Qc_abs <$> l) < F32.overflow_threshold →
  foldl F32.fadd (Fin a) (F32.of_exact <$> l) = Fin (a + Qc_sum l).
Proof.
  revert a. induction l as [|x l IH]; intros a Hb.
  - simpl. f_equal. rewrite Qc_sum_nil. ring.
  - rewrite !fmap_cons in *. rewrite !Qc_sum_cons in *. simpl.
    pose proof (Qc_sum_fmap_nonneg Qc_abs l Qc_abs_nonneg) as H0.
    pose proof (Qc_abs_ge a). pose proof (Qc_abs_ge_opp a).
    pose proof (Qc_abs_ge x). pose proof (Qc_abs_ge_opp x).
    pose proof (Qc_abs_ge (a + x)) as Hax1. pose proof (Qc_abs_ge_opp (a + x)) as Hax2.
    assert (Qc_abs (a + x) ≤ Qc_abs a + Qc_abs x) as Htri.
    { unfold Qc_abs at 1, Qc_max. case_decide; qc_lra. }
    set (T := F32.overflow_threshold) in *.
    set (S := Qc_sum (Qc_abs <$> l)) in *.
    rewrite of_exact_in_range by (fold T; qc_lra).
    cbn [F32.fadd]. rewrite of_exact_in_range by (fold T; qc_lra).
    rewrite IH by (fold T S; qc_lra). f_equal. ring.
Qed.

Lemma Qc_sum_fmap_le {A} (f g : A → Qc) (l : list A) :
  (∀ x, x ∈ l → f x ≤ g x) → Qc_sum (f <$> l) ≤ Qc_sum (g <$> l).
Proof.
  induction l as [|x l IH]; intros H; [apply Qcle_refl|].
  rewrite !fmap_cons, !Qc_sum_cons. apply Qcplus_le_compat.
  - apply H, list_elem_of_here.
  - apply IH. intros y Hy. by apply H, list_elem_of_further.
Qed.

(** The dense membership matrix of a valid partition. *)
Lemma to_dense_indicator v P x c X :
  valid_partition v P → (x < v)%nat → P !! c = Some X →
  mget (to_dense (mk_sparse_coo v (length P)
                    (mjoin (imap (λ c X, (λ x, (x, c)) <$> X) P)) (replicate v 1))) x c
    = Some (if decide (x ∈ X) then 1 else 0).
Proof.
  intros HP Hx HX. unfold to_dense, mget. simpl.
  rewrite list_lookup_fmap, lookup_seq_lt by done. simpl.
  rewrite list_lookup_fmap, lookup_seq_lt by (by eapply lookup_lt_Some). simpl.
  f_equal.
  set (entries := mjoin (imap (λ c X, (λ x, (x, c)) <$> X) P)).
  assert (length entries = v) as Hlen.
  { unfold entries. rewrite (length_entries _ 0).
    destruct HP as [_ Hperm]. apply Permutation_length in Hperm.
    by rewrite length_seq in Hperm. }
  rewrite (zip_with_replicate_r_eq pair v 1 entries Hlen).
  rewrite <- list_fmap_compose.
  rewrite <- (Qc_sum_count_NoDup X x).
  2:{ apply valid_partition_is_partition in HP as [Hne _].
      by destruct (Hne c X HX). }
  rewrite <- (count_entries P 0 c x X HX). done.
Qed.

(** On a graph in range the product with the membership matrix does not
    overflow: [F32.mm] computes the exact sums. *)
Lemma mm_in_range G d P :
  in_range G → valid_partition (num_nodes G) P →
  let dense := to_dense (mk_sparse_coo (num_nodes G) (length P)
                  (mjoin (imap (λ c X, (λ x, (x, c)) <$> X) P))
                  (replicate (num_nodes G) 1)) in
  F32.mm (num_nodes G) (length P) (weights_of G d) dense
    = (λ row : list Qc, Fin <$> row)
        <$> mm (num_nodes G) (length P) (weights_of G d) dense.
Proof.
  intros Hr HP dense. unfold F32.mm, mm. rewrite <- list_fmap_compose.
  apply list_fmap_ext. intros i r Hrv. apply lookup_seq in Hrv as [Heq Hrv].
  simpl in Heq. subst r. simpl.
  rewrite <- list_fmap_compose.
  apply list_fmap_ext. intros j c Hc. apply lookup_seq in Hc as [Heq Hc].
  simpl in Heq. subst c. simpl.
  unfold F32.sum.
  rewrite (list_fmap_compose (λ k, weights_of G d i k * default 0 (mget dense k j))
             F32.of_exact).
  rewrite sum_exact; [f_equal; ring|].
  destruct (lookup_lt_is_Some_2 P j Hc) as [Y HY].
  specialize (Hr d i Hrv). pose proof half_below_threshold as Hh.
  assert (Qc_sum (Qc_abs <$> ((λ k, weights_of G d i k * default 0 (mget dense k j))
                                <$> seq 0 (num_nodes G)))
          ≤ Qc_sum ((λ y, Qc_abs (weights_of G d i y)) <$> seq 0 (num_nodes G))) as Hle.
  { rewrite <- list_fmap_compose. apply Qc_sum_fmap_le. intros k Hk. simpl.
    apply elem_of_seq in Hk. unfold dense.
    rewrite (to_dense_indicator _ P k j Y HP ltac:(lia) HY). simpl.
    case_decide.
    - rewrite Qcmult_1_r. apply Qcle_refl.
    - rewrite Qcmult_0_r. apply Qc_abs_nonneg. }
  assert (Qc_abs 0 = 0) as -> by (by vm_compute).
  set (T := F32.overflow_threshold) in *.
  set (S1 := Qc_sum _) in *. set (S2 := Qc_sum _) in *.
  set (H := float32_max / Qc_of_Z 2) in *. qc_lra.
Qed.

(** *** [init_status] on a graph in range *)

Lemma tensor_max_Fin a b : F32.tensor_max (Fin a) (Fin b) = Fin (Qc_max a b).
Proof. unfold F32.tensor_max, Qc_max. simpl. by case_bool_decide; case_decide. Qed.

Lemma tensor_min_Fin a b : F32.tensor_min (Fin a) (Fin b) = Fin (Qc_min a b).
Proof. unfold F32.tensor_min, Qc_min. simpl. by case_bool_decide; case_decide. Qed.

Lemma zip_with_Fin (f : Qc → Qc → Qc) (g : float32 → float32 → float32) r r' :
  (∀ a b, g (Fin a) (Fin b) = Fin (f a b)) →
  zip_with g (Fin <$> r) (Fin <$> r') = Fin <$> zip_with f r r'.
Proof.
  intros Hg. revert r'. induction r as [|a r IH]; intros [|b r']; try done.
  rewrite !fmap_cons. simpl. by rewrite Hg, IH.
Qed.

Lemma reduce_rows_Fin (f : Qc → Qc → Qc) (g : float32 → float32 → float32) rows :
  (∀ a b, g (Fin a) (Fin b) = Fin (f a b)) →
  F32.reduce_rows g ((λ row : list Qc, Fin <$> row) <$> rows)
    = match reduce_rows f rows with
      | Ok hi => Ok (Fin <$> hi)
      | Raise e => Raise e
      | Fuel => Fuel
      end.
Proof.
  intros Hg. destruct rows as [|r rs]; [done|]. simpl. f_equal.
  revert r. induction rs as [|r' rs IH]; intros r; [done|].
  simpl. rewrite (zip_with_Fin f g) by done. apply IH.
Qed.

Lemma select_rows_Fin (t : list (list Qc)) X :
  select_rows ((λ row : list Qc, Fin <$> row) <$> t) X
    = match select_rows t X with
      | Ok rows => Ok ((λ row : list Qc, Fin <$> row) <$> rows)
      | Raise e => Raise e
      | Fuel => Fuel
      end.
Proof.
  unfold select_rows.
  assert (mapM (λ x, ((λ row : list Qc, Fin <$> row) <$> t) !! x) X
          = fmap (fmap (λ row : list Qc, Fin <$> row)) (mapM (λ x, t !! x) X)) as ->.
  { induction X as [|x X IH]; [done|]. cbn [mapM]. rewrite IH, list_lookup_fmap.
    destruct (t !! x); [|done]. simpl. by destruct (mapM (λ x0, t !! x0) X). }
  by destruct (mapM (λ x0, t !! x0) X).
Qed.

Lemma same_run_bind {A B} (m : M ColorStatus A) m' (k : A → M ColorStatus B) k' :
  same_run m m' → (∀ a, same_run (k a) (k' a)) →
  same_run (m ≫= k) (m' ≫= k').
Proof.
  intros Hm Hk cs. unfold mbind, M_bind, bind. rewrite Hm.
  destruct (m cs) as [[a|e|] cs1]; simpl; [apply Hk|done|done].
Qed.

Lemma same_run_refresh_row m i X :
  same_run (refresh_row m i X) (F32.refresh_row m i X).
Proof.
  intros cs. unfold refresh_row, F32.refresh_row, get_neighbor, F32.get_neighbor.
  mred. destruct (neighbor cs) as [t|] eqn:Ht; simpl; [|done].
  rewrite select_rows_Fin. destruct (select_rows t X) as [rows|e|]; simpl; [|done|done].
  rewrite (reduce_rows_Fin Qc_max) by apply tensor_max_Fin.
  destruct (reduce_rows Qc_max rows) as [hi|e|]; simpl; [|done|done].
  destruct (set_row (cs_n cs) m i (Fin <$> hi) (upper_base cs)) as [u|e|]; simpl; [|done|done].
  rewrite (reduce_rows_Fin Qc_min) by apply tensor_min_Fin.
  destruct (reduce_rows Qc_min rows) as [lo|e|]; simpl; [|done|done].
  destruct (set_row (cs_n cs) m i (Fin <$> lo) (lower_base cs)) as [l|e|]; simpl; done.
Qed.

Lemma same_run_for_each {A} (l : list A) (f : A → M ColorStatus unit) f' :
  (∀ x, same_run (f x) (f' x)) → same_run (for_each l f) (for_each l f').
Proof.
  intros Hf. induction l as [|x l IH]; [done|].
  cbn [for_each]. apply same_run_bind; [apply Hf|]. intros _. apply IH.
Qed.

Lemma same_run_refresh_errors m :
  same_run (refresh_errors m) (F32.refresh_errors m).
Proof. by intros cs. Qed.

Lemma zoom_same_run {A} d (m : M ColorStatus A) m' s :
  same_run m m' →
  F32.zoom m' (F32.mkFrame (self s) (float32_status (color_status d s)))
    = ((zoom d m s).1,
       F32.mkFrame (self (zoom d m s).2)
         (float32_status (color_status d (zoom d m s).2))).
Proof.
  intros Hm. unfold F32.zoom, zoom. simpl. rewrite Hm. simpl.
  by destruct d.
Qed.

Lemma partition_matrix_same G s cs' :
  F32.partition_matrix G (F32.mkFrame (self s) cs')
    = ((partition_matrix G s).1, F32.mkFrame (self s) cs').
Proof.
  unfold F32.partition_matrix, partition_matrix. mred.
  case_bool_decide; simpl; [|done]. by destruct (sparse_coo_tensor _ _ _ _ _).
Qed.

(** On a graph in range, [init_status] with sums that overflow computes the
    status that the exact model computes. *)
Lemma init_status_in_range G d s :
  in_range G → valid_partition (num_nodes G) (p (self s)) →
  F32.init_status G (weights_of G d)
    (F32.mkFrame (self s) (float32_status (color_status d s)))
  = ((init_status G d (weights_of G d) s).1,
     F32.mkFrame (self (init_status G d (weights_of G d) s).2)
       (float32_status (color_status d (init_status G d (weights_of G d) s).2))).
Proof.
  intros Hr HP.
  pose proof (partition_matrix_ok (num_nodes G) G s eq_refl HP) as Hpm.
  pose proof (partition_matrix_same G s (float32_status (color_status d s))) as Hpm'.
  rewrite Hpm in Hpm'. cbn [fst] in Hpm'.
  set (dense := to_dense (mk_sparse_coo (num_nodes G) (length (p (self s)))
                  (mjoin (imap (λ c X, (λ x, (x, c)) <$> X) (p (self s))))
                  (replicate (num_nodes G) 1))) in *.
  set (s1 := set_color_status d (set_neighbor (mm (num_nodes G) (length (p (self s)))
                                                 (weights_of G d) dense)
                                  (color_status d s)) s).
  set (m1 := for_each (enumerate (p (self s)))
               (λ iX, refresh_row (length (p (self s))) iX.1 iX.2)).
  set (m1' := for_each (enumerate (p (self s)))
                (λ iX, F32.refresh_row (length (p (self s))) iX.1 iX.2)).
  assert (self s1 = self s) as Hself1 by apply self_set_color_status.
  assert (init_status G d (weights_of G d) s
          = (zoom d m1;; zoom d (refresh_errors (length (p (self s))))) s1) as ->.
  { unfold init_status. rewrite (bind_ok _ _ _ _ _ Hpm). cbn [coo_cols].
    rewrite (bind_ok _ _ _ tt s1) by (by apply zoom_ok).
    rewrite (bind_ok get _ s1 s1 s1 eq_refl). by rewrite Hself1. }
  assert (F32.init_status G (weights_of G d)
            (F32.mkFrame (self s) (float32_status (color_status d s)))
          = (F32.zoom m1';; F32.zoom (F32.refresh_errors (length (p (self s)))))
              (F32.mkFrame (self s1) (float32_status (color_status d s1)))) as ->.
  { unfold F32.init_status. rewrite (bind_ok _ _ _ _ _ Hpm'). cbn [coo_cols].
    assert (F32.mkFrame (self s)
              (F32.set_neighbor (F32.mm (num_nodes G) (length (p (self s)))
                                   (weights_of G d) dense)
                 (float32_status (color_status d s)))
            = F32.mkFrame (self s1) (float32_status (color_status d s1))) as Hs1.
    { unfold s1. rewrite self_set_color_status, color_status_set_eq.
      unfold dense. rewrite (mm_in_range G d _ Hr HP). done. }
    rewrite (bind_ok _ _ _ tt (F32.mkFrame (self s1) (float32_status (color_status d s1))))
      by (by rewrite <- Hs1).
    rewrite (bind_ok get _ _ _ _ eq_refl). cbn [F32.self]. by rewrite Hself1. }
  assert (same_run m1 m1') as Hm1.
  { apply same_run_for_each. intros x. apply same_run_refresh_row. }
  rewrite !bind_eq. rewrite (zoom_same_run d m1 m1' s1 Hm1).
  destruct (zoom d m1 s1) as [[[]|e|] s2]; cbn [fst snd]; [|done|done].
  exact (zoom_same_run d _ _ s2 (same_run_refresh_errors _)).
Qed.

(** Under [in_range] the spread of a pair of colors is at most
    [float32_max]. *)
Lemma spread_attained_in_range G d P e :
  in_range G → valid_partition (num_nodes G) P → spread_attained G d P e →
  e ≤ float32_max.
Proof.
  intros Hr HP (i & j & X & Y & x & y & HX & HY & Hx & Hy & <-).
  pose proof (valid_partition_Forall_lt _ _ _ _ HP HX) as HvX.
  rewrite Forall_forall in HvX.
  destruct (deg_in_range G d P j Y x Hr HP HY (HvX x Hx)) as [_ H1].
  destruct (deg_in_range G d P j Y y Hr HP HY (HvX y Hy)) as [H2 _].
  rewrite <- half_range_twice. unfold Qcminus.
  apply Qcplus_le_compat; [done|]. by apply Qcopp_le_compat.
Qed.

(** C8 (as stated) fails when a sum of weights overflows.  On the graph of
    two nodes whose four edges have the weight [2^127], right after
    [init_status(color_status_out, weights)] in a call of [q_color] with
    [n_colors = 2]: there is one color, both entries of [neighbor] are
    [inf], so are [upper_base[0][0]] and [lower_base[0][0]], and
    [errors_base[0][0]] is [inf − inf = NaN], which is not [≥ 0]. *)
Lemma errors_nan_on_overflow :
  capacity (Fin (Z2 2)) = Ok 2%nat ∧
  F32.init_status heavy_graph (weights heavy_graph)
    (F32.mkFrame (QuasiStableColoring_init heavy_graph) (F32.ColorStatus_init 2 2))
    = (Ok tt, heavy_start) ∧
  length (p (F32.self heavy_start)) = 1%nat ∧
  F32.neighbor (F32.color_status heavy_start) = Some [[PInf]; [PInf]] ∧
  mget (F32.upper_base (F32.color_status heavy_start)) 0 0 = Some PInf ∧
  mget (F32.lower_base (F32.color_status heavy_start)) 0 0 = Some PInf ∧
  mget (F32.errors_base (F32.color_status heavy_start)) 0 0 = Some (fsub PInf PInf) ∧
  fsub PInf PInf = NaN ∧ fgeb NaN (Fin 0) = false ∧
  ¬ in_range heavy_graph.
Proof.
  split; [vm_compute; reflexivity|].
  split; [vm_compute; reflexivity|].
  split; [vm_compute; reflexivity|].
  split; [vm_compute; reflexivity|].
  split; [vm_compute; reflexivity|].
  split; [vm_compute; reflexivity|].
  split; [vm_compute; reflexivity|].
  split; [reflexivity|]. split; [reflexivity|].
  intros H. specialize (H Out 0%nat). simpl in H.
  assert (0 < 2)%nat as H2 by lia. specialize (H H2).
  vm_compute in H. apply H. reflexivity.
Qed.

(** C8 (as amended) — On a graph whose weights keep every sum in range
    ([in_range]), at every point of a run, between the calls that [q_color]
    makes, and for either status: for all indices [i], [j] of the active
    block of the status, the entries of [upper_base] and [lower_base] are
    numbers within half the range of [float32], [errors_base[i][j]] is their
    difference [upper − lower], and it is not negative (and not above
    [float32_max]).  The active block of a status is [m] by [m] for the
    number [m] of colors whenever the loop tests its condition, picks its
    witnesses, or has ended; between [split_color] and the [update_status]
    of a status it is the block of the partition before the split, for
    which the status was last brought up to date. *)
Theorem errors_nonnegative (G : Graph) (cfg : Config) (s : Frame) (d : dir) :
  in_range G →
  run_point G cfg s →
  let cs := color_status d s in
  (∀ i j, (i < active_order cs)%nat → (j < active_order cs)%nat →
     ∃ u l,
       mget (upper_base cs) i j = Some (Fin u) ∧
       mget (lower_base cs) i j = Some (Fin l) ∧
       mget (errors_base cs) i j = Some (fsub (Fin u) (Fin l)) ∧
       mget (errors_base cs) i j = Some (Fin (u - l)) ∧
       0 ≤ u - l ∧ u - l ≤ float32_max ∧
       - (float32_max / Qc_of_Z 2) ≤ l ∧ u ≤ float32_max / Qc_of_Z 2)
  ∧ (reachable G cfg s ∨ at_split G cfg s ∨
       (∃ s0 r, reachable G cfg s0 ∧ loop_run G cfg s0 r s) →
     active_order cs = length (p (self s))).
Proof.
  intros Hrange Hpt cs. split.
  - intros i j Hi Hj.
    destruct (run_point_status G cfg s d Hpt) as [Hnone|(P & Hv & HP & Hok)].
    { unfold active_order in Hi. fold cs in Hnone. rewrite Hnone in Hi. lia. }
    fold cs in Hok. rewrite (active_order_status_ok _ _ _ _ Hv Hok) in Hi, Hj.
    destruct (lookup_lt_is_Some_2 _ i Hi) as [X HX].
    destruct (lookup_lt_is_Some_2 _ j Hj) as [Y HY].
    destruct (ok_block _ _ _ _ Hok i j X Y HX HY)
      as (hi & lo & Hhi & Hlo & Hu & Hl & He).
    exists hi, lo. repeat (split; [done|]).
    apply reduce_vec_max in Hhi. apply reduce_vec_min in Hlo.
    pose proof (is_min_le_is_max _ _ _ Hlo Hhi) as Hle.
    assert (∀ q, q ∈ deg (weights_of G d) Y <$> X →
              - (float32_max / Qc_of_Z 2) ≤ q ∧ q ≤ float32_max / Qc_of_Z 2) as Hin.
    { intros q Hq. apply list_elem_of_fmap in Hq as (x & -> & Hx).
      apply (deg_in_range G d P j Y x Hrange HP HY).
      pose proof (valid_partition_Forall_lt _ _ _ _ HP HX) as HvX.
      rewrite Forall_forall in HvX. by apply HvX. }
    destruct (Hin hi (proj1 Hhi)) as [_ Hhi2].
    destruct (Hin lo (proj1 Hlo)) as [Hlo1 _].
    split; [by apply Qcle_minus_iff in Hle|].
    split; [|done].
    rewrite <- half_range_twice. unfold Qcminus.
    apply Qcplus_le_compat; [done|]. by apply Qcopp_le_compat.
  - intros Hs.
    assert (inv G s) as Hinv.
    { destruct Hs as [Hr|[Ha|(s0 & r & Hr & Hrun)]].
      - by eapply reachable_inv.
      - by eapply at_split_inv.
      - by destruct (loop_run_inv G cfg s0 r s (reachable_inv _ _ _ Hr) Hrun). }
    apply (active_order_status_ok (num_nodes G) (weights_of G d)).
    + apply Hinv.
    + apply (inv_status _ _ Hinv d).
Qed.

Lemma errors_nonnegative_witness :
  in_range scenario_graph ∧
  run_point scenario_graph scenario_cfg scenario_second ∧
  active_order (color_status Out scenario_second) = 2%nat ∧
  ∃ u l,
    mget (upper_base (color_status Out scenario_second)) 0 1 = Some (Fin u) ∧
    mget (lower_base (color_status Out scenario_second)) 0 1 = Some (Fin l) ∧
    mget (errors_base (color_status Out scenario_second)) 0 1 = Some (Fin (u - l)) ∧
    0 ≤ u - l ∧ u - l ≤ float32_max.
Proof.
  assert (run_point scenario_graph scenario_cfg scenario_second) as Hpt
    by (apply point_test; exact scenario_second_reachable).
  assert (active_order (color_status Out scenario_second) = 2%nat) as Hm
    by (vm_compute; reflexivity).
  split; [exact in_range_scenario|]. split; [exact Hpt|]. split; [exact Hm|].
  destruct (proj1 (errors_nonnegative scenario_graph scenario_cfg scenario_second Out
                     in_range_scenario Hpt)
              0%nat 1%nat) as (u & l & Hu & Hl & _ & He & Hle & Hmax & _).
  - rewrite Hm. lia.
  - rewrite Hm. lia.
  - exists u, l. split; [exact Hu|]. split; [exact Hl|]. split; [exact He|].
    split; [exact Hle|exact Hmax].
Defined.
(** * Further properties of the code *)

(** ** [ColorStatus.resize] *)

(** X1 — [resize(n)] with [n] not below the order the status has: the call
    succeeds, the status records the order [n], its three matrices are [n]
    by [n], every entry of the old matrices is where it was, and the entries
    outside the old block are 0 in [upper_base] and [errors_base] and
    infinity in [lower_base].  [neighbor] is not touched. *)
Theorem resize_preserves (cs : ColorStatus) (n : nat) :
  shape (cs_n cs) (cs_n cs) (upper_base cs) →
  shape (cs_n cs) (cs_n cs) (lower_base cs) →
  shape (cs_n cs) (cs_n cs) (errors_base cs) →
  (cs_n cs ≤ n)%nat →
  ∃ cs', resize n cs = (Ok tt, cs') ∧
    cs_n cs' = n ∧ cs_v cs' = cs_v cs ∧ neighbor cs' = neighbor cs ∧
    shape n n (upper_base cs') ∧ shape n n (lower_base cs') ∧
    shape n n (errors_base cs') ∧
    ∀ i j, (i < n)%nat → (j < n)%nat →
      if bool_decide (i < cs_n cs ∧ j < cs_n cs)%nat
      then mget (upper_base cs') i j = mget (upper_base cs) i j ∧
           mget (lower_base cs') i j = mget (lower_base cs) i j ∧
           mget (errors_base cs') i j = mget (errors_base cs) i j
      else mget (upper_base cs') i j = Some (Fin 0) ∧
           mget (lower_base cs') i j = Some PInf ∧
           mget (errors_base cs') i j = Some (Fin 0).
Proof.
  intros Hu Hl He Hn. eexists. split; [by apply resize_ok|]. simpl.
  assert (∀ {A} (t : list (list A)), shape (cs_n cs) (cs_n cs) t →
            Forall (λ row, length row ≤ n)%nat t) as Hle.
  { intros A t [_ Ht]. eapply Forall_impl; [done|]. simpl. intros row ->. done. }
  repeat (split; [done || (apply shape_overlay; [apply shape_full|by apply Hle])|]).
  intros i j Hi Hj. case_bool_decide as Hin.
  - destruct Hin. by rewrite !(mget_overlay_full (cs_n cs)).
  - by rewrite !(mget_overlay_outside (cs_n cs)).
Qed.

Lemma resize_preserves_witness :
  ∃ cs', resize 4 (ColorStatus_init 3 2) = (Ok tt, cs') ∧ cs_n cs' = 4%nat ∧
         mget (lower_base cs') 1 1 = mget (lower_base (ColorStatus_init 3 2)) 1 1 ∧
         mget (lower_base cs') 3 0 = Some PInf.
Proof.
  destruct (resize_preserves (ColorStatus_init 3 2) 4)
    as (cs' & Hrun & Hn & _ & _ & _ & _ & _ & Hent);
    [apply shape_full..|simpl; lia|].
  exists cs'. split; [exact Hrun|]. split; [exact Hn|]. split.
  - apply (Hent 1%nat 1%nat); lia.
  - apply (Hent 3%nat 0%nat); lia.
Defined.

(** X2 — [resize(n)] with [n] below the order [m] of the status, [m] at
    least 2: the assignment of the old matrices to the smaller views raises
    [RuntimeError], after [self.n] has been set: the status is left with the
    order [n] on record and its old [m] by [m] matrices. *)
Theorem resize_smaller_fails (cs : ColorStatus) (n : nat) :
  (n < cs_n cs)%nat → (1 < cs_n cs)%nat →
  resize n cs = (Raise RuntimeError, set_n n cs).
Proof.
  intros Hn Hm. unfold resize, assign_block. mred.
  rewrite bool_decide_false by lia. rewrite bool_decide_false by lia. done.
Qed.

Lemma resize_smaller_fails_witness :
  resize 1 (ColorStatus_init 3 2) = (Raise RuntimeError, set_n 1 (ColorStatus_init 3 2)) ∧
  cs_n (resize 1 (ColorStatus_init 3 2)).2 = 1%nat ∧
  length (upper_base (resize 1 (ColorStatus_init 3 2)).2) = 2%nat.
Proof.
  pose proof (resize_smaller_fails (ColorStatus_init 3 2) 1) as H.
  split; [apply H; simpl; lia|].
  rewrite H by (simpl; lia). split; reflexivity.
Defined.

(** ** [partition_matrix] *)

(** X3 — On a valid partition [partition_matrix] returns, without changing
    anything, the [v] by [m] membership matrix: in its dense form the entry
    of node [x] and color [c] is 1 when [x] is in color [c] and 0 when not. *)
Theorem partition_matrix_indicator (G : Graph) (s : Frame) :
  valid_partition (num_nodes G) (p (self s)) →
  ∃ ps, partition_matrix G s = (Ok ps, s) ∧
        coo_rows ps = num_nodes G ∧ coo_cols ps = length (p (self s)) ∧
        ∀ x c X, (x < num_nodes G)%nat → p (self s) !! c = Some X →
          mget (to_dense ps) x c = Some (if decide (x ∈ X) then 1 else 0).
Proof.
  intros HP. eexists. split; [by apply (partition_matrix_ok (num_nodes G))|].
  split; [done|]. split; [done|].
  intros x c X Hx HX. unfold to_dense, mget. simpl.
  rewrite list_lookup_fmap, lookup_seq_lt by done. simpl.
  rewrite list_lookup_fmap, lookup_seq_lt by (by eapply lookup_lt_Some). simpl.
  f_equal.
  set (entries := mjoin (imap (λ c X, (λ x, (x, c)) <$> X) (p (self s)))).
  assert (length entries = num_nodes G) as Hlen.
  { unfold entries. rewrite (length_entries _ 0).
    destruct HP as [_ Hperm]. apply Permutation_length in Hperm.
    by rewrite length_seq in Hperm. }
  rewrite (zip_with_replicate_r_eq pair (num_nodes G) 1 entries Hlen).
  rewrite <- list_fmap_compose.
  rewrite <- (Qc_sum_count_NoDup X x).
  2:{ apply valid_partition_is_partition in HP as [Hne _].
      by destruct (Hne c X HX). }
  rewrite <- (count_entries (p (self s)) 0 c x X HX). done.
Qed.

Lemma partition_matrix_indicator_witness :
  ∃ ps, partition_matrix scenario_graph scenario_second = (Ok ps, scenario_second) ∧
        coo_cols ps = 2%nat ∧
        mget (to_dense ps) 1 0 = Some (if decide (1%nat ∈ [0; 1; 3]%nat) then 1 else 0) ∧
        mget (to_dense ps) 1 1 = Some (if decide (1%nat ∈ [2]%nat) then 1 else 0).
Proof.
  assert (p (self scenario_second) = [[0; 1; 3]; [2]]%nat) as HP by (vm_compute; reflexivity).
  destruct (partition_matrix_indicator scenario_graph scenario_second)
    as (ps & Hrun & _ & Hcols & Hent).
  { rewrite HP. split; [by repeat constructor|]. simpl.
    do 2 apply perm_skip. apply perm_swap. }
  exists ps. split; [exact Hrun|]. rewrite HP in Hcols, Hent.
  split; [exact Hcols|]. split.
  - apply (Hent 1%nat 0%nat); [simpl; lia|reflexivity].
  - apply (Hent 1%nat 1%nat); [simpl; lia|reflexivity].
Defined.
(** X4 — [partition_matrix] on an object whose colors hold more than [v]
    entries: writing the entry after the last slot of the index buffers
    raises [IndexError], and the object is unchanged. *)
Theorem partition_matrix_refuses (G : Graph) (s : Frame) :
  (num_nodes G < length (mjoin (p (self s))))%nat →
  partition_matrix G s = (Raise IndexError, s).
Proof.
  intros Hlen. unfold partition_matrix. mred.
  rewrite (length_entries _ 0). rewrite bool_decide_false by lia. done.
Qed.

Lemma partition_matrix_refuses_witness :
  partition_matrix scenario_graph
    (mkFrame (mkQSC [[0; 1; 2]; [3; 3]]%nat PInf) (ColorStatus_init 4 4) (ColorStatus_init 4 4))
    = (Raise IndexError,
       mkFrame (mkQSC [[0; 1; 2]; [3; 3]]%nat PInf) (ColorStatus_init 4 4) (ColorStatus_init 4 4)).
Proof. apply (partition_matrix_refuses scenario_graph _). simpl. lia. Defined.

(** ** [init_status] *)

(** X5 — [init_status] on a valid partition, for a status whose square
    matrices have room for the colors: the call succeeds and changes nothing
    but the status.  Afterwards [neighbor[x][j]] is the sum of the weights
    [w x y] over the nodes [y] of color [j], and for all colors [i], [j] the
    entries [upper_base[i][j]] and [lower_base[i][j]] are the largest and
    the smallest of these sums over the nodes of color [i], and
    [errors_base[i][j]] is their difference. *)
Theorem init_status_computes (G : Graph) (d : dir) (w : weight_matrix) (s : Frame) :
  let P := p (self s) in
  let cs := color_status d s in
  valid_partition (num_nodes G) P →
  (length P ≤ cs_n cs)%nat →
  shape (cs_n cs) (cs_n cs) (upper_base cs) →
  shape (cs_n cs) (cs_n cs) (lower_base cs) →
  shape (cs_n cs) (cs_n cs) (errors_base cs) →
  ∃ cs' nb,
    init_status G d w s = (Ok tt, set_color_status d cs' s) ∧
    cs_n cs' = cs_n cs ∧ neighbor cs' = Some nb ∧
    (∀ x j Y, (x < num_nodes G)%nat → P !! j = Some Y →
       mget nb x j = Some (Qc_sum (w x <$> Y))) ∧
    (∀ i j X Y, P !! i = Some X → P !! j = Some Y →
       ∃ hi lo,
         is_max ((λ x, Qc_sum (w x <$> Y)) <$> X) hi ∧
         is_min ((λ x, Qc_sum (w x <$> Y)) <$> X) lo ∧
         mget (upper_base cs') i j = Some (Fin hi) ∧
         mget (lower_base cs') i j = Some (Fin lo) ∧
         mget (errors_base cs') i j = Some (Fin (hi - lo))).
Proof.
  intros P cs HP Hcap Hu Hl He.
  destruct (init_status_spec G d w s HP Hcap Hu Hl He) as (cs' & Hrun & Hok & Hn).
  exists cs', (neighbor_of (num_nodes G) w P).
  split; [done|]. split; [done|]. split; [apply Hok|]. split.
  - intros x j Y Hx HY. by apply mget_neighbor_of.
  - intros i j X Y HX HY.
    destruct (ok_block _ _ _ _ Hok i j X Y HX HY) as (hi & lo & Hhi & Hlo & H1 & H2 & H3).
    exists hi, lo. split; [by apply reduce_vec_max|]. split; [by apply reduce_vec_min|].
    done.
Qed.

Lemma init_status_computes_witness :
  ∃ cs' nb,
    init_status scenario_graph Out (weights scenario_graph)
      (first_frame scenario_graph 4 (QuasiStableColoring_init scenario_graph))
    = (Ok tt, set_color_status Out cs'
                (first_frame scenario_graph 4 (QuasiStableColoring_init scenario_graph))) ∧
    neighbor cs' = Some nb ∧
    mget nb 0 0 = Some (Qc_sum (weights scenario_graph 0%nat <$> seq 0 4)).
Proof.
  destruct (init_status_computes scenario_graph Out (weights scenario_graph)
              (first_frame scenario_graph 4 (QuasiStableColoring_init scenario_graph)))
    as (cs' & nb & Hrun & _ & Hnb & Hent & _).
  - apply valid_partition_init. simpl. lia.
  - simpl. lia.
  - apply shape_full.
  - apply shape_full.
  - apply shape_full.
  - exists cs', nb. split; [exact Hrun|]. split; [exact Hnb|].
    apply (Hent 0%nat 0%nat); [simpl; lia|reflexivity].
Defined.

(** ** [q_color]: the order of the new statuses *)

(** X6 — [q_color] on an object whose valid partition has more colors than
    the order [int(min(n_colors, 128))] of the new statuses: the call
    raises in the first [init_status], before the loop, and leaves the
    object as it was: [IndexError] when the order is 0 (as for a new object
    and [n_colors] below 1), [RuntimeError] otherwise (as for an object that
    an earlier call refined to more than [n_colors], or more than 128,
    colors). *)
Theorem q_color_no_room (G : Graph) (cfg : Config) (qsc : QuasiStableColoring) (n : nat) :
  (0 < num_nodes G)%nat → valid_partition (num_nodes G) (p qsc) →
  capacity (n_colors cfg) = Ok n → (n < length (p qsc))%nat →
  q_color G cfg qsc =
    (Raise (if decide (n = 0%nat) then IndexError else RuntimeError), qsc).
Proof.
  intros Hv HP Hcap Hn. unfold q_color, q_color_fuel. rewrite Hcap.
  unfold q_color_frame. rewrite bind_eq.
  destruct (init_status_no_room G Out (weights G)
              (mkFrame qsc (ColorStatus_init (num_nodes G) n) (ColorStatus_init (num_nodes G) n)))
    as (cs1 & ->); try done.
Qed.

Lemma q_color_no_room_witness :
  q_color scenario_graph (mkConfig false (Fin (Z2 1)) (Fin 0)) (mkQSC [[0; 1; 3]; [2]]%nat PInf)
    = (Raise RuntimeError, mkQSC [[0; 1; 3]; [2]]%nat PInf) ∧
  q_color scenario_graph (mkConfig false (Fin (Z2 0)) (Fin 0))
    (QuasiStableColoring_init scenario_graph)
    = (Raise IndexError, QuasiStableColoring_init scenario_graph).
Proof.
  split.
  - apply (q_color_no_room scenario_graph _ _ 1).
    + simpl. lia.
    + split; [by repeat constructor|]. simpl. do 2 apply perm_skip. apply perm_swap.
    + vm_compute. reflexivity.
    + simpl. lia.
  - apply (q_color_no_room scenario_graph _ _ 0).
    + simpl. lia.
    + apply valid_partition_init. simpl. lia.
    + vm_compute. reflexivity.
    + simpl. lia.
Defined.

(** X7 — The order [int(min(n_colors, 128))] that [q_color] gives the
    matrices of the new statuses: a number of colors that is not negative
    is rounded down and capped at 128 (infinity gives 128); a negative
    number above -1 is rounded to 0; from -1 downward [torch.zeros] refuses
    the negative order with [RuntimeError]; minus infinity makes [int]
    raise [OverflowError] and NaN [ValueError]. *)
Theorem capacity_cases :
  capacity PInf = Ok BASE_MATRIX_SIZE ∧
  capacity NInf = Raise OverflowError ∧
  capacity NaN = Raise ValueError ∧
  ∀ q : Qc,
    (0 ≤ q → ∃ n, capacity (Fin q) = Ok n ∧ (n ≤ BASE_MATRIX_SIZE)%nat ∧
                  Qc_of_nat n ≤ q ∧ (q < Qc_of_nat n + 1 ∨ n = BASE_MATRIX_SIZE)) ∧
    (- (1) < q → q < 0 → capacity (Fin q) = Ok 0%nat) ∧
    (q ≤ - (1) → capacity (Fin q) = Raise RuntimeError).
Proof.
  split; [done|]. split; [done|]. split; [done|].
  intros q. split; [apply capacity_nonneg|].
  split; [apply capacity_fraction|apply capacity_negative].
Qed.

Lemma capacity_cases_witness :
  (∃ n, capacity (Fin (Z2 5 / Z2 2)) = Ok n ∧ (n ≤ BASE_MATRIX_SIZE)%nat ∧
        Qc_of_nat n ≤ Z2 5 / Z2 2 ∧
        (Z2 5 / Z2 2 < Qc_of_nat n + 1 ∨ n = BASE_MATRIX_SIZE)) ∧
  capacity (Fin (- Z2 3)) = Raise RuntimeError.
Proof.
  destruct capacity_cases as (_ & _ & _ & H). split.
  - apply (H (Z2 5 / Z2 2)). by vm_compute.
  - apply (H (- Z2 3)). by vm_compute.
Defined.

(** ** The split the loop makes *)

(** X8 — A split on an error of 0 always fails.  In a state in which the
    loop tests its condition or is about to split, when the error that
    [pick_witness] returns for a status is 0, [split_color] at the witness
    and threshold it returns fails its assertion and changes nothing: all
    nodes of the witness color have the same entry in the witness column,
    so no threshold separates them. *)
Theorem zero_error_split_fails (G : Graph) (cfg : Config) (s : Frame) (d : dir)
    (i j : nat) (threshold : float32) :
  reachable G cfg s ∨ at_split G cfg s →
  pick_witness d s = (Ok (i, j, threshold, Fin 0), s) →
  split_color d i j threshold s = (Raise AssertionError, s).
Proof.
  intros Hs Hpick.
  assert (inv G s) as Hinv.
  { destruct Hs as [Hr|Ha]; [by eapply reachable_inv|by eapply at_split_inv]. }
  destruct (pick_witness_sides G d s Hinv)
    as (i' & j' & X & Y & e & split & Hpick' & HX & HY & Hnb & Hg & Hret & Hej & _).
  rewrite Hpick in Hpick'. injection Hpick' as -> -> -> <-.
  destruct (split_color_cases d i' j' (mean split) s)
    as [(e' & Hne & Hrun & Hwhy)|[(arr & nb & split' & Harr & Hnb' & Hg' & Hside & Hrun)
       |(arr & nb & split' & Harr & Hnb' & Hg' & Hr & He & Hrun)]].
  - specialize (Hwhy X _ HX Hnb). rewrite Hg in Hwhy. done.
  - done.
  - rewrite HX in Harr. injection Harr as <-. rewrite Hnb in Hnb'. injection Hnb' as <-.
    rewrite Hg in Hg'. injection Hg' as <-. destruct He. by apply Hej.
Qed.

Lemma zero_error_split_fails_witness :
  let w := witness_of (pick_witness Out edgeless_start).1 in
  w.2 = Fin 0 ∧
  split_color Out w.1.1.1 w.1.1.2 w.1.2 edgeless_start
    = (Raise AssertionError, edgeless_start).
Proof.
  intros w. split; [vm_compute; reflexivity|].
  apply (zero_error_split_fails edgeless_graph scenario_cfg edgeless_start Out).
  - left. apply (reach_init edgeless_graph scenario_cfg 4).
    + vm_compute. reflexivity.
    + vm_compute. reflexivity.
  - vm_compute. reflexivity.
Defined.

(** ** Whole calls of [q_color] *)

(** X9 — The only exception of a call of [q_color] whose statuses have room
    is the failed assertion of a split: on a graph with a node, for an
    object with a valid partition (a new object, or one refined by an
    earlier call) whose colors fit the order [int(min(n_colors, 128))] of
    the new statuses, the call returns or raises [AssertionError]; no index
    or shape error occurs, whatever the cap and the tolerance. *)
Theorem q_color_returns_or_asserts (G : Graph) (cfg : Config)
    (qsc : QuasiStableColoring) (n : nat) :
  (0 < num_nodes G)%nat → valid_partition (num_nodes G) (p qsc) →
  capacity (n_colors cfg) = Ok n → (length (p qsc) ≤ n)%nat →
  (q_color G cfg qsc).1 = Ok tt ∨ (q_color G cfg qsc).1 = Raise AssertionError.
Proof.
  intros Hv HP Hcap Hn.
  destruct (q_color_fuel_spec G (num_nodes G) cfg qsc n Hv HP Hcap Hn (le_n _))
    as (s0 & r' & s & io & jo & to & eo & ii & ji & ti & ei &
        Hinit & Hinv0 & Hself & Hrun & Hinv & Hpo & Hpi & [[-> Hq]|[-> Hq]]).
  - left. unfold q_color. by rewrite Hq.
  - right. unfold q_color. by rewrite Hq.
Qed.

Lemma q_color_returns_or_asserts_witness :
  (q_color scenario_graph (mkConfig false PInf (Fin (- Z2 1)))
     (QuasiStableColoring_init scenario_graph)).1 = Ok tt ∨
  (q_color scenario_graph (mkConfig false PInf (Fin (- Z2 1)))
     (QuasiStableColoring_init scenario_graph)).1 = Raise AssertionError.
Proof.
  apply (q_color_returns_or_asserts scenario_graph (mkConfig false PInf (Fin (- Z2 1)))
           (QuasiStableColoring_init scenario_graph) BASE_MATRIX_SIZE).
  - simpl. lia.
  - apply valid_partition_init. simpl. lia.
  - reflexivity.
  - unfold BASE_MATRIX_SIZE. simpl. lia.
Defined.

(** X10 — What a call of [q_color] that returns leaves behind, on a graph
    with a node whose weights keep every sum in range ([in_range]) and for
    an object with a valid partition whose colors fit the order
    [int(min(n_colors, 128))] of the new statuses: the partition is valid;
    [q_error] is a number [e] with [0 ≤ e ≤ float32_max]; in both
    directions no two nodes of one color differ by more than [e] in their
    weight toward any color, and in one of the directions some pair of
    nodes differs by exactly [e]; and the loop ended for one of its two
    reasons: the number of colors is not below [n_colors], or [e] is within
    the tolerance [q_errors]. *)
Theorem q_color_result (G : Graph) (cfg : Config) (qsc : QuasiStableColoring) (n : nat) :
  in_range G →
  (0 < num_nodes G)%nat → valid_partition (num_nodes G) (p qsc) →
  capacity (n_colors cfg) = Ok n → (length (p qsc) ≤ n)%nat →
  let r := q_color G cfg qsc in
  r.1 = Ok tt →
  valid_partition (num_nodes G) (p r.2) ∧
  ∃ e, q_error r.2 = Fin e ∧ 0 ≤ e ∧ e ≤ float32_max ∧
       spread_within G Out (p r.2) e ∧ spread_within G In (p r.2) e ∧
       (spread_attained G Out (p r.2) e ∨ spread_attained G In (p r.2) e) ∧
       (fltb (Fin (Qc_of_nat (length (p r.2)))) (n_colors cfg) = false ∨
        fleb (Fin e) (q_errors cfg) = true).
Proof.
  intros Hrange Hv HP Hcap Hn r Hr.
  destruct (q_color_outcome G cfg qsc n Hv HP Hcap Hn)
    as (Hvalid & _ & _ & eo & ei & Heo & Hei & Hso & Hao & Hsi & Hai &
        [(_ & Hq & Hwhy)|(Hraise & _)]).
  2:{ fold r in Hraise. by rewrite Hraise in Hr. }
  fold r in Hvalid, Hso, Hao, Hsi, Hai, Hq, Hwhy.
  pose proof (spread_attained_in_range G Out _ _ Hrange Hvalid Hao) as Hmo.
  pose proof (spread_attained_in_range G In _ _ Hrange Hvalid Hai) as Hmi.
  split; [done|]. rewrite py_max_Fin in Hq. eexists. split; [exact Hq|].
  case_decide as Hlt.
  - split; [done|]. split; [done|]. split.
    { intros i j X Y x y HX HY Hx Hy. apply Qcle_trans with eo.
      - exact (Hso i j X Y x y HX HY Hx Hy).
      - by apply Qclt_le_weak. }
    split; [done|]. split; [by right|].
    destruct Hwhy as [Ht|Ht]; [by left|right].
    apply tolerated_max in Ht. by rewrite decide_True in Ht.
  - apply Qcnot_lt_le in Hlt. split; [done|]. split; [done|]. split; [done|]. split.
    { intros i j X Y x y HX HY Hx Hy. apply Qcle_trans with ei.
      - exact (Hsi i j X Y x y HX HY Hx Hy).
      - done. }
    split; [by left|].
    destruct Hwhy as [Ht|Ht]; [by left|right].
    apply tolerated_max in Ht. rewrite decide_False in Ht; [done|]. by apply Qcle_not_lt.
Qed.

Lemma q_color_result_witness :
  let r := q_color scenario_graph scenario_cfg (QuasiStableColoring_init scenario_graph) in
  in_range scenario_graph ∧ r.1 = Ok tt ∧
  valid_partition 4 (p r.2) ∧
  ∃ e, q_error r.2 = Fin e ∧ 0 ≤ e ∧ e ≤ float32_max ∧
       spread_within scenario_graph Out (p r.2) e ∧
       spread_within scenario_graph In (p r.2) e.
Proof.
  intros r.
  assert (r.1 = Ok tt) as Hr by (vm_compute; reflexivity).
  destruct (q_color_result scenario_graph scenario_cfg
              (QuasiStableColoring_init scenario_graph) 4)
    as (HP & e & He & H0 & Hmax & Ho & Hi & _).
  - exact in_range_scenario.
  - simpl. lia.
  - apply valid_partition_init. simpl. lia.
  - vm_compute. reflexivity.
  - simpl. lia.
  - exact Hr.
  - split; [exact in_range_scenario|]. split; [exact Hr|]. split; [exact HP|].
    exists e. split; [exact He|]. split; [exact H0|]. split; [exact Hmax|].
    split; [exact Ho|exact Hi].
Defined.

(** X11 — With the default arguments ([n_colors] infinite, [q_errors] 0) a
    call of [q_color] that returns has computed a stable coloring: on a
    graph with a node, for an object with a valid partition of at most 128
    colors, [q_error] is 0 and the partition is valid, and any two nodes of
    one color have the same weight toward every color, in both directions.
    (The call can also end in the failed assertion of a split, see X9.) *)
Theorem q_color_default_stable (G : Graph) (b : bool) (qsc : QuasiStableColoring) :
  (0 < num_nodes G)%nat → valid_partition (num_nodes G) (p qsc) →
  (length (p qsc) ≤ BASE_MATRIX_SIZE)%nat →
  let r := q_color G (mkConfig b PInf (Fin 0)) qsc in
  r.1 = Ok tt →
  q_error r.2 = Fin 0 ∧
  valid_partition (num_nodes G) (p r.2) ∧
  ∀ d i j X Y x y, p r.2 !! i = Some X → p r.2 !! j = Some Y → x ∈ X → y ∈ X →
    deg (weights_of G d) Y x = deg (weights_of G d) Y y.
Proof.
  intros Hv HP Hn r Hr. set (cfg := mkConfig b PInf (Fin 0)).
  destruct (q_color_fuel_spec G (num_nodes G) cfg qsc BASE_MATRIX_SIZE Hv HP eq_refl Hn (le_n _))
    as (s0 & r' & s & io & jo & to & eo & ii & ji & ti & ei &
        Hinit & Hinv0 & Hself & Hrun & Hinv & Hpo & Hpi & Hq).
  assert (r' = Ok tt ∧ q_color_fuel G (num_nodes G) cfg qsc
                          = (Ok tt, mkQSC (p (self s)) (py_max (Fin eo) (Fin ei))))
    as [-> Hq'].
  { destruct Hq as [[-> Hq]|[-> Hq]]; [done|].
    unfold r, q_color in Hr. fold cfg in Hr. by rewrite Hq in Hr. }
  destruct (pick_witness_spread G Out s Hinv) as (io' & jo' & to' & eo' & Hpo' & Heo & Hso & _).
  destruct (pick_witness_spread G In s Hinv) as (ii' & ji' & ti' & ei' & Hpi' & Hei & Hsi & _).
  rewrite Hpo in Hpo'. injection Hpo' as _ _ _ <-.
  rewrite Hpi in Hpi'. injection Hpi' as _ _ _ <-.
  destruct (loop_run_end G cfg s0 _ s Hinv0 Hrun) as (_ & _ & _ & _ & Hend).
  destruct (Hend _ _ _ _ _ _ _ _ Hpo Hpi) as [[_ Hwhy]|(? & _)]; [|done].
  destruct Hwhy as [Ht|Ht]; [done|].
  unfold tolerated in Ht. apply andb_true_iff in Ht as [H1 H2].
  simpl in H1, H2. apply bool_decide_eq_true in H1, H2.
  assert (ei = 0) as -> by (by apply Qcle_antisym).
  assert (eo = 0) as -> by (by apply Qcle_antisym).
  unfold r, q_color. fold cfg. rewrite Hq'. simpl.
  split; [by rewrite py_max_Fin; case_decide|].
  split; [apply Hinv|].
  intros d i j X Y x y HX HY Hx Hy.
  assert (spread_within G d (p (self s)) 0) as Hs by (by destruct d).
  apply Qcle_antisym; apply Qc_sub_le_0.
  - exact (Hs i j X Y x y HX HY Hx Hy).
  - exact (Hs i j X Y y x HX HY Hy Hx).
Qed.

Lemma q_color_default_stable_witness :
  let r := q_color scenario_graph (mkConfig false PInf (Fin 0))
             (QuasiStableColoring_init scenario_graph) in
  r.1 = Ok tt ∧ q_error r.2 = Fin 0 ∧ valid_partition 4 (p r.2).
Proof.
  intros r.
  assert (r.1 = Ok tt) as Hr by (vm_compute; reflexivity).
  destruct (q_color_default_stable scenario_graph false
              (QuasiStableColoring_init scenario_graph)) as (H1 & H2 & _).
  - simpl. lia.
  - apply valid_partition_init. simpl. lia.
  - unfold BASE_MATRIX_SIZE. simpl. lia.
  - exact Hr.
  - split; [exact Hr|]. split; [exact H1|exact H2].
Defined.

(** X12 — With a tolerance [q_errors] that is negative (or NaN) and a cap
    [n_colors] above the number of nodes, [q_color] always ends in the
    failed assertion of a split: on a graph with a node, for an object with
    a valid partition whose colors fit the order of the new statuses, the
    call raises [AssertionError], and the object keeps its old [q_error]
    and has a valid, possibly refined, partition. *)
Theorem q_color_negative_tolerance (G : Graph) (cfg : Config)
    (qsc : QuasiStableColoring) (n : nat) :
  (0 < num_nodes G)%nat → valid_partition (num_nodes G) (p qsc) →
  capacity (n_colors cfg) = Ok n → (length (p qsc) ≤ n)%nat →
  fleb (Fin 0) (q_errors cfg) = false →
  fltb (Fin (Qc_of_nat (num_nodes G))) (n_colors cfg) = true →
  let r := q_color G cfg qsc in
  r.1 = Raise AssertionError ∧ q_error r.2 = q_error qsc ∧
  valid_partition (num_nodes G) (p r.2).
Proof.
  intros Hv HP Hcap Hn Htol Hcolors r.
  destruct (q_color_fuel_spec G (num_nodes G) cfg qsc n Hv HP Hcap Hn (le_n _))
    as (s0 & r' & s & io & jo & to & eo & ii & ji & ti & ei &
        Hinit & Hinv0 & Hself & Hrun & Hinv & Hpo & Hpi & [[-> Hq]|[-> Hq]]).
  2:{ unfold r, q_color. rewrite Hq. simpl. split; [done|]. split; [done|]. apply Hinv. }
  exfalso.
  destruct (pick_witness_spread G In s Hinv) as (ii' & ji' & ti' & ei' & Hpi' & Hei & _).
  rewrite Hpi in Hpi'. injection Hpi' as _ _ _ <-.
  destruct (loop_run_end G cfg s0 _ s Hinv0 Hrun) as (_ & _ & _ & _ & Hend).
  destruct (Hend _ _ _ _ _ _ _ _ Hpo Hpi) as [[_ [Ht|Ht]]|[? _]]; [| |done].
  - unfold loop_test in Ht.
    rewrite (fltb_Fin_mono _ (Qc_of_nat (num_nodes G))) in Ht; [done| |done].
    apply Qc_of_nat_mono. apply valid_partition_length. apply Hinv.
  - unfold tolerated in Ht. apply andb_true_iff in Ht as [H1 _].
    by rewrite (fleb_Fin_mono 0 ei) in Htol.
Qed.

Lemma q_color_negative_tolerance_witness :
  let r := q_color scenario_graph (mkConfig false PInf (Fin (- Z2 1)))
             (QuasiStableColoring_init scenario_graph) in
  r.1 = Raise AssertionError ∧ q_error r.2 = PInf ∧ valid_partition 4 (p r.2).
Proof.
  intros r.
  apply (q_color_negative_tolerance scenario_graph (mkConfig false PInf (Fin (- Z2 1)))
           (QuasiStableColoring_init scenario_graph) BASE_MATRIX_SIZE).
  - simpl. lia.
  - apply valid_partition_init. simpl. lia.
  - reflexivity.
  - unfold BASE_MATRIX_SIZE. simpl. lia.
  - vm_compute. reflexivity.
  - reflexivity.
Defined.

(** X13 — The number of colors after a call of [q_color] (on a graph with
    a node, for an object with a valid partition whose colors fit the order
    of the new statuses), however the call ends: no color is lost, there
    are at most as many colors as nodes, and a color was added only while
    the number of colors was below [n_colors]: either the number of colors
    is what it was, or one less than it is below [n_colors]. *)
Theorem q_color_color_count (G : Graph) (cfg : Config) (qsc : QuasiStableColoring)
    (n : nat) :
  (0 < num_nodes G)%nat → valid_partition (num_nodes G) (p qsc) →
  capacity (n_colors cfg) = Ok n → (length (p qsc) ≤ n)%nat →
  let r := q_color G cfg qsc in
  (length (p qsc) ≤ length (p r.2))%nat ∧ (length (p r.2) ≤ num_nodes G)%nat ∧
  (length (p r.2) = length (p qsc) ∨
   fltb (Fin (Qc_of_nat (length (p r.2) - 1))) (n_colors cfg) = true).
Proof.
  intros Hv HP Hcap Hn r.
  destruct (q_color_outcome G cfg qsc n Hv HP Hcap Hn) as (Hvalid & Hle & Hcount & _).
  fold r in Hvalid, Hle, Hcount.
  split; [done|]. split; [|done]. by apply valid_partition_length.
Qed.

Lemma q_color_color_count_witness :
  let r := q_color scenario_graph scenario_cfg (QuasiStableColoring_init scenario_graph) in
  (1 ≤ length (p r.2))%nat ∧ (length (p r.2) ≤ 4)%nat ∧
  (length (p r.2) = 1%nat ∨
   fltb (Fin (Qc_of_nat (length (p r.2) - 1))) (Fin (Z2 4)) = true).
Proof.
  intros r.
  apply (q_color_color_count scenario_graph scenario_cfg
           (QuasiStableColoring_init scenario_graph) 4).
  - simpl. lia.
  - apply valid_partition_init. simpl. lia.
  - vm_compute. reflexivity.
  - simpl. lia.
Defined.

(** X14 — After [q_color] on a new object, however the call ends, every
    color lists its nodes in increasing order: the first color is
    [torch.arange(v)], and a split selects from a color with a mask, which
    keeps the order. *)
Theorem q_color_colors_ascending (G : Graph) (cfg : Config) :
  Forall ascending (p (q_color G cfg (QuasiStableColoring_init G)).2).
Proof.
  destruct (q_color_fuel_run G (num_nodes G) cfg (le_n _)) as [_ Hrun].
  fold (q_color G cfg (QuasiStableColoring_init G)) in Hrun.
  assert (Forall ascending (p (QuasiStableColoring_init G))) as H0.
  { apply Forall_singleton, ascending_seq. }
  destruct Hrun as [e Hc|n e s Hc Hi|n s0 e s Hc Hi Hl|n s0 s r s' Hc Hi Hl Hf].
  - done.
  - pose proof (keeps_self_init_both G (first_frame G n (QuasiStableColoring_init G))) as Hs.
    rewrite Hi in Hs. simpl in Hs. by rewrite Hs.
  - destruct (reach_init_inv G n s0 Hi) as [Hinv Hself].
    apply (loop_run_ascending G cfg s0 _ s Hinv Hl). by rewrite Hself.
  - destruct (reach_init_inv G n s0 Hi) as [Hinv Hself].
    rewrite (final_report_p _ _ _ Hf).
    apply (loop_run_ascending G cfg s0 _ s Hinv Hl). by rewrite Hself.
Qed.

(** ** [neighbor] *)

(** X15 — Whenever the loop tests its condition or is about to split, each
    row of [neighbor] has one entry per color, and the entries of the row
    of a node [x] add up to the sum of row [x] of the weight matrix of the
    status ([adj_t] for [color_status_out], its transpose for
    [color_status_in]).  Splitting moves weight between columns and never
    changes the sum. *)
Theorem neighbor_row_sum (G : Graph) (cfg : Config) (s : Frame) (d : dir) (x : nat) :
  reachable G cfg s ∨ at_split G cfg s →
  (x < num_nodes G)%nat →
  ∃ nb row, neighbor (color_status d s) = Some nb ∧ nb !! x = Some row ∧
            length row = length (p (self s)) ∧
            Qc_sum row = Qc_sum (weights_of G d x <$> seq 0 (num_nodes G)).
Proof.
  intros Hs Hx.
  assert (inv G s) as Hinv.
  { destruct Hs as [Hr|Ha]; [by eapply reachable_inv|by eapply at_split_inv]. }
  exists (neighbor_of (num_nodes G) (weights_of G d) (p (self s))),
         ((λ Y, deg (weights_of G d) Y x) <$> p (self s)).
  split; [apply (inv_status _ _ Hinv d)|]. split; [by apply lookup_neighbor_of|].
  split; [by rewrite length_fmap|].
  unfold deg. rewrite Qc_sum_join. apply Qc_sum_perm.
  apply fmap_Permutation. apply (inv_partition _ _ Hinv).
Qed.

Lemma neighbor_row_sum_witness :
  ∃ nb row, neighbor (color_status In scenario_second) = Some nb ∧ nb !! 2%nat = Some row ∧
            length row = length (p (self scenario_second)) ∧
            Qc_sum row = Qc_sum (weights_of scenario_graph In 2%nat <$> seq 0 4).
Proof.
  apply (neighbor_row_sum scenario_graph scenario_cfg scenario_second In 2).
  - left. exact scenario_second_reachable.
  - simpl. lia.
Defined.

(** X17 — [q_color] writes [self.q_error] in its last statement only: a
    call that does not return, for whatever reason and on whatever object,
    leaves [q_error] as it was, also when the loop has already refined
    [self.p] (as in the run below, which ends with a failed assertion after
    its splits). *)
Theorem q_color_raise_keeps_q_error (G : Graph) (cfg : Config)
    (qsc : QuasiStableColoring) :
  (q_color G cfg qsc).1 ≠ Ok tt →
  q_error (q_color G cfg qsc).2 = q_error qsc.
Proof.
  unfold q_color, q_color_fuel. destruct (capacity (n_colors cfg)) as [n| |]; [|done..].
  fold (first_frame G n qsc). rewrite q_color_frame_eq. simpl.
  set (s00 := first_frame G n qsc).
  pose proof (keeps_self_init_both G s00) as H0. rewrite bind_eq.
  destruct (init_both G s00) as [[[]| |] s0]; simpl in *; [|by rewrite H0..].
  pose proof (keeps_q_error_while_loop G cfg (num_nodes G) s0) as H1. rewrite bind_eq.
  destruct (while_loop G cfg (num_nodes G) s0) as [[[]| |] s1]; simpl in *;
    [|by rewrite H1, H0..].
  unfold final_report. rewrite bind_eq.
  pose proof (pick_witness_state Out s1) as Ho.
  destruct (pick_witness Out s1) as [[[[[io jo] to] eo]| |] s2]; simpl in Ho; subst s2;
    simpl; [|by rewrite H1, H0..].
  rewrite bind_eq.
  pose proof (pick_witness_state In s1) as Hi.
  destruct (pick_witness In s1) as [[[[[ii ji] ti] ei]| |] s2]; simpl in Hi; subst s2;
    simpl; [done|by rewrite H1, H0..].
Qed.

Lemma q_color_raise_keeps_q_error_witness :
  let r := q_color scenario_graph (mkConfig false PInf (Fin (- Z2 1)))
             (QuasiStableColoring_init scenario_graph) in
  q_error r.2 = PInf ∧ r.1 = Raise AssertionError ∧ length (p r.2) = 4%nat.
Proof.
  intros r. split; [|split].
  - apply (q_color_raise_keeps_q_error scenario_graph (mkConfig false PInf (Fin (- Z2 1)))
             (QuasiStableColoring_init scenario_graph)).
    vm_compute. discriminate.
  - vm_compute. reflexivity.
  - vm_compute. reflexivity.
Defined.

(** ** The script [examples/nodeproppred/arxiv/quasiStable.py] *)

(** X18 — The call the script makes, [q_color(n_colors=num_nodes * 0.01)],
    on a graph of fewer than 100 nodes (and at least one): the cap is below
    1, the statuses get matrices of order [int(n_colors)] = 0, and the first
    [init_status] raises [IndexError]; the object is left as it was
    created. *)
Theorem arxiv_small_graph (G : Graph) :
  (0 < num_nodes G)%nat → (num_nodes G < 100)%nat →
  arxiv_main G = (Raise IndexError, QuasiStableColoring_init G).
Proof.
  intros Hv Hsmall. unfold arxiv_main, q_color, q_color_fuel.
  destruct (capacity_hundredth (num_nodes G)) as (n & Hcap & H0 & _).
  rewrite (H0 Hsmall) in Hcap. unfold arxiv_config at 1. cbn [n_colors]. rewrite Hcap.
  unfold q_color_frame. rewrite bind_eq.
  destruct (init_status_no_room G Out (weights G)
              (mkFrame (QuasiStableColoring_init G) (ColorStatus_init (num_nodes G) 0)
                 (ColorStatus_init (num_nodes G) 0)))
    as (cs1 & ->); try done.
  - by apply valid_partition_init.
  - simpl. lia.
Qed.

Lemma arxiv_small_graph_witness :
  arxiv_main scenario_graph = (Raise IndexError, QuasiStableColoring_init scenario_graph).
Proof. apply arxiv_small_graph; simpl; lia. Defined.

(** X19 — The call the script makes on a graph of at least 100 nodes: it
    returns or ends in the failed assertion of a split; either way the
    partition is valid and a color was added only while fewer than a
    hundredth of the nodes were colors, so that [100 * (m - 1) < v] for the
    final number [m] of colors; and when the call returns, the loop ended
    because the cap was reached ([v ≤ 100 * m]) or because the coloring is
    stable ([q_error] is 0). *)
Theorem arxiv_large_graph (G : Graph) :
  (100 ≤ num_nodes G)%nat →
  let r := arxiv_main G in
  (r.1 = Ok tt ∨ r.1 = Raise AssertionError) ∧
  valid_partition (num_nodes G) (p r.2) ∧
  (100 * (length (p r.2) - 1) < num_nodes G)%nat ∧
  (r.1 = Ok tt →
   (num_nodes G ≤ 100 * length (p r.2))%nat ∨ q_error r.2 = Fin 0).
Proof.
  intros Hlarge r.
  assert (0 < num_nodes G)%nat as Hv by lia.
  destruct (capacity_hundredth (num_nodes G)) as (n & Hcap & _ & Hn).
  specialize (Hn Hlarge).
  pose proof (valid_partition_init _ Hv) as HP.
  destruct (q_color_outcome G (arxiv_config G) (QuasiStableColoring_init G) n Hv HP Hcap Hn)
    as (Hvalid & _ & Hcount & eo & ei & Heo & Hei & _ & _ & _ & _ & Hend).
  fold (arxiv_main G) in Hvalid, Hcount, Hend. fold r in Hvalid, Hcount, Hend.
  split; [destruct Hend as [(Hok & _)|(Hraise & _)]; auto|].
  split; [done|]. split.
  { destruct Hcount as [->|Hlt]; [simpl; lia|].
    simpl in Hlt. apply bool_decide_eq_true in Hlt. apply lt_hundredth in Hlt. lia. }
  intros Hr. destruct Hend as [(_ & Hq & Hwhy)|(Hraise & _)].
  2:{ by rewrite Hraise in Hr. }
  destruct Hwhy as [Ht|Ht].
  - left. simpl in Ht. apply bool_decide_eq_false in Ht.
    rewrite lt_hundredth in Ht. lia.
  - right. unfold tolerated in Ht. apply andb_true_iff in Ht as [H1 H2].
    simpl in H1, H2. apply bool_decide_eq_true in H1, H2.
    assert (ei = 0) as -> by (by apply Qcle_antisym).
    assert (eo = 0) as -> by (by apply Qcle_antisym).
    rewrite Hq, py_max_Fin. by case_decide.
Qed.

Lemma arxiv_large_graph_witness :
  let r := arxiv_main (mkGraph 100 (λ r c, if decide (c = 0%nat) then 1 else 0)) in
  (r.1 = Ok tt ∨ r.1 = Raise AssertionError) ∧
  valid_partition 100 (p r.2) ∧ (100 * (length (p r.2) - 1) < 100)%nat.
Proof.
  intros r.
  destruct (arxiv_large_graph (mkGraph 100 (λ r c, if decide (c = 0%nat) then 1 else 0)))
    as (H1 & H2 & H3 & _).
  - simpl. lia.
  - split; [exact H1|]. split; [exact H2|exact H3].
Defined.

(** ** The errors after a split *)

(** X20 — When a pass through the loop splits the witness pair [(i, j)] of
    the direction it acts on and the witness column [j] is not the split
    color [i]: after the pass, in that direction's status, the error toward
    color [j] of the retained color [i] and the error toward color [j] of
    the new color (at the index of the old number of colors) are both
    smaller than the error of [(i, j)] before the split. *)
Theorem split_halves_error_drops (G : Graph) (cfg : Config) (s s' : Frame) :
  reachable G cfg s →
  loop_body G cfg s = (Ok false, s') →
  ∃ s1 io jo to eo ii ji ti ei,
    grow_if_full s = (Ok tt, s1) ∧
    pick_witness Out s1 = (Ok (io, jo, to, Fin eo), s1) ∧
    pick_witness In s1 = (Ok (ii, ji, ti, Fin ei), s1) ∧
    let d := acting_direction (Fin eo) (Fin ei) in
    let i := match d with Out => io | In => ii end in
    let j := match d with Out => jo | In => ji end in
    let e := match d with Out => eo | In => ei end in
    let m := length (p (self s)) in
    mget (errors_base (color_status d s1)) i j = Some (Fin e) ∧
    (j ≠ i →
     ∃ e1 e2, mget (errors_base (color_status d s')) i j = Some (Fin e1) ∧
              mget (errors_base (color_status d s')) m j = Some (Fin e2) ∧
              e1 < e ∧ e2 < e).
Proof.
  intros Hreach Hrun.
  pose proof (reachable_inv G cfg s Hreach) as Hinv.
  destruct (loop_body_spec G cfg s Hinv)
    as (s1 & ii & ij & Xi & Yi & ei & oi & oj & Xo & Yo & eo &
        Hgrow & Hinv1 & Hself & Hcap & Hpi & HXi & HYi & Hpo & HXo & HYo & Hbody).
  eexists s1, oi, oj, _, eo, ii, ij, _, ei.
  split; [done|]. split; [done|]. split; [done|].
  rewrite Hbody in Hrun. destruct (tolerated cfg (Fin ei) (Fin eo)); [done|].
  rewrite <- Hself in *.
  assert (∀ d i j X Y e,
    pick_witness d s1 = (Ok (i, j, mean (deg (weights_of G d) Y <$> X), Fin e), s1) →
    p (self s1) !! i = Some X → p (self s1) !! j = Some Y →
    split_and_update G d i j (mean (deg (weights_of G d) Y <$> X)) s1 = (Ok false, s') →
    mget (errors_base (color_status d s1)) i j = Some (Fin e) ∧
    (j ≠ i →
     ∃ e1 e2, mget (errors_base (color_status d s')) i j = Some (Fin e1) ∧
              mget (errors_base (color_status d s')) (length (p (self s1))) j
                = Some (Fin e2) ∧
              e1 < e ∧ e2 < e))
    as Hcase.
  { clear -Hinv1 Hcap. intros d i j X Y e Hpick HX HY Hsu.
    destruct Hinv1 as [Hv HP Hst Hn].
    destruct (pick_witness_spec _ _ d s1 HP Hv (Hst d))
      as (i' & j' & X' & Y' & e' & Hpick' & _ & _ & He & _).
    rewrite Hpick in Hpick'. injection Hpick' as <- <- _ <-.
    split; [done|]. intros Hne.
    set (w := weights_of G d) in *.
    set (thr := mean (deg w Y <$> X)) in *.
    destruct (split_and_update_spec G d i j thr s1 X Y (mk_inv _ _ Hv HP Hst Hn) Hcap HX HY)
      as (split & Hg & [(_ & _ & Hrun)|(Hrne & Hene & s'' & _ & Hrun & Hinv' & Hself' & _)]);
      rewrite Hrun in Hsu; [done|]. injection Hsu as ->.
    pose proof (lookup_lt_Some _ _ _ HX) as Hi.
    pose proof (lookup_lt_Some _ _ _ HY) as Hj.
    pose proof (valid_partition_Forall_lt _ _ _ _ HP HX) as HvX.
    pose proof (valid_partition_nonempty _ _ _ _ HP HX) as HXne.
    fold w in Hg. rewrite (gather_neighbor_of _ _ _ _ _ Y HvX HY) in Hg. injection Hg as <-.
    set (retain := retain_of X (deg w Y <$> X) thr) in *.
    set (eject := eject_of X (deg w Y <$> X) thr) in *.
    assert (p (self s') !! i = Some retain) as HX'.
    { rewrite Hself'. simpl. rewrite lookup_app_l by (rewrite length_insert; lia).
      by apply list_lookup_insert_eq. }
    assert (p (self s') !! j = Some Y) as HY'.
    { rewrite Hself'. simpl. rewrite lookup_app_l by (rewrite length_insert; lia).
      by rewrite list_lookup_insert_ne. }
    assert (p (self s') !! length (p (self s1)) = Some eject) as HE'.
    { rewrite Hself'. simpl. rewrite lookup_app_r by (rewrite length_insert; lia).
      rewrite length_insert. by replace (_ - _)%nat with 0%nat by lia. }
    destruct (ok_block _ _ _ _ (Hst d) i j X Y HX HY)
      as (hi & lo & Hhi & Hlo & _ & _ & He0).
    destruct (ok_block _ _ _ _ (inv_status _ _ Hinv' d) i j retain Y HX' HY')
      as (hi1 & lo1 & Hhi1 & Hlo1 & _ & _ & He1).
    destruct (ok_block _ _ _ _ (inv_status _ _ Hinv' d) _ j eject Y HE' HY')
      as (hi2 & lo2 & Hhi2 & Hlo2 & _ & _ & He2).
    rewrite He in He0. injection He0 as ->.
    apply reduce_vec_max in Hhi, Hhi1, Hhi2. apply reduce_vec_min in Hlo, Hlo1, Hlo2.
    assert (deg w Y <$> X ≠ []) as Hlne by (by destruct X).
    destruct (mean_bounds _ lo hi Hlne Hlo Hhi) as (m & Hm & Hlm & Hmh & Hstrict).
    destruct (split_at_mean X (deg w Y <$> X) lo hi) as [_ Hej];
      [by rewrite length_fmap|done..|].
    assert (m < hi) as Hlt.
    { apply Hstrict. apply Qcnot_le_lt. intros Hle. apply Hene, Hej.
      apply Qcle_antisym; [done|]. by apply (is_min_le_is_max (deg w Y <$> X)). }
    assert (∀ y, y ∈ X →
              above (neighbor_of (num_nodes G) w (p (self s1))) j thr y
                = bool_decide (m < deg w Y y)) as Habove.
    { intros y Hy. unfold above.
      rewrite (mget_neighbor_of _ _ _ _ _ Y) by
        (done || by apply (proj1 (Forall_forall _ _) HvX)).
      unfold thr. by rewrite Hm. }
    exists (hi1 - lo1), (hi2 - lo2). split; [done|]. split; [done|]. split.
    - apply (spread_below_mean (deg w Y <$> X) (deg w Y <$> retain) lo hi m); try done.
      intros x (y & -> & Hy)%list_elem_of_fmap.
      unfold retain in Hy.
      rewrite (retain_of_filter (neighbor_of (num_nodes G) w (p (self s1))) X j _ thr) in Hy
        by (by apply gather_neighbor_of).
      apply list_elem_of_filter in Hy as [Hab Hy].
      split; [by apply list_elem_of_fmap_2|].
      rewrite (Habove y Hy) in Hab. apply bool_decide_eq_false in Hab.
      by apply Qcnot_lt_le.
    - apply (spread_above_mean (deg w Y <$> X) (deg w Y <$> eject) lo hi m); try done.
      intros x (y & -> & Hy)%list_elem_of_fmap.
      unfold eject in Hy.
      rewrite (eject_of_filter (neighbor_of (num_nodes G) w (p (self s1))) X j _ thr) in Hy
        by (by apply gather_neighbor_of).
      apply list_elem_of_filter in Hy as [Hab Hy].
      split; [by apply list_elem_of_fmap_2|].
      rewrite (Habove y Hy) in Hab. by apply bool_decide_eq_true in Hab. }
  destruct (acting_direction (Fin eo) (Fin ei)); simpl.
  - by apply (Hcase Out oi oj Xo Yo eo Hpo HXo HYo).
  - by apply (Hcase In ii ij Xi Yi ei Hpi HXi HYi).
Qed.

Lemma split_halves_error_drops_witness :
  ∃ s1 io jo to eo ii ji ti ei,
    grow_if_full scenario_second = (Ok tt, s1) ∧
    pick_witness Out s1 = (Ok (io, jo, to, Fin eo), s1) ∧
    pick_witness In s1 = (Ok (ii, ji, ti, Fin ei), s1) ∧
    let d := acting_direction (Fin eo) (Fin ei) in
    let i := match d with Out => io | In => ii end in
    let j := match d with Out => jo | In => ji end in
    let e := match d with Out => eo | In => ei end in
    let m := length (p (self scenario_second)) in
    mget (errors_base (color_status d s1)) i j = Some (Fin e) ∧
    (j ≠ i →
     ∃ e1 e2, mget (errors_base (color_status d scenario_third)) i j = Some (Fin e1) ∧
              mget (errors_base (color_status d scenario_third)) m j = Some (Fin e2) ∧
              e1 < e ∧ e2 < e).
Proof.
  apply (split_halves_error_drops scenario_graph scenario_cfg scenario_second scenario_third).
  - exact scenario_second_reachable.
  - vm_compute. reflexivity.
Defined.

(** ** The loop ends *)

(** X21 — The loop of [q_color] ends: on a graph with a node, for an object
    with a valid partition of [m] colors that fit the new statuses, at most
    [v - m] passes split a color, so that the call ends, by returning or by
    raising, within [v - m + 1] passes through the loop; a larger bound on
    the passes gives the same outcome and the same object. *)
Theorem q_color_loop_ends (G : Graph) (cfg : Config) (qsc : QuasiStableColoring)
    (n fuel : nat) :
  (0 < num_nodes G)%nat → valid_partition (num_nodes G) (p qsc) →
  capacity (n_colors cfg) = Ok n → (length (p qsc) ≤ n)%nat →
  (num_nodes G - length (p qsc) + 1 ≤ fuel)%nat →
  (q_color_fuel G fuel cfg qsc).1 ≠ Fuel ∧
  q_color_fuel G fuel cfg qsc = q_color G cfg qsc.
Proof.
  intros Hv HP Hcap Hn Hfuel.
  destruct (q_color_fuel_spec_sharp G fuel cfg qsc n Hv HP Hcap Hn ltac:(lia))
    as (s0 & r & s & io & jo & to & eo & ii & ji & ti & ei &
        Hinit & Hinv0 & Hself & Hrun & Hinv & Hpo & Hpi & Hq).
  destruct (q_color_fuel_spec G (num_nodes G) cfg qsc n Hv HP Hcap Hn (le_n _))
    as (s0' & r' & s' & io' & jo' & to' & eo' & ii' & ji' & ti' & ei' &
        Hinit' & _ & _ & Hrun' & _ & Hpo' & Hpi' & Hq').
  rewrite Hinit in Hinit'. injection Hinit' as <-.
  destruct (loop_run_deterministic _ _ _ _ _ _ _ Hrun Hrun') as [<- <-].
  rewrite Hpo in Hpo'. injection Hpo' as _ _ _ <-.
  rewrite Hpi in Hpi'. injection Hpi' as _ _ _ <-.
  unfold q_color.
  destruct Hq as [[-> Hq]|[-> Hq]]; destruct Hq' as [[? Hq']|[? Hq']]; try done;
    rewrite Hq, Hq'; done.
Qed.

Lemma q_color_loop_ends_witness :
  (q_color_fuel scenario_graph 10 scenario_cfg (QuasiStableColoring_init scenario_graph)).1
    ≠ Fuel ∧
  q_color_fuel scenario_graph 10 scenario_cfg (QuasiStableColoring_init scenario_graph)
    = q_color scenario_graph scenario_cfg (QuasiStableColoring_init scenario_graph).
Proof.
  apply (q_color_loop_ends scenario_graph scenario_cfg _ 4 10).
  - simpl. lia.
  - apply valid_partition_init. simpl. lia.
  - vm_compute. reflexivity.
  - simpl. lia.
  - simpl. lia.
Defined.

(** ** The order of the statuses during a run *)

(** X22 — Whenever the loop of a run of [q_color] on a new object tests its
    condition, both statuses have matrices of the same order, which is the
    initial order [int(min(n_colors, 128))], at least 1, doubled some number
    of times, and there is room for all colors.  The first statement of the
    pass then doubles the order of both statuses exactly when the number of
    colors is equal to it, so that the split finds room for one more
    color.  (The loop looks at the order of [color_status_in] only; the two
    orders never differ.) *)
Theorem statuses_have_room (G : Graph) (cfg : Config) (s : Frame) :
  reachable G cfg s →
  ∃ n0 k,
    capacity (n_colors cfg) = Ok n0 ∧ (1 ≤ n0)%nat ∧
    cs_n (color_status_out s) = (n0 * 2 ^ k)%nat ∧
    cs_n (color_status_in s) = (n0 * 2 ^ k)%nat ∧
    (length (p (self s)) ≤ n0 * 2 ^ k)%nat ∧
    ∃ s1, grow_if_full s = (Ok tt, s1) ∧ self s1 = self s ∧
          (∀ d, cs_n (color_status d s1) =
                  if decide (length (p (self s)) = n0 * 2 ^ k)%nat
                  then (n0 * 2 ^ S k)%nat else (n0 * 2 ^ k)%nat) ∧
          (∀ d, (length (p (self s)) < cs_n (color_status d s1))%nat).
Proof.
  intros Hreach.
  assert (∃ n0 k, capacity (n_colors cfg) = Ok n0 ∧ (1 ≤ n0)%nat ∧
                  ∀ d, cs_n (color_status d s) = (n0 * 2 ^ k)%nat) as (n0 & k & Hcap & Hn0 & Hn).
  { induction Hreach as [n s Hcap Hinit|s s' Hreach IH Ht Hb].
    - destruct (init_both_order G n s Hinit) as [H1 Hn].
      exists n, 0%nat. split; [done|]. split; [done|]. intros d. rewrite Hn. simpl. lia.
    - destruct IH as (n0 & k & Hcap & Hn0 & Hn).
      pose proof (reachable_inv G cfg s Hreach) as Hinv.
      destruct (grow_if_full_order G s Hinv) as (s1 & Hgrow & Hn1).
      destruct (loop_body_spec G cfg s Hinv)
        as (s1' & ii & ij & Xi & Yi & ei & oi & oj & Xo & Yo & eo &
            Hgrow' & Hinv1 & Hself & Hcap1 & Hpi & HXi & HYi & Hpo & HXo & HYo & Hbody).
      rewrite Hgrow in Hgrow'. injection Hgrow' as <-.
      assert (cs_n (color_status_in s') = cs_n (color_status_in s1)) as Hin.
      { rewrite Hbody in Hb. rewrite <- Hself in *.
        destruct (tolerated cfg (Fin ei) (Fin eo)); [done|].
        destruct (acting_direction (Fin eo) (Fin ei)).
        - destruct (split_and_update_spec G Out oi oj
                      (mean (deg (weights_of G Out) Yo <$> Xo)) s1 Xo Yo Hinv1 Hcap1 HXo HYo)
            as (split & _ & [(_ & _ & Hrun)|(_ & _ & s2 & _ & Hrun & _ & _ & Hcs)]);
            rewrite Hrun in Hb; [done|]. by injection Hb as <-.
        - destruct (split_and_update_spec G In ii ij
                      (mean (deg (weights_of G In) Yi <$> Xi)) s1 Xi Yi Hinv1 Hcap1 HXi HYi)
            as (split & _ & [(_ & _ & Hrun)|(_ & _ & s2 & _ & Hrun & _ & _ & Hcs)]);
            rewrite Hrun in Hb; [done|]. by injection Hb as <-. }
      pose proof (reachable_inv G cfg s' (reach_pass _ _ _ _ Hreach Ht Hb)) as Hinv'.
      assert (∀ d, cs_n (color_status d s') = cs_n (color_status_in s1)) as Hall.
      { intros [|]; simpl; [|done]. by rewrite (inv_n _ _ Hinv'). }
      pose proof (Hn1 In) as H1. simpl in H1.
      pose proof (Hn In) as HnIn. simpl in HnIn.
      case_decide.
      + exists n0, (S k). split; [done|]. split; [done|]. intros d.
        rewrite Hall, H1, HnIn. simpl. lia.
      + exists n0, k. split; [done|]. split; [done|]. intros d.
        by rewrite Hall, H1, HnIn. }
  exists n0, k. split; [done|]. split; [done|].
  split; [apply (Hn Out)|]. split; [apply (Hn In)|].
  pose proof (reachable_inv G cfg s Hreach) as Hinv.
  pose proof (ok_capacity _ _ _ _ (inv_status _ _ Hinv In)) as Hroom.
  rewrite (Hn In) in Hroom. split; [done|].
  destruct (grow_if_full_order G s Hinv) as (s1 & Hgrow & Hn1).
  destruct (grow_if_full_spec G s Hinv) as (s1' & Hgrow' & _ & Hself & _).
  rewrite Hgrow in Hgrow'. injection Hgrow' as <-.
  exists s1. split; [done|]. split; [done|].
  assert (∀ d, cs_n (color_status d s1) =
               if decide (length (p (self s)) = n0 * 2 ^ k)%nat
               then (n0 * 2 ^ S k)%nat else (n0 * 2 ^ k)%nat) as Hord.
  { intros d. rewrite (Hn1 d). pose proof (Hn In) as HnIn. simpl in HnIn.
    rewrite HnIn, (Hn d). clear Hn1.
    case_decide; [rewrite Nat.pow_succ_r'; nia|done]. }
  split; [done|]. intros d. rewrite (Hord d). case_decide; [|lia].
  simpl. assert (0 < 2 ^ k)%nat; [|nia].
  clear. induction k; simpl; lia.
Qed.

Lemma statuses_have_room_witness :
  ∃ n0 k,
    capacity (n_colors scenario_cfg) = Ok n0 ∧ (1 ≤ n0)%nat ∧
    cs_n (color_status_out scenario_second) = (n0 * 2 ^ k)%nat ∧
    cs_n (color_status_in scenario_second) = (n0 * 2 ^ k)%nat ∧
    (length (p (self scenario_second)) ≤ n0 * 2 ^ k)%nat.
Proof.
  destruct (statuses_have_room scenario_graph scenario_cfg scenario_second
              scenario_second_reachable) as (n0 & k & H1 & H2 & H3 & H4 & H5 & _).
  exists n0, k. split; [exact H1|]. split; [exact H2|]. split; [exact H3|].
  split; [exact H4|exact H5].
Defined.

(** ** [update_status] *)

(** X23 — [update_status] reads [self.p[old]], [self.p[new]] and the size
    of [color_status.neighbor] before it changes anything: with [old] or
    [new] not an index of [p] it raises [IndexError], and on a status for
    which [init_status] has not run ([neighbor] is [None]) it raises
    [AttributeError]; the object and the statuses are unchanged in all three
    cases. *)
Theorem update_status_checks_first (G : Graph) (d : dir) (w : weight_matrix)
    (old new : nat) (s : Frame) :
  (p (self s) !! old = None → update_status G d w old new s = (Raise IndexError, s)) ∧
  (is_Some (p (self s) !! old) → p (self s) !! new = None →
     update_status G d w old new s = (Raise IndexError, s)) ∧
  (is_Some (p (self s) !! old) → is_Some (p (self s) !! new) →
   neighbor (color_status d s) = None →
     update_status G d w old new s = (Raise AttributeError, s)).
Proof.
  split; [|split].
  - intros Hold. unfold update_status. rewrite get_step, Hold. done.
  - intros [X Hold] Hnew. unfold update_status. rewrite get_step, Hold. simpl.
    rewrite lift_step, Hnew. done.
  - intros [X Hold] [Y Hnew] Hnb. unfold update_status. rewrite get_step, Hold. simpl.
    rewrite lift_step, Hnew. simpl. rewrite lift_step. rewrite bind_eq.
    rewrite (zoom_raise d _ _ AttributeError (color_status d s)).
    + by rewrite set_color_status_id.
    + mred. by rewrite Hnb.
Qed.

Lemma update_status_checks_first_witness :
  update_status scenario_graph Out (weights_cpu scenario_graph) 5 1 scenario_second
    = (Raise IndexError, scenario_second) ∧
  update_status scenario_graph Out (weights_cpu scenario_graph) 0 0
    (first_frame scenario_graph 4 (QuasiStableColoring_init scenario_graph))
    = (Raise AttributeError,
       first_frame scenario_graph 4 (QuasiStableColoring_init scenario_graph)).
Proof.
  split.
  - apply (proj1 (update_status_checks_first scenario_graph Out _ 5 1 scenario_second)).
    vm_compute. reflexivity.
  - apply (proj2 (proj2 (update_status_checks_first scenario_graph Out _ 0 0 _))).
    + simpl. eauto.
    + simpl. eauto.
    + reflexivity.
Defined.

(** X24 — Why the loop doubles the statuses before it splits: after a split
    of color [i] of a valid partition [P] into a retained and a new color,
    [update_status] on a status that is in step with [P] but whose matrices
    have just the order of [P] (no room for the new color) brings
    [neighbor] up to date and then raises [RuntimeError] at the first write
    into [upper_base], whose view is one row and one column short. *)
Theorem update_status_needs_room (G : Graph) (d : dir) (w : weight_matrix) (s : Frame)
    (P : list (list nat)) (i : nat) (retain eject : list nat) :
  let cs := color_status d s in
  let P' := <[i := retain]> P ++ [eject] in
  p (self s) = P' →
  valid_partition (num_nodes G) P' →
  status_ok (num_nodes G) w P cs →
  (i < length P)%nat →
  cs_n cs = length P →
  update_status G d w i (length (p (self s)) - 1) s
    = (Raise RuntimeError,
       set_color_status d (set_neighbor (neighbor_of (num_nodes G) w P') cs) s).
Proof.
  intros cs P' HP' Hvalid Hok Hi Hfull.
  set (v := num_nodes G) in *.
  assert (length P' = S (length P)) as Hlen.
  { unfold P'. rewrite length_app, length_insert. simpl. lia. }
  assert (P' !! i = Some retain) as Hold.
  { unfold P'. rewrite lookup_app_l by (rewrite length_insert; lia).
    by apply list_lookup_insert_eq. }
  assert (P' !! length P = Some eject) as Hnew.
  { unfold P'. rewrite lookup_app_r by (rewrite length_insert; lia).
    rewrite length_insert, Nat.sub_diag. done. }
  pose proof (valid_partition_Forall_lt _ _ _ _ Hvalid Hold) as Hvold.
  pose proof (valid_partition_Forall_lt _ _ _ _ Hvalid Hnew) as Hvnew.
  pose proof (valid_partition_nonempty _ _ _ _ Hvalid Hold) as Hne.
  destruct Hok as [Hc Hus Hls Hes Hnb Hblock].
  destruct (neighbor_update v w P i retain eject Hi) as (nb1 & Hnb1 & Hnb2).
  fold P' in Hnb2. rewrite Hlen in Hnb2. simpl in Hnb2. rewrite Nat.sub_0_r in Hnb2.
  set (cs1 := set_neighbor (neighbor_of v w P') cs).
  destruct (reduce_rows_neighbor_of Qc_max v w P' retain Hne Hvold) as (hi & Hhi & Hlhi & _).
  assert (refresh_row (length P') i retain cs1 = (Raise RuntimeError, cs1)) as Hfail.
  { unfold refresh_row, get_neighbor. mred.
    rewrite (select_rows_neighbor_of _ _ _ _ Hvold), Hhi.
    unfold set_row. fold cs. rewrite Hfull, Hlen.
    rewrite bool_decide_true by lia.
    rewrite bool_decide_false by (rewrite length_fmap; lia).
    destruct hi as [|a [|b hi]]; simpl in Hlhi; try done; lia. }
  replace (length (p (self s)) - 1)%nat with (length P) by (rewrite HP'; lia).
  unfold update_status. rewrite get_step, HP'.
  rewrite Hold. simpl. rewrite lift_step. rewrite Hnew. simpl. rewrite lift_step.
  rewrite <- (set_color_status_id d s) at 1. fold cs.
  rewrite (zoom_step d _ _ s cs tt (set_neighbor (cat_zero_column (neighbor_of v w P)) cs)).
  2:{ mred. by rewrite Hnb. }
  rewrite !column_sums_ok by done. rewrite !lift_step.
  rewrite (zoom_step d _ _ s _ tt (set_neighbor nb1 cs)).
  2:{ unfold get_neighbor. mred. fold v. by rewrite Hnb1. }
  rewrite (zoom_step d _ _ s _ tt cs1).
  2:{ unfold get_neighbor. mred. fold v. by rewrite Hnb2. }
  rewrite bind_eq.
  rewrite (zoom_raise d _ _ RuntimeError cs1); [by rewrite set_color_status_set|].
  by rewrite color_status_set_eq.
Qed.

Lemma update_status_needs_room_witness :
  p (self full_split) = <[0%nat := [1; 2]%nat]> [seq 0 4] ++ [[0; 3]%nat] ∧
  update_status scenario_graph Out (weights_of scenario_graph Out) 0
    (length (p (self full_split)) - 1) full_split
    = (Raise RuntimeError,
       set_color_status Out
         (set_neighbor (neighbor_of 4 (weights_of scenario_graph Out)
                          (<[0%nat := [1; 2]%nat]> [seq 0 4] ++ [[0; 3]%nat]))
            (color_status Out full_split)) full_split).
Proof.
  assert (p (self full_split) = <[0%nat := [1; 2]%nat]> [seq 0 4] ++ [[0; 3]%nat]) as HP
    by (vm_compute; reflexivity).
  split; [exact HP|].
  apply (update_status_needs_room scenario_graph Out (weights_of scenario_graph Out)
           full_split [seq 0 4] 0 [1; 2]%nat [0; 3]%nat).
  - exact HP.
  - split; [by repeat constructor|]. simpl.
    apply (Permutation_trans (l' := [0; 3; 1; 2]%nat)).
    + apply (Permutation_app_comm [1; 2]%nat [0; 3]%nat).
    + apply perm_skip. apply (Permutation_app_comm [3]%nat [1; 2]%nat).
  - destruct (init_both_spec scenario_graph 1 (QuasiStableColoring_init scenario_graph))
      as (s0 & Hinit & Hinv & _).
    + simpl. lia.
    + apply valid_partition_init. simpl. lia.
    + simpl. lia.
    + assert (color_status Out full_split = color_status Out s0) as ->.
      { replace s0 with full_start by (unfold full_start; by rewrite Hinit).
        vm_compute. reflexivity. }
      replace [seq 0 4] with (p (self s0)).
      * apply (inv_status _ _ Hinv Out).
      * replace s0 with full_start by (unfold full_start; by rewrite Hinit).
        vm_compute. reflexivity.
  - simpl. lia.
  - vm_compute. reflexivity.
Defined.

(** ** Calling [q_color] again *)

(** X25 — [q_color] is idempotent: when a call returned and its partition
    still fits the order [int(min(n_colors, 128))] of new statuses, the same
    call on the object it left returns at once, with the same partition and
    the same [q_error].  The statuses that [init_status] computes from
    scratch report the errors that the updated statuses of the first call
    reported, so the loop finds its reason to stop again.  (When the
    partition no longer fits, the second call raises, see X6.) *)
Theorem q_color_idempotent (G : Graph) (cfg : Config) (qsc : QuasiStableColoring)
    (n : nat) :
  (0 < num_nodes G)%nat → valid_partition (num_nodes G) (p qsc) →
  capacity (n_colors cfg) = Ok n → (length (p qsc) ≤ n)%nat →
  let r := q_color G cfg qsc in
  r.1 = Ok tt → (length (p r.2) ≤ n)%nat →
  q_color G cfg r.2 = (Ok tt, r.2).
Proof.
  intros Hv HP Hcap Hn r Hok Hfit.
  destruct (q_color_fuel_spec G (num_nodes G) cfg qsc n Hv HP Hcap Hn (le_n _))
    as (s0 & r1 & s & io & jo & to & eo & ii & ji & ti & ei &
        Hinit & Hinv0 & Hself & Hrun & Hinv & Hpo & Hpi & [[-> Hq]|[-> Hq]]).
  2:{ unfold r, q_color in Hok. by rewrite Hq in Hok. }
  destruct (loop_run_end G cfg s0 _ s Hinv0 Hrun) as (_ & _ & _ & _ & Hend).
  destruct (Hend _ _ _ _ _ _ _ _ Hpo Hpi) as [[_ Hwhy]|[? _]]; [|done].
  unfold r, q_color in *. rewrite Hq in *. simpl in *. clear Hq r Hok.
  set (qsc2 := mkQSC (p (self s)) (py_max (Fin eo) (Fin ei))).
  destruct (q_color_fuel_spec G (num_nodes G) cfg qsc2 n Hv (inv_partition _ _ Hinv)
              Hcap Hfit (le_n _))
    as (t0 & r2 & t & io' & jo' & to' & eo' & ii' & ji' & ti' & ei' &
        Hinit' & Hinvt0 & Hselft & Hrun' & Hinvt & Hpo' & Hpi' & Hq').
  assert (p (self t0) = p (self s)) as Hp0 by (by rewrite Hselft).
  assert (r2 = Ok tt ∧ p (self t) = p (self s)) as [-> Hpt].
  { destruct (loop_test cfg t0) eqn:Ht.
    - destruct Hwhy as [Hts|Htol].
      { unfold loop_test in Ht, Hts. rewrite Hp0 in Ht. congruence. }
      destruct (loop_body_cases G cfg t0 Hinvt0)
        as (t1 & eo1 & ei1 & io1 & jo1 & to1 & ii1 & ji1 & ti1 & Hgrow & Hinv1 & Hself1 &
            Hpo1 & Hpi1 & _ & _ & _ & _ & Htl & _).
      assert (p (self t1) = p (self s)) as Hp1 by (by rewrite Hself1).
      rewrite (pick_error_determined G Out t1 s _ _ _ _ _ _ _ _ Hinv1 Hinv Hp1 Hpo1 Hpo) in Htl.
      rewrite (pick_error_determined G In t1 s _ _ _ _ _ _ _ _ Hinv1 Hinv Hp1 Hpi1 Hpi) in Htl.
      destruct (loop_run_deterministic _ _ _ _ _ _ _ Hrun'
                  (loop_run_break G cfg t0 t1 Ht (Htl Htol))) as [-> ->].
      done.
    - destruct (loop_run_deterministic _ _ _ _ _ _ _ Hrun' (loop_run_exit G cfg t0 Ht))
        as [-> ->].
      done. }
  rewrite (pick_error_determined G Out t s _ _ _ _ _ _ _ _ Hinvt Hinv Hpt Hpo' Hpo) in Hq'.
  rewrite (pick_error_determined G In t s _ _ _ _ _ _ _ _ Hinvt Hinv Hpt Hpi' Hpi) in Hq'.
  destruct Hq' as [[_ Hq']|[? _]]; [|done].
  rewrite Hq', Hpt. done.
Qed.

Lemma q_color_idempotent_witness :
  let r := q_color scenario_graph scenario_cfg (QuasiStableColoring_init scenario_graph) in
  q_color scenario_graph scenario_cfg r.2 = (Ok tt, r.2).
Proof.
  intros r.
  apply (q_color_idempotent scenario_graph scenario_cfg
           (QuasiStableColoring_init scenario_graph) 4).
  - simpl. lia.
  - apply valid_partition_init. simpl. lia.
  - vm_compute. reflexivity.
  - simpl. lia.
  - vm_compute. reflexivity.
  - vm_compute. lia.
Defined.
